(** * Xanadu: placement and lookahead routing of quantum circuits

    A shallow embedding of the Python sources (topology with Floyd-Warshall
    tables, the three placement strategies, the lookahead router, the
    refinement wrapper and the driver), followed by the properties that were
    checked against it.

    Conventions.  Python integers are [Z].  A Python list is a Rocq list and
    is indexed with [getitem]/[setitem], which follow Python (negative
    indices count from the end, anything else out of range raises
    [IndexError]).  A Python [set] of integers is a strictly increasing
    list; where the program iterates a set it filled by [add], the order of
    the visit is a parameter ([SetIteration]) and the results hold for every
    order.
    Code that can raise returns a [result]; loops whose termination is not
    structural take fuel and raise [OutOfFuel] when it runs out.  The process
    wide random source is an explicit stream of draws. *)

From Stdlib Require Import ZArith List Lia Bool Permutation String Ascii Arith.
Import ListNotations.
Local Open Scope Z_scope.

(* ================================================================== *)
(** * The fragment of the Python runtime the sources rely on *)
(* ================================================================== *)

Module Py.

Inductive exn : Type :=
| IndexError
| KeyError
| ValueError
| TypeError
| RuntimeError
| UnboundLocalError
| OutOfFuel.   (* not a Python exception: the fuel of a [while] ran out *)

Inductive result (A : Type) : Type :=
| Ok (a : A)
| Raise (e : exn).
Arguments Ok {A} a.
Arguments Raise {A} e.

Definition bind {A B} (m : result A) (k : A -> result B) : result B :=
  match m with
  | Ok a => k a
  | Raise e => Raise e
  end.

Definition is_ok {A} (m : result A) : bool :=
  match m with Ok _ => true | Raise _ => false end.

Definition len {A} (l : list A) : Z := Z.of_nat (List.length l).

(** [range(n)] *)
Definition range (n : Z) : list Z := map Z.of_nat (seq 0 (Z.to_nat n)).

(** Position denoted by the Python index [i] in a list of length [n]. *)
Definition norm_index (n i : Z) : option nat :=
  if (0 <=? i) && (i <? n) then Some (Z.to_nat i)
  else if (- n <=? i) && (i <? 0) then Some (Z.to_nat (n + i))
  else None.

Fixpoint update {A} (l : list A) (k : nat) (v : A) : list A :=
  match l, k with
  | [], _ => []
  | _ :: t, O => v :: t
  | h :: t, S k' => h :: update t k' v
  end.

(** [l[i]] *)
Definition getitem {A} (l : list A) (i : Z) : result A :=
  match norm_index (len l) i with
  | Some k => match nth_error l k with
              | Some x => Ok x
              | None => Raise IndexError
              end
  | None => Raise IndexError
  end.

(** [l[i] = v] *)
Definition setitem {A} (l : list A) (i : Z) (v : A) : result (list A) :=
  match norm_index (len l) i with
  | Some k => Ok (update l k v)
  | None => Raise IndexError
  end.

(** Bound of a slice: a negative bound counts from the end, and the result
    is clamped to [0, n]. *)
Definition slice_bound (n : Z) (b : option Z) (dflt : Z) : Z :=
  match b with
  | None => dflt
  | Some i => Z.max 0 (Z.min n (if i <? 0 then i + n else i))
  end.

(** [l[lo:hi]], either bound possibly omitted. *)
Definition slice {A} (l : list A) (lo hi : option Z) : list A :=
  let n := len l in
  let a := slice_bound n lo 0 in
  let b := slice_bound n hi n in
  firstn (Z.to_nat (b - a)) (skipn (Z.to_nat a) l).

(** The random source: the successive raw draws of the generator. *)
Abbreviation rng := (list nat) (only parsing).

(** [randbelow(n)] for [n > 0]. *)
Definition randbelow (n : nat) (g : rng) : nat * rng :=
  match g with
  | [] => (O, [])
  | d :: g' => (Nat.modulo d n, g')
  end.

(** [random.choice(l)] *)
Definition choice {A} (l : list A) (g : rng) : result (A * rng) :=
  match l with
  | [] => Raise IndexError
  | _ => let (k, g') := randbelow (List.length l) g in
         match nth_error l k with
         | Some x => Ok (x, g')
         | None => Raise IndexError
         end
  end.

(** ** Sets of integers

    A set is kept as the increasing list of its elements, which fixes its
    contents and nothing else. *)

Abbreviation pyset := (list Z) (only parsing).

Definition set_mem (x : Z) (s : pyset) : bool := existsb (Z.eqb x) s.

Fixpoint set_add (x : Z) (s : pyset) : pyset :=
  match s with
  | [] => [x]
  | y :: s' => if x <? y then x :: s
               else if x =? y then s
               else y :: set_add x s'
  end.

Definition set_discard (x : Z) (s : pyset) : pyset :=
  filter (fun y => negb (y =? x)) s.

Definition set_remove (x : Z) (s : pyset) : result pyset :=
  if set_mem x s then Ok (set_discard x s) else Raise KeyError.

Definition set_of_list (l : list Z) : pyset :=
  fold_left (fun s x => set_add x s) l [].

(** The order in which [for v in s] visits a set is that of the slots of
    its hash table: it depends on the hashes of the elements and on the
    insertions the set has seen, not on the program.  The sets the compiler
    fills by [add] and then iterates are the [free_neighbours[v]]; nothing
    is added to them after the constructor and elements are only discarded,
    so the order in which such a set is visited is a function of the node
    [v] it belongs to and of the elements [s] it still holds.  That function
    is left open: [set_iter v s] is any arrangement of [s]. *)
Class SetIteration : Type := {
  set_iter : Z -> pyset -> list Z;
  set_iter_perm : forall v s, Permutation (set_iter v s) s
}.

End Py.
Import Py.

Declare Scope py_scope.
Notation "x <- m ;; k" := (bind m (fun x => k))
  (at level 61, m at next level, right associativity) : py_scope.
Notation "' p <- m ;; k" := (bind m (fun p => k))
  (at level 61, p pattern, m at next level, right associativity) : py_scope.
Local Open Scope py_scope.

(* ================================================================== *)
(** * The networkx graph handed to the compiler *)
(* ================================================================== *)

Module Nx.

(** An undirected graph: its nodes in insertion order and its edges, each
    listed once. *)
Record Graph : Type := mkGraph {
  nodes : list Z;
  edges : list (Z * Z)
}.

Definition number_of_nodes (g : Graph) : Z := len (nodes g).

Definition has_edge (g : Graph) (u v : Z) : bool :=
  existsb (fun '(a, b) => ((a =? u) && (b =? v)) || ((a =? v) && (b =? u)))
          (edges g).

(** [graph.neighbors(v)] *)
Definition neighbors (g : Graph) (v : Z) : result (list Z) :=
  if existsb (Z.eqb v) (nodes g)
  then Ok (filter (has_edge g v) (nodes g))
  else Raise KeyError.

(** [graph.adj(u)]: [adj] is a property holding a read-only mapping view
    (it is indexed, [graph.adj[u]]); the view has no call operator, so the
    call expression raises [TypeError] whatever [u] is. *)
Definition adj_call (g : Graph) (u : Z) : result (list Z) := Raise TypeError.

(** Nodes are labelled [0 .. n-1] and every edge joins two distinct nodes. *)
Definition wf (g : Graph) : Prop :=
  nodes g = range (number_of_nodes g) /\
  forall a b, In (a, b) (edges g) ->
    In a (nodes g) /\ In b (nodes g) /\ a <> b.

End Nx.

(* ================================================================== *)
(** * router/utils/UnweightedUndirectedGraph.py *)
(* ================================================================== *)

Module UUG.

(** An entry of the distance table: an integer or [float('inf')]. *)
Inductive ext : Type :=
| Fin (d : Z)
| Inf.

Definition ext_add (a b : ext) : ext :=
  match a, b with
  | Fin x, Fin y => Fin (x + y)
  | _, _ => Inf
  end.

(** [a > b] *)
Definition ext_gt (a b : ext) : bool :=
  match a, b with
  | Fin x, Fin y => x >? y
  | Inf, Fin _ => true
  | _, Inf => false
  end.

Definition ext_is_inf (a : ext) : bool :=
  match a with Inf => true | Fin _ => false end.

Record t : Type := mk {
  num_nodes : Z;
  adj_matrix : list (list Z);
  dist : option (list (list ext));
  next_node : option (list (list Z))
}.

Definition init (num_nodes : Z) : t :=
  let n := Z.to_nat num_nodes in
  mk num_nodes (repeat (repeat 0 n) n) None None.

Definition set2 {A} (m : list (list A)) (u v : Z) (x : A)
  : result (list (list A)) :=
  row <- getitem m u ;;
  row' <- setitem row v x ;;
  setitem m u row'.

Definition get2 {A} (m : list (list A)) (u v : Z) : result A :=
  row <- getitem m u ;;
  getitem row v.

Definition add_edge (g : t) (u v : Z) : result t :=
  m1 <- set2 (adj_matrix g) u v 1 ;;
  m2 <- set2 m1 v u 1 ;;
  Ok (mk (num_nodes g) m2 (dist g) (next_node g)).

Fixpoint add_edges (g : t) (es : list (Z * Z)) : result t :=
  match es with
  | [] => Ok g
  | (s, d) :: es' => g' <- add_edge g s d ;; add_edges g' es'
  end.

Definition from_nx (g : t) (graph : Nx.Graph) : result t :=
  add_edges g (Nx.edges graph).

(** Inside [floyd_warshall] every index is a loop variable over
    [range(n)] and the three tables are [n] by [n] by construction, so no
    access can raise: the tables are read and written by position. *)
Definition mget {A} (d : A) (m : list (list A)) (i j : nat) : A :=
  nth j (nth i m []) d.

Definition mset {A} (m : list (list A)) (i j : nat) (x : A) : list (list A) :=
  update m i (update (nth i m []) j x).

Abbreviation tables := (list (list ext) * list (list Z))%type (only parsing).

(** Body of the initialisation loop. *)
Definition fw_init_cell (adj : list (list Z)) (tb : tables) (i j : nat)
  : tables :=
  let (d, nx) := tb in
  if Nat.eqb i j then (mset d i j (Fin 0), nx)
  else if mget 0 adj i j =? 1
       then (mset d i j (Fin 1), mset nx i j (Z.of_nat j))
       else (d, nx).

(** Body of the relaxation loop. *)
Definition fw_relax (tb : tables) (k i j : nat) : tables :=
  let (d, nx) := tb in
  let through := ext_add (mget Inf d i k) (mget Inf d k j) in
  if ext_gt (mget Inf d i j) through
  then (mset d i j through, mset nx i j (mget (-1) nx i k))
  else (d, nx).

(** [for x in range(n): s = body(s, x)] *)
Definition for_range {S} (n : nat) (body : S -> nat -> S) (s : S) : S :=
  fold_left body (seq 0 n) s.

Definition floyd_warshall (g : t) : t :=
  let n := Z.to_nat (num_nodes g) in
  let tb0 : tables := (repeat (repeat Inf n) n, repeat (repeat (-1) n) n) in
  let tb1 :=
    for_range n (fun tb i =>
      for_range n (fun tb j => fw_init_cell (adj_matrix g) tb i j) tb) tb0 in
  let tb2 :=
    for_range n (fun tb k =>
      for_range n (fun tb i =>
        for_range n (fun tb j => fw_relax tb k i j) tb) tb) tb1 in
  mk (num_nodes g) (adj_matrix g) (Some (fst tb2)) (Some (snd tb2)).

Definition are_adjacent (g : t) (u v : Z) : result bool :=
  x <- get2 (adj_matrix g) u v ;;
  Ok (x =? 1).

(** The [while start != end] loop of [get_shortest_path]; [path] is kept in
    order. *)
Fixpoint walk (fuel : nat) (nx : list (list Z)) (start end_ : Z)
  (path : list Z) : result (list Z) :=
  if start =? end_ then Ok path
  else match fuel with
       | O => Raise OutOfFuel
       | S fuel' =>
           start' <- get2 nx start end_ ;;
           if start' =? -1 then Ok []
           else walk fuel' nx start' end_ (path ++ [start'])
       end.

Definition get_shortest_path (g : t) (start end_ : Z) : result (list Z) :=
  match dist g, next_node g with
  | Some d, Some nx =>
      duv <- get2 d start end_ ;;
      if ext_is_inf duv then Ok []
      else walk (Z.to_nat (num_nodes g)) nx start end_ [start]
  | _, _ => Raise ValueError
  end.

End UUG.

(* ================================================================== *)
(** * mapper/base/Mapper.py *)
(* ================================================================== *)

(** An entry of the interaction list: [(control, target, seq)]. *)
Abbreviation triple := (Z * Z * Z)%type (only parsing).

(** One recorded SWAP: the two logical qubits exchanged. *)
Abbreviation swap := (Z * Z)%type (only parsing).

Module Mapper.

Record t : Type := mk {
  connectivity : Nx.Graph;
  cnots_list : list triple;
  qubits : Z;
  l_to_p : list Z;
  p_to_l : list Z
}.

(** [Mapper.__init__]: the identity placement. *)
Definition init (connectivity : Nx.Graph) (cnots_list : list triple)
  (qubits : Z) : t :=
  mk connectivity cnots_list qubits (range qubits) (range qubits).

(** The loop of [physic_to_logical]: [for q, v in enumerate(l_to_p)]. *)
Fixpoint physic_to_logical_loop (q : Z) (l : list Z) (p_to_l : list Z)
  : result (list Z) :=
  match l with
  | [] => Ok p_to_l
  | v :: l' =>
      p' <- setitem p_to_l v q ;;
      physic_to_logical_loop (q + 1) l' p'
  end.

Definition physic_to_logical (m : t) : result t :=
  p' <- physic_to_logical_loop 0 (l_to_p m) (p_to_l m) ;;
  Ok (mk (connectivity m) (cnots_list m) (qubits m) (l_to_p m) p').

(** Python lists are values here, so [.copy()] is the identity. *)
Definition from_static_mapping (connectivity : Nx.Graph)
  (cnots_list : list triple) (qubits : Z) (l_to_p p_to_l : list Z) : t :=
  let mapper := init connectivity cnots_list qubits in
  mk (Mapper.connectivity mapper) (Mapper.cnots_list mapper)
     (Mapper.qubits mapper) l_to_p p_to_l.

End Mapper.

(* ================================================================== *)
(** * router/Router.py *)
(* ================================================================== *)

Module Router.

Record t : Type := mk {
  l_to_p : list Z;
  p_to_l : list Z;
  cnots_list : list triple;
  lookahead : Z;
  topology : UUG.t
}.

(** [Router.__init__]: the router works on its own copies of the two
    placement arrays. *)
Definition init (topology : Nx.Graph) (mapper : Mapper.t)
  (cnots_list : list triple) (lookahead : Z) : result t :=
  g <- UUG.from_nx (UUG.init (Nx.number_of_nodes topology)) topology ;;
  Ok (mk (Mapper.l_to_p mapper) (Mapper.p_to_l mapper) cnots_list lookahead
         (UUG.floyd_warshall g)).

Definition get_current_mapping (r : t) : list Z * list Z :=
  (l_to_p r, p_to_l r).

Definition touches (q : Z) (tr : triple) : bool :=
  let '(c, t, _) := tr in (c =? q) || (t =? q).

(** [sum([1 for (c, t, _) in operations if c == q or t == q])] *)
Definition count_touching (q : Z) (operations : list triple) : Z :=
  len (filter (touches q) operations).

Definition window (r : t) (begin : Z) : list triple :=
  slice (cnots_list r) (Some begin)
        (Some (Z.min (begin + lookahead r) (len (cnots_list r)))).

Definition swap_strategy_by_lookahead (r : t) (begin control target : Z)
  (g : rng) : result (Z * rng) :=
  let operations := window r begin in
  let control_count := count_touching control operations in
  let target_count := count_touching target operations in
  if (control_count =? 0) && (target_count =? 0)
  then choice [control; target; -1] g
  else if (control_count =? 0) || (control_count >=? 2 * target_count)
  then Ok (target, g)
  else if (target_count =? 0) || (target_count >=? 2 * control_count)
  then Ok (control, g)
  else Ok (-1, g).

(** One iteration of the loop of [__move_through_path]: the SWAP with the
    occupant of [node]. *)
Definition swap_step (r : t) (qubit qubit_node node : Z)
  : result (swap * t) :=
  swap_qubit <- getitem (p_to_l r) node ;;
  p1 <- setitem (p_to_l r) node qubit ;;
  p2 <- setitem p1 qubit_node swap_qubit ;;
  l1 <- setitem (l_to_p r) qubit node ;;
  l2 <- setitem l1 swap_qubit qubit_node ;;
  Ok ((qubit, swap_qubit),
      mk l2 p2 (cnots_list r) (lookahead r) (topology r)).

Fixpoint move_loop (r : t) (qubit qubit_node : Z) (path : list Z)
  (swaps_list : list swap) (swaps : Z) : result (list swap * Z * t) :=
  match path with
  | [] => Ok (swaps_list, swaps, r)
  | node :: path' =>
      '(sw, r') <- swap_step r qubit qubit_node node ;;
      move_loop r' qubit node path' (swaps_list ++ [sw]) (swaps + 1)
  end.

Definition move_through_path (r : t) (qubit qubit_node : Z) (path : list Z)
  : result (list swap * Z * t) :=
  move_loop r qubit qubit_node path [] 0.

(** The two node lists walked by the control and by the target, as the three
    [if strategy == ...] statements leave them. *)
Definition split_paths (shortest_path : list Z) (strategy control target : Z)
  : option (list Z * list Z) :=
  let paths :=
    if strategy =? -1 then
      let shortest_path_len := len shortest_path in
      let control_edges :=
        if shortest_path_len mod 2 =? 0
        then shortest_path_len / 2
        else (shortest_path_len + 1) / 2 in
      let control_path := slice shortest_path None (Some control_edges) in
      let target_path := slice shortest_path (Some control_edges) None in
      Some (slice control_path (Some 1) None,
            slice target_path None (Some (-1)))
    else None in
  let paths :=
    if strategy =? control
    then Some (slice shortest_path (Some 1) (Some (-1)), [])
    else paths in
  if strategy =? target
  then Some ([], rev (slice shortest_path (Some 1) (Some (-1))))
  else paths.

Definition apply_cnot (r : t) (control target i : Z) (g : rng)
  : result (list (list swap) * Z * t * rng) :=
  control_node <- getitem (l_to_p r) control ;;
  target_node <- getitem (l_to_p r) target ;;
  adjacent <- UUG.are_adjacent (topology r) control_node target_node ;;
  if (adjacent : bool) then Ok ([], 0, r, g)
  else
    shortest_path <-
      UUG.get_shortest_path (topology r) control_node target_node ;;
    '(strategy, g') <- swap_strategy_by_lookahead r i control target g ;;
    match split_paths shortest_path strategy control target with
    | None => Raise UnboundLocalError
    | Some (control_path, target_path) =>
        '(control_swaps, control_swaps_count, r1) <-
          move_through_path r control control_node control_path ;;
        '(target_swaps, target_swaps_count, r2) <-
          move_through_path r1 target target_node target_path ;;
        Ok ([control_swaps; target_swaps],
            0 + (control_swaps_count + target_swaps_count), r2, g')
    end.

(** The loop of [route_circuit_portion] over the triples still to route. *)
Fixpoint route_loop (r : t) (todo : list triple)
  (swaps_count : Z) (swaps : list (list (list swap))) (g : rng)
  : result (Z * list (list (list swap)) * t * rng) :=
  match todo with
  | [] => Ok (swaps_count, swaps, r, g)
  | (c, t, i) :: todo' =>
      '(new_swaps, new_swaps_count, r', g') <- apply_cnot r c t i g ;;
      route_loop r' todo' (swaps_count + new_swaps_count)
                 (swaps ++ [new_swaps]) g'
  end.

Definition route_circuit_portion (r : t) (m : Z) (g : rng)
  : result (Z * list (list (list swap)) * t * rng) :=
  route_loop r (slice (cnots_list r) None (Some m)) 0 [] g.

Definition route_circuit (r : t) (g : rng)
  : result (Z * list (list (list swap)) * t * rng) :=
  route_circuit_portion r (len (cnots_list r)) g.

End Router.

(* ================================================================== *)
(** * mapper/random/RandomMapper.py *)
(* ================================================================== *)

Module RandomMapper.

(** [x[i], x[j] = x[j], x[i]] for two positions inside [x]. *)
Definition exchange (x : list Z) (i j : nat) : list Z :=
  let xi := nth i x 0 in
  let xj := nth j x 0 in
  update (update x i xj) j xi.

(** [random.shuffle]: for [i] from [len(x)-1] down to [1], draw
    [j = randbelow(i+1)] and exchange [x[i]] and [x[j]]. *)
Fixpoint shuffle_loop (positions : list nat) (x : list Z) (g : rng)
  : list Z * rng :=
  match positions with
  | [] => (x, g)
  | i :: rest =>
      let (j, g') := randbelow (S i) g in
      shuffle_loop rest (exchange x i j) g'
  end.

Definition shuffle (x : list Z) (g : rng) : list Z * rng :=
  shuffle_loop (rev (seq 1 (List.length x - 1))) x g.

Definition compute_mapping (m : Mapper.t) (g : rng)
  : result (Mapper.t * rng) :=
  let (l', g') := shuffle (Mapper.l_to_p m) g in
  m' <- Mapper.physic_to_logical
          (Mapper.mk (Mapper.connectivity m) (Mapper.cnots_list m)
                     (Mapper.qubits m) l' (Mapper.p_to_l m)) ;;
  Ok (m', g').

Definition init (connectivity : Nx.Graph) (cnots_list : list triple)
  (qubits : Z) (g : rng) : result (Mapper.t * rng) :=
  compute_mapping (Mapper.init connectivity cnots_list qubits) g.

End RandomMapper.

(* ================================================================== *)
(** * mapper/majority: the heap wrappers and MajorityMapper.py *)
(* ================================================================== *)

(** The standard [heapq] functions on a list, with the comparison [lt] of the
    elements ([a < b]).  Positions are those of the list, so they are
    naturals; the loops are bounded by the height of the heap. *)
Module Heapq.
Section Heapq.
Context {A : Type} (lt : A -> A -> bool).

  (** [_siftdown(heap, startpos, pos)] with [newitem = heap[pos]]. *)
Fixpoint siftdown_loop (fuel : nat) (heap : list A) (newitem : A)
    (startpos pos : nat) : list A :=
    match fuel with
    | O => update heap pos newitem
    | S fuel' =>
        if Nat.ltb startpos pos then
          let parentpos := Nat.div2 (pos - 1) in
          match nth_error heap parentpos with
          | Some parent =>
              if lt newitem parent
              then siftdown_loop fuel' (update heap pos parent) newitem
                                 startpos parentpos
              else update heap pos newitem
          | None => update heap pos newitem
          end
        else update heap pos newitem
    end.

Definition siftdown (heap : list A) (startpos pos : nat) : list A :=
    match nth_error heap pos with
    | Some newitem => siftdown_loop (S pos) heap newitem startpos pos
    | None => heap
    end.

  (** [heappush(heap, item)] *)
Definition heappush (heap : list A) (item : A) : list A :=
    siftdown (heap ++ [item]) 0 (List.length heap).

  (** The [while childpos < endpos] loop of [_siftup]; returns the heap and
      the position where [newitem] has to be stored. *)
Fixpoint siftup_loop (fuel : nat) (heap : list A) (pos : nat)
    : list A * nat :=
    match fuel with
    | O => (heap, pos)
    | S fuel' =>
        let endpos := List.length heap in
        let childpos := (2 * pos + 1)%nat in
        if Nat.ltb childpos endpos then
          let rightpos := (childpos + 1)%nat in
          let childpos :=
            match nth_error heap childpos, nth_error heap rightpos with
            | Some l, Some r => if negb (lt l r) then rightpos else childpos
            | _, _ => childpos
            end in
          match nth_error heap childpos with
          | Some c => siftup_loop fuel' (update heap pos c) childpos
          | None => (heap, pos)
          end
        else (heap, pos)
    end.

Definition siftup (heap : list A) (pos : nat) : list A :=
    match nth_error heap pos with
    | Some newitem =>
        let (heap', pos') := siftup_loop (List.length heap) heap pos in
        siftdown (update heap' pos' newitem) pos pos'
    | None => heap
    end.

  (** [heappop(heap)]: the popped item and the remaining heap. *)
Definition heappop (heap : list A) : result (A * list A) :=
    match rev heap with
    | [] => Raise IndexError
    | lastelt :: _ =>
        match removelast heap with
        | [] => Ok (lastelt, [])
        | returnitem :: rest =>
            Ok (returnitem, siftup (lastelt :: rest) 0)
        end
    end.
End Heapq.
End Heapq.

Module MajorityMapper.

(** [KeyValMaxHeapObj]: compared through [MaxHeapObj.__lt__], which is
    [self.val > other.val]. *)
Record KeyValMaxHeapObj : Type := mkObj { key : Z; val : Z }.

Definition obj_lt (a b : KeyValMaxHeapObj) : bool := val a >? val b.

Abbreviation MaxHeap := (list KeyValMaxHeapObj) (only parsing).
Definition heappush (h : MaxHeap) (o : KeyValMaxHeapObj) : MaxHeap :=
  Heapq.heappush obj_lt h o.
Definition heappop (h : MaxHeap) : result (KeyValMaxHeapObj * MaxHeap) :=
  Heapq.heappop obj_lt h.

(** [interact[i].add(j); interact[j].add(i)] for every triple. *)
Fixpoint fill_interact (interact : list pyset) (cnots : list triple)
  : result (list pyset) :=
  match cnots with
  | [] => Ok interact
  | (i, j, _) :: rest =>
      si <- getitem interact i ;;
      interact1 <- setitem interact i (set_add j si) ;;
      sj <- getitem interact1 j ;;
      interact2 <- setitem interact1 j (set_add i sj) ;;
      fill_interact interact2 rest
  end.

(** The comprehension building one heap object per node; [degree] is the
    expression giving the neighbours of a node. *)
Fixpoint neighbour_sizes (degree : Z -> result (list Z)) (us : list Z)
  : result (list KeyValMaxHeapObj) :=
  match us with
  | [] => Ok []
  | u :: us' =>
      nb <- degree u ;;
      rest <- neighbour_sizes degree us' ;;
      Ok (mkObj u (len nb) :: rest)
  end.

(** The loop of [compute_mapping]. *)
Fixpoint compute_loop (n : nat) (heap graph_heap : MaxHeap)
  (l_to_p p_to_l : list Z) : result (list Z * list Z) :=
  match n with
  | O => Ok (l_to_p, p_to_l)
  | S n' =>
      '(qubit_heap_max, heap') <- heappop heap ;;
      '(node_heap_max, graph_heap') <- heappop graph_heap ;;
      let qubit := key qubit_heap_max in
      let node := key node_heap_max in
      l' <- setitem l_to_p qubit node ;;
      p' <- setitem p_to_l node qubit ;;
      compute_loop n' heap' graph_heap' l' p'
  end.

(** [MajorityMapper.__init__] with the neighbour expression as a parameter. *)
Definition init_with (degree : Nx.Graph -> Z -> result (list Z))
  (connectivity : Nx.Graph) (cnots_list : list triple) (qubits : Z)
  : result Mapper.t :=
  let m := Mapper.init connectivity cnots_list qubits in
  interact <- fill_interact (repeat [] (Z.to_nat qubits)) cnots_list ;;
  let heap :=
    fold_left (fun h q => heappush h (mkObj q (len (nth (Z.to_nat q) interact []))))
              (range qubits) [] in
  sizes <- neighbour_sizes (degree connectivity) (Nx.nodes connectivity) ;;
  let graph_neighbours_heap := fold_left heappush sizes [] in
  '(l', p') <- compute_loop (Z.to_nat qubits) heap graph_neighbours_heap
                            (Mapper.l_to_p m) (Mapper.p_to_l m) ;;
  Ok (Mapper.mk connectivity cnots_list qubits l' p').

(** The source writes [self.connectivity.adj(u)]. *)
Definition init := init_with Nx.adj_call.

End MajorityMapper.

(* ================================================================== *)
(** * mapper/max_interacting_pairs/utils/QubitInteractionsHandler.py *)
(* ================================================================== *)

Module QubitInteractionsHandler.

Record t : Type := mk {
  qubits : Z;
  free_qubits : pyset;
  interactions_count : list (list Z)
}.

(** [self.n] *)
Definition n (h : t) : list Z := range (qubits h).

(** [interactions_count[i][j] += 1; interactions_count[j][i] += 1] for every
    triple. *)
Fixpoint count_interactions (c : list (list Z)) (cnots : list triple)
  : result (list (list Z)) :=
  match cnots with
  | [] => Ok c
  | (i, j, _) :: rest =>
      x <- UUG.get2 c i j ;;
      c1 <- UUG.set2 c i j (x + 1) ;;
      y <- UUG.get2 c1 j i ;;
      c2 <- UUG.set2 c1 j i (y + 1) ;;
      count_interactions c2 rest
  end.

Definition init (cnots_list : list triple) (qubits : Z) : result t :=
  let q := Z.to_nat qubits in
  c <- count_interactions (repeat (repeat 0 q) q) cnots_list ;;
  Ok (mk qubits (set_of_list (range qubits)) c).

(** The loop of [__get_first_d_free_non_zero]. *)
Fixpoint first_d_loop (free : pyset) (d : Z) (l : list (Z * Z))
  (res : pyset) (found : Z) : pyset :=
  match l with
  | [] => res
  | (qubit, interactions) :: l' =>
      if interactions =? 0 then res
      else if set_mem qubit free then
        let res' := set_add qubit res in
        let found' := found + 1 in
        if found' =? d then res'
        else first_d_loop free d l' res' found'
      else first_d_loop free d l' res found
  end.

Definition get_first_d_free_non_zero (h : t) (d : Z) (l : list (Z * Z))
  : pyset :=
  first_d_loop (free_qubits h) d l [] 0.

(** [list.sort(key=lambda e: e[1], reverse=True)]: decreasing second
    component, equal keys kept in their original order. *)
Fixpoint insert_desc (x : Z * Z) (l : list (Z * Z)) : list (Z * Z) :=
  match l with
  | [] => [x]
  | y :: l' => if snd y >? snd x then y :: insert_desc x l' else x :: l
  end.

Definition sort_desc (l : list (Z * Z)) : list (Z * Z) :=
  fold_right insert_desc [] l.

(** [[(j, row[j]) for j in self.n]]: [row] is a row of the square matrix, as
    long as [self.n]. *)
Definition pairs_of_row (h : t) (row : list Z) : list (Z * Z) :=
  map (fun j => (j, nth (Z.to_nat j) row 0)) (n h).

Definition d_interactions (h : t) (qubit d : Z) : result pyset :=
  row <- getitem (interactions_count h) qubit ;;
  Ok (get_first_d_free_non_zero h d (sort_desc (pairs_of_row h row))).

(** [for k in range(d): if pairs[k][0] in free_qubits: total += pairs[k][1]] *)
Fixpoint sum_first (free : pyset) (pairs : list (Z * Z)) (ks : list Z)
  (total : Z) : result Z :=
  match ks with
  | [] => Ok total
  | k :: ks' =>
      e <- getitem pairs k ;;
      sum_first free pairs ks'
        (if set_mem (fst e) free then total + snd e else total)
  end.

(** The score the selection loop gives to qubit [i]. *)
Definition score (h : t) (d : Z) (i : Z) : result Z :=
  sum_first (free_qubits h)
    (sort_desc (pairs_of_row h (nth (Z.to_nat i) (interactions_count h) [])))
    (range d) 0.

(** The selection loop: [max_i], [max_val] over [for i in self.n]. *)
Fixpoint select_loop (h : t) (d : Z) (target_qubits : pyset) (idxs : list Z)
  (max_i max_val : Z) : result (Z * Z) :=
  match idxs with
  | [] => Ok (max_i, max_val)
  | i :: idxs' =>
      if set_mem i target_qubits then
        total_interactions <- score h d i ;;
        if total_interactions >? max_val
        then select_loop h d target_qubits idxs' i total_interactions
        else select_loop h d target_qubits idxs' max_i max_val
      else select_loop h d target_qubits idxs' max_i max_val
  end.

Definition sorted_rows (h : t) : list (list (Z * Z)) :=
  map (fun i => sort_desc
                  (pairs_of_row h (nth (Z.to_nat i) (interactions_count h) [])))
      (n h).

Definition qubit_with_most_d_interactions_from_set (h : t) (d : Z)
  (target_qubits : pyset) : result (Z * pyset) :=
  '(candidate, _) <- select_loop h d target_qubits (n h) (-1) (-1) ;;
  row <- getitem (sorted_rows h) candidate ;;
  Ok (candidate, get_first_d_free_non_zero h d row).

Definition qubit_with_most_d_interactions (h : t) (d : Z)
  : result (Z * pyset) :=
  qubit_with_most_d_interactions_from_set h d (free_qubits h).

(** [q not in self.n] is [not (0 <= q < qubits)]. *)
Definition map_qubit (h : t) (q : Z) : t :=
  if (0 <=? q) && (q <? qubits h)
  then mk (qubits h) (set_discard q (free_qubits h)) (interactions_count h)
  else h.

End QubitInteractionsHandler.

(* ================================================================== *)
(** * mapper/max_interacting_pairs/utils/FreeTopologyNodesHandler.py *)
(* ================================================================== *)

Module FreeTopologyNodesHandler.

Record t : Type := mk {
  nodes : list Z;
  free_nodes : pyset;
  free_neighbours : list pyset
}.

(** [for u in graph.neighbors(v): free_neighbours[v].add(u)] *)
Fixpoint add_neighbours (fn : list pyset) (v : Z) (us : list Z)
  : result (list pyset) :=
  match us with
  | [] => Ok fn
  | u :: us' =>
      s <- getitem fn v ;;
      fn' <- setitem fn v (set_add u s) ;;
      add_neighbours fn' v us'
  end.

Fixpoint fill_neighbours (graph : Nx.Graph) (fn : list pyset) (vs : list Z)
  : result (list pyset) :=
  match vs with
  | [] => Ok fn
  | v :: vs' =>
      us <- Nx.neighbors graph v ;;
      fn' <- add_neighbours fn v us ;;
      fill_neighbours graph fn' vs'
  end.

Definition init (graph : Nx.Graph) : result t :=
  fn <- fill_neighbours graph (repeat [] (List.length (Nx.nodes graph)))
                        (Nx.nodes graph) ;;
  Ok (mk (Nx.nodes graph) (set_of_list (Nx.nodes graph)) fn).

Definition get_free_neighbours (h : t) (v : Z) : result pyset :=
  getitem (free_neighbours h) v.

(** [[(v, len(self.free_neighbours[v])) for v in nodes]] *)
Fixpoint sizes (h : t) (vs : list Z) : result (list (Z * Z)) :=
  match vs with
  | [] => Ok []
  | v :: vs' =>
      s <- getitem (free_neighbours h) v ;;
      rest <- sizes h vs' ;;
      Ok ((v, len s) :: rest)
  end.

(** [max(l, key=lambda el: el[1])] on a non-empty list: the first element
    whose key is maximal. *)
Fixpoint max_by_snd (best : Z * Z) (l : list (Z * Z)) : Z * Z :=
  match l with
  | [] => best
  | x :: l' => max_by_snd (if snd x >? snd best then x else best) l'
  end.

Definition node_with_most_free_neighbours_set (h : t) (candidates : pyset)
  : result (Z * pyset) :=
  l <- sizes h candidates ;;
  match l with
  | [] => Raise ValueError
  | x :: l' =>
      let node := fst (max_by_snd x l') in
      s <- get_free_neighbours h node ;;
      Ok (node, s)
  end.

(** [free_nodes] is [set(graph.nodes)] less the occupied nodes; over the
    nodes [0 .. n-1] every element sits in the slot of its own value, so the
    set is visited in increasing order. *)
Definition free_node_with_most_free_neighbours (h : t)
  : result (Z * pyset) :=
  node_with_most_free_neighbours_set h (free_nodes h).

(** [for w in self.nodes: self.free_neighbours[w].discard(v)] *)
Fixpoint discard_everywhere (fn : list pyset) (v : Z) (ws : list Z)
  : result (list pyset) :=
  match ws with
  | [] => Ok fn
  | w :: ws' =>
      s <- getitem fn w ;;
      fn' <- setitem fn w (set_discard v s) ;;
      discard_everywhere fn' v ws'
  end.

Definition occupy_node (h : t) (v : Z) : result t :=
  free' <- set_remove v (free_nodes h) ;;
  fn' <- discard_everywhere (free_neighbours h) v (nodes h) ;;
  Ok (mk (nodes h) free' fn').

End FreeTopologyNodesHandler.

(* ================================================================== *)
(** * mapper/max_interacting_pairs/MaxInteractingPairsMapping.py *)
(* ================================================================== *)

Module MaxInteractingPairsMapping.

(** The variables of [compute_mapping] that live across iterations.  The
    local [node_neighbours] is the very set stored at
    [topology_handler.free_neighbours[node]], so it is read from, and
    written to, the handler. *)
Record state : Type := mkState {
  l_to_p : list Z;
  p_to_l : list Z;
  qubit_interactions : QubitInteractionsHandler.t;
  topology_handler : FreeTopologyNodesHandler.t;
  queue : list (Z * Z);
  to_do : Z
}.

(** [node_neighbours.discard(x)] through the alias. *)
Definition discard_neighbour (h : FreeTopologyNodesHandler.t) (node x : Z)
  : result FreeTopologyNodesHandler.t :=
  s <- getitem (FreeTopologyNodesHandler.free_neighbours h) node ;;
  fn' <- setitem (FreeTopologyNodesHandler.free_neighbours h) node (set_discard x s) ;;
  Ok (FreeTopologyNodesHandler.mk (FreeTopologyNodesHandler.nodes h)
        (FreeTopologyNodesHandler.free_nodes h) fn').

Section Iteration.
Context {order : SetIteration}.

(** One iteration of [for i in range(iters)].  The comprehension of
    [node_with_most_free_neighbours_set] visits [node_neighbours], the set
    [free_neighbours[node]], in its iteration order. *)
Definition expand_step (st : state) (node qubit : Z) (qubit_neighbours : pyset)
  : result (state * pyset) :=
  node_neighbours <- FreeTopologyNodesHandler.get_free_neighbours (topology_handler st) node ;;
  '(neighbour, neighbour_neighbours) <-
    FreeTopologyNodesHandler.node_with_most_free_neighbours_set (topology_handler st)
                                          (set_iter node node_neighbours) ;;
  '(neighbour_qubit, _) <-
    QubitInteractionsHandler.qubit_with_most_d_interactions_from_set
      (qubit_interactions st) (len neighbour_neighbours) qubit_neighbours ;;
  if negb (qubit =? -1) then
    let qi' := QubitInteractionsHandler.map_qubit (qubit_interactions st) neighbour_qubit in
    th' <- FreeTopologyNodesHandler.occupy_node (topology_handler st) neighbour ;;
    l' <- setitem (l_to_p st) neighbour_qubit neighbour ;;
    p' <- setitem (p_to_l st) neighbour neighbour_qubit ;;
    th'' <- discard_neighbour th' node neighbour ;;
    Ok (mkState l' p' qi' th''
                (queue st ++ [(neighbour, neighbour_qubit)]) (to_do st - 1),
        set_discard neighbour_qubit qubit_neighbours)
  else Ok (st, qubit_neighbours).

Fixpoint expand (iters : nat) (st : state) (node qubit : Z)
  (qubit_neighbours : pyset) : result state :=
  match iters with
  | O => Ok st
  | S iters' =>
      '(st', qubit_neighbours') <-
        expand_step st node qubit qubit_neighbours ;;
      expand iters' st' node qubit qubit_neighbours'
  end.

(** The branch [if len(queue) == 0]: a fresh pair. *)
Definition seed (st : state) : result (state * Z * Z * pyset) :=
  '(node, node_neighbours) <-
    FreeTopologyNodesHandler.free_node_with_most_free_neighbours (topology_handler st) ;;
  '(qubit, qubit_neighbours) <-
    QubitInteractionsHandler.qubit_with_most_d_interactions (qubit_interactions st)
                                      (len node_neighbours) ;;
  l' <- setitem (l_to_p st) qubit node ;;
  p' <- setitem (p_to_l st) node qubit ;;
  th' <- FreeTopologyNodesHandler.occupy_node (topology_handler st) node ;;
  let qi' := QubitInteractionsHandler.map_qubit (qubit_interactions st) qubit in
  Ok (mkState l' p' qi' th' (queue st) (to_do st - 1),
      node, qubit, qubit_neighbours).

(** The [else] branch: the pair at the head of the queue. *)
Definition pop (st : state) : result (state * Z * Z * pyset) :=
  match queue st with
  | [] => Raise IndexError
  | (node, qubit) :: queue' =>
      node_neighbours <-
        FreeTopologyNodesHandler.get_free_neighbours (topology_handler st) node ;;
      qubit_neighbours <-
        QubitInteractionsHandler.d_interactions (qubit_interactions st) qubit
                          (len node_neighbours) ;;
      Ok (mkState (l_to_p st) (p_to_l st) (qubit_interactions st)
                  (topology_handler st) queue' (to_do st),
          node, qubit, qubit_neighbours)
  end.

(** The body of [while to_do != 0]. *)
Definition body (st : state) : result state :=
  '(st1, node, qubit, qubit_neighbours) <-
    (if len (queue st) =? 0 then seed st else pop st) ;;
  node_neighbours <-
    FreeTopologyNodesHandler.get_free_neighbours (topology_handler st1) node ;;
  let iters := Z.min (len qubit_neighbours) (len node_neighbours) in
  expand (Z.to_nat iters) st1 node qubit qubit_neighbours.

Fixpoint loop (fuel : nat) (st : state) : result state :=
  if to_do st =? 0 then Ok st
  else match fuel with
       | O => Raise OutOfFuel
       | S fuel' => st' <- body st ;; loop fuel' st'
       end.

(** Every iteration either places a qubit or consumes a queue entry that a
    placement produced, so twice the number of qubits bounds the iterations. *)
Definition fuel_for (qubits : Z) : nat := (2 * Z.to_nat qubits + 1)%nat.

Definition compute_mapping (m : Mapper.t) : result Mapper.t :=
  qi <- QubitInteractionsHandler.init (Mapper.cnots_list m) (Mapper.qubits m) ;;
  th <- FreeTopologyNodesHandler.init (Mapper.connectivity m) ;;
  st <- loop (fuel_for (Mapper.qubits m))
             (mkState (Mapper.l_to_p m) (Mapper.p_to_l m) qi th []
                      (Mapper.qubits m)) ;;
  Ok (Mapper.mk (Mapper.connectivity m) (Mapper.cnots_list m)
                (Mapper.qubits m) (l_to_p st) (p_to_l st)).

Definition init (connectivity : Nx.Graph) (cnots_list : list triple)
  (qubits : Z) : result Mapper.t :=
  let q := Z.to_nat qubits in
  compute_mapping
    (Mapper.mk connectivity cnots_list qubits (repeat (-1) q) (repeat (-1) q)).

End Iteration.
End MaxInteractingPairsMapping.

(* ================================================================== *)
(** * mapper/base/MapperType.py *)
(* ================================================================== *)

Module MapperType.

Inductive t : Type := BASIC | RANDOM | MAJORITY | MAX_PAIRS.

Definition lower_ascii (c : ascii) : ascii :=
  let k := nat_of_ascii c in
  if (Nat.leb 65 k && Nat.leb k 90)%bool then ascii_of_nat (k + 32) else c.

Fixpoint lower (s : string) : string :=
  match s with
  | EmptyString => EmptyString
  | String c s' => String (lower_ascii c) (lower s')
  end.

Definition type_from_string (strategy_name : string) : t :=
  let s := lower strategy_name in
  if String.eqb s "random" then RANDOM
  else if String.eqb s "majority" then MAJORITY
  else if String.eqb s "max_pairs" then MAX_PAIRS
  else BASIC.

Definition mapper_from_string {order : SetIteration} (strategy_name : string)
  (connectivity : Nx.Graph) (cnots_list : list triple) (qubits : Z) (g : rng)
  : result (Mapper.t * rng) :=
  match type_from_string (lower strategy_name) with
  | BASIC => Ok (Mapper.init connectivity cnots_list qubits, g)
  | RANDOM => RandomMapper.init connectivity cnots_list qubits g
  | MAJORITY =>
      m <- MajorityMapper.init connectivity cnots_list qubits ;; Ok (m, g)
  | MAX_PAIRS =>
      m <- MaxInteractingPairsMapping.init connectivity cnots_list qubits ;;
      Ok (m, g)
  end.

End MapperType.

(* ================================================================== *)
(** * mapper/base/MapperUpdater.py *)
(* ================================================================== *)

Module MapperUpdater.

Record t : Type := mk {
  router : Router.t;
  initial_mapper : Mapper.t;
  topology : Nx.Graph;
  cnots_list : list triple
}.

Definition init (topology : Nx.Graph) (mapper : Mapper.t)
  (cnots_list : list triple) (lookahead : Z) : result t :=
  r <- Router.init topology mapper cnots_list lookahead ;;
  Ok (mk r mapper topology cnots_list).

Definition update_mapping (u : t) (g : rng) : result (Mapper.t * rng) :=
  '(swaps_count, _, r1, g1) <- Router.route_circuit (router u) g ;;
  let new_mapper :=
    Mapper.from_static_mapping (topology u) (cnots_list u)
      (Nx.number_of_nodes (topology u)) (Router.l_to_p r1) (Router.p_to_l r1) in
  new_router <- Router.init (topology u) new_mapper (cnots_list u)
                            (Router.lookahead r1) ;;
  '(new_swaps_count, _, _, g2) <- Router.route_circuit new_router g1 ;;
  if new_swaps_count <? swaps_count
  then Ok (new_mapper, g2)
  else Ok (initial_mapper u, g2).

End MapperUpdater.

(* ================================================================== *)
(** * transform/routing_transform.py *)
(* ================================================================== *)

Module Transform.

(** An operation of the tape: its name (the parameters play no role here) and
    its wires. *)
Record Op : Type := mkOp { name : string; wires : list Z }.

(** The tape: its operations and [tape.wires], the wires it uses. *)
Record QuantumTape : Type := mkTape {
  operations : list Op;
  tape_wires : list Z
}.

Definition SWAP (a b : Z) : Op := mkOp "SWAP" [a; b].

(** The pairs [(wires[i], wires[j])] for [i < j], in the order of the two
    nested [for] loops. *)
Fixpoint wire_pairs (ws : list Z) : list (Z * Z) :=
  match ws with
  | [] => []
  | w :: rest => map (pair w) rest ++ wire_pairs rest
  end.

(** Numbering of the pairs of one operation from [op_count] on. *)
Fixpoint number_pairs (ps : list (Z * Z)) (op_count : Z) : list triple :=
  match ps with
  | [] => []
  | (a, b) :: ps' => (a, b, op_count) :: number_pairs ps' (op_count + 1)
  end.

Fixpoint interaction_loop (ops : list Op) (interaction_list : list triple)
  (op_count : Z) : list triple :=
  match ops with
  | [] => interaction_list
  | op :: ops' =>
      if len (wires op) >=? 2 then
        let ps := wire_pairs (wires op) in
        interaction_loop ops' (interaction_list ++ number_pairs ps op_count)
                         (op_count + len ps)
      else interaction_loop ops' interaction_list op_count
  end.

Definition get_interaction_list (tape : QuantumTape) : list triple :=
  interaction_loop (operations tape) [] 0.

(** [current_wires]: the dictionary with keys [0 .. qubits-1], as the list of
    its values; a missing key raises [KeyError]. *)
Definition dict_get (d : list Z) (k : Z) : result Z :=
  if (0 <=? k) && (k <? len d) then getitem d k else Raise KeyError.

Definition dict_set (d : list Z) (k v : Z) : result (list Z) :=
  if (0 <=? k) && (k <? len d) then setitem d k v else Raise KeyError.

(** [qml.map_wires(op, current_wires)]: wires outside the map stay. *)
Definition map_wires (op : Op) (current_wires : list Z) : Op :=
  mkOp (name op)
       (map (fun w => match dict_get current_wires w with
                      | Ok w' => w'
                      | Raise _ => w
                      end) (wires op)).

(** The loop emitting the SWAPs of one movement list. *)
Fixpoint emit_swaps (movements : list swap) (new_ops : list Op)
  (current_wires : list Z) : result (list Op * list Z) :=
  match movements with
  | [] => Ok (new_ops, current_wires)
  | (q1, q2) :: rest =>
      w1 <- dict_get current_wires q1 ;;
      w2 <- dict_get current_wires q2 ;;
      let new_ops' := new_ops ++ [SWAP w1 w2] in
      cw1 <- dict_set current_wires q1 w2 ;;
      cw2 <- dict_set cw1 q2 w1 ;;
      emit_swaps rest new_ops' cw2
  end.

Fixpoint update_loop (ops : list Op) (swaps : list (list (list swap)))
  (new_ops : list Op) (current_wires : list Z) : result (list Op) :=
  match ops with
  | [] => Ok new_ops
  | op :: ops' =>
      if len (wires op) =? 1 then
        update_loop ops' swaps (new_ops ++ [map_wires op current_wires])
                    current_wires
      else
        swaps_for_current_operation <- getitem swaps 0 ;;
        let swaps' := slice swaps (Some 1) None in
        '(new_ops1, cw1) <-
          (if negb (len swaps_for_current_operation =? 0) then
             control_movements <- getitem swaps_for_current_operation 0 ;;
             target_movements <- getitem swaps_for_current_operation 1 ;;
             '(ops1, cw1) <- emit_swaps control_movements new_ops
                                        current_wires ;;
             emit_swaps target_movements ops1 cw1
           else Ok (new_ops, current_wires)) ;;
        update_loop ops' swaps' (new_ops1 ++ [map_wires op cw1]) cw1
  end.

Definition update_circuit (tape : QuantumTape)
  (swaps : list (list (list swap))) (qubits : Z) : result (list Op) :=
  update_loop (operations tape) swaps [] (range qubits).

(** [int(log2(n))]: [log2] raises [ValueError] at [0]. *)
Definition int_log2 (n : Z) : result Z :=
  if n <=? 0 then Raise ValueError else Ok (Z.log2 n).

(** [apply_routing]: the rewritten operations and the padded qubit count. *)
Definition apply_routing {order : SetIteration} (tape : QuantumTape)
  (connectivity : Nx.Graph) (mapper_type : string) (g : rng)
  : result (list Op * Z * rng) :=
  let cnots_list := get_interaction_list tape in
  let logical_qubits := len (tape_wires tape) in
  let physical_qubits := Nx.number_of_nodes connectivity in
  if logical_qubits >? physical_qubits then Raise RuntimeError
  else
    let padding := physical_qubits - logical_qubits in
    let logical_qubits := logical_qubits + padding in
    '(mapper, g1) <-
      MapperType.mapper_from_string mapper_type connectivity cnots_list
                                    logical_qubits g ;;
    k <- int_log2 (len cnots_list) ;;
    let lookahead := 10 in
    mapper_updater <-
      MapperUpdater.init connectivity mapper
                         (slice cnots_list None (Some k)) lookahead ;;
    '(mapper, g2) <- MapperUpdater.update_mapping mapper_updater g1 ;;
    router <- Router.init connectivity mapper cnots_list lookahead ;;
    '(swaps_count, swaps, _, g3) <- Router.route_circuit router g2 ;;
    new_ops <- update_circuit tape swaps (Nx.number_of_nodes connectivity) ;;
    Ok (new_ops, logical_qubits, g3).

End Transform.

(* ================================================================== *)
(** * Topologies and data used in the worked examples *)
(* ================================================================== *)

(** Two orders of visit for the worked examples: the elements of the set
    from the least to the greatest, and from the greatest to the least. *)
Definition increasing_order : SetIteration :=
  {| set_iter := fun _ s => s;
     set_iter_perm := fun _ s => Permutation_refl s |}.

Definition decreasing_order : SetIteration :=
  {| set_iter := fun _ s => rev s;
     set_iter_perm := fun _ s => Permutation_sym (Permutation_rev s) |}.

(** The line [0 - 1 - ... - (n-1)]. *)
Definition line (n : Z) : Nx.Graph :=
  Nx.mkGraph (range n) (map (fun i => (i, i + 1)) (range (n - 1))).

(** In an interaction list built by the driver the third component of the
    triple at position [p] is [p]. *)
Definition seq_ok (cnots : list triple) : Prop :=
  forall p c t i, nth_error cnots p = Some (c, t, i) -> i = Z.of_nat p.

(** Every triple joins two distinct logical qubits of [0 .. q-1]. *)
Definition cnots_ok (q : Z) (cnots : list triple) : Prop :=
  forall c t i, In (c, t, i) cnots -> 0 <= c < q /\ 0 <= t < q /\ c <> t.

(** The permutation invariant of a placement over [q] qubits. *)
Definition perm_inv (q : Z) (l_to_p p_to_l : list Z) : Prop :=
  Permutation l_to_p (range q) /\
  Permutation p_to_l (range q) /\
  (forall x, 0 <= x < q ->
     exists u, getitem l_to_p x = Ok u /\ getitem p_to_l u = Ok x) /\
  (forall u, 0 <= u < q ->
     exists x, getitem p_to_l u = Ok x /\ getitem l_to_p x = Ok u).

(* ================================================================== *)
(** * Lists indexed the Python way *)
(* ================================================================== *)

Ltac inv H := inversion H; subst; clear H.

(** Case analysis on the first computation of a [bind] in hypothesis [H]. *)
Ltac bind_inv H x Hx :=
  match type of H with
  | bind ?m _ = Ok _ =>
      destruct m as [x|] eqn:Hx; [cbn [bind] in H | discriminate H]
  end.

Section PyLists.
Context {A : Type}.
Implicit Types (l : list A) (i : Z) (k : nat).

Lemma len_nonneg l : 0 <= len l.
  Proof. unfold len; lia. Qed.

Lemma length_update l k v : List.length (update l k v) = List.length l.
  Proof.
    revert k; induction l as [|h t IH]; intros [|k]; cbn; auto.
  Qed.

Lemma len_update l k v : len (update l k v) = len l.
  Proof. unfold len; now rewrite length_update. Qed.

Lemma nth_error_update_eq l k v :
    (k < List.length l)%nat -> nth_error (update l k v) k = Some v.
  Proof.
    revert k; induction l as [|h t IH]; intros [|k] Hk; cbn in *;
      try lia; auto.
    apply IH; lia.
  Qed.

Lemma nth_error_update_neq l k k' v :
    k <> k' -> nth_error (update l k v) k' = nth_error l k'.
  Proof.
    revert k k'; induction l as [|h t IH]; intros [|k] [|k'] Hk; cbn;
      try congruence; auto.
  Qed.

Lemma norm_index_nonneg n i :
    0 <= i < n -> norm_index n i = Some (Z.to_nat i).
  Proof.
    intros H; unfold norm_index.
    destruct (0 <=? i) eqn:E1; [|lia].
    destruct (i <? n) eqn:E2; [reflexivity|lia].
  Qed.

Lemma norm_index_some n i k :
    norm_index n i = Some k -> (k < Z.to_nat n)%nat.
  Proof.
    unfold norm_index.
    destruct (0 <=? i) eqn:E1; destruct (i <? n) eqn:E2; cbn;
      try (intros H; inv H; lia);
      destruct (- n <=? i) eqn:E3; destruct (i <? 0) eqn:E4; cbn;
      intros H; inv H; lia.
  Qed.

Lemma norm_index_nonneg_inv n i k :
    0 <= i -> norm_index n i = Some k -> k = Z.to_nat i /\ i < n.
  Proof.
    intros Hi; unfold norm_index.
    destruct (0 <=? i) eqn:E1; [|lia].
    destruct (i <? n) eqn:E2; cbn.
    - intros H; inv H; split; [reflexivity|lia].
    - destruct (- n <=? i); destruct (i <? 0) eqn:E4; cbn; try discriminate.
      lia.
  Qed.

Lemma getitem_nth_error l i x :
    0 <= i -> (getitem l i = Ok x <-> nth_error l (Z.to_nat i) = Some x).
  Proof.
    intros Hi; unfold getitem; split.
    - destruct (norm_index (len l) i) as [k|] eqn:E; [|discriminate].
      apply norm_index_nonneg_inv in E as [-> _]; [|assumption].
      destruct (nth_error l (Z.to_nat i)); congruence.
    - intros H.
      assert (Hlt : (Z.to_nat i < List.length l)%nat)
        by (apply nth_error_Some; congruence).
      rewrite norm_index_nonneg by (unfold len; lia).
      now rewrite H.
  Qed.

Lemma getitem_in_range l i :
    0 <= i < len l -> exists x, getitem l i = Ok x.
  Proof.
    intros H.
    destruct (nth_error l (Z.to_nat i)) as [x|] eqn:E.
    - exists x; apply getitem_nth_error; [lia|assumption].
    - apply nth_error_None in E; unfold len in H; lia.
  Qed.

Lemma getitem_ok_bound l i x :
    0 <= i -> getitem l i = Ok x -> i < len l.
  Proof.
    intros Hi H; apply getitem_nth_error in H; [|assumption].
    assert ((Z.to_nat i < List.length l)%nat)
      by (apply nth_error_Some; congruence).
    unfold len; lia.
  Qed.

Lemma getitem_In l i x : getitem l i = Ok x -> In x l.
  Proof.
    unfold getitem.
    destruct (norm_index (len l) i) as [k|]; [|discriminate].
    destruct (nth_error l k) eqn:E; [|discriminate].
    intros H; inv H; eapply nth_error_In; eauto.
  Qed.

Lemma setitem_in_range l i v :
    0 <= i < len l -> setitem l i v = Ok (update l (Z.to_nat i) v).
  Proof.
    intros H; unfold setitem; now rewrite norm_index_nonneg.
  Qed.

Lemma setitem_ok_inv l i v l' :
    0 <= i -> setitem l i v = Ok l' ->
    i < len l /\ l' = update l (Z.to_nat i) v.
  Proof.
    intros Hi; unfold setitem.
    destruct (norm_index (len l) i) as [k|] eqn:E; [|discriminate].
    apply norm_index_nonneg_inv in E as [-> Hlt]; [|assumption].
    intros H; inv H; auto.
  Qed.

Lemma setitem_len l i v l' : setitem l i v = Ok l' -> len l' = len l.
  Proof.
    unfold setitem; destruct (norm_index (len l) i); [|discriminate].
    intros H; inv H; apply len_update.
  Qed.

Lemma getitem_update_eq l i v :
    0 <= i < len l -> getitem (update l (Z.to_nat i) v) i = Ok v.
  Proof.
    intros H; apply getitem_nth_error; [lia|].
    apply nth_error_update_eq; unfold len in H; lia.
  Qed.

Lemma getitem_update_neq l i j v :
    0 <= i -> 0 <= j -> i <> j ->
    getitem (update l (Z.to_nat i) v) j = getitem l j.
  Proof.
    intros Hi Hj Hne; unfold getitem; rewrite len_update.
    destruct (norm_index (len l) j) as [k|] eqn:E; [|reflexivity].
    apply norm_index_nonneg_inv in E as [-> _]; [|assumption].
    rewrite nth_error_update_neq; [reflexivity|lia].
  Qed.

  (** ** Slices *)

Lemma slice_prefix l m :
    exists k, slice l None (Some m) = firstn k l.
  Proof.
    unfold slice, slice_bound; cbn [skipn Z.to_nat].
    eexists; rewrite Z.sub_0_r; reflexivity.
  Qed.

Lemma slice_all l : slice l None (Some (len l)) = l.
  Proof.
    unfold slice, slice_bound; cbn [skipn Z.to_nat].
    pose proof (len_nonneg l).
    destruct (len l <? 0) eqn:E; [lia|].
    rewrite Z.min_id, Z.max_r, Z.sub_0_r by lia.
    unfold len; rewrite Nat2Z.id; apply firstn_all.
  Qed.

Lemma slice_tail l : slice l (Some 1) None = tl l.
  Proof.
    unfold slice, slice_bound.
    destruct l as [|a l]; [reflexivity|].
    replace (if 1 <? 0 then 1 + len (a :: l) else 1) with 1 by reflexivity.
    assert (Hl : len (a :: l) = 1 + len l) by (unfold len; cbn [List.length]; lia).
    pose proof (len_nonneg l).
    rewrite Z.min_r, Z.max_r by lia.
    cbn [Z.to_nat Pos.to_nat Pos.iter_op Nat.add skipn tl].
    replace (Z.to_nat (len (a :: l) - 1)) with (List.length l)
      by (unfold len in *; lia).
    apply firstn_all.
  Qed.

Lemma slice_init l : slice l None (Some (-1)) = removelast l.
  Proof.
    unfold slice, slice_bound; cbn [skipn Z.to_nat].
    replace (-1 <? 0) with true by reflexivity.
    pose proof (len_nonneg l).
    destruct l as [|a l0] eqn:El; [reflexivity|].
    rewrite <- El in *.
    assert (Hl : 1 <= len l) by (subst l; unfold len; cbn [List.length]; lia).
    rewrite Z.min_r, Z.max_r, Z.sub_0_r by lia.
    replace (Z.to_nat (-1 + len l)) with (Nat.pred (List.length l))
      by (unfold len in *; lia).
    symmetry; apply removelast_firstn_len.
  Qed.

Lemma slice_from l a :
    0 <= a <= len l -> slice l (Some a) None = skipn (Z.to_nat a) l.
  Proof.
    intros H; unfold slice, slice_bound.
    destruct (a <? 0) eqn:E; [lia|].
    rewrite Z.min_r, Z.max_r by lia.
    replace (Z.to_nat (len l - a)) with (List.length (skipn (Z.to_nat a) l))
      by (rewrite length_skipn; unfold len in *; lia).
    apply firstn_all.
  Qed.

Lemma slice_upto l b :
    0 <= b <= len l -> slice l None (Some b) = firstn (Z.to_nat b) l.
  Proof.
    intros H; unfold slice, slice_bound; cbn [skipn Z.to_nat].
    destruct (b <? 0) eqn:E; [lia|].
    now rewrite Z.min_r, Z.max_r, Z.sub_0_r by lia.
  Qed.

Lemma slice_inner l : slice l (Some 1) (Some (-1)) = removelast (tl l).
  Proof.
    unfold slice, slice_bound.
    replace (1 <? 0) with false by reflexivity.
    replace (-1 <? 0) with true by reflexivity.
    destruct l as [|a [|b l]]; try reflexivity.
    set (l0 := a :: b :: l).
    assert (Hl : len l0 = 2 + len l)
      by (unfold len, l0; cbn [List.length]; lia).
    pose proof (len_nonneg l).
    rewrite (Z.min_r (len l0) 1), (Z.max_r 0 1) by lia.
    rewrite (Z.min_r (len l0) (-1 + len l0)), Z.max_r by lia.
    cbn [Z.to_nat Pos.to_nat Pos.iter_op Nat.add]; unfold l0.
    cbn [skipn tl].
    replace (Z.to_nat (-1 + len (a :: b :: l) - 1))
      with (Nat.pred (List.length (b :: l)))
      by (fold l0; unfold len in *; cbn [List.length]; lia).
    symmetry; apply removelast_firstn_len.
  Qed.

End PyLists.

(* ================================================================== *)
(** * The lookahead window *)
(* ================================================================== *)

Section Lookahead.
Import Router.

Lemma window_head (r : Router.t) (p : nat) (tr : triple) :
    1 <= lookahead r ->
    nth_error (cnots_list r) p = Some tr ->
    exists w, window r (Z.of_nat p) = tr :: w.
  Proof.
    intros Hla Hnth.
    assert (Hp : (p < List.length (cnots_list r))%nat)
      by (apply nth_error_Some; congruence).
    unfold window, slice, slice_bound.
    set (n := len (cnots_list r)).
    assert (Hn : Z.of_nat p < n) by (unfold n, len; lia).
    destruct (Z.of_nat p <? 0) eqn:E1; [lia|].
    destruct (Z.min (Z.of_nat p + lookahead r) n <? 0) eqn:E2; [lia|].
    rewrite (Z.min_r n (Z.of_nat p)), (Z.max_r 0 (Z.of_nat p)) by lia.
    rewrite Nat2Z.id.
    destruct (nth_error_split _ _ Hnth) as (l1 & l2 & Hl & Hlen).
    replace (skipn p (cnots_list r)) with (tr :: l2).
    2:{ rewrite Hl, skipn_app, Hlen, Nat.sub_diag, skipn_all2 by lia.
        reflexivity. }
    destruct (Z.to_nat (Z.max 0 (Z.min n (Z.min (Z.of_nat p + lookahead r) n))
                        - Z.of_nat p)) as [|k] eqn:Ek; [lia|].
    cbn [firstn]; eauto.
  Qed.

Lemma count_touching_head_control c t i w :
    1 <= count_touching c ((c, t, i) :: w).
  Proof.
    unfold count_touching, len; cbn [filter touches].
    rewrite Z.eqb_refl; cbn [orb List.length]; lia.
  Qed.

Lemma count_touching_head_target c t i w :
    1 <= count_touching t ((c, t, i) :: w).
  Proof.
    unfold count_touching, len; cbn [filter touches].
    rewrite Z.eqb_refl, orb_true_r; cbn [List.length]; lia.
  Qed.

  (** With both counts positive the strategy is decided without a draw. *)
Definition strategy_of_counts (control target cc tc : Z) : Z :=
    if (cc =? 0) || (cc >=? 2 * tc) then target
    else if (tc =? 0) || (tc >=? 2 * cc) then control
    else -1.

Lemma swap_strategy_no_draw (r : Router.t) (begin c t : Z) (g : rng) :
    1 <= count_touching c (window r begin) ->
    1 <= count_touching t (window r begin) ->
    swap_strategy_by_lookahead r begin c t g =
      Ok (strategy_of_counts c t (count_touching c (window r begin))
                             (count_touching t (window r begin)), g).
  Proof.
    intros Hc Ht; unfold swap_strategy_by_lookahead, strategy_of_counts.
    destruct (count_touching c (window r begin) =? 0) eqn:E; [lia|].
    cbn [andb orb].
    destruct (count_touching c (window r begin) >=?
              2 * count_touching t (window r begin)); [reflexivity|].
    destruct (count_touching t (window r begin) =? 0) eqn:E'; [lia|].
    cbn [orb].
    destruct (count_touching t (window r begin) >=?
              2 * count_touching c (window r begin)); reflexivity.
  Qed.

  (** The router never changes its interaction list, lookahead or
      topology. *)
Definition same_config (r r' : Router.t) : Prop :=
    cnots_list r' = cnots_list r /\ lookahead r' = lookahead r /\
    topology r' = topology r.

Lemma same_config_refl r : same_config r r.
  Proof. repeat split. Qed.

Lemma same_config_trans r1 r2 r3 :
    same_config r1 r2 -> same_config r2 r3 -> same_config r1 r3.
  Proof. unfold same_config; intuition congruence. Qed.

Lemma swap_step_config r q qn node sw r' :
    swap_step r q qn node = Ok (sw, r') -> same_config r r'.
  Proof.
    unfold swap_step; intros H.
    bind_inv H x Hx. bind_inv H p1 Hp1. bind_inv H p2 Hp2.
    bind_inv H l1 Hl1. bind_inv H l2 Hl2.
    inv H; repeat split.
  Qed.

Lemma move_loop_config path : forall r q qn sl n sl' n' r',
    move_loop r q qn path sl n = Ok (sl', n', r') -> same_config r r'.
  Proof.
    induction path as [|node path IH]; intros r q qn sl n sl' n' r' H;
      cbn [move_loop] in H.
    - inv H; apply same_config_refl.
    - bind_inv H x Hx; destruct x as [sw r1].
      eapply same_config_trans;
        [eapply swap_step_config; eauto | eapply IH; eauto].
  Qed.

Lemma apply_cnot_config r c t i g sw n r' g' :
    apply_cnot r c t i g = Ok (sw, n, r', g') -> same_config r r'.
  Proof.
    unfold apply_cnot; intros H.
    bind_inv H cn Hcn. bind_inv H tn Htn. bind_inv H adj Hadj.
    destruct adj; [inv H; apply same_config_refl|].
    bind_inv H sp Hsp. bind_inv H sg Hsg. destruct sg as [s g1].
    destruct (split_paths sp s c t) as [[cp tp]|]; [|discriminate].
    bind_inv H m1 Hm1. destruct m1 as [[cs cc] r1].
    bind_inv H m2 Hm2. destruct m2 as [[ts tc] r2].
    inv H. unfold move_through_path in *.
    eapply same_config_trans; eapply move_loop_config; eauto.
  Qed.

  (** [apply_cnot] with the strategy drawn beforehand. *)
Definition apply_cnot_with (r : Router.t) (control target strategy : Z)
    : result (list (list swap) * Z * Router.t) :=
    control_node <- getitem (l_to_p r) control ;;
    target_node <- getitem (l_to_p r) target ;;
    adjacent <- UUG.are_adjacent (topology r) control_node target_node ;;
    if (adjacent : bool) then Ok ([], 0, r)
    else
      shortest_path <-
        UUG.get_shortest_path (topology r) control_node target_node ;;
      match split_paths shortest_path strategy control target with
      | None => Raise UnboundLocalError
      | Some (control_path, target_path) =>
          '(control_swaps, control_swaps_count, r1) <-
            move_through_path r control control_node control_path ;;
          '(target_swaps, target_swaps_count, r2) <-
            move_through_path r1 target target_node target_path ;;
          Ok ([control_swaps; target_swaps],
              0 + (control_swaps_count + target_swaps_count), r2)
      end.

Lemma apply_cnot_strategy r c t i g s g' :
    swap_strategy_by_lookahead r i c t g = Ok (s, g') ->
    apply_cnot r c t i g =
      match apply_cnot_with r c t s with
      | Ok (sw, n, r') =>
          Ok (sw, n, r', if Z.eqb (len sw) 0 then g else g')
      | Raise e => Raise e
      end.
  Proof.
    intros Hs; unfold apply_cnot, apply_cnot_with.
    destruct (getitem (l_to_p r) c) as [cn|]; cbn [bind]; [|reflexivity].
    destruct (getitem (l_to_p r) t) as [tn|]; cbn [bind]; [|reflexivity].
    destruct (UUG.are_adjacent (topology r) cn tn) as [[|]|]; cbn [bind];
      try reflexivity.
    destruct (UUG.get_shortest_path (topology r) cn tn) as [sp|]; cbn [bind];
      [|reflexivity].
    rewrite Hs; cbn [bind].
    destruct (split_paths sp s c t) as [[cp tp]|]; [|reflexivity].
    destruct (move_through_path r c cn cp) as [[[cs cc] r1]|]; cbn [bind];
      [|reflexivity].
    destruct (move_through_path r1 t tn tp) as [[[ts tc] r2]|]; cbn [bind];
      reflexivity.
  Qed.

  (** Routing a list whose triples all sit at the position their third
      component names: no draw is consumed. *)
Lemma route_loop_no_draw todo : forall (r : Router.t) n sws,
    1 <= lookahead r ->
    (forall c t i, In (c, t, i) todo ->
       exists p, i = Z.of_nat p /\ nth_error (cnots_list r) p = Some (c, t, i)) ->
    exists res, forall g,
      route_loop r todo n sws g = (x <- res ;; Ok (x, g)).
  Proof.
    induction todo as [|[[c t] i] todo IH]; intros r n sws Hla Hpos.
    - exists (Ok (n, sws, r)); intros g; reflexivity.
    - destruct (Hpos c t i (or_introl eq_refl)) as (p & -> & Hnth).
      destruct (window_head r p _ Hla Hnth) as (w & Hw).
      assert (Hs : forall g, swap_strategy_by_lookahead r (Z.of_nat p) c t g =
                Ok (strategy_of_counts c t
                      (count_touching c (window r (Z.of_nat p)))
                      (count_touching t (window r (Z.of_nat p))), g)).
      { intros g; apply swap_strategy_no_draw; rewrite Hw.
        - apply count_touching_head_control.
        - apply count_touching_head_target. }
      set (s := strategy_of_counts c t _ _) in Hs.
      destruct (apply_cnot_with r c t s) as [[[sw k] r']|e] eqn:Ea.
      + assert (Hcfg : same_config r r').
        { specialize (Hs []).
          pose proof (apply_cnot_strategy r c t _ [] s [] Hs) as H.
          rewrite Ea in H. eapply apply_cnot_config; eauto. }
        destruct Hcfg as (Hc & Hl & _).
        destruct (IH r' (n + k) (sws ++ [sw])) as (res & Hres).
        { rewrite Hl; assumption. }
        { intros c0 t0 i0 Hin; rewrite Hc; apply Hpos; now right. }
        exists res; intros g; cbn [route_loop].
        rewrite (apply_cnot_strategy r c t _ g s g (Hs g)), Ea.
        cbn [bind]. destruct (len sw =? 0); apply Hres.
      + exists (Raise e); intros g; cbn [route_loop].
        rewrite (apply_cnot_strategy r c t _ g s g (Hs g)), Ea.
        reflexivity.
  Qed.

Lemma seq_ok_positions (cnots : list triple) k :
    seq_ok cnots ->
    forall c t i, In (c, t, i) (firstn k cnots) ->
      exists p, i = Z.of_nat p /\ nth_error cnots p = Some (c, t, i).
  Proof.
    intros Hseq c t i Hin.
    apply In_nth_error in Hin as (p & Hp).
    assert (Hp' : nth_error cnots p = Some (c, t, i)).
    { destruct (Nat.lt_ge_cases p k) as [Hlt|Hge].
      - now rewrite nth_error_firstn in Hp; destruct (Nat.ltb_spec p k); try lia.
      - rewrite nth_error_firstn in Hp; destruct (Nat.ltb_spec p k); try lia; discriminate. }
    exists p; split; [eapply Hseq; eauto | assumption].
  Qed.

End Lookahead.

(** A computation that consumes no draw and whose outcome does not depend on
    the random source. *)
Definition draw_free {A} (f : rng -> result (A * rng)) : Prop :=
  exists res, forall g, f g = (x <- res ;; Ok (x, g)).

Section Driver.
Import Transform.

Lemma length_number_pairs ps : forall k,
    List.length (number_pairs ps k) = List.length ps.
  Proof.
    induction ps as [|[a b] ps IH]; intros k; cbn; auto.
  Qed.

Lemma nth_error_number_pairs ps : forall k j c t i,
    nth_error (number_pairs ps k) j = Some (c, t, i) -> i = k + Z.of_nat j.
  Proof.
    induction ps as [|[a b] ps IH]; intros k [|j] c t i H; cbn in H;
      try discriminate.
    - inv H; lia.
    - apply IH in H; lia.
  Qed.

Lemma interaction_loop_seq_ok ops : forall acc,
    seq_ok acc -> seq_ok (interaction_loop ops acc (len acc)).
  Proof.
    induction ops as [|op ops IH]; intros acc Hacc; cbn [interaction_loop].
    - assumption.
    - destruct (len (wires op) >=? 2); [|now apply IH].
      replace (len acc + len (wire_pairs (wires op)))
        with (len (acc ++ number_pairs (wire_pairs (wires op)) (len acc)))
        by (unfold len; rewrite length_app, length_number_pairs; lia).
      apply IH.
      intros p c t i Hp.
      destruct (Nat.lt_ge_cases p (List.length acc)) as [Hlt|Hge].
      + rewrite nth_error_app1 in Hp by assumption. eapply Hacc; eauto.
      + rewrite nth_error_app2 in Hp by assumption.
        apply nth_error_number_pairs in Hp. unfold len in Hp; lia.
  Qed.

  (** The driver numbers the triples by their position. *)
Lemma get_interaction_list_seq_ok tape : seq_ok (get_interaction_list tape).
  Proof.
    unfold get_interaction_list.
    apply (interaction_loop_seq_ok (operations tape) []).
    intros [|p] c t i H; discriminate H.
  Qed.

Lemma seq_ok_firstn cnots k : seq_ok cnots -> seq_ok (firstn k cnots).
  Proof.
    intros H p c t i Hp. apply (H p c t i).
    rewrite nth_error_firstn in Hp.
    destruct (Nat.ltb p k); [assumption|discriminate].
  Qed.
End Driver.

(** C10.  In a router whose interaction list carries at position [p] the
    sequence number [p] (what [get_interaction_list] produces) and whose
    lookahead is at least 1, the window examined for the triple
    [(c, t, seq)] contains that triple, both counts are at least 1, the
    strategy is chosen without consulting the random source, and so routing
    any portion of the list consumes no draw and does not depend on the
    random source. *)
Theorem lookahead_window_contains_current :
  forall r : Router.t,
    seq_ok (Router.cnots_list r) -> 1 <= Router.lookahead r ->
    (forall p c t i,
       nth_error (Router.cnots_list r) p = Some (c, t, i) ->
       In (c, t, i) (Router.window r i) /\
       1 <= Router.count_touching c (Router.window r i) /\
       1 <= Router.count_touching t (Router.window r i) /\
       draw_free (Router.swap_strategy_by_lookahead r i c t)) /\
    (forall m, draw_free (Router.route_circuit_portion r m)) /\
    draw_free (Router.route_circuit r).
Proof.
  intros r Hseq Hla.
  assert (Hportion : forall m, draw_free (Router.route_circuit_portion r m)).
  { intros m; unfold draw_free, Router.route_circuit_portion.
    destruct (slice_prefix (Router.cnots_list r) m) as (k & ->).
    apply route_loop_no_draw; [assumption|].
    now apply seq_ok_positions. }
  split; [|split; [assumption | apply Hportion]].
  intros p c t i Hnth.
  pose proof (Hseq _ _ _ _ Hnth) as ->.
  destruct (window_head r p _ Hla Hnth) as (w & Hw).
  assert (Hc : 1 <= Router.count_touching c (Router.window r (Z.of_nat p)))
    by (rewrite Hw; apply count_touching_head_control).
  assert (Ht : 1 <= Router.count_touching t (Router.window r (Z.of_nat p)))
    by (rewrite Hw; apply count_touching_head_target).
  repeat split; try assumption.
  - rewrite Hw; now left.
  - eexists (Ok _); intros g.
    rewrite swap_strategy_no_draw by assumption. reflexivity.
Qed.
(* ================================================================== *)
(** * Moving a qubit along a path *)
(* ================================================================== *)

Section Moves.
Import Router.

  (** Both placement arrays have [q] entries, all of them in [0 .. q-1]. *)
Definition range_inv (q : Z) (r : Router.t) : Prop :=
    len (l_to_p r) = q /\ len (p_to_l r) = q /\
    Forall (fun x => 0 <= x < q) (l_to_p r) /\
    Forall (fun x => 0 <= x < q) (p_to_l r).

Lemma Forall_update {A} (P : A -> Prop) (l : list A) k v :
    Forall P l -> P v -> Forall P (update l k v).
  Proof.
    intros Hl Hv; revert k; induction Hl as [|h t Hh Ht IH]; intros [|k];
      cbn; auto.
  Qed.

Lemma getitem_Forall {A} (P : A -> Prop) (l : list A) i x :
    Forall P l -> getitem l i = Ok x -> P x.
  Proof.
    intros HF H; apply getitem_In in H.
    rewrite Forall_forall in HF; auto.
  Qed.

Lemma swap_step_ok q r qubit qubit_node node :
    range_inv q r -> 0 <= qubit < q -> 0 <= qubit_node < q -> 0 <= node < q ->
    exists swap_qubit r',
      Router.swap_step r qubit qubit_node node = Ok ((qubit, swap_qubit), r') /\
      getitem (p_to_l r) node = Ok swap_qubit /\
      range_inv q r'.
  Proof.
    intros (Hl & Hp & Fl & Fp) Hq Hqn Hn.
    destruct (getitem_in_range (p_to_l r) node) as (sq & Hsq); [lia|].
    pose proof (getitem_Forall _ _ _ _ Fp Hsq) as Hsqr; cbn beta in Hsqr.
    unfold swap_step; rewrite Hsq; cbn [bind].
    rewrite setitem_in_range by lia; cbn [bind].
    rewrite setitem_in_range by (rewrite len_update; lia); cbn [bind].
    rewrite setitem_in_range by lia; cbn [bind].
    rewrite setitem_in_range by (rewrite len_update; lia); cbn [bind].
    eexists _, _; split; [reflexivity|]; split; [reflexivity|].
    unfold range_inv; cbn [l_to_p p_to_l].
    rewrite !len_update.
    repeat split; auto; repeat apply Forall_update; auto.
  Qed.

Lemma move_loop_ok q path : forall r qubit qubit_node sl n,
    range_inv q r -> 0 <= qubit < q -> 0 <= qubit_node < q ->
    Forall (fun x => 0 <= x < q) path ->
    exists sl' r',
      move_loop r qubit qubit_node path sl n =
        Ok (sl ++ sl', n + len path, r') /\
      len sl' = len path /\ range_inv q r'.
  Proof.
    induction path as [|node path IH]; intros r qubit qn sl n Hr Hq Hqn Hpath;
      cbn [move_loop].
    - exists [], r; rewrite app_nil_r.
      replace (n + len (@nil Z)) with n by (unfold len; cbn; lia); auto.
    - inv Hpath.
      destruct (swap_step_ok q r qubit qn node) as (sq & r1 & Hs & _ & Hr1);
        auto.
      rewrite Hs; cbn [bind]; cbv beta iota.
      destruct (IH r1 qubit node (sl ++ [(qubit, sq)]) (n + 1))
        as (sl' & r' & Hm & Hlen & Hr'); auto.
      exists ((qubit, sq) :: sl'), r'; split; [|split; auto].
      + etransitivity; [exact Hm|]. rewrite <- app_assoc; cbn [app].
        do 2 f_equal. f_equal. unfold len; cbn [List.length]; lia.
      + unfold len in *; cbn [List.length]; lia.
  Qed.

Lemma move_through_path_ok q r qubit qubit_node path :
    range_inv q r -> 0 <= qubit < q -> 0 <= qubit_node < q ->
    Forall (fun x => 0 <= x < q) path ->
    exists sl r',
      move_through_path r qubit qubit_node path = Ok (sl, len path, r') /\
      len sl = len path /\ range_inv q r'.
  Proof.
    intros Hr Hq Hqn Hp; unfold move_through_path.
    destruct (move_loop_ok q path r qubit qubit_node [] 0 Hr Hq Hqn Hp)
      as (sl & r' & H & Hlen & Hr').
    exists sl, r'; auto.
  Qed.

  (** ** The three ways of splitting the shortest path *)

Lemma strategy_cases r begin c t g :
    exists s g', Router.swap_strategy_by_lookahead r begin c t g = Ok (s, g') /\
                 (s = c \/ s = t \/ s = -1).
  Proof.
    unfold Router.swap_strategy_by_lookahead.
    destruct (_ && _).
    - unfold choice, randbelow. cbn [List.length].
      destruct g as [|d g'].
      + cbn; eauto.
      + assert (Hd : (Nat.modulo d 3 < 3)%nat) by (apply Nat.mod_upper_bound; lia).
        destruct (Nat.modulo d 3) as [|[|[|k]]]; cbn; eauto 6; lia.
    - destruct (_ || _); [eauto 6|].
      destruct (_ || _); eauto 6.
  Qed.

Lemma length_removelast {A} (l : list A) :
    List.length (removelast l) = (List.length l - 1)%nat.
  Proof.
    destruct l as [|a l]; [reflexivity|].
    rewrite removelast_firstn_len, length_firstn; lia.
  Qed.

Lemma length_tl {A} (l : list A) :
    List.length (tl l) = (List.length l - 1)%nat.
  Proof. destruct l; cbn; lia. Qed.

Lemma Forall_tl {A} (P : A -> Prop) l : Forall P l -> Forall P (tl l).
  Proof. intros H; destruct H; cbn; auto. Qed.

Lemma Forall_firstn {A} (P : A -> Prop) k l :
    Forall P l -> Forall P (firstn k l).
  Proof.
    intros H; rewrite <- (firstn_skipn k l) in H.
    now apply Forall_app in H.
  Qed.

Lemma Forall_skipn {A} (P : A -> Prop) k l :
    Forall P l -> Forall P (skipn k l).
  Proof.
    intros H; rewrite <- (firstn_skipn k l) in H.
    now apply Forall_app in H.
  Qed.

Lemma Forall_removelast {A} (P : A -> Prop) l :
    Forall P l -> Forall P (removelast l).
  Proof.
    intros H; destruct l as [|a l]; [constructor|].
    rewrite removelast_firstn_len; now apply Forall_firstn.
  Qed.

Lemma Forall_slice {A} (P : A -> Prop) (l : list A) lo hi :
    Forall P l -> Forall P (slice l lo hi).
  Proof. intros H; unfold slice; now apply Forall_firstn, Forall_skipn. Qed.

  (** Whatever the strategy, the two walks together visit the interior of
      the path once. *)
Lemma split_paths_total (P : list Z) (s c t : Z) (k : Z) :
    len P = k + 1 -> 1 <= k -> 0 <= c -> 0 <= t ->
    s = c \/ s = t \/ s = -1 ->
    exists cp tp, split_paths P s c t = Some (cp, tp) /\
                  len cp + len tp = k - 1.
  Proof.
    intros HP Hk Hc Ht Hs; unfold split_paths.
    assert (Hinner : len (slice P (Some 1) (Some (-1))) = k - 1).
    { rewrite slice_inner. unfold len in *.
      rewrite length_removelast, length_tl; lia. }
    destruct (s =? t) eqn:Est.
    { eexists _, _; split; [reflexivity|].
      unfold len in *; rewrite length_rev; cbn [List.length]; lia. }
    destruct (s =? c) eqn:Esc.
    { eexists _, _; split; [reflexivity|].
      unfold len in *; cbn [List.length]; lia. }
    assert (s = -1) by lia; subst s.
    replace (-1 =? -1) with true by reflexivity.
    eexists _, _; split; [reflexivity|].
    set (ce := if len P mod 2 =? 0 then len P / 2 else (len P + 1) / 2).
    assert (Hce : 1 <= ce <= k).
    { unfold ce; rewrite HP.
      destruct ((k + 1) mod 2 =? 0) eqn:E.
      - apply Z.eqb_eq in E.
        pose proof (Z.div_mod (k + 1) 2 ltac:(lia)); lia.
      - apply Z.eqb_neq in E.
        pose proof (Z.div_mod (k + 1) 2 ltac:(lia)).
        pose proof (Z.mod_pos_bound (k + 1) 2 ltac:(lia)).
        assert ((k + 1) mod 2 = 1) by lia.
        pose proof (Z.div_mod (k + 1 + 1) 2 ltac:(lia)).
        pose proof (Z.mod_pos_bound (k + 1 + 1) 2 ltac:(lia)).
        lia. }
    rewrite slice_tail, slice_init, slice_upto, slice_from by lia.
    unfold len in *.
    rewrite length_tl, length_removelast, length_firstn, length_skipn.
    lia.
  Qed.

Lemma split_paths_Forall (Q : Z -> Prop) (P : list Z) s c t cp tp :
    Forall Q P -> split_paths P s c t = Some (cp, tp) ->
    Forall Q cp /\ Forall Q tp.
  Proof.
    intros HP; unfold split_paths.
    destruct (s =? t).
    { intros H; inv H; split; [constructor|].
      apply Forall_rev, Forall_slice, HP. }
    destruct (s =? c).
    { intros H; inv H; split; [|constructor]. apply Forall_slice, HP. }
    destruct (s =? -1); [|discriminate].
    intros H; inv H; split; repeat apply Forall_slice; assumption.
  Qed.

End Moves.

(** Whatever the branch, walking the two halves of a path of [k] edges
    records [k - 1] SWAPs. *)
Lemma apply_cnot_swaps_along_path :
  forall (q : Z) (r : Router.t) (c t i : Z) (g : rng) (u v : Z)
         (P : list Z) (k : Z),
    range_inv q r -> 0 <= c < q -> 0 <= t < q ->
    getitem (Router.l_to_p r) c = Ok u ->
    getitem (Router.l_to_p r) t = Ok v ->
    UUG.are_adjacent (Router.topology r) u v = Ok false ->
    UUG.get_shortest_path (Router.topology r) u v = Ok P ->
    Forall (fun x => 0 <= x < q) P ->
    len P = k + 1 -> 1 <= k ->
    exists control_swaps target_swaps r' g',
      Router.apply_cnot r c t i g =
        Ok ([control_swaps; target_swaps], k - 1, r', g') /\
      len control_swaps + len target_swaps = k - 1.
Proof.
  intros q r c t i g u v P k Hr Hc Ht Hu Hv Hadj Hsp HP Hlen Hk.
  destruct (strategy_cases r i c t g) as (s & g' & Hs & Hcases).
  destruct (split_paths_total P s c t k Hlen Hk) as (cp & tp & Hsplit & Htot);
    try lia; auto.
  destruct (split_paths_Forall _ _ _ _ _ _ _ HP Hsplit) as (Hcp & Htp).
  destruct Hr as (Hl & Hp & Fl & Fp).
  pose proof (getitem_Forall _ _ _ _ Fl Hu) as Hur; cbn beta in Hur.
  pose proof (getitem_Forall _ _ _ _ Fl Hv) as Hvr; cbn beta in Hvr.
  destruct (move_through_path_ok q r c u cp) as (cs & r1 & Hm1 & Hl1 & Hr1);
    auto; [repeat split; auto|].
  destruct (move_through_path_ok q r1 t v tp) as (ts & r2 & Hm2 & Hl2 & Hr2);
    auto.
  exists cs, ts, r2, g'.
  unfold Router.apply_cnot.
  rewrite Hu, Hv; cbn [bind]. rewrite Hadj; cbn [bind].
  rewrite Hsp; cbn [bind]. rewrite Hs; cbn [bind]; cbv beta iota.
  rewrite Hsplit, Hm1; cbn [bind]; cbv beta iota.
  rewrite Hm2; cbn [bind]; cbv beta iota.
  split; [|lia].
  do 4 f_equal; lia.
Qed.
(* ================================================================== *)
(** * The refinement wrapper *)
(* ================================================================== *)

Lemma route_circuit_config r g n sw r' g' :
  Router.route_circuit r g = Ok (n, sw, r', g') -> same_config r r'.
Proof.
  unfold Router.route_circuit, Router.route_circuit_portion.
  generalize (slice (Router.cnots_list r) None
                    (Some (len (Router.cnots_list r)))) as todo.
  generalize 0 as k. generalize (@nil (list (list swap))) as acc.
  intros acc k todo; revert r g acc k.
  induction todo as [|[[c t] i] todo IH]; intros r g acc k H;
    cbn [Router.route_loop] in H.
  - inv H; apply same_config_refl.
  - bind_inv H x Hx. destruct x as [[[s1 k1] r1] g1].
    eapply same_config_trans;
      [eapply apply_cnot_config; eauto | eapply IH; eauto].
Qed.

(** The instance of the refinement scenario: on the line [0-1-2-3] this
    prefix costs 5 SWAPs from the identity placement and 7 from the placement
    the first routing ends in. *)
Definition prefix_5_7 : list triple :=
  [(1, 3, 0); (3, 0, 1); (3, 2, 2); (2, 0, 3); (0, 1, 4)].

(** Given the outcomes of the two routings, what [update_mapping]
    returns. *)
Lemma update_mapping_result :
  forall (topo : Nx.Graph) (m0 : Mapper.t) (cnots : list triple) (la : Z)
         (g : rng) (u : MapperUpdater.t)
         (n1 : Z) sw1 (r1 : Router.t) (g1 : rng)
         (new_router : Router.t) (n2 : Z) sw2 (r2 : Router.t) (g2 : rng),
    MapperUpdater.init topo m0 cnots la = Ok u ->
    Router.route_circuit (MapperUpdater.router u) g = Ok (n1, sw1, r1, g1) ->
    let m1 := Mapper.from_static_mapping topo cnots (Nx.number_of_nodes topo)
                (Router.l_to_p r1) (Router.p_to_l r1) in
    Router.init topo m1 cnots la = Ok new_router ->
    Router.route_circuit new_router g1 = Ok (n2, sw2, r2, g2) ->
    (* the first routing starts from [m0] and routes [cnots] *)
    Router.l_to_p (MapperUpdater.router u) = Mapper.l_to_p m0 /\
    Router.p_to_l (MapperUpdater.router u) = Mapper.p_to_l m0 /\
    Router.cnots_list (MapperUpdater.router u) = cnots /\
    (* the second one starts from the placement the first one ended in *)
    Router.l_to_p new_router = Router.l_to_p r1 /\
    Router.p_to_l new_router = Router.p_to_l r1 /\
    Router.cnots_list new_router = cnots /\
    MapperUpdater.update_mapping u g =
      Ok (if n2 <? n1 then m1 else m0, g2) /\
    (n1 = 5 -> n2 = 7 -> MapperUpdater.update_mapping u g = Ok (m0, g2)).
Proof.
  intros topo m0 cnots la g u n1 sw1 r1 g1 new_router n2 sw2 r2 g2
         Hu H1 m1 Hnew H2.
  unfold MapperUpdater.init in Hu.
  bind_inv Hu r0 Hr0. inv Hu. cbn [MapperUpdater.router] in *.
  pose proof (route_circuit_config _ _ _ _ _ _ H1) as (_ & Hla & _).
  assert (Hcfg0 : Router.l_to_p r0 = Mapper.l_to_p m0 /\
                  Router.p_to_l r0 = Mapper.p_to_l m0 /\
                  Router.cnots_list r0 = cnots /\ Router.lookahead r0 = la).
  { unfold Router.init in Hr0. bind_inv Hr0 gr Hgr. inv Hr0. auto. }
  destruct Hcfg0 as (Hl0 & Hp0 & Hc0 & Hla0).
  assert (Hcfg1 : Router.l_to_p new_router = Router.l_to_p r1 /\
                  Router.p_to_l new_router = Router.p_to_l r1 /\
                  Router.cnots_list new_router = cnots).
  { unfold Router.init in Hnew. bind_inv Hnew gr Hgr. inv Hnew. auto. }
  destruct Hcfg1 as (Hl1 & Hp1 & Hc1).
  assert (Hres : MapperUpdater.update_mapping
                   (MapperUpdater.mk r0 m0 topo cnots) g =
                 Ok (if n2 <? n1 then m1 else m0, g2)).
  { unfold MapperUpdater.update_mapping.
    cbn [MapperUpdater.router MapperUpdater.topology
         MapperUpdater.cnots_list MapperUpdater.initial_mapper].
    rewrite H1; cbn [bind]; cbv beta iota.
    rewrite Hla, Hla0. fold m1. rewrite Hnew; cbn [bind].
    rewrite H2; cbn [bind]; cbv beta iota.
    destruct (n2 <? n1); reflexivity. }
  repeat split; auto.
  intros -> ->. rewrite Hres. reflexivity.
Qed.

Module QISpec.
Import QubitInteractionsHandler.

(** Modelled on the specification's wording of
    [qubit_with_most_d_interactions_from_set], for comparison with the
    source: the top-[d] still-free partners of [i], by decreasing count. *)
Definition spec_top_d_free (h : t) (d : Z) (i : Z) : list (Z * Z) :=
  firstn (Z.to_nat d)
    (filter (fun e => set_mem (fst e) (free_qubits h) && negb (snd e =? 0))
       (sort_desc (pairs_of_row h (nth (Z.to_nat i) (interactions_count h) [])))).

Definition spec_d_score (h : t) (d : Z) (i : Z) : Z :=
  fold_right Z.add 0 (map snd (spec_top_d_free h d i)).

(** The lowest-index maximiser of the d-score over [S ∩ free_qubits]. *)
Fixpoint spec_argmax (h : t) (d : Z) (cands : list Z) (best : option (Z * Z))
  : option (Z * Z) :=
  match cands with
  | [] => best
  | i :: cands' =>
      let s := spec_d_score h d i in
      match best with
      | Some (_, sb) =>
          spec_argmax h d cands' (if s >? sb then Some (i, s) else best)
      | None => spec_argmax h d cands' (Some (i, s))
      end
  end.

Definition spec_qubit_with_most_d_interactions_from_set (h : t) (d : Z)
  (S : pyset) : option (Z * pyset) :=
  let cands :=
    filter (fun i => set_mem i S && set_mem i (free_qubits h)) (n h) in
  match spec_argmax h d cands None with
  | Some (i, _) => Some (i, set_of_list (map fst (spec_top_d_free h d i)))
  | None => None
  end.
End QISpec.

(* ================================================================== *)
(** * Worked examples *)
(* ================================================================== *)

(** [v] can be reached from [u] along edges of the graph. *)
Inductive connected (g : Nx.Graph) : Z -> Z -> Prop :=
| connected_refl u : connected g u u
| connected_step u v w :
    Nx.has_edge g u v = true -> connected g v w -> connected g u w.

(** One CNOT between the two ends of the line [0-1-2-3-4-5]. *)
Definition tape_far : Transform.QuantumTape :=
  Transform.mkTape [Transform.mkOp "CNOT" [0; 5]] [0; 5].

Definition router_far : Router.t :=
  match Router.init (line 6) (Mapper.init (line 6) [(0, 5, 0)] 6)
                    [(0, 5, 0)] 10 with
  | Ok r => r
  | Raise _ => Router.mk [] [] [] 0 (UUG.init 0)
  end.

(** C1.  On the line of six nodes with the identity placement, the CNOT on
    wires 0 and 5 is routed by the split-evenly branch over the path
    [0,1,2,3,4,5]: the control walks [1,2] and the target walks [3,4] in that
    order, so the first SWAP of the target is recorded between the occupants
    of nodes 5 and 3 and the driver emits a SWAP on wires 5 and 3, which no
    edge joins. *)
Theorem split_evenly_swaps_non_adjacent_nodes :
  forall order : SetIteration,
  Router.route_circuit router_far [] =
    Ok (4, [[[(0, 1); (0, 2)]; [(5, 3); (5, 4)]]],
        Router.mk [2; 0; 1; 5; 3; 4] [1; 2; 0; 4; 5; 3] [(0, 5, 0)] 10
                  (Router.topology router_far), []) /\
  Transform.apply_routing tape_far (line 6) "basic" [] =
    Ok ([Transform.SWAP 0 1; Transform.SWAP 1 2; Transform.SWAP 5 3;
         Transform.SWAP 3 4; Transform.mkOp "CNOT" [2; 4]], 6, []) /\
  Nx.has_edge (line 6) 5 3 = false /\
  UUG.are_adjacent (Router.topology router_far) 5 3 = Ok false.
Proof. intros order; repeat split; vm_compute; reflexivity. Qed.

(** C2.  In the same run, after the triple [(0, 5, 0)] has been processed
    the control sits on node 2 and the target on node 4, which are not
    adjacent. *)
Theorem split_evenly_leaves_pair_apart :
  exists n sw r' g',
    Router.route_circuit router_far [] = Ok (n, sw, r', g') /\
    getitem (Router.l_to_p r') 0 = Ok 2 /\
    getitem (Router.l_to_p r') 5 = Ok 4 /\
    UUG.are_adjacent (Router.topology r') 2 4 = Ok false /\
    Nx.has_edge (line 6) 2 4 = false.
Proof.
  do 4 eexists; split; [vm_compute; reflexivity|].
  repeat split; vm_compute; reflexivity.
Qed.

(** Two disjoint edges: [0-1] and [2-3]. *)
Definition two_pairs : Nx.Graph := Nx.mkGraph (range 4) [(0, 1); (2, 3)].

Lemma two_pairs_component g u v :
  connected g u v -> g = two_pairs -> u = 0 \/ u = 1 -> v = 0 \/ v = 1.
Proof.
  induction 1 as [u|u v w He Hc IH]; intros -> Hu; [assumption|].
  apply IH; [reflexivity|].
  destruct Hu as [-> | ->]; vm_compute in He.
  - destruct v as [|[p|p|]|]; try discriminate; auto;
      destruct p; discriminate.
  - destruct v as [|p|p]; try discriminate; auto.
    destruct p as [p|p|]; try discriminate; destruct p; discriminate.
Qed.

(** C3.  Nodes 0 and 2 of the topology with the edges 0-1 and 2-3 lie in
    different components.  For the CNOT on wires 0 and 2 the router asks for
    a route between them: [get_shortest_path] returns the empty path, the
    router records no SWAP, keeps the placement and raises nothing, and the
    compilation returns the gate on nodes 0 and 2, which no edge joins. *)
Theorem no_path_is_not_reported :
  forall order : SetIteration,
  ~ connected two_pairs 0 2 /\
  Transform.apply_routing
    (Transform.mkTape [Transform.mkOp "CNOT" [0; 2]] [0; 2])
    two_pairs "basic" [] =
  Ok ([Transform.mkOp "CNOT" [0; 2]], 4, []) /\
  Nx.has_edge two_pairs 0 2 = false /\
  exists r,
    Router.init two_pairs (Mapper.init two_pairs [(0, 2, 0)] 4)
                [(0, 2, 0)] 10 = Ok r /\
    UUG.get_shortest_path (Router.topology r) 0 2 = Ok [] /\
    UUG.are_adjacent (Router.topology r) 0 2 = Ok false /\
    Router.route_circuit r [] = Ok (0, [[[]; []]], r, []) /\
    getitem (Router.l_to_p r) 0 = Ok 0 /\
    getitem (Router.l_to_p r) 2 = Ok 2.
Proof.
  intros order. split.
  { intros H.
    destruct (two_pairs_component _ _ _ H eq_refl (or_introl eq_refl));
      discriminate. }
  split; [vm_compute; reflexivity|].
  split; [reflexivity|].
  eexists. split; [vm_compute; reflexivity|].
  repeat split; vm_compute; reflexivity.
Qed.

(** C7.  On the line [0-1-2-3] with the CNOTs [(0,1)] and [(0,2)] the
    construction of the MAJORITY mapper does not complete: building the heap
    of the physical nodes calls [connectivity.adj(u)] and raises
    [TypeError], as it does on every topology that has a node. *)
Theorem majority_mapper_does_not_complete :
  MajorityMapper.init (line 4) [(0, 1, 0); (0, 2, 1)] 4 = Raise TypeError /\
  (forall g cnots q m,
     Nx.nodes g <> [] -> MajorityMapper.init g cnots q <> Ok m).
Proof.
  split; [vm_compute; reflexivity|].
  intros g cnots q m Hne H.
  unfold MajorityMapper.init, MajorityMapper.init_with in H.
  bind_inv H interact Hi.
  destruct (Nx.nodes g) as [|u us]; [congruence|].
  cbn in H; discriminate.
Qed.

(** With the neighbours of a node read as [graph.adj[u]] the same input
    gives the placement the scenario describes: logical qubit 0 on node 1. *)
Lemma majority_mapper_with_degrees :
  exists m,
    MajorityMapper.init_with Nx.neighbors (line 4) [(0, 1, 0); (0, 2, 1)] 4
      = Ok m /\
    getitem (Mapper.l_to_p m) 0 = Ok 1.
Proof. eexists; split; vm_compute; reflexivity. Qed.


(** Three qubits with [C[0][1] = 2] and [C[0][2] = 1], qubit 1 already
    placed. *)
Definition handler_1_placed : QubitInteractionsHandler.t :=
  match QubitInteractionsHandler.init [(0, 1, 0); (0, 1, 1); (0, 2, 2)] 3 with
  | Ok h => QubitInteractionsHandler.map_qubit h 1
  | Raise _ => QubitInteractionsHandler.mk 0 [] []
  end.

(** C9.  The score of the selection is not the sum over the top-[d]
    still-free partners that its comment announces: the loop reads the first
    [d] entries of the sorted row and drops those whose partner is placed,
    where [__get_first_d_free_non_zero] skips them.  From [S = {0, 2}] and
    [d = 1] it returns qubit 2 where the lowest-index maximiser of the
    announced sum is qubit 0.  The selection also considers qubits of [S]
    that are no longer free: it returns the placed qubit 1 from
    [S = {1, 2}]. *)
Lemma selection_differs_from_specification :
  QubitInteractionsHandler.free_qubits handler_1_placed = [0; 2] /\
  QubitInteractionsHandler.qubit_with_most_d_interactions_from_set
    handler_1_placed 1 [1; 2] = Ok (1, [0]) /\
  QISpec.spec_qubit_with_most_d_interactions_from_set
    handler_1_placed 1 [1; 2] = Some (2, [0]) /\
  QubitInteractionsHandler.qubit_with_most_d_interactions_from_set
    handler_1_placed 1 [0; 2] = Ok (2, [0]) /\
  QISpec.spec_qubit_with_most_d_interactions_from_set
    handler_1_placed 1 [0; 2] = Some (0, [2]).
Proof. repeat split; vm_compute; reflexivity. Qed.
(* ================================================================== *)
(** * The permutation invariant *)
(* ================================================================== *)

Section Placement.

Lemma len_range q : len (range q) = Z.max 0 q.
Proof. unfold len, range; rewrite length_map, length_seq; lia. Qed.

Lemma In_range q x : In x (range q) <-> 0 <= x < q.
Proof.
  unfold range; rewrite in_map_iff; split.
  - intros (k & <- & Hk); apply in_seq in Hk; lia.
  - intros H; exists (Z.to_nat x); split; [lia|]. apply in_seq; lia.
Qed.

Lemma NoDup_range q : NoDup (range q).
Proof.
  unfold range; apply Finite.Injective_map_NoDup; [|apply seq_NoDup].
  intros a b; lia.
Qed.

Lemma nth_error_range q k :
  (k < Z.to_nat q)%nat -> nth_error (range q) k = Some (Z.of_nat k).
Proof.
  intros H; unfold range; rewrite nth_error_map, nth_error_seq.
  destruct (Nat.ltb_spec k (Z.to_nat q)); [reflexivity|lia].
Qed.

Lemma getitem_range q x : 0 <= x < q -> getitem (range q) x = Ok x.
Proof.
  intros H; apply getitem_nth_error; [lia|].
  rewrite nth_error_range by lia. f_equal; lia.
Qed.

(** A list of [q] entries in which every index of [0 .. q-1] occurs is a
    permutation of them. *)
Lemma surjective_Permutation q (l : list Z) :
  len l = Z.max 0 q -> (forall y, 0 <= y < q -> In y l) ->
  Permutation l (range q).
Proof.
  intros Hlen Hsurj; symmetry.
  apply NoDup_Permutation_bis; [apply NoDup_range| |].
  - pose proof (len_range q); unfold len in *; lia.
  - intros y Hy; apply Hsurj, In_range, Hy.
Qed.

Lemma Permutation_range_facts q (l : list Z) :
  Permutation l (range q) ->
  len l = Z.max 0 q /\ (forall y, In y l <-> 0 <= y < q).
Proof.
  intros H; split.
  - rewrite <- len_range; unfold len; f_equal.
    now apply Permutation_length.
  - intros y; rewrite <- In_range; split; apply Permutation_in;
      [assumption | now symmetry].
Qed.

(** An array with a left inverse is a placement. *)
Lemma left_inverse_perm_inv q (l p : list Z) :
  len l = Z.max 0 q -> len p = Z.max 0 q ->
  (forall x, 0 <= x < q ->
     exists u, 0 <= u < q /\ getitem l x = Ok u /\ getitem p u = Ok x) ->
  perm_inv q l p.
Proof.
  intros Hl Hp Hinv.
  assert (Pp : Permutation p (range q)).
  { apply surjective_Permutation; [assumption|].
    intros y Hy; destruct (Hinv y Hy) as (u & _ & _ & Hu).
    eapply getitem_In; eauto. }
  assert (Pl : Permutation l (range q)).
  { apply NoDup_Permutation_bis.
    - apply NoDup_nth_error; intros i j Hi Hij.
      assert (Hiq : 0 <= Z.of_nat i < q) by (unfold len in Hl; lia).
      destruct (Hinv _ Hiq) as (u & Hu & Hli & Hpu).
      apply getitem_nth_error in Hli; [|lia]. rewrite Nat2Z.id in Hli.
      rewrite Hli in Hij. symmetry in Hij.
      assert (Hj : (j < List.length l)%nat)
        by (apply nth_error_Some; congruence).
      assert (Hjq : 0 <= Z.of_nat j < q) by (unfold len in Hl; lia).
      destruct (Hinv _ Hjq) as (u' & Hu' & Hlj & Hpu').
      apply getitem_nth_error in Hlj; [|lia]. rewrite Nat2Z.id in Hlj.
      assert (u' = u) by congruence; subst u'.
      assert (Z.of_nat i = Z.of_nat j) by congruence. lia.
    - pose proof (len_range q); unfold len in *; lia.
    - intros y Hy. apply In_range.
      apply In_nth_error in Hy as (k & Hk).
      assert (Hkl : (k < List.length l)%nat)
        by (apply nth_error_Some; congruence).
      assert (Hkq : 0 <= Z.of_nat k < q) by (unfold len in Hl; lia).
      destruct (Hinv _ Hkq) as (u & Hu & Hlk & _).
      apply getitem_nth_error in Hlk; [|lia]. rewrite Nat2Z.id in Hlk.
      congruence. }
  repeat split; auto.
  - intros x Hx; destruct (Hinv x Hx) as (u & _ & H1 & H2); eauto.
  - intros u Hu.
    destruct (Permutation_range_facts _ _ Pl) as (_ & Hin).
    apply Hin, In_nth_error in Hu as (k & Hk).
    assert (Hkl : (k < List.length l)%nat)
      by (apply nth_error_Some; congruence).
    assert (Hkq : 0 <= Z.of_nat k < q) by (unfold len in Hl; lia).
    destruct (Hinv _ Hkq) as (u' & Hu' & Hlk & Hpk).
    pose proof Hlk as Hlk'.
    apply getitem_nth_error in Hlk'; [|lia]. rewrite Nat2Z.id in Hlk'.
    assert (u' = u) by congruence; subst u'.
    exists (Z.of_nat k); auto.
Qed.

Lemma perm_inv_facts q l p :
  perm_inv q l p ->
  len l = Z.max 0 q /\ len p = Z.max 0 q /\
  Forall (fun x => 0 <= x < q) l /\ Forall (fun x => 0 <= x < q) p.
Proof.
  intros (Pl & Pp & _ & _).
  destruct (Permutation_range_facts _ _ Pl) as (Hl & Il).
  destruct (Permutation_range_facts _ _ Pp) as (Hp & Ip).
  repeat split; auto; apply Forall_forall; intros x Hx;
    [apply Il | apply Ip]; assumption.
Qed.

Lemma perm_inv_identity q : perm_inv q (range q) (range q).
Proof.
  repeat split; auto; intros x Hx; exists x;
    rewrite getitem_range by assumption; auto.
Qed.

Lemma getitem_update (l : list Z) i j v :
  0 <= i < len l -> 0 <= j ->
  getitem (update l (Z.to_nat i) v) j =
    if j =? i then Ok v else getitem l j.
Proof.
  intros Hi Hj; destruct (Z.eqb_spec j i) as [->|Hne].
  - now apply getitem_update_eq.
  - apply getitem_update_neq; lia.
Qed.

(** One SWAP of the router keeps the invariant and moves the qubit to
    [node]. *)
Lemma swap_step_perm_inv q r qubit qubit_node node :
  perm_inv q (Router.l_to_p r) (Router.p_to_l r) ->
  0 <= qubit < q -> 0 <= node < q ->
  getitem (Router.l_to_p r) qubit = Ok qubit_node ->
  exists swap_qubit r',
    Router.swap_step r qubit qubit_node node = Ok ((qubit, swap_qubit), r') /\
    perm_inv q (Router.l_to_p r') (Router.p_to_l r') /\
    getitem (Router.l_to_p r') qubit = Ok node.
Proof.
  intros Hinv Hq Hn Hqn.
  destruct (perm_inv_facts _ _ _ Hinv) as (Hl & Hp & Fl & Fp).
  rewrite Z.max_r in Hl, Hp by lia.
  pose proof (getitem_Forall _ _ _ _ Fl Hqn) as Hqnr; cbn beta in Hqnr.
  destruct (swap_step_ok q r qubit qubit_node node)
    as (sq & r' & Hs & Hsq & Hr'); auto; [repeat split; auto|].
  pose proof (getitem_Forall _ _ _ _ Fp Hsq) as Hsqr; cbn beta in Hsqr.
  exists sq, r'; split; [assumption|].
  destruct Hinv as (_ & _ & Hlp & Hpl).
  (* the arrays after the step *)
  unfold Router.swap_step in Hs. rewrite Hsq in Hs; cbn [bind] in Hs.
  rewrite setitem_in_range in Hs by lia; cbn [bind] in Hs.
  rewrite setitem_in_range in Hs by (rewrite len_update; lia);
    cbn [bind] in Hs.
  rewrite setitem_in_range in Hs by lia; cbn [bind] in Hs.
  rewrite setitem_in_range in Hs by (rewrite len_update; lia);
    cbn [bind] in Hs.
  inv Hs; cbn [Router.l_to_p Router.p_to_l].
  set (l' := update (update (Router.l_to_p r) _ _) _ _).
  set (p' := update (update (Router.p_to_l r) _ _) _ _).
  assert (Hl' : forall x, 0 <= x ->
            getitem l' x = if x =? sq then Ok qubit_node
                           else if x =? qubit then Ok node
                           else getitem (Router.l_to_p r) x).
  { intros x Hx; unfold l'.
    rewrite getitem_update by (rewrite ?len_update; lia).
    destruct (x =? sq); [reflexivity|].
    apply getitem_update; lia. }
  assert (Hp' : forall u, 0 <= u ->
            getitem p' u = if u =? qubit_node then Ok sq
                           else if u =? node then Ok qubit
                           else getitem (Router.p_to_l r) u).
  { intros u Hu; unfold p'.
    rewrite getitem_update by (rewrite ?len_update; lia).
    destruct (u =? qubit_node); [reflexivity|].
    apply getitem_update; lia. }
  (* facts on the arrays before the step *)
  destruct (Hpl node Hn) as (sq' & Hsq' & Hlsq).
  assert (sq' = sq) by congruence; subst sq'.
  destruct (Hlp qubit Hq) as (qn' & Hqn' & Hpqn).
  assert (qn' = qubit_node) by congruence; subst qn'.
  split; [|rewrite Hl' by lia].
  2:{ destruct (Z.eqb_spec qubit sq) as [->|Hne]; [|now rewrite Z.eqb_refl].
      congruence. }
  apply left_inverse_perm_inv.
  - unfold l'; rewrite !len_update; lia.
  - unfold p'; rewrite !len_update; lia.
  - intros x Hx. rewrite Hl' by lia.
    destruct (Z.eqb_spec x sq) as [->|Hxs].
    { exists qubit_node; repeat split; try lia.
      rewrite Hp' by lia; now rewrite Z.eqb_refl. }
    destruct (Z.eqb_spec x qubit) as [->|Hxq].
    { exists node; repeat split; try lia. rewrite Hp' by lia.
      destruct (Z.eqb_spec node qubit_node) as [->|Hnn];
        [congruence | now rewrite Z.eqb_refl]. }
    destruct (Hlp x Hx) as (u & Hu & Hpu).
    pose proof (getitem_Forall _ _ _ _ Fl Hu) as Hur; cbn beta in Hur.
    exists u; repeat split; try lia; auto. rewrite Hp' by lia.
    destruct (Z.eqb_spec u qubit_node) as [->|Hun]; [congruence|].
    destruct (Z.eqb_spec u node) as [->|Hun']; [congruence|assumption].
Qed.

Lemma last_cons (l : list Z) : forall a d, last (a :: l) d = last l a.
Proof.
  induction l as [|b l IH]; intros a d; [reflexivity|].
  change (last (a :: b :: l) d) with (last (b :: l) d).
  now rewrite !IH.
Qed.

(** Walking a qubit along any prefix of a path keeps the invariant: it holds
    after every single SWAP of [__move_through_path]. *)
Lemma move_loop_perm_inv q path : forall r qubit qubit_node sl n,
  perm_inv q (Router.l_to_p r) (Router.p_to_l r) ->
  0 <= qubit < q ->
  getitem (Router.l_to_p r) qubit = Ok qubit_node ->
  Forall (fun x => 0 <= x < q) path ->
  exists sl' r',
    Router.move_loop r qubit qubit_node path sl n =
      Ok (sl', n + len path, r') /\
    perm_inv q (Router.l_to_p r') (Router.p_to_l r') /\
    getitem (Router.l_to_p r') qubit = Ok (last path qubit_node).
Proof.
  induction path as [|node path IH]; intros r qubit qn sl n Hinv Hq Hqn HP;
    cbn [Router.move_loop].
  - exists sl, r. replace (n + len (@nil Z)) with n by (unfold len; cbn; lia).
    auto.
  - inv HP.
    destruct (swap_step_perm_inv q r qubit qn node)
      as (sq & r1 & Hs & Hinv1 & Hq1); auto.
    rewrite Hs; cbn [bind]; cbv beta iota.
    destruct (IH r1 qubit node (sl ++ [(qubit, sq)]) (n + 1))
      as (sl' & r' & Hm & Hinv' & Hq'); auto.
    exists sl', r'; split; [|split; auto].
    + etransitivity; [exact Hm|]. do 2 f_equal. f_equal.
      unfold len; cbn [List.length]; lia.
    + rewrite Hq'. f_equal. symmetry; apply last_cons.
Qed.

End Placement.
(* ================================================================== *)
(** * The RANDOM, BASIC and MAJORITY placements *)
(* ================================================================== *)

Section RandomPlacement.
Import RandomMapper.

Lemma length_exchange x i j : List.length (exchange x i j) = List.length x.
Proof. unfold exchange; now rewrite !length_update. Qed.

Lemma In_exchange x i j y :
  (i < List.length x)%nat -> (j < List.length x)%nat ->
  In y x -> In y (exchange x i j).
Proof.
  intros Hi Hj Hy. apply In_nth_error in Hy as (k & Hk).
  assert (Hxi : nth_error x i = Some (nth i x 0)) by now apply nth_error_nth'.
  assert (Hxj : nth_error x j = Some (nth j x 0)) by now apply nth_error_nth'.
  unfold exchange.
  destruct (Nat.eq_dec k i) as [->|Hki].
  - (* the entry at [i] goes to [j] *)
    apply nth_error_In with (n := j).
    rewrite nth_error_update_eq by (rewrite length_update; lia). congruence.
  - destruct (Nat.eq_dec k j) as [->|Hkj].
    + (* the entry at [j] goes to [i] *)
      apply nth_error_In with (n := i).
      rewrite nth_error_update_neq by lia.
      rewrite nth_error_update_eq by lia. congruence.
    + apply nth_error_In with (n := k).
      now rewrite !nth_error_update_neq by lia.
Qed.

Lemma shuffle_loop_spec positions : forall x g,
  Forall (fun i => (i < List.length x)%nat) positions ->
  List.length (fst (shuffle_loop positions x g)) = List.length x /\
  forall y, In y x -> In y (fst (shuffle_loop positions x g)).
Proof.
  induction positions as [|i rest IH]; intros x g HP; cbn [shuffle_loop].
  - auto.
  - inv HP. unfold randbelow.
    assert (Hj : forall d, (Nat.modulo d (S i) < List.length x)%nat).
    { intros d. pose proof (Nat.mod_upper_bound d (S i)); lia. }
    destruct g as [|d g'].
    + destruct (IH (exchange x i 0) []) as (Hlen & Hin).
      { rewrite length_exchange; assumption. }
      rewrite length_exchange in Hlen. split; [assumption|].
      intros y Hy; apply Hin, In_exchange; auto; lia.
    + destruct (IH (exchange x i (Nat.modulo d (S i))) g') as (Hlen & Hin).
      { rewrite length_exchange; assumption. }
      rewrite length_exchange in Hlen. split; [assumption|].
      intros y Hy; apply Hin, In_exchange; auto.
Qed.

Lemma shuffle_range q g : Permutation (fst (shuffle (range q) g)) (range q).
Proof.
  unfold shuffle.
  destruct (shuffle_loop_spec (rev (seq 1 (List.length (range q) - 1)))
                              (range q) g) as (Hlen & Hin).
  { apply Forall_rev, Forall_forall; intros i Hi. apply in_seq in Hi; lia. }
  apply surjective_Permutation.
  - unfold len; rewrite Hlen. apply len_range.
  - intros y Hy; apply Hin, In_range, Hy.
Qed.

Lemma physic_to_logical_loop_spec l : forall q0 p,
  NoDup l -> Forall (fun v => 0 <= v < len p) l ->
  exists p',
    Mapper.physic_to_logical_loop q0 l p = Ok p' /\ len p' = len p /\
    (forall k v, nth_error l k = Some v ->
                 getitem p' v = Ok (q0 + Z.of_nat k)) /\
    (forall u, 0 <= u -> ~ In u l -> getitem p' u = getitem p u).
Proof.
  induction l as [|v l IH]; intros q0 p Hnd HF;
    cbn [Mapper.physic_to_logical_loop].
  - exists p; repeat split; auto. intros [|k] v H; discriminate.
  - inv Hnd; inv HF.
    rewrite setitem_in_range by assumption; cbn [bind].
    destruct (IH (q0 + 1) (update p (Z.to_nat v) q0)) as (p' & Hp' & Hlen & Hin & Hout);
      auto.
    { rewrite len_update; assumption. }
    rewrite len_update in Hlen.
    exists p'; repeat split; auto.
    + intros [|k] w Hk; cbn [nth_error] in Hk.
      * inv Hk. rewrite Hout by (auto; lia).
        rewrite getitem_update_eq by assumption. f_equal; lia.
      * rewrite (Hin _ _ Hk). f_equal; lia.
    + intros u Hu Hnin. rewrite Hout by (auto; intros H; apply Hnin; now right).
      apply getitem_update_neq; try lia.
      intros ->; apply Hnin; now left.
Qed.

Lemma random_mapper_perm_inv connectivity cnots q g m g' :
  RandomMapper.init connectivity cnots q g = Ok (m, g') ->
  perm_inv q (Mapper.l_to_p m) (Mapper.p_to_l m).
Proof.
  unfold RandomMapper.init, compute_mapping, Mapper.init.
  cbn [Mapper.l_to_p Mapper.p_to_l Mapper.connectivity Mapper.cnots_list
       Mapper.qubits].
  pose proof (shuffle_range q g) as HP.
  destruct (shuffle (range q) g) as [l' g1]; cbn [fst] in HP.
  unfold Mapper.physic_to_logical; cbn [Mapper.l_to_p Mapper.p_to_l].
  destruct (Permutation_range_facts _ _ HP) as (Hlen & Hin).
  destruct (physic_to_logical_loop_spec l' 0 (range q))
    as (p' & Hp' & Hlenp & Hspec & _).
  { eapply Permutation_NoDup; [symmetry; eassumption | apply NoDup_range]. }
  { apply Forall_forall; intros v Hv. rewrite len_range. apply Hin in Hv; lia. }
  rewrite Hp'; cbn [bind]. intros H; inv H.
  cbn [Mapper.l_to_p Mapper.p_to_l].
  apply left_inverse_perm_inv; [assumption | rewrite Hlenp; apply len_range|].
  intros x Hx.
  destruct (getitem_in_range l' x) as (u & Hu); [lia|].
  exists u; repeat split; auto; try (apply Hin; eapply getitem_In; eauto).
  pose proof Hu as Hu'. apply getitem_nth_error in Hu'; [|lia].
  rewrite (Hspec _ _ Hu'). f_equal; lia.
Qed.

End RandomPlacement.

Lemma majority_mapper_perm_inv connectivity cnots q m :
  MajorityMapper.init connectivity cnots q = Ok m ->
  perm_inv q (Mapper.l_to_p m) (Mapper.p_to_l m).
Proof.
  unfold MajorityMapper.init, MajorityMapper.init_with; intros H.
  bind_inv H interact Hi.
  destruct (Nx.nodes connectivity) as [|u us]; [|cbn in H; discriminate].
  cbn [MajorityMapper.neighbour_sizes bind fold_left] in H.
  destruct (Z.to_nat q) as [|k] eqn:Eq.
  - cbn in H. inv H. cbn [Mapper.l_to_p Mapper.p_to_l].
    apply perm_inv_identity.
  - cbn [MajorityMapper.compute_loop] in H.
    destruct (MajorityMapper.heappop _) as [[o h]|]; cbn in H; discriminate.
Qed.
(* ================================================================== *)
(** * Sets as increasing lists, square tables *)
(* ================================================================== *)

(** The representation invariant of a set: strictly increasing. *)
Fixpoint increasing (s : list Z) : Prop :=
  match s with
  | [] => True
  | x :: s' => Forall (Z.lt x) s' /\ increasing s'
  end.

Section PySets.
Implicit Types (s : pyset) (x y : Z).

Lemma set_mem_In x s : set_mem x s = true <-> In x s.
Proof.
  unfold set_mem; rewrite existsb_exists; split.
  - intros (y & Hy & E); apply Z.eqb_eq in E; now subst.
  - intros H; exists x; split; [assumption | apply Z.eqb_refl].
Qed.

Lemma set_mem_false x s : set_mem x s = false <-> ~ In x s.
Proof.
  rewrite <- set_mem_In; destruct (set_mem x s); split; congruence.
Qed.

Lemma In_set_add y x s : In y (set_add x s) <-> y = x \/ In y s.
Proof.
  induction s as [|z s IH]; cbn [set_add].
  - cbn; intuition.
  - destruct (Z.ltb_spec x z); [cbn; intuition|].
    destruct (Z.eqb_spec x z) as [->|Hne]; [cbn; intuition|].
    cbn [In]; rewrite IH; intuition.
Qed.

Lemma increasing_set_add x s : increasing s -> increasing (set_add x s).
Proof.
  induction s as [|z s IH]; cbn [set_add increasing]; intros Hs.
  - split; [constructor|exact I].
  - destruct Hs as (Hz & Hs).
    destruct (Z.ltb_spec x z) as [Hlt|Hge].
    + cbn [increasing]; repeat split; auto.
      constructor; [assumption|].
      eapply Forall_impl; [|exact Hz]. cbn; intros; lia.
    + destruct (Z.eqb_spec x z) as [->|Hne]; [cbn; auto|].
      cbn [increasing]; split; [|auto].
      apply Forall_forall; intros y Hy. apply In_set_add in Hy as [->|Hy].
      * lia.
      * rewrite Forall_forall in Hz; auto.
Qed.

Lemma In_set_discard y x s : In y (set_discard x s) <-> In y s /\ y <> x.
Proof.
  unfold set_discard; rewrite filter_In.
  destruct (Z.eqb_spec y x); cbn; intuition congruence.
Qed.

Lemma increasing_filter f s : increasing s -> increasing (filter f s).
Proof.
  induction s as [|z s IH]; cbn [filter increasing]; [auto|].
  intros (Hz & Hs). destruct (f z); [|auto].
  cbn [increasing]; split; [|auto].
  apply Forall_forall; intros y Hy. apply filter_In in Hy as (Hy & _).
  rewrite Forall_forall in Hz; auto.
Qed.

Lemma increasing_set_discard x s :
  increasing s -> increasing (set_discard x s).
Proof. apply increasing_filter. Qed.

Lemma increasing_NoDup s : increasing s -> NoDup s.
Proof.
  induction s as [|z s IH]; cbn [increasing]; [constructor|].
  intros (Hz & Hs); constructor; [|auto].
  intros Hin. rewrite Forall_forall in Hz. specialize (Hz _ Hin); lia.
Qed.

Lemma set_discard_notin x s : ~ In x s -> set_discard x s = s.
Proof.
  unfold set_discard; induction s as [|z s IH]; cbn [filter]; [auto|].
  intros Hn. destruct (Z.eqb_spec z x) as [->|Hne].
  - exfalso; apply Hn; now left.
  - cbn; f_equal; apply IH; intros H; apply Hn; now right.
Qed.

Lemma length_set_discard x s :
  increasing s -> In x s ->
  S (List.length (set_discard x s)) = List.length s.
Proof.
  unfold set_discard; induction s as [|z s IH]; cbn [filter increasing In];
    [tauto|].
  intros (Hz & Hs) Hin.
  destruct (Z.eqb_spec z x) as [->|Hne]; cbn [negb List.length].
  - f_equal. fold (set_discard x s). rewrite set_discard_notin; auto.
    intros H; rewrite Forall_forall in Hz; specialize (Hz _ H); lia.
  - f_equal; apply IH; auto. destruct Hin; [congruence|assumption].
Qed.

Lemma set_add_last x s : Forall (fun y => y < x) s -> set_add x s = s ++ [x].
Proof.
  induction 1 as [|z s Hz Hs IH]; cbn [set_add app]; [reflexivity|].
  destruct (Z.ltb_spec x z); [lia|].
  destruct (Z.eqb_spec x z); [lia|]. now rewrite IH.
Qed.

Lemma increasing_range q : increasing (range q).
Proof.
  unfold range. generalize 0%nat as a.
  induction (Z.to_nat q) as [|k IH]; intros a; cbn [seq map increasing];
    [exact I|].
  split; [|apply IH].
  apply Forall_forall; intros y Hy.
  apply in_map_iff in Hy as (j & <- & Hj). apply in_seq in Hj; lia.
Qed.

Lemma increasing_app_bound l1 l2 x :
  increasing (l1 ++ x :: l2) -> Forall (fun y => y < x) l1.
Proof.
  induction l1 as [|z l1 IH]; cbn [app increasing]; [constructor|].
  intros (Hz & Hs); constructor; [|auto].
  rewrite Forall_forall in Hz. apply Hz, in_or_app; right; now left.
Qed.

Lemma set_of_list_increasing l : increasing l -> set_of_list l = l.
Proof.
  unfold set_of_list.
  enough (H : forall acc, increasing (acc ++ l) ->
              fold_left (fun s x => set_add x s) l acc = acc ++ l)
    by (intros Hl; apply (H [] Hl)).
  induction l as [|x l IH]; intros acc Hacc; cbn [fold_left].
  - now rewrite app_nil_r.
  - rewrite set_add_last by (eapply increasing_app_bound; eauto).
    rewrite IH; rewrite <- app_assoc; [reflexivity|assumption].
Qed.

Lemma set_of_list_range q : set_of_list (range q) = range q.
Proof. apply set_of_list_increasing, increasing_range. Qed.

Lemma increasing_length_bound q s :
  increasing s -> (forall x, In x s -> 0 <= x < q) -> len s <= Z.max 0 q.
Proof.
  intros Hs Hb. rewrite <- len_range. unfold len.
  apply inj_le, NoDup_incl_length; [now apply increasing_NoDup|].
  intros x Hx; apply In_range; auto.
Qed.

Lemma len_set_discard x s :
  increasing s -> In x s -> len (set_discard x s) = len s - 1.
Proof.
  intros Hs Hin; pose proof (length_set_discard x s Hs Hin).
  unfold len; lia.
Qed.

End PySets.

Lemma getitem_nth {A} (d : A) (l : list A) i :
  0 <= i < len l -> getitem l i = Ok (nth (Z.to_nat i) l d).
Proof.
  intros H; apply getitem_nth_error; [lia|].
  apply nth_error_nth'; unfold len in H; lia.
Qed.

Lemma nth_update_eq {A} (d : A) (l : list A) k v :
  (k < List.length l)%nat -> nth k (update l k v) d = v.
Proof.
  intros H. apply nth_error_nth. now apply nth_error_update_eq.
Qed.

Lemma nth_update_neq {A} (d : A) (l : list A) k k' v :
  k <> k' -> nth k' (update l k v) d = nth k' l d.
Proof.
  intros H. pose proof (nth_error_update_neq l k k' v H) as E.
  destruct (Nat.lt_ge_cases k' (List.length l)) as [Hlt|Hge].
  - rewrite (nth_error_nth' l d Hlt) in E. now apply nth_error_nth.
  - rewrite !nth_overflow; rewrite ?length_update; auto.
Qed.

Section Tables.
Context {A : Type}.
Implicit Types (m : list (list A)).

(** [m] has [n] rows of [n] entries. *)
Definition square (n : nat) m : Prop :=
  List.length m = n /\ Forall (fun row => List.length row = n) m.

Lemma square_repeat n (x : A) : square n (repeat (repeat x n) n).
Proof.
  split; [apply repeat_length|].
  apply Forall_forall; intros row Hr. apply repeat_spec in Hr; subst.
  apply repeat_length.
Qed.

Lemma square_row n m i :
  square n m -> (i < n)%nat -> List.length (nth i m []) = n.
Proof.
  intros (Hl & Hr) Hi. rewrite Forall_forall in Hr.
  apply Hr, nth_In; lia.
Qed.

Lemma square_mset n m i j x :
  square n m -> (i < n)%nat -> square n (UUG.mset m i j x).
Proof.
  intros (Hl & Hr) Hi; unfold UUG.mset; split.
  - now rewrite length_update.
  - apply Forall_update; [assumption|].
    rewrite length_update. apply square_row; [split|]; assumption.
Qed.

Lemma mget_mset (d : A) n m i j x i' j' :
  square n m -> (i < n)%nat -> (j < n)%nat ->
  UUG.mget d (UUG.mset m i j x) i' j' =
    if (Nat.eqb i i' && Nat.eqb j j')%bool then x else UUG.mget d m i' j'.
Proof.
  intros Hsq Hi Hj; unfold UUG.mget, UUG.mset.
  pose proof (square_row n m i Hsq Hi) as Hrow. destruct Hsq as (Hl & _).
  destruct (Nat.eqb_spec i i') as [<-|Hne]; cbn [andb].
  - rewrite nth_update_eq by lia.
    destruct (Nat.eqb_spec j j') as [<-|Hne'].
    + apply nth_update_eq; lia.
    + now apply nth_update_neq.
  - now rewrite nth_update_neq.
Qed.

Lemma get2_square (d : A) n m u v :
  square n m -> 0 <= u < Z.of_nat n -> 0 <= v < Z.of_nat n ->
  UUG.get2 m u v = Ok (UUG.mget d m (Z.to_nat u) (Z.to_nat v)).
Proof.
  intros Hsq Hu Hv; unfold UUG.get2, UUG.mget.
  pose proof (square_row n m (Z.to_nat u) Hsq ltac:(lia)) as Hrow.
  destruct Hsq as (Hl & _).
  rewrite (getitem_nth []) by (unfold len; lia); cbn [bind].
  apply getitem_nth; unfold len; lia.
Qed.

Lemma set2_square n m u v x :
  square n m -> 0 <= u < Z.of_nat n -> 0 <= v < Z.of_nat n ->
  UUG.set2 m u v x = Ok (UUG.mset m (Z.to_nat u) (Z.to_nat v) x).
Proof.
  intros Hsq Hu Hv; unfold UUG.set2, UUG.mset.
  pose proof (square_row n m (Z.to_nat u) Hsq ltac:(lia)) as Hrow.
  destruct Hsq as (Hl & _).
  rewrite (getitem_nth []) by (unfold len; lia); cbn [bind].
  rewrite setitem_in_range by (unfold len; lia); cbn [bind].
  apply setitem_in_range; unfold len; lia.
Qed.

End Tables.
(* ================================================================== *)
(** * The interaction index *)
(* ================================================================== *)

(** Well-formed interaction index over [q] qubits: the free qubits are a set
    of indices, the matrix is square with non-negative entries and its
    diagonal is zero. *)
Definition qi_wf (q : Z) (h : QubitInteractionsHandler.t) : Prop :=
  QubitInteractionsHandler.qubits h = q /\ 0 <= q /\
  increasing (QubitInteractionsHandler.free_qubits h) /\
  (forall x, In x (QubitInteractionsHandler.free_qubits h) -> 0 <= x < q) /\
  square (Z.to_nat q) (QubitInteractionsHandler.interactions_count h) /\
  (forall i j,
     0 <= UUG.mget 0 (QubitInteractionsHandler.interactions_count h) i j) /\
  (forall i, UUG.mget 0 (QubitInteractionsHandler.interactions_count h) i i = 0).

Section InteractionIndex.
Import QubitInteractionsHandler.

Lemma mget_repeat_zero n i j : UUG.mget 0 (repeat (repeat 0 n) n) i j = 0.
Proof.
  unfold UUG.mget.
  destruct (Nat.lt_ge_cases i n) as [Hi|Hi].
  - rewrite nth_repeat_lt by assumption.
    destruct (Nat.lt_ge_cases j n) as [Hj|Hj].
    + now rewrite nth_repeat_lt.
    + rewrite nth_overflow; [reflexivity | rewrite repeat_length; lia].
  - rewrite (nth_overflow (repeat _ _)) by (rewrite repeat_length; lia).
    now destruct j.
Qed.

Lemma count_interactions_spec q cnots : forall c,
  cnots_ok q cnots ->
  square (Z.to_nat q) c ->
  (forall i j, 0 <= UUG.mget 0 c i j) ->
  (forall i, UUG.mget 0 c i i = 0) ->
  exists c',
    count_interactions c cnots = Ok c' /\
    square (Z.to_nat q) c' /\
    (forall i j, 0 <= UUG.mget 0 c' i j) /\
    (forall i, UUG.mget 0 c' i i = 0).
Proof.
  induction cnots as [|[[a b] s] cnots IH]; intros c Hok Hsq Hnn Hdiag;
    cbn [count_interactions].
  - eauto.
  - destruct (Hok a b s (or_introl eq_refl)) as (Ha & Hb & Hab).
    set (n := Z.to_nat q) in *.
    rewrite (get2_square 0 n) by (auto; lia); cbn [bind].
    rewrite (set2_square n) by (auto; lia); cbn [bind].
    set (c1 := UUG.mset c _ _ _).
    assert (Hsq1 : square n c1) by (apply square_mset; [assumption|lia]).
    rewrite (get2_square 0 n) by (auto; lia); cbn [bind].
    rewrite (set2_square n) by (auto; lia); cbn [bind].
    set (c2 := UUG.mset c1 _ _ _).
    assert (Hsq2 : square n c2) by (apply square_mset; [assumption|lia]).
    assert (Hc1 : forall i j, UUG.mget 0 c1 i j =
              if (Nat.eqb (Z.to_nat a) i && Nat.eqb (Z.to_nat b) j)%bool
              then UUG.mget 0 c (Z.to_nat a) (Z.to_nat b) + 1
              else UUG.mget 0 c i j).
    { intros i j; unfold c1; apply (mget_mset 0 n); auto; lia. }
    assert (Hc2 : forall i j, UUG.mget 0 c2 i j =
              if (Nat.eqb (Z.to_nat b) i && Nat.eqb (Z.to_nat a) j)%bool
              then UUG.mget 0 c1 (Z.to_nat b) (Z.to_nat a) + 1
              else UUG.mget 0 c1 i j).
    { intros i j; unfold c2; apply (mget_mset 0 n); auto; lia. }
    apply IH; auto.
    + intros x y z Hin; apply (Hok x y z); now right.
    + intros i j; rewrite Hc2, !Hc1.
      pose proof (Hnn i j). pose proof (Hnn (Z.to_nat a) (Z.to_nat b)).
      pose proof (Hnn (Z.to_nat b) (Z.to_nat a)).
      repeat match goal with |- context [if ?b then _ else _] => destruct b end;
        lia.
    + intros i.
      assert (E2 : (Nat.eqb (Z.to_nat b) i && Nat.eqb (Z.to_nat a) i)%bool
                   = false).
      { destruct (Nat.eqb_spec (Z.to_nat b) i);
          destruct (Nat.eqb_spec (Z.to_nat a) i); cbn [andb]; auto; lia. }
      assert (E1 : (Nat.eqb (Z.to_nat a) i && Nat.eqb (Z.to_nat b) i)%bool
                   = false).
      { destruct (Nat.eqb_spec (Z.to_nat b) i);
          destruct (Nat.eqb_spec (Z.to_nat a) i); cbn [andb]; auto; lia. }
      rewrite Hc2, E2, Hc1, E1. apply Hdiag.
Qed.

Lemma qi_init_wf q cnots :
  0 <= q -> cnots_ok q cnots ->
  exists h, init cnots q = Ok h /\ qi_wf q h /\ free_qubits h = range q.
Proof.
  intros Hq Hok; unfold init.
  destruct (count_interactions_spec q cnots (repeat (repeat 0 (Z.to_nat q)) (Z.to_nat q)))
    as (c & Hc & Hsq & Hnn & Hdiag); auto.
  - apply square_repeat.
  - intros i j; rewrite mget_repeat_zero; lia.
  - intros i; apply mget_repeat_zero.
  - rewrite Hc; cbn [bind]. eexists; split; [reflexivity|].
    rewrite set_of_list_range.
    split; [|reflexivity].
    unfold qi_wf; cbn [qubits free_qubits interactions_count].
    split; [reflexivity|]. split; [assumption|].
    split; [apply increasing_range|].
    split; [intros x Hx; now apply In_range|]. auto.
Qed.

Lemma map_qubit_wf q h x :
  qi_wf q h -> qi_wf q (map_qubit h x) /\
  free_qubits (map_qubit h x) =
    if (0 <=? x) && (x <? q) then set_discard x (free_qubits h)
    else free_qubits h.
Proof.
  intros (Hq & Hq0 & Hinc & Hrng & Hsq & Hnn & Hd); unfold map_qubit.
  rewrite Hq. destruct ((0 <=? x) && (x <? q));
    [|split; [unfold qi_wf; auto 10 | reflexivity]].
  cbn [free_qubits]; split; [|reflexivity].
  unfold qi_wf; cbn [qubits free_qubits interactions_count].
  split; [auto|]. split; [assumption|].
  split; [now apply increasing_set_discard|].
  split; [|auto].
  intros y Hy; apply In_set_discard in Hy as (Hy & _); now apply Hrng.
Qed.

(** ** Sorting a row *)

Lemma insert_desc_Permutation x l : Permutation (insert_desc x l) (x :: l).
Proof.
  induction l as [|y l IH]; cbn [insert_desc]; [reflexivity|].
  destruct (snd y >? snd x); [|reflexivity].
  rewrite IH; apply perm_swap.
Qed.

Lemma sort_desc_Permutation l : Permutation (sort_desc l) l.
Proof.
  induction l as [|x l IH]; cbn [sort_desc fold_right]; [reflexivity|].
  fold (sort_desc l). rewrite insert_desc_Permutation. now constructor.
Qed.

Lemma len_pairs_of_row h row : len (pairs_of_row h row) = Z.max 0 (qubits h).
Proof.
  unfold pairs_of_row, len; rewrite length_map. apply len_range.
Qed.

Lemma len_sorted_row h row :
  len (sort_desc (pairs_of_row h row)) = Z.max 0 (qubits h).
Proof.
  rewrite <- (len_pairs_of_row h row). unfold len; f_equal.
  apply Permutation_length, sort_desc_Permutation.
Qed.

Lemma In_sorted_row h i y c :
  In (y, c) (sort_desc (pairs_of_row h (nth i (interactions_count h) []))) ->
  0 <= y < qubits h /\
  c = UUG.mget 0 (interactions_count h) i (Z.to_nat y).
Proof.
  intros H. apply (Permutation_in _ (sort_desc_Permutation _)) in H.
  unfold pairs_of_row in H. apply in_map_iff in H as (j & E & Hj).
  inv E. apply In_range in Hj. auto.
Qed.

(** ** The partner set *)

Lemma first_d_loop_spec free d l : forall res found,
  increasing res ->
  increasing (first_d_loop free d l res found) /\
  forall y, In y (first_d_loop free d l res found) ->
    In y res \/ (In y free /\ exists c, In (y, c) l /\ c <> 0).
Proof.
  induction l as [|[qb c] l IH]; intros res found Hres; cbn [first_d_loop].
  - auto.
  - destruct (Z.eqb_spec c 0) as [->|Hc]; [auto|].
    destruct (set_mem qb free) eqn:Hm.
    + apply set_mem_In in Hm.
      assert (Hstep : forall y, In y (set_add qb res) ->
                In y res \/ (In y free /\
                  exists c0, In (y, c0) ((qb, c) :: l) /\ c0 <> 0)).
      { intros y Hy; apply In_set_add in Hy as [->|Hy]; [right|now left].
        split; [assumption|]. exists c; split; [now left|assumption]. }
      destruct (found + 1 =? d).
      * split; [now apply increasing_set_add | assumption].
      * destruct (IH (set_add qb res) (found + 1)) as (Hinc & Hin);
          [now apply increasing_set_add|].
        split; [assumption|]. intros y Hy.
        destruct (Hin y Hy) as [Hy'|(Hf & c0 & Hc0 & Hne)]; [auto|].
        right; split; [assumption|]. exists c0; split; [now right|assumption].
    + destruct (IH res found Hres) as (Hinc & Hin).
      split; [assumption|]. intros y Hy.
      destruct (Hin y Hy) as [Hy'|(Hf & c0 & Hc0 & Hne)]; [auto|].
      right; split; [assumption|]. exists c0; split; [now right|assumption].
Qed.

(** The partners returned for qubit [i]: free qubits other than [i] that
    interact with [i]. *)
Lemma get_first_d_partners q h d i :
  qi_wf q h ->
  let nb := get_first_d_free_non_zero h d
              (sort_desc (pairs_of_row h (nth i (interactions_count h) []))) in
  increasing nb /\
  forall y, In y nb ->
    In y (free_qubits h) /\ y <> Z.of_nat i /\
    UUG.mget 0 (interactions_count h) i (Z.to_nat y) <> 0.
Proof.
  intros (Hq & Hq0 & Hinc & Hrng & Hsq & Hnn & Hd) nb.
  destruct (first_d_loop_spec (free_qubits h) d
              (sort_desc (pairs_of_row h (nth i (interactions_count h) [])))
              [] 0 I) as (Hi & Hin).
  split; [assumption|]. intros y Hy.
  destruct (Hin y Hy) as [[]|(Hf & c & Hc & Hne)].
  apply In_sorted_row in Hc as (Hy' & ->).
  repeat split; auto.
  intros ->. rewrite Nat2Z.id in Hne. now rewrite Hd in Hne.
Qed.

(** ** The score and the selection loop *)

Lemma sum_first_ok free pairs ks : forall total,
  Forall (fun k => 0 <= k < len pairs) ks ->
  Forall (fun e => 0 <= snd e) pairs ->
  exists v, sum_first free pairs ks total = Ok v /\ total <= v.
Proof.
  induction ks as [|k ks IH]; intros total Hks Hnn; cbn [sum_first].
  - exists total; split; [reflexivity|lia].
  - inv Hks. destruct (getitem_in_range pairs k) as (e & He); [assumption|].
    rewrite He; cbn [bind].
    pose proof (getitem_Forall _ _ _ _ Hnn He) as Hs; cbn beta in Hs.
    destruct (IH (if set_mem (fst e) free then total + snd e else total))
      as (v & Hv & Hle); auto.
    exists v; split; [assumption|]. destruct (set_mem (fst e) free); lia.
Qed.

Lemma score_ok q h d i :
  qi_wf q h -> 0 <= d <= q -> exists v, score h d i = Ok v /\ 0 <= v.
Proof.
  intros Hwf Hd; pose proof Hwf as (Hq & Hq0 & Hinc & Hrng & Hsq & Hnn & Hdg).
  unfold score. apply sum_first_ok.
  - apply Forall_forall; intros k Hk. apply In_range in Hk.
    rewrite len_sorted_row; lia.
  - apply Forall_forall; intros [y c] Hin; cbn [snd].
    apply In_sorted_row in Hin as (_ & ->). apply Hnn.
Qed.

(** What the selection loop computes: the first index of [idxs] lying in
    [target] whose score is maximal, provided that score exceeds the running
    maximum it starts from. *)
Lemma select_loop_spec q h d target : forall idxs max_i max_val,
  qi_wf q h -> 0 <= d <= q ->
  exists mi mv,
    select_loop h d target idxs max_i max_val = Ok (mi, mv) /\
    max_val <= mv /\
    (forall i, In i idxs -> In i target ->
       exists v, score h d (i) = Ok v /\ v <= mv) /\
    ((mi = max_i /\ mv = max_val) \/
     (exists l1 l2,
        idxs = l1 ++ mi :: l2 /\ In mi target /\ score h d mi = Ok mv /\
        max_val < mv /\
        forall i, In i l1 -> In i target ->
          exists v, score h d i = Ok v /\ v < mv)).
Proof.
  induction idxs as [|i idxs IH]; intros max_i max_val Hwf Hd;
    cbn [select_loop].
  - exists max_i, max_val; repeat split; auto; try lia.
    intros i [].
  - destruct (set_mem i target) eqn:Hm.
    + apply set_mem_In in Hm.
      destruct (score_ok q h d i Hwf Hd) as (v & Hv & Hv0).
      rewrite Hv; cbn [bind].
      destruct (Z.gtb_spec v max_val) as [Hgt|Hle].
      * destruct (IH i v Hwf Hd) as (mi & mv & Hs & Hle' & Hall & Hsel).
        exists mi, mv; split; [assumption|]. split; [lia|]. split.
        { intros j [<-|Hj] Hjt; [exists v; split; [assumption|lia] | auto]. }
        right. destruct Hsel as [(-> & ->)|(l1 & l2 & -> & Ht & Hsc & Hlt & Hbefore)].
        { exists [], idxs; repeat split; auto. intros j []. }
        { exists (i :: l1), l2; repeat split; auto; try lia.
          intros j [<-|Hj] Hjt; [exists v; split; [assumption|lia] | auto]. }
      * destruct (IH max_i max_val Hwf Hd) as (mi & mv & Hs & Hle' & Hall & Hsel).
        exists mi, mv; split; [assumption|]. split; [lia|]. split.
        { intros j [<-|Hj] Hjt; [exists v; split; [assumption|lia] | auto]. }
        destruct Hsel as [(-> & ->)|(l1 & l2 & -> & Ht & Hsc & Hlt & Hbefore)];
          [now left|right].
        exists (i :: l1), l2; repeat split; auto.
        intros j [<-|Hj] Hjt; [exists v; split; [assumption|lia] | auto].
    + apply set_mem_false in Hm.
      destruct (IH max_i max_val Hwf Hd) as (mi & mv & Hs & Hle' & Hall & Hsel).
      exists mi, mv; split; [assumption|]. split; [lia|]. split.
      { intros j [<-|Hj] Hjt; [contradiction | auto]. }
      destruct Hsel as [(-> & ->)|(l1 & l2 & -> & Ht & Hsc & Hlt & Hbefore)];
        [now left|right].
      exists (i :: l1), l2; repeat split; auto.
      intros j [<-|Hj] Hjt; [contradiction | auto].
Qed.

Lemma getitem_map_range {B} (f : Z -> B) q x :
  0 <= x < q -> getitem (map f (range q)) x = Ok (f x).
Proof.
  intros H; apply getitem_nth_error; [lia|].
  rewrite nth_error_map, nth_error_range by lia; cbn. do 2 f_equal; lia.
Qed.

End InteractionIndex.
(* ================================================================== *)
(** * The free-node index *)
(* ================================================================== *)

(** Well-formed free-node index over the nodes [0 .. q-1]: the free nodes
    are a set of nodes and every set of free neighbours is a set of free
    nodes. *)
Definition th_wf (q : Z) (h : FreeTopologyNodesHandler.t) : Prop :=
  FreeTopologyNodesHandler.nodes h = range q /\ 0 <= q /\
  increasing (FreeTopologyNodesHandler.free_nodes h) /\
  (forall x, In x (FreeTopologyNodesHandler.free_nodes h) -> 0 <= x < q) /\
  List.length (FreeTopologyNodesHandler.free_neighbours h) = Z.to_nat q /\
  (forall k,
     increasing (nth k (FreeTopologyNodesHandler.free_neighbours h) []) /\
     forall x, In x (nth k (FreeTopologyNodesHandler.free_neighbours h) []) ->
               In x (FreeTopologyNodesHandler.free_nodes h)).

Section FreeNodes.
Import FreeTopologyNodesHandler.

Lemma add_neighbours_spec (P : Z -> Prop) us : forall fn v,
  0 <= v < len fn -> Forall P us ->
  (forall k, increasing (nth k fn []) /\ forall x, In x (nth k fn []) -> P x) ->
  exists fn',
    add_neighbours fn v us = Ok fn' /\ List.length fn' = List.length fn /\
    (forall k, increasing (nth k fn' []) /\
               forall x, In x (nth k fn' []) -> P x).
Proof.
  induction us as [|u us IH]; intros fn v Hv Hus Hfn; cbn [add_neighbours].
  - eauto.
  - inv Hus.
    destruct (IH (update fn (Z.to_nat v) (set_add u (nth (Z.to_nat v) fn []))) v)
      as (fn' & Hfn' & Hlen & Hspec); auto.
    + now rewrite len_update.
    + intros k. destruct (Nat.eq_dec (Z.to_nat v) k) as [<-|Hne].
      * rewrite nth_update_eq by (unfold len in Hv; lia).
        destruct (Hfn (Z.to_nat v)) as (Hi & Hin).
        split; [now apply increasing_set_add|].
        intros x Hx; apply In_set_add in Hx as [->|Hx]; auto.
      * rewrite nth_update_neq by assumption. apply Hfn.
    + exists fn'; rewrite length_update in Hlen.
      rewrite (getitem_nth ([] : pyset)) by assumption; cbn [bind].
      rewrite setitem_in_range by assumption; cbn [bind].
      auto.
Qed.

Lemma fill_neighbours_spec (g : Nx.Graph) vs : forall fn,
  len fn = Nx.number_of_nodes g ->
  Nx.nodes g = range (Nx.number_of_nodes g) ->
  Forall (fun v => In v (Nx.nodes g)) vs ->
  (forall k, increasing (nth k fn []) /\
             forall x, In x (nth k fn []) -> In x (Nx.nodes g)) ->
  exists fn',
    fill_neighbours g fn vs = Ok fn' /\ List.length fn' = List.length fn /\
    (forall k, increasing (nth k fn' []) /\
               forall x, In x (nth k fn' []) -> In x (Nx.nodes g)).
Proof.
  induction vs as [|v vs IH]; intros fn Hlen Hnodes Hvs Hfn;
    cbn [fill_neighbours].
  - eauto.
  - apply Forall_cons_iff in Hvs as (Hv & Hvs). unfold Nx.neighbors.
    assert (Hm : existsb (Z.eqb v) (Nx.nodes g) = true).
    { apply existsb_exists; exists v; split; [assumption|apply Z.eqb_refl]. }
    destruct (add_neighbours_spec (fun x => In x (Nx.nodes g))
                (filter (Nx.has_edge g v) (Nx.nodes g)) fn v)
      as (fn1 & Hfn1 & Hlen1 & Hspec1); auto.
    + rewrite Hnodes in Hv. apply In_range in Hv. lia.
    + apply Forall_forall; intros x Hx. now apply filter_In in Hx.
    + destruct (IH fn1) as (fn' & Hfn' & Hlen' & Hspec'); auto.
      * unfold len in *; lia.
      * exists fn'. rewrite Hm; cbn [bind]. rewrite Hfn1; cbn [bind].
        split; [assumption|]. split; [lia|assumption].
Qed.

Lemma th_init_wf (g : Nx.Graph) :
  Nx.wf g ->
  exists h, init g = Ok h /\ th_wf (Nx.number_of_nodes g) h /\
            free_nodes h = range (Nx.number_of_nodes g).
Proof.
  intros (Hnodes & _); unfold init.
  set (q := Nx.number_of_nodes g) in *.
  assert (Hq : 0 <= q) by apply len_nonneg.
  destruct (fill_neighbours_spec g (Nx.nodes g)
              (repeat [] (List.length (Nx.nodes g))))
    as (fn & Hfn & Hlen & Hspec); auto.
  - unfold len; now rewrite repeat_length.
  - apply Forall_forall; auto.
  - intros k. destruct (Nat.lt_ge_cases k (List.length (Nx.nodes g))).
    + rewrite nth_repeat_lt by assumption. split; [exact I|intros x []].
    + rewrite nth_overflow by (rewrite repeat_length; lia).
      split; [exact I|intros x []].
  - rewrite Hfn; cbn [bind]. eexists; split; [reflexivity|].
    rewrite Hnodes, set_of_list_range. split; [|reflexivity].
    unfold th_wf; cbn [nodes free_nodes free_neighbours].
    split; [reflexivity|]. split; [assumption|].
    split; [apply increasing_range|].
    split; [intros x Hx; now apply In_range|].
    split.
    + rewrite Hlen, repeat_length. unfold q, Nx.number_of_nodes, len; lia.
    + intros k; destruct (Hspec k) as (Hi & Hin); split; [assumption|].
      intros x Hx. rewrite <- Hnodes; auto.
Qed.

Lemma sizes_spec q h vs :
  th_wf q h -> (forall v, In v vs -> 0 <= v < q) ->
  sizes h vs =
    Ok (map (fun v => (v, len (nth (Z.to_nat v) (free_neighbours h) []))) vs).
Proof.
  intros (_ & _ & _ & _ & Hlen & _) Hvs.
  induction vs as [|v vs IH]; cbn [sizes map]; [reflexivity|].
  rewrite (getitem_nth ([] : pyset))
    by (unfold len; specialize (Hvs v (or_introl eq_refl)); lia).
  cbn [bind]. rewrite IH by (intros; apply Hvs; now right). reflexivity.
Qed.

Lemma max_by_snd_In l : forall best, In (max_by_snd best l) (best :: l).
Proof.
  induction l as [|x l IH]; intros best; cbn [max_by_snd]; [now left|].
  destruct (IH (if snd x >? snd best then x else best)) as [E|Hin].
  - rewrite <- E. destruct (snd x >? snd best); [right; now left | now left].
  - right; now right.
Qed.

Lemma max_by_snd_max l : forall best y,
  In y (best :: l) -> snd y <= snd (max_by_snd best l).
Proof.
  induction l as [|x l IH]; intros best y Hy; cbn [max_by_snd].
  - destruct Hy as [->|[]]; lia.
  - assert (Hb : snd best <= snd (max_by_snd
                   (if snd x >? snd best then x else best) l)).
    { etransitivity; [|apply IH; now left].
      destruct (Z.gtb_spec (snd x) (snd best)); lia. }
    destruct Hy as [->|[->|Hy]]; [assumption| |apply IH; now right].
    etransitivity; [|apply IH; now left].
    destruct (Z.gtb_spec (snd y) (snd best)); lia.
Qed.

(** The node chosen among a non-empty set of candidates is one of them and
    has the most free neighbours. *)
Lemma node_with_most_spec q h cands :
  th_wf q h -> cands <> [] -> (forall v, In v cands -> 0 <= v < q) ->
  exists node,
    node_with_most_free_neighbours_set h cands =
      Ok (node, nth (Z.to_nat node) (free_neighbours h) []) /\
    In node cands /\
    forall v, In v cands ->
      len (nth (Z.to_nat v) (free_neighbours h) []) <=
      len (nth (Z.to_nat node) (free_neighbours h) []).
Proof.
  intros Hwf Hne Hc. unfold node_with_most_free_neighbours_set.
  rewrite (sizes_spec q) by assumption; cbn [bind].
  destruct cands as [|c cands]; [congruence|]. cbn [map].
  match goal with
  | |- context [max_by_snd ?b ?l] =>
      pose proof (max_by_snd_In l b) as Hin;
      pose proof (max_by_snd_max l b) as Hmax;
      set (best := max_by_snd b l) in *
  end.
  set (f := fun v : Z => (v, len (nth (Z.to_nat v) (free_neighbours h) [])))
    in *.
  change (In best (map f (c :: cands))) in Hin.
  apply in_map_iff in Hin as (node & Hnode & Hin).
  exists node. rewrite <- Hnode; cbn [fst f].
  destruct Hwf as (_ & _ & _ & _ & Hlen & _).
  unfold get_free_neighbours.
  rewrite (getitem_nth ([] : pyset))
    by (unfold len; specialize (Hc node Hin); lia).
  split; [reflexivity|]. split; [assumption|].
  intros v Hv.
  specialize (Hmax (f v)). rewrite <- Hnode in Hmax. cbn [snd f] in Hmax.
  apply Hmax. change (In (f v) (map f (c :: cands))). now apply in_map.
Qed.

Lemma set_discard_idem v s : set_discard v (set_discard v s) = set_discard v s.
Proof.
  apply set_discard_notin. intros H; apply In_set_discard in H as (_ & H).
  congruence.
Qed.

Lemma discard_everywhere_spec v ws : forall fn,
  (forall w, In w ws -> 0 <= w < len fn) ->
  exists fn',
    discard_everywhere fn v ws = Ok fn' /\
    List.length fn' = List.length fn /\
    forall k,
      (In (Z.of_nat k) ws -> nth k fn' [] = set_discard v (nth k fn [])) /\
      (~ In (Z.of_nat k) ws -> nth k fn' [] = nth k fn []).
Proof.
  induction ws as [|w ws IH]; intros fn Hws; cbn [discard_everywhere].
  - exists fn; repeat split; auto. intros [].
  - assert (Hw : 0 <= w < len fn) by (apply Hws; now left).
    set (fn1 := update fn (Z.to_nat w) (set_discard v (nth (Z.to_nat w) fn []))).
    destruct (IH fn1) as (fn' & Hfn' & Hlen & Hspec).
    { intros w' Hw'; unfold fn1; rewrite len_update; apply Hws; now right. }
    exists fn'; split.
    { rewrite (getitem_nth ([] : pyset)) by assumption; cbn [bind].
      rewrite setitem_in_range by assumption; cbn [bind].
      assumption. }
    split; [unfold fn1 in Hlen; now rewrite length_update in Hlen|].
    assert (Hfn1 : forall k, nth k fn1 [] =
              if Nat.eqb (Z.to_nat w) k then set_discard v (nth k fn [])
              else nth k fn []).
    { intros k; unfold fn1. destruct (Nat.eqb_spec (Z.to_nat w) k) as [<-|Hne].
      - apply nth_update_eq; unfold len in Hw; lia.
      - now apply nth_update_neq. }
    intros k; destruct (Hspec k) as (Hin & Hout); split.
    + intros Hk. destruct (in_dec Z.eq_dec (Z.of_nat k) ws) as [Hk'|Hk'].
      * rewrite (Hin Hk'), Hfn1.
        destruct (Nat.eqb (Z.to_nat w) k); [apply set_discard_idem|reflexivity].
      * destruct Hk as [Hk|Hk]; [|contradiction].
        rewrite (Hout Hk'), Hfn1.
        replace (Z.to_nat w) with k by lia. now rewrite Nat.eqb_refl.
    + intros Hk. rewrite Hout by (intros H; apply Hk; now right).
      rewrite Hfn1. destruct (Nat.eqb_spec (Z.to_nat w) k) as [<-|Hne];
        [|reflexivity].
      exfalso; apply Hk; left; lia.
Qed.

(** Occupying a free node removes it from the free nodes and from every set
    of free neighbours. *)
Lemma occupy_node_spec q h v :
  th_wf q h -> In v (free_nodes h) ->
  exists h',
    occupy_node h v = Ok h' /\ th_wf q h' /\
    free_nodes h' = set_discard v (free_nodes h) /\
    forall k, (k < Z.to_nat q)%nat ->
      nth k (free_neighbours h') [] =
      set_discard v (nth k (free_neighbours h) []).
Proof.
  intros (Hnodes & Hq & Hinc & Hrng & Hlen & Hfn) Hv. unfold occupy_node.
  unfold set_remove. rewrite (proj2 (set_mem_In v (free_nodes h)) Hv).
  cbn [bind].
  destruct (discard_everywhere_spec v (nodes h) (free_neighbours h))
    as (fn' & Hfn' & Hlen' & Hspec).
  { intros w Hw; rewrite Hnodes in Hw; apply In_range in Hw.
    unfold len; lia. }
  rewrite Hfn'; cbn [bind]. eexists; split; [reflexivity|].
  assert (Hnth : forall k, (k < Z.to_nat q)%nat ->
            nth k fn' [] = set_discard v (nth k (free_neighbours h) [])).
  { intros k Hk. apply (Hspec k). rewrite Hnodes. apply In_range; lia. }
  cbn [free_nodes free_neighbours nodes].
  split; [|split; [reflexivity|assumption]].
  unfold th_wf; cbn [free_nodes free_neighbours nodes].
  split; [assumption|]. split; [assumption|].
  split; [now apply increasing_set_discard|].
  split; [intros x Hx; apply In_set_discard in Hx as (Hx & _); auto|].
  split; [lia|].
  intros k. destruct (Nat.lt_ge_cases k (Z.to_nat q)) as [Hk|Hk].
  - rewrite (Hnth k Hk). destruct (Hfn k) as (Hi & Hin).
    split; [now apply increasing_set_discard|].
    intros x Hx. apply In_set_discard in Hx as (Hx & Hne).
    apply In_set_discard; auto.
  - rewrite nth_overflow by lia. split; [exact I|intros x []].
Qed.

End FreeNodes.
Section Selection.
Import QubitInteractionsHandler.

Lemma increasing_app_after l1 l2 x :
  increasing (l1 ++ x :: l2) -> Forall (Z.lt x) l2.
Proof.
  induction l1 as [|z l1 IH]; cbn [app increasing]; [tauto|].
  intros (_ & Hs); auto.
Qed.

(** The qubit returned by [qubit_with_most_d_interactions_from_set] when the
    target set holds a qubit index: the lowest index of the target set whose
    score is maximal, with the partner set of that qubit. *)
Lemma qubit_with_most_from_set_spec q h d target :
  qi_wf q h -> 0 <= d <= q ->
  (exists i, In i target /\ 0 <= i < q) ->
  exists cand sc,
    qubit_with_most_d_interactions_from_set h d target =
      Ok (cand,
          get_first_d_free_non_zero h d
            (sort_desc (pairs_of_row h
               (nth (Z.to_nat cand) (interactions_count h) [])))) /\
    In cand target /\ 0 <= cand < q /\ score h d cand = Ok sc /\
    forall i, In i target -> 0 <= i < q ->
      exists v, score h d i = Ok v /\ v <= sc /\ (v = sc -> cand <= i).
Proof.
  intros Hwf Hd (i0 & Hi0 & Hi0q).
  pose proof Hwf as (Hq & _).
  destruct (select_loop_spec q h d target (n h) (-1) (-1) Hwf Hd)
    as (mi & mv & Hs & _ & Hall & Hsel).
  unfold n in *; rewrite Hq in *.
  assert (Hi0r : In i0 (range q)) by now apply In_range.
  destruct Hsel as [(-> & ->)|(l1 & l2 & Hsplit & Ht & Hsc & _ & Hbefore)].
  { destruct (Hall i0 Hi0r Hi0) as (v & Hv & Hle).
    destruct (score_ok q h d i0 Hwf Hd) as (v' & Hv' & Hv0).
    assert (v = v') by congruence. lia. }
  assert (Hmi : 0 <= mi < q).
  { apply In_range. rewrite Hsplit. apply in_or_app; right; now left. }
  exists mi, mv. unfold qubit_with_most_d_interactions_from_set, n.
  rewrite Hq, Hs; cbn [bind]; cbv beta iota.
  unfold sorted_rows, n; rewrite Hq.
  rewrite getitem_map_range by assumption; cbn [bind].
  split; [reflexivity|]. repeat (split; [assumption|]).
  intros i Hi Hiq.
  assert (Hir : In i (range q)) by now apply In_range.
  destruct (Hall i Hir Hi) as (v & Hv & Hle).
  exists v; repeat split; auto. intros ->.
  rewrite Hsplit in Hir. apply in_app_or in Hir as [Hir|[<-|Hir]]; [|lia|].
  - destruct (Hbefore i Hir Hi) as (v' & Hv' & Hlt).
    assert (v' = mv) by congruence. lia.
  - pose proof (increasing_range q) as Hinc. rewrite Hsplit in Hinc.
    apply increasing_app_after in Hinc. rewrite Forall_forall in Hinc.
    specialize (Hinc i Hir). lia.
Qed.

Lemma d_interactions_spec q h qubit d :
  qi_wf q h -> 0 <= qubit < q ->
  d_interactions h qubit d =
    Ok (get_first_d_free_non_zero h d
          (sort_desc (pairs_of_row h
             (nth (Z.to_nat qubit) (interactions_count h) [])))).
Proof.
  intros (_ & _ & _ & _ & (Hlen & _) & _) Hq. unfold d_interactions.
  rewrite (getitem_nth ([] : list Z)) by (unfold len; lia). reflexivity.
Qed.

End Selection.

(* ================================================================== *)
(** * MAX_PAIRS *)
(* ================================================================== *)

(** The invariant of the loop of [compute_mapping] over [q] qubits and [q]
    nodes: as many qubits as nodes are still free, [to_do] counts them, and
    every placed qubit sits on an occupied node that points back to it. *)
Definition mp_inv (q : Z) (st : MaxInteractingPairsMapping.state) : Prop :=
  let qi := MaxInteractingPairsMapping.qubit_interactions st in
  let th := MaxInteractingPairsMapping.topology_handler st in
  len (MaxInteractingPairsMapping.l_to_p st) = q /\
  len (MaxInteractingPairsMapping.p_to_l st) = q /\
  qi_wf q qi /\ th_wf q th /\
  MaxInteractingPairsMapping.to_do st =
    len (QubitInteractionsHandler.free_qubits qi) /\
  MaxInteractingPairsMapping.to_do st =
    len (FreeTopologyNodesHandler.free_nodes th) /\
  (forall x, 0 <= x < q ->
     ~ In x (QubitInteractionsHandler.free_qubits qi) ->
     exists u, 0 <= u < q /\
       getitem (MaxInteractingPairsMapping.l_to_p st) x = Ok u /\
       getitem (MaxInteractingPairsMapping.p_to_l st) u = Ok x /\
       ~ In u (FreeTopologyNodesHandler.free_nodes th)) /\
  Forall (fun e => 0 <= fst e < q /\ 0 <= snd e < q)
         (MaxInteractingPairsMapping.queue st).

Section MaxPairs.
Import MaxInteractingPairsMapping.

(** Placing a free qubit on a free node keeps the invariant. *)
Lemma place_inv q st qubit node th' queue' :
  mp_inv q st ->
  In qubit (QubitInteractionsHandler.free_qubits (qubit_interactions st)) ->
  In node (FreeTopologyNodesHandler.free_nodes (topology_handler st)) ->
  th_wf q th' ->
  FreeTopologyNodesHandler.free_nodes th' =
    set_discard node
      (FreeTopologyNodesHandler.free_nodes (topology_handler st)) ->
  Forall (fun e => 0 <= fst e < q /\ 0 <= snd e < q) queue' ->
  mp_inv q (mkState (update (l_to_p st) (Z.to_nat qubit) node)
                    (update (p_to_l st) (Z.to_nat node) qubit)
                    (QubitInteractionsHandler.map_qubit
                       (qubit_interactions st) qubit)
                    th' queue' (to_do st - 1)).
Proof.
  intros (Hl & Hp & Hqi & Hth & Htq & Htn & Hplaced & Hqueue)
         Hqubit Hnode Hth' Hfree' Hqueue'.
  pose proof Hqi as (_ & _ & Hqinc & Hqrng & _).
  pose proof Hth as (_ & _ & Hninc & Hnrng & _).
  pose proof (Hqrng _ Hqubit) as Hqr. pose proof (Hnrng _ Hnode) as Hnr.
  destruct (map_qubit_wf q _ qubit Hqi) as (Hqi' & Hfq).
  assert (Eb : (0 <=? qubit) && (qubit <? q) = true)
    by (apply andb_true_intro; split; [apply Z.leb_le|apply Z.ltb_lt]; lia).
  rewrite Eb in Hfq.
  unfold mp_inv; cbn [l_to_p p_to_l qubit_interactions topology_handler
                      to_do queue].
  rewrite !len_update, Hfq, Hfree'.
  split; [assumption|]. split; [assumption|].
  split; [assumption|]. split; [assumption|].
  split; [rewrite len_set_discard by assumption; lia|].
  split; [rewrite len_set_discard by assumption; lia|].
  split; [|assumption].
  intros x Hx Hnf.
  destruct (Z.eq_dec x qubit) as [->|Hne].
  - exists node. split; [assumption|].
    rewrite getitem_update_eq by lia.
    rewrite getitem_update_eq by lia.
    repeat split; auto. intros H; apply In_set_discard in H; tauto.
  - assert (Hnf' : ~ In x (QubitInteractionsHandler.free_qubits
                             (qubit_interactions st))).
    { intros H; apply Hnf, In_set_discard; auto. }
    destruct (Hplaced x Hx Hnf') as (u & Hu & Hlx & Hpu & Hun).
    exists u. split; [assumption|].
    rewrite getitem_update_neq by lia.
    assert (u <> node) by congruence.
    rewrite getitem_update_neq by lia.
    repeat split; auto. intros H'; apply In_set_discard in H'; tauto.
Qed.

Lemma discard_neighbour_spec q h node x :
  th_wf q h -> 0 <= node < q ->
  exists h',
    discard_neighbour h node x = Ok h' /\ th_wf q h' /\
    FreeTopologyNodesHandler.free_nodes h' =
      FreeTopologyNodesHandler.free_nodes h /\
    nth (Z.to_nat node) (FreeTopologyNodesHandler.free_neighbours h') [] =
      set_discard x
        (nth (Z.to_nat node) (FreeTopologyNodesHandler.free_neighbours h) []).
Proof.
  intros (Hnodes & Hq & Hinc & Hrng & Hlen & Hfn) Hnode.
  unfold discard_neighbour.
  rewrite (getitem_nth ([] : pyset)) by (unfold len; lia); cbn [bind].
  rewrite setitem_in_range by (unfold len; lia); cbn [bind].
  eexists; split; [reflexivity|].
  cbn [FreeTopologyNodesHandler.free_nodes
       FreeTopologyNodesHandler.free_neighbours].
  split; [|split; [reflexivity | apply nth_update_eq; lia]].
  unfold th_wf; cbn [FreeTopologyNodesHandler.free_nodes
                     FreeTopologyNodesHandler.free_neighbours
                     FreeTopologyNodesHandler.nodes].
  rewrite length_update.
  repeat (split; [assumption|]).
  intros k. destruct (Nat.eq_dec (Z.to_nat node) k) as [<-|Hne].
  - rewrite nth_update_eq by lia. destruct (Hfn (Z.to_nat node)) as (Hi & Hin).
    split; [now apply increasing_set_discard|].
    intros y Hy; apply In_set_discard in Hy as (Hy & _); auto.
  - rewrite nth_update_neq by assumption. apply Hfn.
Qed.

End MaxPairs.
Section MaxPairsSteps.
Import MaxInteractingPairsMapping.
Context {order : SetIteration}.

Local Abbreviation free_q st :=
  (QubitInteractionsHandler.free_qubits (qubit_interactions st)).
Local Abbreviation free_n st :=
  (FreeTopologyNodesHandler.free_nodes (topology_handler st)).
Local Abbreviation nbrs st node :=
  (nth (Z.to_nat node)
       (FreeTopologyNodesHandler.free_neighbours (topology_handler st)) []).

Lemma nonempty_len {A} (l : list A) : l <> [] <-> 1 <= len l.
Proof.
  destruct l; unfold len; cbn [List.length]; split; intros; try congruence;
    lia.
Qed.

Lemma nbrs_bound q st node :
  mp_inv q st -> 0 <= len (nbrs st node) <= q.
Proof.
  intros (_ & _ & _ & Hth & _).
  destruct Hth as (_ & Hq & _ & Hrng & _ & Hfn).
  destruct (Hfn (Z.to_nat node)) as (Hi & Hin).
  pose proof (increasing_length_bound q _ Hi (fun x Hx => Hrng x (Hin x Hx))).
  pose proof (len_nonneg (nbrs st node)). lia.
Qed.

(** One iteration of the expansion: a free neighbour of [node] receives a
    free qubit of [qubit_neighbours]. *)
Lemma expand_step_spec q st node qubit qn :
  mp_inv q st -> 0 <= node < q -> qubit <> -1 ->
  increasing qn -> (forall x, In x qn -> In x (free_q st)) ->
  1 <= len qn -> 1 <= len (nbrs st node) ->
  exists st' qn',
    expand_step st node qubit qn = Ok (st', qn') /\
    mp_inv q st' /\
    to_do st' = to_do st - 1 /\
    len (queue st') = len (queue st) + 1 /\
    increasing qn' /\ (forall x, In x qn' -> In x (free_q st')) /\
    len qn' = len qn - 1 /\
    len (nbrs st' node) = len (nbrs st node) - 1.
Proof.
  intros Hinv Hnode Hqubit Hqninc Hqnfree Hqnlen Hnnlen.
  pose proof Hinv as (Hl & Hp & Hqi & Hth & Htq & Htn & Hplaced & Hqueue).
  pose proof Hqi as (_ & _ & Hqinc & Hqrng & _).
  pose proof Hth as (_ & Hq0 & Hninc & Hnrng & Hfnlen & Hfn).
  unfold expand_step, FreeTopologyNodesHandler.get_free_neighbours.
  rewrite (getitem_nth ([] : pyset)) by (unfold len; lia); cbn [bind].
  destruct (Hfn (Z.to_nat node)) as (Hnninc & Hnnfree).
  (* the neighbour: whatever the order of the visit, one of the set *)
  pose proof (set_iter_perm node (nbrs st node)) as Hvisit.
  destruct (node_with_most_spec q (topology_handler st)
              (set_iter node (nbrs st node)))
    as (nb & Hnb & Hnbin & _); auto.
  { intros E. rewrite E in Hvisit. apply Permutation_nil in Hvisit.
    rewrite Hvisit in Hnnlen. unfold len in Hnnlen; cbn in Hnnlen. lia. }
  { intros v Hv. apply Hnrng, Hnnfree.
    eapply Permutation_in; eassumption. }
  rewrite Hnb; cbn [bind]; cbv beta iota.
  apply (Permutation_in _ Hvisit) in Hnbin.
  pose proof (Hnnfree _ Hnbin) as Hnbfree.
  pose proof (Hnrng _ Hnbfree) as Hnbr.
  (* the qubit *)
  destruct (qubit_with_most_from_set_spec q (qubit_interactions st)
              (len (nbrs st nb)) qn)
    as (cand & sc & Hcand & Hcandin & Hcandr & _); auto.
  { apply (nbrs_bound q st nb Hinv). }
  { destruct qn as [|x qn]; [unfold len in Hqnlen; cbn in Hqnlen; lia|].
    exists x; split; [now left|]. apply Hqrng, Hqnfree; now left. }
  rewrite Hcand; cbn [bind]; cbv beta iota.
  pose proof (Hqnfree _ Hcandin) as Hcandfree.
  destruct (Z.eqb_spec qubit (-1)) as [|_]; [contradiction|]. cbn [negb].
  (* the handlers *)
  destruct (occupy_node_spec q (topology_handler st) nb Hth Hnbfree)
    as (th1 & Hocc & Hth1 & Hfree1 & Hfn1).
  rewrite Hocc; cbn [bind].
  rewrite setitem_in_range by lia; cbn [bind].
  rewrite setitem_in_range by lia; cbn [bind].
  destruct (discard_neighbour_spec q th1 node nb Hth1 Hnode)
    as (th2 & Hdisc & Hth2 & Hfree2 & Hfn2).
  rewrite Hdisc; cbn [bind].
  eexists _, _; split; [reflexivity|].
  destruct (map_qubit_wf q _ cand Hqi) as (_ & Hfq).
  assert (Eb : (0 <=? cand) && (cand <? q) = true)
    by (apply andb_true_intro; split; [apply Z.leb_le|apply Z.ltb_lt]; lia).
  rewrite Eb in Hfq.
  split.
  { apply place_inv; auto; [congruence|].
    apply Forall_app; split; [assumption|].
    constructor; [cbn [fst snd]; lia|constructor]. }
  cbn [to_do queue qubit_interactions topology_handler].
  split; [reflexivity|].
  split; [unfold len; rewrite length_app; cbn [List.length]; lia|].
  split; [now apply increasing_set_discard|].
  split.
  { intros x Hx. apply In_set_discard in Hx as (Hx & Hne).
    rewrite Hfq. apply In_set_discard; auto. }
  split; [now apply len_set_discard|].
  rewrite Hfn2, Hfn1 by lia. rewrite set_discard_idem.
  now apply len_set_discard.
Qed.

Lemma expand_spec q iters : forall st node qubit qn,
  mp_inv q st -> 0 <= node < q -> qubit <> -1 ->
  increasing qn -> (forall x, In x qn -> In x (free_q st)) ->
  Z.of_nat iters <= len qn -> Z.of_nat iters <= len (nbrs st node) ->
  exists st',
    expand iters st node qubit qn = Ok st' /\
    mp_inv q st' /\
    to_do st' = to_do st - Z.of_nat iters /\
    len (queue st') = len (queue st) + Z.of_nat iters.
Proof.
  induction iters as [|iters IH]; intros st node qubit qn Hinv Hnode Hqubit
    Hqninc Hqnfree Hqnlen Hnnlen; cbn [expand].
  - exists st. split; [reflexivity|]. split; [assumption|].
    change (Z.of_nat 0) with 0. split; lia.
  - destruct (expand_step_spec q st node qubit qn)
      as (st1 & qn1 & Hs & Hinv1 & Htd & Hqu & Hinc1 & Hfree1 & Hlen1 & Hnn1);
      auto; try lia.
    rewrite Hs; cbn [bind]; cbv beta iota.
    destruct (IH st1 node qubit qn1) as (st' & He & Hinv' & Htd' & Hqu');
      auto; try lia.
    exists st'. split; [assumption|]. split; [assumption|]. split; lia.
Qed.

(** A fresh pair: a free node of maximal free degree and a free qubit. *)
Lemma seed_spec q st :
  mp_inv q st -> to_do st <> 0 ->
  exists st1 node qubit qn,
    seed st = Ok (st1, node, qubit, qn) /\
    mp_inv q st1 /\ 0 <= node < q /\ 0 <= qubit < q /\
    increasing qn /\ (forall x, In x qn -> In x (free_q st1)) /\
    to_do st1 = to_do st - 1 /\ queue st1 = queue st.
Proof.
  intros Hinv Htodo.
  pose proof Hinv as (Hl & Hp & Hqi & Hth & Htq & Htn & Hplaced & Hqueue).
  pose proof Hqi as (_ & _ & Hqinc & Hqrng & _).
  pose proof Hth as (_ & Hq0 & Hninc & Hnrng & Hfnlen & Hfn).
  unfold seed, FreeTopologyNodesHandler.free_node_with_most_free_neighbours.
  destruct (node_with_most_spec q (topology_handler st) (free_n st))
    as (node & Hnode & Hnodein & _); auto.
  { apply nonempty_len. pose proof (len_nonneg (free_n st)). lia. }
  rewrite Hnode; cbn [bind]; cbv beta iota.
  pose proof (Hnrng _ Hnodein) as Hnoder.
  unfold QubitInteractionsHandler.qubit_with_most_d_interactions.
  destruct (qubit_with_most_from_set_spec q (qubit_interactions st)
              (len (nbrs st node)) (free_q st))
    as (cand & sc & Hcand & Hcandin & Hcandr & _); auto.
  { apply (nbrs_bound q st node Hinv). }
  { destruct (free_q st) as [|x fq] eqn:E.
    - pose proof (len_nonneg (free_n st)). unfold len in Htq; cbn in Htq. lia.
    - exists x; split; [now left|]. apply Hqrng; now left. }
  rewrite Hcand; cbn [bind]; cbv beta iota.
  rewrite setitem_in_range by lia; cbn [bind].
  rewrite setitem_in_range by lia; cbn [bind].
  destruct (occupy_node_spec q (topology_handler st) node Hth Hnodein)
    as (th1 & Hocc & Hth1 & Hfree1 & Hfn1).
  rewrite Hocc; cbn [bind].
  eexists _, _, _, _; split; [reflexivity|].
  destruct (map_qubit_wf q _ cand Hqi) as (_ & Hfq).
  assert (Eb : (0 <=? cand) && (cand <? q) = true)
    by (apply andb_true_intro; split; [apply Z.leb_le|apply Z.ltb_lt]; lia).
  rewrite Eb in Hfq.
  split; [apply place_inv; auto|].
  repeat (split; [assumption|]).
  destruct (get_first_d_partners q (qubit_interactions st)
              (len (nbrs st node)) (Z.to_nat cand) Hqi) as (Hinc & Hpart).
  split; [assumption|].
  cbn [to_do queue qubit_interactions].
  split; [|split; reflexivity].
  intros x Hx. destruct (Hpart x Hx) as (Hxf & Hne & _).
  rewrite Hfq. apply In_set_discard; split; [assumption|]. lia.
Qed.

(** The pair at the head of the queue. *)
Lemma pop_spec q st :
  mp_inv q st -> queue st <> [] ->
  exists st1 node qubit qn,
    pop st = Ok (st1, node, qubit, qn) /\
    mp_inv q st1 /\ 0 <= node < q /\ 0 <= qubit < q /\
    increasing qn /\ (forall x, In x qn -> In x (free_q st1)) /\
    to_do st1 = to_do st /\ len (queue st1) = len (queue st) - 1.
Proof.
  intros Hinv Hne.
  pose proof Hinv as (Hl & Hp & Hqi & Hth & Htq & Htn & Hplaced & Hqueue).
  pose proof Hth as (_ & Hq0 & Hninc & Hnrng & Hfnlen & Hfn).
  unfold pop. destruct (queue st) as [|[node qubit] queue'] eqn:Eq;
    [congruence|].
  apply Forall_cons_iff in Hqueue as ((Hnode & Hqubit) & Hqueue').
  cbn [fst snd] in Hnode, Hqubit.
  unfold FreeTopologyNodesHandler.get_free_neighbours.
  rewrite (getitem_nth ([] : pyset)) by (unfold len; lia); cbn [bind].
  rewrite (d_interactions_spec q) by assumption; cbn [bind].
  eexists _, _, _, _; split; [reflexivity|].
  destruct (get_first_d_partners q (qubit_interactions st)
              (len (nbrs st node)) (Z.to_nat qubit) Hqi) as (Hinc & Hpart).
  split.
  { unfold mp_inv; cbn [l_to_p p_to_l qubit_interactions topology_handler
                        to_do queue]. auto 10. }
  repeat (split; [assumption|]).
  cbn [to_do queue qubit_interactions].
  split; [|split; [reflexivity|]].
  - intros x Hx. now destruct (Hpart x Hx).
  - unfold len; cbn [List.length]; lia.
Qed.

(** One iteration of the [while] loop decreases [2 * to_do + len(queue)]. *)
Lemma body_spec q st :
  mp_inv q st -> to_do st <> 0 ->
  exists st',
    body st = Ok st' /\ mp_inv q st' /\
    2 * to_do st' + len (queue st') < 2 * to_do st + len (queue st).
Proof.
  intros Hinv Htodo. unfold body.
  assert (Hstart : exists st1 node qubit qn,
            (if len (queue st) =? 0 then seed st else pop st) =
              Ok (st1, node, qubit, qn) /\
            mp_inv q st1 /\ 0 <= node < q /\ 0 <= qubit < q /\
            increasing qn /\ (forall x, In x qn -> In x (free_q st1)) /\
            2 * to_do st1 + len (queue st1) < 2 * to_do st + len (queue st)).
  { destruct (Z.eqb_spec (len (queue st)) 0) as [E|E].
    - destruct (seed_spec q st Hinv Htodo)
        as (st1 & node & qubit & qn & H & H1 & H2 & H3 & H4 & H5 & H6 & H7).
      exists st1, node, qubit, qn; repeat (split; [assumption|]).
      rewrite H6, H7; lia.
    - destruct (pop_spec q st Hinv)
        as (st1 & node & qubit & qn & H & H1 & H2 & H3 & H4 & H5 & H6 & H7).
      { intros E'; rewrite E' in E; apply E; reflexivity. }
      exists st1, node, qubit, qn; repeat (split; [assumption|]).
      rewrite H6, H7; lia. }
  destruct Hstart as (st1 & node & qubit & qn & Hs & Hinv1 & Hnode & Hqubit
                      & Hinc & Hfree & Hmeasure).
  rewrite Hs; cbn [bind]; cbv beta iota.
  pose proof Hinv1 as (_ & _ & _ & Hth1 & _).
  destruct Hth1 as (_ & _ & _ & _ & Hfnlen & _).
  unfold FreeTopologyNodesHandler.get_free_neighbours.
  rewrite (getitem_nth ([] : pyset)) by (unfold len; lia); cbn [bind].
  pose proof (len_nonneg qn). pose proof (len_nonneg (nbrs st1 node)).
  destruct (expand_spec q
              (Z.to_nat (Z.min (len qn) (len (nbrs st1 node))))
              st1 node qubit qn)
    as (st' & He & Hinv' & Htd & Hqu); auto; try lia.
  exists st'. split; [assumption|]. split; [assumption|]. lia.
Qed.

Lemma loop_spec q fuel : forall st,
  mp_inv q st -> 2 * to_do st + len (queue st) < Z.of_nat fuel ->
  exists st', loop fuel st = Ok st' /\ mp_inv q st' /\ to_do st' = 0.
Proof.
  induction fuel as [|fuel IH]; intros st Hinv Hfuel.
  - pose proof Hinv as (_ & _ & _ & _ & Htq & _).
    pose proof (len_nonneg (free_q st)). pose proof (len_nonneg (queue st)).
    lia.
  - cbn [loop]. destruct (Z.eqb_spec (to_do st) 0) as [E|E].
    + exists st; auto.
    + destruct (body_spec q st Hinv E) as (st1 & Hb & Hinv1 & Hm).
      rewrite Hb; cbn [bind]. apply IH; [assumption|lia].
Qed.

Lemma getitem_repeat {A} (x : A) n i :
  0 <= i < Z.of_nat n -> getitem (repeat x n) i = Ok x.
Proof.
  intros H. apply getitem_nth_error; [lia|].
  rewrite nth_error_repeat by lia. reflexivity.
Qed.

(** MAX_PAIRS on [q] nodes labelled [0 .. q-1] and an interaction list over
    [q] qubits whose triples join distinct qubits: the loop ends within its
    fuel and returns a placement. *)
Lemma max_pairs_places_every_qubit (g : Nx.Graph) cnots :
  Nx.wf g -> cnots_ok (Nx.number_of_nodes g) cnots ->
  exists m,
    MaxInteractingPairsMapping.init g cnots (Nx.number_of_nodes g) = Ok m /\
    perm_inv (Nx.number_of_nodes g) (Mapper.l_to_p m) (Mapper.p_to_l m).
Proof.
  intros Hg Hc. set (q := Nx.number_of_nodes g) in *.
  assert (Hq : 0 <= q) by apply len_nonneg.
  unfold MaxInteractingPairsMapping.init, compute_mapping.
  cbn [Mapper.cnots_list Mapper.qubits Mapper.connectivity Mapper.l_to_p
       Mapper.p_to_l].
  destruct (qi_init_wf q cnots Hq Hc) as (qi & Hqi & Hqiwf & Hfq).
  destruct (th_init_wf g Hg) as (th & Hth & Hthwf & Hfn). fold q in Hthwf, Hfn.
  rewrite Hqi; cbn [bind]. rewrite Hth; cbn [bind].
  set (st0 := mkState _ _ qi th [] q).
  destruct (loop_spec q (fuel_for q) st0) as (st' & Hloop & Hinv & Hdone).
  { unfold mp_inv, st0; cbn [l_to_p p_to_l qubit_interactions
                             topology_handler to_do queue].
    unfold len at 1 2; rewrite !repeat_length, Hfq, Hfn, len_range.
    repeat (split; [auto; lia|]).
    split; [|constructor].
    intros x Hx Hnf. exfalso; apply Hnf, In_range, Hx. }
  { unfold st0, fuel_for; cbn [to_do queue]. unfold len; cbn [List.length].
    lia. }
  rewrite Hloop; cbn [bind]. eexists; split; [reflexivity|].
  cbn [Mapper.l_to_p Mapper.p_to_l].
  destruct Hinv as (Hl & Hp & Hqi' & _ & Htq & _ & Hplaced & _).
  apply left_inverse_perm_inv; try lia.
  intros x Hx.
  destruct (Hplaced x Hx) as (u & Hu & H1 & H2 & _); [|eauto].
  rewrite Hdone in Htq.
  destruct (free_q st'); [intros []|].
  unfold len in Htq; cbn [List.length] in Htq; lia.
Qed.

End MaxPairsSteps.
(* ================================================================== *)
(** * Placement strategies and the permutation invariant *)
(* ================================================================== *)

Lemma line_wf n : Nx.wf (line n).
Proof.
  unfold Nx.wf, Nx.number_of_nodes, line; cbn [Nx.nodes Nx.edges].
  rewrite len_range. split.
  - unfold range. f_equal. f_equal. lia.
  - intros a b Hin. apply in_map_iff in Hin as (i & E & Hi). inv E.
    apply In_range in Hi. rewrite !In_range. lia.
Qed.

(** C4.  On a topology of [q] nodes labelled [0 .. q-1] and an interaction
    list over [q] qubits, whatever the strategy name and whatever the order
    in which sets are visited: when the placement strategy completes, [L2P]
    and [P2L] are permutations of [0 .. q-1] inverse of each other (and
    every strategy but MAJORITY does complete); each single SWAP recorded by
    [__move_through_path] for a qubit that sits on [qubit_node] keeps that
    invariant, so it holds after every prefix of the walk along a path. *)
Theorem placement_permutation_invariant :
  forall (order : SetIteration) (g : Nx.Graph) (cnots : list triple)
         (strategy_name : string) (rnd : rng),
    Nx.wf g -> cnots_ok (Nx.number_of_nodes g) cnots ->
    let q := Nx.number_of_nodes g in
    (forall m rnd',
       MapperType.mapper_from_string strategy_name g cnots q rnd
         = Ok (m, rnd') ->
       perm_inv q (Mapper.l_to_p m) (Mapper.p_to_l m)) /\
    (MapperType.type_from_string (MapperType.lower strategy_name)
       <> MapperType.MAJORITY ->
     exists m rnd',
       MapperType.mapper_from_string strategy_name g cnots q rnd
         = Ok (m, rnd')) /\
    (forall (r : Router.t) (qubit qubit_node node : Z),
       perm_inv q (Router.l_to_p r) (Router.p_to_l r) ->
       0 <= qubit < q -> 0 <= node < q ->
       getitem (Router.l_to_p r) qubit = Ok qubit_node ->
       exists swap_qubit r',
         Router.swap_step r qubit qubit_node node
           = Ok ((qubit, swap_qubit), r') /\
         perm_inv q (Router.l_to_p r') (Router.p_to_l r') /\
         getitem (Router.l_to_p r') qubit = Ok node) /\
    (forall (r : Router.t) (qubit qubit_node : Z) (path : list Z) (k : nat),
       perm_inv q (Router.l_to_p r) (Router.p_to_l r) ->
       0 <= qubit < q ->
       getitem (Router.l_to_p r) qubit = Ok qubit_node ->
       Forall (fun x => 0 <= x < q) path ->
       exists swaps_list r',
         Router.move_through_path r qubit qubit_node (firstn k path)
           = Ok (swaps_list, len (firstn k path), r') /\
         perm_inv q (Router.l_to_p r') (Router.p_to_l r')).
Proof.
  intros order g cnots name rnd Hg Hc q.
  split; [|split; [|split]].
  - intros m rnd' H. unfold MapperType.mapper_from_string in H.
    destruct (MapperType.type_from_string (MapperType.lower name)).
    + inv H. apply perm_inv_identity.
    + eapply random_mapper_perm_inv; eauto.
    + bind_inv H m0 Hm0. inv H. eapply majority_mapper_perm_inv; eauto.
    + bind_inv H m0 Hm0. inv H.
      destruct (max_pairs_places_every_qubit g cnots Hg Hc) as (m' & Hm' & Hp).
      unfold q in *. rewrite Hm0 in Hm'. inv Hm'. assumption.
  - intros Hne. unfold MapperType.mapper_from_string.
    destruct (MapperType.type_from_string (MapperType.lower name));
      [eauto | | congruence |].
    + unfold RandomMapper.init, RandomMapper.compute_mapping, Mapper.init.
      cbn [Mapper.l_to_p Mapper.p_to_l Mapper.connectivity
           Mapper.cnots_list Mapper.qubits].
      pose proof (shuffle_range q rnd) as HP.
      destruct (RandomMapper.shuffle (range q) rnd) as [l' g1]; cbn [fst] in HP.
      unfold Mapper.physic_to_logical; cbn [Mapper.l_to_p Mapper.p_to_l].
      destruct (Permutation_range_facts _ _ HP) as (Hlen & Hin).
      destruct (physic_to_logical_loop_spec l' 0 (range q))
        as (p' & Hp' & _).
      { eapply Permutation_NoDup; [symmetry; eassumption|apply NoDup_range]. }
      { apply Forall_forall; intros v Hv. rewrite len_range.
        apply Hin in Hv; lia. }
      rewrite Hp'; cbn [bind]. eauto.
    + destruct (max_pairs_places_every_qubit g cnots Hg Hc) as (m' & Hm' & _).
      unfold q. rewrite Hm'; cbn [bind]. eauto.
  - intros r qubit qubit_node node Hinv Hq Hn Hqn.
    now apply swap_step_perm_inv.
  - intros r qubit qubit_node path k Hinv Hq Hqn HP.
    destruct (move_loop_perm_inv q (firstn k path) r qubit qubit_node [] 0)
      as (sl & r' & Hm & Hinv' & _); auto.
    { now apply Forall_firstn. }
    exists sl, r'. split; [|assumption].
    unfold Router.move_through_path. rewrite Hm. reflexivity.
Qed.

Lemma cnots_ok_example : cnots_ok (Nx.number_of_nodes (line 4))
                                  [(0, 1, 0); (0, 2, 1)].
Proof.
  intros c t i [H|[H|[]]]; inv H; vm_compute; repeat split; congruence.
Qed.

(** The MAX_PAIRS placement of the scenario, with the sets visited from
    the greatest element to the least, is a permutation. *)
Lemma placement_permutation_invariant_witness :
  exists m,
    MapperType.mapper_from_string (order := decreasing_order) "max_pairs"
      (line 4) [(0, 1, 0); (0, 2, 1)] 4 [] = Ok (m, []) /\
    perm_inv 4 (Mapper.l_to_p m) (Mapper.p_to_l m).
Proof.
  destruct (placement_permutation_invariant decreasing_order (line 4)
              [(0, 1, 0); (0, 2, 1)] "max_pairs" [] (line_wf 4)
              cnots_ok_example)
    as (H & _).
  eexists; split; [vm_compute; reflexivity|].
  apply (H _ []). vm_compute; reflexivity.
Defined.


(** The placement does depend on the order of the visit: on the line
    [0-1-2] the two neighbours of the seed node tie, and the one visited
    first receives the first partner of the seed qubit. *)
Lemma max_pairs_follows_the_visit_order :
  (exists m,
     MaxInteractingPairsMapping.init (order := increasing_order) (line 3)
       [(0, 1, 0); (0, 2, 1)] 3 = Ok m /\
     Mapper.l_to_p m = [1; 0; 2]) /\
  (exists m,
     MaxInteractingPairsMapping.init (order := decreasing_order) (line 3)
       [(0, 1, 0); (0, 2, 1)] 3 = Ok m /\
     Mapper.l_to_p m = [1; 2; 0]).
Proof. split; eexists; split; vm_compute; reflexivity. Qed.


(** What the selection does compute.  On a well-formed index, for
    [0 <= d <= q] and a target set holding at least one qubit index, the
    function returns the qubit of the target set (free or not) with the
    greatest score, the lowest index winning ties, where the score of a
    qubit is the total its selection loop computes; with it comes the set of
    partners collected from that qubit's row, all of them free qubits having
    a non-zero count with it. *)
Theorem qubit_with_most_d_interactions_from_set_spec :
  forall (q : Z) (h : QubitInteractionsHandler.t) (d : Z) (target : list Z),
    qi_wf q h -> 0 <= d <= q ->
    (exists i, In i target /\ 0 <= i < q) ->
    exists cand partners sc,
      QubitInteractionsHandler.qubit_with_most_d_interactions_from_set
        h d target = Ok (cand, partners) /\
      In cand target /\ 0 <= cand < q /\
      QubitInteractionsHandler.score h d cand = Ok sc /\
      (forall i, In i target -> 0 <= i < q ->
         exists v, QubitInteractionsHandler.score h d i = Ok v /\
                   v <= sc /\ (v = sc -> cand <= i)) /\
      partners =
        QubitInteractionsHandler.get_first_d_free_non_zero h d
          (QubitInteractionsHandler.sort_desc
             (QubitInteractionsHandler.pairs_of_row h
                (nth (Z.to_nat cand)
                     (QubitInteractionsHandler.interactions_count h) []))) /\
      (forall y, In y partners ->
         In y (QubitInteractionsHandler.free_qubits h) /\ y <> cand /\
         UUG.mget 0 (QubitInteractionsHandler.interactions_count h)
                  (Z.to_nat cand) (Z.to_nat y) <> 0).
Proof.
  intros q h d target Hwf Hd Hex.
  destruct (qubit_with_most_from_set_spec q h d target Hwf Hd Hex)
    as (cand & sc & Hr & Hin & Hc & Hsc & Hmax).
  eexists cand, _, sc. split; [exact Hr|].
  repeat (split; [assumption|]). split; [reflexivity|].
  destruct (get_first_d_partners q h d (Z.to_nat cand) Hwf) as (_ & Hp).
  intros y Hy. destruct (Hp y Hy) as (H1 & H2 & H3).
  repeat split; auto. lia.
Qed.

Lemma handler_1_placed_wf : qi_wf 3 handler_1_placed.
Proof.
  unfold handler_1_placed.
  destruct (qi_init_wf 3 [(0, 1, 0); (0, 1, 1); (0, 2, 2)]) as (h & Hh & Hwf & _).
  - lia.
  - intros c t i [H|[H|[H|[]]]]; inv H; repeat split; lia.
  - rewrite Hh. now apply map_qubit_wf.
Qed.

Lemma qubit_with_most_d_interactions_from_set_spec_witness :
  exists cand partners,
    QubitInteractionsHandler.qubit_with_most_d_interactions_from_set
      handler_1_placed 1 [1; 2] = Ok (cand, partners) /\
    In cand [1; 2].
Proof.
  destruct (qubit_with_most_d_interactions_from_set_spec 3 handler_1_placed 1
              [1; 2] handler_1_placed_wf)
    as (cand & partners & sc & H & Hin & _).
  - lia.
  - exists 1; split; [now left|lia].
  - exists cand, partners; auto.
Defined.
(* ================================================================== *)
(** * Floyd-Warshall *)
(* ================================================================== *)

(** [chain E i ms j]: the edges [i - m1 - ... - mr - j] all belong to [E];
    [ms] lists the intermediate nodes. *)
Fixpoint chain (E : nat -> nat -> Prop) (i : nat) (ms : list nat) (j : nat)
  : Prop :=
  match ms with
  | [] => E i j
  | m :: ms' => E i m /\ chain E m ms' j
  end.

(** [a <= L] for an entry of the distance table. *)
Definition dle (a : UUG.ext) (L : Z) : Prop :=
  match a with
  | UUG.Fin x => x <= L
  | UUG.Inf => False
  end.

(** [a <= b] on entries. *)
Definition ext_le (a b : UUG.ext) : Prop :=
  match b with
  | UUG.Fin y => dle a y
  | UUG.Inf => True
  end.

Section FloydWarshall.
Import UUG.

Variable n : nat.
Variable adj : list (list Z).

(** The edge relation read off the adjacency matrix. *)
Definition edge (i j : nat) : Prop := mget 0 adj i j = 1.

Abbreviation D tb i j := (mget Inf (fst tb) i j).
Abbreviation NX tb i j := (mget (-1) (snd tb) i j).

(** What holds of the two tables all along: the diagonal is 0, the other
    finite entries are the lengths of chains of the graph, and [next] holds
    the first hop of such a chain. *)
Definition fw_inv (tb : tables) : Prop :=
  square n (fst tb) /\ square n (snd tb) /\
  (forall i, (i < n)%nat -> D tb i i = Fin 0) /\
  (forall i j x, (i < n)%nat -> (j < n)%nat -> i <> j -> D tb i j = Fin x ->
     exists ms, chain edge i ms j /\ x = Z.of_nat (S (List.length ms)) /\
                NX tb i j = Z.of_nat (hd j ms)).

Lemma ext_le_refl a : ext_le a a.
Proof. destruct a; cbn; lia. Qed.

Lemma ext_le_trans a b c : ext_le a b -> ext_le b c -> ext_le a c.
Proof.
  destruct a, b, c; cbn; try tauto; try lia.
Qed.

Lemma dle_mono a b L : ext_le a b -> dle b L -> dle a L.
Proof. destruct a, b; cbn; try tauto; lia. Qed.

Lemma chain_app (E : nat -> nat -> Prop) ms1 : forall i k ms2 j,
  chain E i ms1 k -> chain E k ms2 j -> chain E i (ms1 ++ k :: ms2) j.
Proof.
  induction ms1 as [|m ms1 IH]; intros i k ms2 j H1 H2; cbn [chain app] in *.
  - auto.
  - destruct H1 as (He & H1); split; [assumption|]. eapply IH; eauto.
Qed.

Lemma chain_split (E : nat -> nat -> Prop) ms1 : forall i k ms2 j,
  chain E i (ms1 ++ k :: ms2) j -> chain E i ms1 k /\ chain E k ms2 j.
Proof.
  induction ms1 as [|m ms1 IH]; intros i k ms2 j H; cbn [chain app] in *.
  - assumption.
  - destruct H as (He & H). apply IH in H as (H1 & H2). auto.
Qed.

Lemma fin_entry_cases tb i j :
  fw_inv tb -> (i < n)%nat -> (j < n)%nat ->
  forall x, D tb i j = Fin x -> (i = j /\ x = 0) \/ (i <> j /\ 1 <= x).
Proof.
  intros (_ & _ & Hd & Hc) Hi Hj x Hx.
  destruct (Nat.eq_dec i j) as [<-|Hne].
  - left; split; [reflexivity|]. rewrite Hd in Hx by assumption. now inv Hx.
  - right; split; [assumption|].
    destruct (Hc i j x Hi Hj Hne Hx) as (ms & _ & -> & _). lia.
Qed.

(** ** One relaxation *)

Lemma fw_relax_cases tb k i j :
  fw_inv tb -> (i < n)%nat -> (j < n)%nat -> (k < n)%nat ->
  fw_relax tb k i j = tb \/
  (exists x y, D tb i k = Fin x /\ D tb k j = Fin y /\
               i <> j /\ i <> k /\ k <> j /\
               ext_gt (D tb i j) (Fin (x + y)) = true /\
               fw_relax tb k i j =
                 (mset (fst tb) i j (Fin (x + y)),
                  mset (snd tb) i j (NX tb i k))).
Proof.
  intros Hinv Hi Hj Hk. unfold fw_relax. destruct tb as [d nx]; cbn [fst snd].
  destruct (ext_gt (mget Inf d i j) (ext_add (mget Inf d i k) (mget Inf d k j)))
    eqn:Egt; [|now left].
  destruct (mget Inf d i k) as [x|] eqn:Eik;
    [|destruct (mget Inf d i j); discriminate].
  destruct (mget Inf d k j) as [y|] eqn:Ekj;
    [|destruct (mget Inf d i j); discriminate].
  cbn [ext_add] in Egt.
  pose proof (fin_entry_cases (d, nx) i k Hinv Hi Hk x Eik) as Cik.
  pose proof (fin_entry_cases (d, nx) k j Hinv Hk Hj y Ekj) as Ckj.
  assert (Hij : i <> j).
  { intros <-. destruct Hinv as (_ & _ & Hd & _). cbn [fst] in Hd.
    rewrite Hd in Egt by assumption. cbn [ext_gt] in Egt. lia. }
  assert (Hik : i <> k).
  { intros <-. destruct Cik as [(_ & ->)|(C & _)]; [|congruence].
    rewrite Ekj in Egt. cbn [ext_gt] in Egt. lia. }
  assert (Hkj : k <> j).
  { intros <-. destruct Ckj as [(_ & ->)|(C & _)]; [|congruence].
    rewrite Eik in Egt. cbn [ext_gt] in Egt.
    replace (x + 0) with x in Egt by lia. lia. }
  right. exists x, y. repeat split; auto.
Qed.

Lemma fw_relax_inv tb k i j :
  fw_inv tb -> (i < n)%nat -> (j < n)%nat -> (k < n)%nat ->
  fw_inv (fw_relax tb k i j).
Proof.
  intros Hinv Hi Hj Hk.
  destruct (fw_relax_cases tb k i j Hinv Hi Hj Hk)
    as [->|(x & y & Eik & Ekj & Hij & Hik & Hkj & Egt & ->)]; [assumption|].
  pose proof Hinv as (Hsd & Hsn & Hd & Hc).
  unfold fw_inv; cbn [fst snd].
  split; [now apply square_mset|]. split; [now apply square_mset|].
  split.
  - intros a Ha. rewrite (mget_mset Inf n) by assumption.
    destruct (Nat.eqb_spec i a) as [<-|]; destruct (Nat.eqb_spec j i) as [->|];
      cbn [andb]; try congruence; now apply Hd.
  - intros a b z Ha Hb Hab.
    rewrite (mget_mset Inf n), (mget_mset (-1) n) by assumption.
    destruct (Nat.eqb_spec i a) as [<-|Hia]; cbn [andb];
      [destruct (Nat.eqb_spec j b) as [<-|Hjb]|]; try (now apply Hc).
    intros E; inv E.
    destruct (Hc i k x Hi Hk Hik Eik) as (ms1 & C1 & -> & N1).
    destruct (Hc k j y Hk Hj Hkj Ekj) as (ms2 & C2 & -> & N2).
    exists (ms1 ++ k :: ms2). split; [eapply chain_app; eauto|].
    split; [rewrite length_app; cbn [List.length]; lia|].
    rewrite N1. f_equal. destruct ms1; reflexivity.
Qed.

Lemma fw_relax_le tb k i j a b :
  fw_inv tb -> (i < n)%nat -> (j < n)%nat -> (k < n)%nat ->
  ext_le (D (fw_relax tb k i j) a b) (D tb a b).
Proof.
  intros Hinv Hi Hj Hk.
  destruct (fw_relax_cases tb k i j Hinv Hi Hj Hk)
    as [->|(x & y & Eik & Ekj & Hij & Hik & Hkj & Egt & ->)];
    [apply ext_le_refl|].
  destruct Hinv as (Hsd & _). cbn [fst].
  rewrite (mget_mset Inf n) by assumption.
  destruct (Nat.eqb_spec i a) as [<-|]; cbn [andb];
    [destruct (Nat.eqb_spec j b) as [<-|]|]; try apply ext_le_refl.
  destruct (mget Inf (fst tb) i j); cbn in *; [lia|exact I].
Qed.

Lemma fw_relax_bound tb k i j :
  fw_inv tb -> (i < n)%nat -> (j < n)%nat -> (k < n)%nat ->
  forall x y, D tb i k = Fin x -> D tb k j = Fin y ->
  dle (D (fw_relax tb k i j) i j) (x + y).
Proof.
  intros Hinv Hi Hj Hk x y Eik Ekj.
  unfold fw_relax. destruct tb as [d nx]; cbn [fst snd] in *.
  rewrite Eik, Ekj; cbn [ext_add].
  destruct (ext_gt (mget Inf d i j) (Fin (x + y))) eqn:Egt; cbn [fst].
  - destruct Hinv as (Hsd & _); cbn [fst] in Hsd.
    rewrite (mget_mset Inf n), !Nat.eqb_refl by assumption. cbn; lia.
  - destruct (mget Inf d i j); cbn in *; [lia|discriminate].
Qed.

End FloydWarshall.
(** The cells of an [n] by [n] table in the order of two nested loops. *)
Definition cells (n : nat) : list (nat * nat) :=
  list_prod (seq 0 n) (seq 0 n).

Lemma fold_left_flat_map {S A B} (g : S -> B -> S) (h : A -> list B) l :
  forall s,
    fold_left g (flat_map h l) s =
    fold_left (fun s x => fold_left g (h x) s) l s.
Proof.
  induction l as [|x l IH]; intros s; cbn [flat_map fold_left];
    [reflexivity|].
  now rewrite fold_left_app, IH.
Qed.

Lemma fold_left_map_args {S A B} (g : S -> B -> S) (p : A -> B) l :
  forall s, fold_left g (map p l) s = fold_left (fun s y => g s (p y)) l s.
Proof.
  induction l as [|x l IH]; intros s; cbn [map fold_left]; auto.
Qed.

Lemma list_prod_flat_map {A B} (l : list A) (l' : list B) :
  list_prod l l' = flat_map (fun x => map (pair x) l') l.
Proof. induction l as [|x l IH]; cbn; [reflexivity|now rewrite IH]. Qed.

Lemma fold_left_pointwise {S A} (f g : S -> A -> S) l :
  (forall s x, f s x = g s x) ->
  forall s, fold_left f l s = fold_left g l s.
Proof.
  intros H; induction l as [|x l IH]; intros s; cbn [fold_left];
    [reflexivity|].
  now rewrite H, IH.
Qed.

Lemma cell_eq_dec (c c' : nat * nat) : {c = c'} + {c <> c'}.
Proof. decide equality; apply Nat.eq_dec. Qed.

(** Two nested [for] loops over [range(n)] visit the cells in order. *)
Lemma for_range_nested {S} (f : S -> nat -> nat -> S) n s :
  UUG.for_range n (fun s i => UUG.for_range n (fun s j => f s i j) s) s =
  fold_left (fun s c => f s (fst c) (snd c)) (cells n) s.
Proof.
  unfold UUG.for_range, cells. rewrite list_prod_flat_map, fold_left_flat_map.
  apply fold_left_pointwise. intros s' i.
  now rewrite fold_left_map_args.
Qed.

Lemma In_cells n c : In c (cells n) <-> (fst c < n)%nat /\ (snd c < n)%nat.
Proof.
  destruct c as [i j]; unfold cells; rewrite in_prod_iff, !in_seq.
  cbn [fst snd]; lia.
Qed.

Section FloydWarshallPhases.
Import UUG.

Variable n : nat.
Variable adj : list (list Z).

Abbreviation D tb i j := (mget Inf (fst tb) i j).
Abbreviation NX tb i j := (mget (-1) (snd tb) i j).
Abbreviation E := (edge adj).
Abbreviation inv := (fw_inv n adj).

(** [complete k tb]: every chain whose intermediate nodes are below [k] is
    accounted for in the distance table. *)
Definition complete (k : nat) (tb : tables) : Prop :=
  forall i j ms, (i < n)%nat -> (j < n)%nat ->
    chain E i ms j -> Forall (fun m => (m < k)%nat) ms ->
    dle (D tb i j) (Z.of_nat (S (List.length ms))).

Definition relax_cell (k : nat) (tb : tables) (c : nat * nat) : tables :=
  fw_relax tb k (fst c) (snd c).

(** A sweep of relaxations through [k]: the invariant is kept, entries only
    decrease, row and column [k] do not change, and every visited cell ends
    below the sum of its two entries through [k]. *)
Lemma relax_sweep k l : forall tb,
  inv tb -> (k < n)%nat -> Forall (fun c => In c (cells n)) l ->
  let tb' := fold_left (relax_cell k) l tb in
  inv tb' /\
  (forall a b, ext_le (D tb' a b) (D tb a b)) /\
  (forall a, D tb' a k = D tb a k /\ D tb' k a = D tb k a) /\
  (forall c x y, In c l ->
     D tb (fst c) k = Fin x -> D tb k (snd c) = Fin y ->
     dle (D tb' (fst c) (snd c)) (x + y)).
Proof.
  induction l as [|c l IH]; intros tb Hinv Hk Hl; cbn [fold_left].
  - split; [assumption|]. split; [intros; apply ext_le_refl|].
    split; [auto|]. intros c x y [].
  - apply Forall_cons_iff in Hl as (Hc & Hl). apply In_cells in Hc as (Hi & Hj).
    set (tb1 := relax_cell k tb c).
    assert (Hinv1 : inv tb1) by (apply fw_relax_inv; assumption).
    assert (Hle1 : forall a b, ext_le (D tb1 a b) (D tb a b))
      by (intros; apply (fw_relax_le n adj); assumption).
    assert (Hkeep1 : forall a, D tb1 a k = D tb a k /\ D tb1 k a = D tb k a).
    { intros a. unfold tb1, relax_cell.
      destruct (fw_relax_cases n adj tb k (fst c) (snd c) Hinv Hi Hj Hk)
        as [->|(x & y & _ & _ & _ & Hik & Hkj & _ & ->)]; [auto|].
      destruct Hinv as (Hsd & _). cbn [fst].
      rewrite !(mget_mset Inf n) by assumption.
      destruct (Nat.eqb_spec (fst c) a); destruct (Nat.eqb_spec (snd c) k);
        destruct (Nat.eqb_spec (fst c) k); destruct (Nat.eqb_spec (snd c) a);
        cbn [andb]; auto; congruence. }
    destruct (IH tb1 Hinv1 Hk Hl) as (Hinv' & Hle' & Hkeep' & Hcell').
    split; [assumption|].
    split; [intros a b; eapply ext_le_trans; [apply Hle'|apply Hle1]|].
    split.
    { intros a. destruct (Hkeep' a) as (H1 & H2).
      destruct (Hkeep1 a) as (H3 & H4). split; congruence. }
    intros c' x y [<-|Hin] Hx Hy.
    + eapply dle_mono; [apply Hle'|].
      apply (fw_relax_bound n adj); assumption.
    + apply Hcell'; [assumption| |].
      * now rewrite (proj1 (Hkeep1 (fst c'))).
      * now rewrite (proj2 (Hkeep1 (snd c'))).
Qed.

Lemma chain_nodes ms : forall i j,
  square n adj -> chain E i ms j ->
  (i < n)%nat /\ (j < n)%nat /\ Forall (fun m => (m < n)%nat) ms.
Proof.
  assert (Hedge : forall a b, square n adj -> E a b -> (a < n)%nat /\ (b < n)%nat).
  { intros a b Hsq He. unfold edge, mget in He.
    destruct (Nat.lt_ge_cases a n) as [Ha|Ha].
    - split; [assumption|].
      destruct (Nat.lt_ge_cases b n) as [Hb|Hb]; [assumption|].
      rewrite (nth_overflow (nth a adj [])) in He; [discriminate|].
      rewrite (square_row n adj a Hsq Ha). lia.
    - destruct Hsq as (Hlen & _).
      rewrite (nth_overflow adj) in He by lia. now destruct b. }
  induction ms as [|m ms IH]; intros i j Hsq H; cbn [chain] in H.
  - destruct (Hedge i j Hsq H); auto.
  - destruct H as (He & H). destruct (Hedge i m Hsq He).
    destruct (IH m j Hsq H) as (_ & Hj & Hms). auto.
Qed.

(** After the sweep through [k], chains through nodes up to [k] are
    accounted for. *)
Lemma sweep_complete k tb :
  inv tb -> complete k tb -> (k < n)%nat ->
  complete (S k) (fold_left (relax_cell k) (cells n) tb).
Proof.
  intros Hinv Hcomp Hk.
  destruct (relax_sweep k (cells n) tb Hinv Hk) as (Hinv' & Hle & Hkeep & Hcell).
  { apply Forall_forall; auto. }
  set (tb' := fold_left (relax_cell k) (cells n) tb) in *.
  intros i j ms. remember (List.length ms) as len eqn:Hlen.
  revert i j ms Hlen.
  induction len as [len IHlen] using lt_wf_ind.
  intros i j ms Hlen Hi Hj Hch Hms.
  destruct (in_dec Nat.eq_dec k ms) as [Hin|Hnin].
  - apply in_split in Hin as (l1 & l2 & ->).
    apply chain_split in Hch as (C1 & C2).
    apply Forall_app in Hms as (Hms1 & Hms2).
    apply Forall_cons_iff in Hms2 as (_ & Hms2).
    rewrite length_app in Hlen; cbn [List.length] in Hlen.
    pose proof (IHlen (List.length l1) ltac:(lia) i k l1 eq_refl Hi Hk C1 Hms1)
      as B1.
    pose proof (IHlen (List.length l2) ltac:(lia) k j l2 eq_refl Hk Hj C2 Hms2)
      as B2.
    destruct (D tb' i k) as [x|] eqn:Ex; [|destruct B1].
    destruct (D tb' k j) as [y|] eqn:Ey; [|destruct B2].
    cbn [dle] in B1, B2.
    rewrite (proj1 (Hkeep i)) in Ex. rewrite (proj2 (Hkeep j)) in Ey.
    assert (Hc : In (i, j) (cells n)) by (apply In_cells; auto).
    pose proof (Hcell (i, j) x y Hc Ex Ey) as B. cbn [fst snd] in B.
    destruct (D tb' i j); cbn [dle] in *; [lia|assumption].
  - eapply dle_mono; [apply Hle|]. rewrite Hlen. apply Hcomp; auto.
    rewrite Forall_forall in *. intros m Hm. specialize (Hms m Hm).
    assert (m <> k) by congruence. lia.
Qed.

Lemma sweeps_complete m : forall k0 tb,
  (k0 + m <= n)%nat -> inv tb -> complete k0 tb ->
  let tb' := fold_left (fun tb k => fold_left (relax_cell k) (cells n) tb)
                       (seq k0 m) tb in
  inv tb' /\ complete (k0 + m) tb'.
Proof.
  induction m as [|m IH]; intros k0 tb Hle Hinv Hcomp; cbn [seq fold_left].
  - rewrite Nat.add_0_r; auto.
  - replace (k0 + S m)%nat with (S k0 + m)%nat by lia.
    apply IH; [lia| |].
    + apply relax_sweep; [assumption|lia|apply Forall_forall; auto].
    + apply sweep_complete; [assumption|assumption|lia].
Qed.

(** ** The initialisation loop *)

Definition init_cell (tb : tables) (c : nat * nat) : tables :=
  fw_init_cell adj tb (fst c) (snd c).

Definition init_inv (tb : tables) : Prop :=
  square n (fst tb) /\ square n (snd tb) /\
  forall i j x, (i < n)%nat -> (j < n)%nat -> D tb i j = Fin x ->
    (i = j /\ x = 0) \/
    (i <> j /\ x = 1 /\ E i j /\ NX tb i j = Z.of_nat j).

(** What the initialisation of a cell establishes. *)
Definition init_done (c : nat * nat) (tb : tables) : Prop :=
  (fst c = snd c -> D tb (fst c) (snd c) = Fin 0) /\
  (fst c <> snd c -> E (fst c) (snd c) -> D tb (fst c) (snd c) = Fin 1).

Lemma init_cell_spec tb c :
  init_inv tb -> In c (cells n) ->
  init_inv (init_cell tb c) /\ init_done c (init_cell tb c) /\
  forall c', c' <> c -> init_done c' tb -> init_done c' (init_cell tb c).
Proof.
  intros (Hsd & Hsn & Hent) Hc. apply In_cells in Hc as (Hi & Hj).
  destruct c as [i j]; cbn [fst snd] in *.
  unfold init_cell, fw_init_cell, init_done; cbn [fst snd].
  destruct tb as [d nx]; cbn [fst snd] in *.
  unfold init_inv.
  destruct (Nat.eqb_spec i j) as [<-|Hij].
  - cbn [fst snd]. split; [|split].
    + split; [now apply square_mset|]. split; [assumption|].
      intros a b x Ha Hb. rewrite (mget_mset Inf n) by assumption.
      destruct (Nat.eqb_spec i a) as [<-|]; cbn [andb];
        [destruct (Nat.eqb_spec i b) as [<-|]|]; try (now apply Hent).
      intros E0; inv E0; auto.
    + rewrite (mget_mset Inf n), !Nat.eqb_refl by assumption.
      split; [reflexivity|congruence].
    + intros [a b] Hne (H1 & H2); cbn [fst snd] in *.
      rewrite (mget_mset Inf n) by assumption.
      destruct (Nat.eqb_spec i a) as [<-|]; cbn [andb];
        [destruct (Nat.eqb_spec i b) as [<-|]|]; auto; congruence.
  - destruct (Z.eqb_spec (mget 0 adj i j) 1) as [He|Hne]; cbn [fst snd].
    + split; [|split].
      * split; [now apply square_mset|]. split; [now apply square_mset|].
        intros a b x Ha Hb.
        rewrite (mget_mset Inf n), (mget_mset (-1) n) by assumption.
        destruct (Nat.eqb_spec i a) as [<-|]; cbn [andb];
          [destruct (Nat.eqb_spec j b) as [<-|]|]; try (now apply Hent).
        intros E0; inv E0. right; auto.
      * rewrite (mget_mset Inf n), !Nat.eqb_refl by assumption.
        split; [congruence|reflexivity].
      * intros [a b] Hne' (H1 & H2); cbn [fst snd] in *.
        rewrite (mget_mset Inf n) by assumption.
        destruct (Nat.eqb_spec i a) as [<-|]; cbn [andb];
          [destruct (Nat.eqb_spec j b) as [<-|]|]; auto; congruence.
    + split; [|split].
      * split; [assumption|]. split; [assumption|]. assumption.
      * split; [congruence|]. intros _ He. contradiction.
      * auto.
Qed.

Lemma init_sweep l : forall tb,
  init_inv tb -> Forall (fun c => In c (cells n)) l ->
  init_inv (fold_left init_cell l tb) /\
  forall c, In c l \/ init_done c tb ->
            init_done c (fold_left init_cell l tb).
Proof.
  induction l as [|c l IH]; intros tb Hinv Hl; cbn [fold_left].
  - split; [assumption|]. intros c [[]|H]; assumption.
  - apply Forall_cons_iff in Hl as (Hc & Hl).
    destruct (init_cell_spec tb c Hinv Hc) as (Hinv1 & Hdone1 & Hkeep1).
    destruct (IH _ Hinv1 Hl) as (Hinv' & Hdone').
    split; [assumption|].
    intros c' Hc'. apply Hdone'.
    destruct (cell_eq_dec c' c) as [->|Hne]; [now right|].
    destruct Hc' as [[E0|Hin]|Hd]; [congruence|now left|right; auto].
Qed.

End FloydWarshallPhases.
Section ShortestPaths.
Import UUG.

Variable n : nat.
Variable adj : list (list Z).
Variable tb : tables.
Hypothesis Hsq : square n adj.
Hypothesis Hinv : fw_inv n adj tb.
Hypothesis Hcomp : complete n adj n tb.

Abbreviation D i j := (mget Inf (fst tb) i j).
Abbreviation NX i j := (mget (-1) (snd tb) i j).
Abbreviation E := (edge adj).

Lemma dist_le_chain i ms j :
  chain E i ms j -> dle (D i j) (Z.of_nat (S (List.length ms))).
Proof.
  intros H. destruct (chain_nodes n adj ms i j Hsq H) as (Hi & Hj & Hms).
  now apply Hcomp.
Qed.

(** Along [next] the distance to the destination drops by exactly one. *)
Lemma next_step i j x :
  (i < n)%nat -> (j < n)%nat -> i <> j -> D i j = Fin x ->
  exists m, (m < n)%nat /\ NX i j = Z.of_nat m /\ E i m /\
            D m j = Fin (x - 1).
Proof.
  intros Hi Hj Hij Hx.
  pose proof Hinv as (_ & _ & Hd & Hc).
  destruct (Hc i j x Hi Hj Hij Hx) as (ms & Hch & -> & Hnx).
  destruct ms as [|m ms]; cbn [hd chain List.length] in *.
  - exists j. repeat split; auto;
      try (rewrite Hd by assumption; f_equal; lia).
  - destruct Hch as (He & Hch).
    destruct (chain_nodes n adj ms m j Hsq Hch) as (Hm & _ & _).
    exists m. repeat split; auto.
    pose proof (dist_le_chain m ms j Hch) as Hup.
    destruct (D m j) as [y|] eqn:Ey; [|destruct Hup]. cbn [dle] in Hup.
    f_equal.
    destruct (fin_entry_cases n adj tb m j Hinv Hm Hj y Ey)
      as [(<- & ->)|(Hmj & Hy)].
    + (* [m] is the destination *)
      pose proof (dist_le_chain i [] m He) as Hlow.
      rewrite Hx in Hlow. cbn [dle List.length] in Hlow. lia.
    + destruct (Hc m j y Hm Hj Hmj Ey) as (ms' & Hch' & -> & _).
      pose proof (dist_le_chain i (m :: ms') j (conj He Hch')) as Hlow.
      rewrite Hx in Hlow. cbn [dle List.length] in Hlow. lia.
Qed.

(** [route i ns j]: [ns] are the nodes visited after [i] when following
    [next] to [j]. *)
Fixpoint route (i : nat) (ns : list nat) (j : nat) : Prop :=
  match ns with
  | [] => i = j
  | m :: ns' =>
      i <> j /\ (m < n)%nat /\ NX i j = Z.of_nat m /\ E i m /\
      D m j = Fin (Z.of_nat (List.length ns')) /\ route m ns' j
  end.

Lemma route_exists (x : nat) : forall i j,
  (i < n)%nat -> (j < n)%nat -> D i j = Fin (Z.of_nat x) ->
  exists ns, List.length ns = x /\ route i ns j.
Proof.
  induction x as [|x IH]; intros i j Hi Hj Hx.
  - exists []; split; [reflexivity|]. cbn [route].
    destruct (fin_entry_cases n adj tb i j Hinv Hi Hj _ Hx) as [(H & _)|(_ & H)];
      [assumption|lia].
  - assert (Hij : i <> j).
    { destruct (fin_entry_cases n adj tb i j Hinv Hi Hj _ Hx) as [(_ & H)|(H & _)];
        [lia|assumption]. }
    destruct (next_step i j _ Hi Hj Hij Hx) as (m & Hm & Hnx & He & Hd).
    replace (Z.of_nat (S x) - 1) with (Z.of_nat x) in Hd by lia.
    destruct (IH m j Hm Hj Hd) as (ns & Hlen & Hr).
    exists (m :: ns); split; [cbn; lia|]. cbn [route].
    rewrite Hlen. auto 10.
Qed.

Lemma route_nodes ns : forall i j,
  route i ns j -> Forall (fun m => (m < n)%nat) ns.
Proof.
  induction ns as [|m ns IH]; intros i j H; cbn [route] in H;
    [constructor|].
  destruct H as (_ & Hm & _ & _ & _ & H). constructor; eauto.
Qed.

Lemma route_dists ns : forall i j m,
  (j < n)%nat -> route i ns j -> In m ns ->
  exists y, D m j = Fin (Z.of_nat y) /\ (y < List.length ns)%nat.
Proof.
  induction ns as [|a ns IH]; intros i j m Hj H Hin; [destruct Hin|].
  cbn [route] in H. destruct H as (_ & _ & _ & _ & Hd & H).
  destruct Hin as [<-|Hin].
  - exists (List.length ns); split; [assumption|cbn; lia].
  - destruct (IH a j m Hj H Hin) as (y & Hy & Hlt).
    exists y; split; [assumption|cbn; lia].
Qed.

Lemma route_NoDup ns : forall i j,
  (i < n)%nat -> (j < n)%nat ->
  D i j = Fin (Z.of_nat (List.length ns)) -> route i ns j -> NoDup (i :: ns).
Proof.
  induction ns as [|a ns IH]; intros i j Hi Hj Hd H.
  - constructor; [intros []|constructor].
  - constructor.
    + intros Hin. destruct (route_dists _ _ _ i Hj H Hin) as (y & Hy & Hlt).
      rewrite Hd in Hy. inv Hy. cbn [List.length] in *. lia.
    + cbn [route] in H. destruct H as (_ & Ha & _ & _ & Hda & H).
      exact (IH a j Ha Hj Hda H).
Qed.

Lemma route_length ns i j :
  (i < n)%nat -> (j < n)%nat ->
  D i j = Fin (Z.of_nat (List.length ns)) -> route i ns j ->
  (S (List.length ns) <= n)%nat.
Proof.
  intros Hi Hj Hd H.
  pose proof (route_NoDup ns i j Hi Hj Hd H) as Hnd.
  pose proof (route_nodes ns i j H) as Hns.
  replace n with (List.length (seq 0 n)) by apply length_seq.
  change (S (List.length ns)) with (List.length (i :: ns)).
  apply NoDup_incl_length; [assumption|].
  intros m [<-|Hm]; apply in_seq; [lia|].
  rewrite Forall_forall in Hns. specialize (Hns m Hm). lia.
Qed.

(** The loop of [get_shortest_path] follows the route. *)
Lemma walk_route ns : forall i j path fuel,
  (i < n)%nat -> (j < n)%nat -> route i ns j ->
  (List.length ns <= fuel)%nat ->
  walk fuel (snd tb) (Z.of_nat i) (Z.of_nat j) path =
    Ok (path ++ map Z.of_nat ns).
Proof.
  pose proof Hinv as (_ & Hsn & _).
  induction ns as [|m ns IH]; intros i j path fuel Hi Hj H Hfuel;
    cbn [route] in H.
  - subst j. destruct fuel; cbn [walk]; rewrite Z.eqb_refl, app_nil_r;
      reflexivity.
  - destruct H as (Hij & Hm & Hnx & He & Hd & H).
    destruct fuel as [|fuel]; [cbn in Hfuel; lia|]. cbn [walk].
    destruct (Z.eqb_spec (Z.of_nat i) (Z.of_nat j)) as [E0|_]; [lia|].
    rewrite (get2_square (-1) n) by (auto; lia). rewrite !Nat2Z.id, Hnx.
    cbn [bind].
    destruct (Z.eqb_spec (Z.of_nat m) (-1)) as [E0|_]; [lia|].
    rewrite IH by (auto; cbn in Hfuel; lia).
    rewrite <- app_assoc. reflexivity.
Qed.

End ShortestPaths.
(* ================================================================== *)
(** * The topology of a router *)
(* ================================================================== *)

Lemma mget_repeat_same {A} (x : A) n i j :
  UUG.mget x (repeat (repeat x n) n) i j = x.
Proof.
  unfold UUG.mget.
  destruct (Nat.lt_ge_cases i n) as [Hi|Hi].
  - rewrite nth_repeat_lt by assumption.
    destruct (Nat.lt_ge_cases j n) as [Hj|Hj].
    + now rewrite nth_repeat_lt.
    + rewrite nth_overflow; [reflexivity | rewrite repeat_length; lia].
  - rewrite (nth_overflow (repeat _ _)) by (rewrite repeat_length; lia).
    now destruct j.
Qed.

(** The tables computed by [floyd_warshall]. *)
Lemma floyd_warshall_correct (g : UUG.t) :
  let n := Z.to_nat (UUG.num_nodes g) in
  square n (UUG.adj_matrix g) ->
  exists d nx,
    UUG.floyd_warshall g =
      UUG.mk (UUG.num_nodes g) (UUG.adj_matrix g) (Some d) (Some nx) /\
    fw_inv n (UUG.adj_matrix g) (d, nx) /\
    complete n (UUG.adj_matrix g) n (d, nx).
Proof.
  intros n Hsq. unfold UUG.floyd_warshall. fold n.
  set (tb0 := (repeat (repeat UUG.Inf n) n, repeat (repeat (-1) n) n)).
  set (tbi := UUG.for_range n _ tb0).
  set (tbf := UUG.for_range n _ tbi).
  exists (fst tbf), (snd tbf); split; [reflexivity|].
  rewrite <- surjective_pairing.
  set (tb1 := fold_left (init_cell (UUG.adj_matrix g)) (cells n) tb0).
  assert (Ei : tbi = tb1).
  { apply (for_range_nested
             (fun tb i j => UUG.fw_init_cell (UUG.adj_matrix g) tb i j)). }
  assert (Ef : tbf =
               fold_left (fun tb k => fold_left (relax_cell k) (cells n) tb)
                         (seq 0 n) tb1).
  { unfold tbf, UUG.for_range at 1. rewrite Ei.
    apply fold_left_pointwise. intros tb k.
    apply (for_range_nested (fun tb i j => UUG.fw_relax tb k i j)). }
  rewrite Ef. clear Ei Ef tbi tbf.
  destruct (init_sweep n (UUG.adj_matrix g) (cells n) tb0) as (Hi1 & Hdone).
  { split; [apply square_repeat|]. split; [apply square_repeat|].
    intros i j x _ _ H. unfold tb0 in H; cbn [fst] in H.
    rewrite mget_repeat_same in H. discriminate. }
  { apply Forall_forall; auto. }
  fold tb1 in Hi1, Hdone.
  assert (Hinv1 : fw_inv n (UUG.adj_matrix g) tb1).
  { destruct Hi1 as (Hsd & Hsn & Hent).
    split; [assumption|]. split; [assumption|]. split.
    - intros i Hi.
      destruct (Hdone (i, i)) as (H & _); [left; apply In_cells; auto|].
      now apply H.
    - intros i j x Hi Hj Hij Hx.
      destruct (Hent i j x Hi Hj Hx) as [(E0 & _)|(_ & -> & He & Hnx)];
        [contradiction|].
      exists []. cbn [chain hd List.length]. auto. }
  assert (Hcomp1 : complete n (UUG.adj_matrix g) 0 tb1).
  { intros i j ms Hi Hj Hch Hms.
    destruct ms as [|m ms]; [|apply Forall_cons_iff in Hms; lia].
    cbn [chain List.length] in *.
    destruct (Hdone (i, j)) as (H1 & H2); [left; apply In_cells; auto|].
    cbn [fst snd] in *.
    destruct (Nat.eq_dec i j) as [E0|Hne].
    - rewrite (H1 E0). cbn; lia.
    - rewrite (H2 Hne Hch). cbn; lia. }
  exact (sweeps_complete n (UUG.adj_matrix g) n 0 tb1 (Nat.le_refl n)
           Hinv1 Hcomp1).
Qed.

(** [u] and [v] are joined by one of the edges [es]. *)
Definition joined (es : list (Z * Z)) (u v : Z) : Prop :=
  exists a b, In (a, b) es /\ ((a = u /\ b = v) \/ (a = v /\ b = u)).

Lemma has_edge_joined (g : Nx.Graph) u v :
  Nx.has_edge g u v = true <-> joined (Nx.edges g) u v.
Proof.
  unfold Nx.has_edge, joined. rewrite existsb_exists. split.
  - intros ([a b] & Hin & H). exists a, b; split; [assumption|].
    apply orb_true_iff in H as [H|H]; apply andb_true_iff in H as (H1 & H2);
      apply Z.eqb_eq in H1, H2; auto.
  - intros (a & b & Hin & H). exists (a, b); split; [assumption|].
    apply orb_true_iff.
    destruct H as [(-> & ->)|(-> & ->)]; [left|right];
      now rewrite !Z.eqb_refl.
Qed.

Lemma joined_cons a b es u v :
  joined ((a, b) :: es) u v <->
  ((a = u /\ b = v) \/ (a = v /\ b = u)) \/ joined es u v.
Proof.
  unfold joined; split.
  - intros (x & y & [E0|Hin] & H); [inv E0; now left|right; eauto].
  - intros [H|(x & y & Hin & H)].
    + exists a, b; split; [now left|assumption].
    + exists x, y; split; [now right|assumption].
Qed.

Lemma add_edges_spec n es : forall g,
  square n (UUG.adj_matrix g) ->
  (forall a b, In (a, b) es -> 0 <= a < Z.of_nat n /\ 0 <= b < Z.of_nat n) ->
  exists m,
    UUG.add_edges g es =
      Ok (UUG.mk (UUG.num_nodes g) m (UUG.dist g) (UUG.next_node g)) /\
    square n m /\
    forall i j, (i < n)%nat -> (j < n)%nat ->
      (UUG.mget 0 m i j = 1 <->
       UUG.mget 0 (UUG.adj_matrix g) i j = 1 \/
       joined es (Z.of_nat i) (Z.of_nat j)).
Proof.
  induction es as [|[a b] es IH]; intros g Hsq Hes; cbn [UUG.add_edges].
  - exists (UUG.adj_matrix g). split; [now destruct g|]. split; [assumption|].
    intros i j _ _. split; [auto|]. intros [H|(a & b & [] & _)]; assumption.
  - destruct (Hes a b (or_introl eq_refl)) as (Ha & Hb).
    unfold UUG.add_edge.
    rewrite (set2_square n) by assumption; cbn [bind].
    set (m1 := UUG.mset (UUG.adj_matrix g) (Z.to_nat a) (Z.to_nat b) 1).
    assert (Hsq1 : square n m1) by (apply square_mset; [assumption|lia]).
    rewrite (set2_square n) by assumption; cbn [bind].
    set (m2 := UUG.mset m1 (Z.to_nat b) (Z.to_nat a) 1).
    assert (Hsq2 : square n m2) by (apply square_mset; [assumption|lia]).
    destruct (IH (UUG.mk (UUG.num_nodes g) m2 (UUG.dist g) (UUG.next_node g)))
      as (m & Hm & Hsqm & Hspec); [assumption| |].
    { intros x y Hin; apply Hes; now right. }
    cbn [UUG.num_nodes UUG.dist UUG.next_node UUG.adj_matrix] in *.
    exists m. split; [assumption|]. split; [assumption|].
    intros i j Hi Hj. rewrite (Hspec i j Hi Hj).
    unfold m2, m1.
    rewrite (mget_mset 0 n) by (auto; lia).
    rewrite (mget_mset 0 n) by (auto; lia).
    rewrite joined_cons.
    assert (Hentry :
      (if (Nat.eqb (Z.to_nat b) i && Nat.eqb (Z.to_nat a) j)%bool then 1
       else if (Nat.eqb (Z.to_nat a) i && Nat.eqb (Z.to_nat b) j)%bool then 1
       else UUG.mget 0 (UUG.adj_matrix g) i j) = 1 <->
      UUG.mget 0 (UUG.adj_matrix g) i j = 1 \/
      ((a = Z.of_nat i /\ b = Z.of_nat j) \/
       (a = Z.of_nat j /\ b = Z.of_nat i))).
    { destruct (Nat.eqb_spec (Z.to_nat b) i);
        destruct (Nat.eqb_spec (Z.to_nat a) j);
        destruct (Nat.eqb_spec (Z.to_nat a) i);
        destruct (Nat.eqb_spec (Z.to_nat b) j); cbn [andb];
        split; intros H; try (right; lia); try reflexivity;
        try (destruct H as [H|H]; [assumption|lia]); auto. }
    rewrite Hentry. tauto.
Qed.

(** What a router knows of the topology it was built on. *)
Record topology_ok (graph : Nx.Graph) (t : UUG.t) : Prop := {
  topo_nodes : UUG.num_nodes t = Nx.number_of_nodes graph;
  topo_square : square (Z.to_nat (UUG.num_nodes t)) (UUG.adj_matrix t);
  topo_edges : forall i j,
    (i < Z.to_nat (UUG.num_nodes t))%nat ->
    (j < Z.to_nat (UUG.num_nodes t))%nat ->
    (edge (UUG.adj_matrix t) i j <->
     Nx.has_edge graph (Z.of_nat i) (Z.of_nat j) = true);
  topo_tables : exists d nx,
    UUG.dist t = Some d /\ UUG.next_node t = Some nx /\
    fw_inv (Z.to_nat (UUG.num_nodes t)) (UUG.adj_matrix t) (d, nx) /\
    complete (Z.to_nat (UUG.num_nodes t)) (UUG.adj_matrix t)
             (Z.to_nat (UUG.num_nodes t)) (d, nx)
}.

Lemma router_init_spec (graph : Nx.Graph) mapper cnots la :
  Nx.wf graph ->
  exists t,
    Router.init graph mapper cnots la =
      Ok (Router.mk (Mapper.l_to_p mapper) (Mapper.p_to_l mapper) cnots la t)
    /\ topology_ok graph t.
Proof.
  intros (Hnodes & Hedges). unfold Router.init, UUG.from_nx.
  set (q := Nx.number_of_nodes graph) in *.
  assert (Hq : 0 <= q) by apply len_nonneg.
  destruct (add_edges_spec (Z.to_nat q) (Nx.edges graph) (UUG.init q))
    as (m & Hm & Hsq & Hspec).
  { apply square_repeat. }
  { intros a b Hin. destruct (Hedges a b Hin) as (Ha & Hb & _).
    rewrite Hnodes in Ha, Hb. apply In_range in Ha, Hb. lia. }
  rewrite Hm; cbn [bind UUG.init UUG.num_nodes UUG.dist UUG.next_node].
  set (g1 := UUG.mk q m None None).
  destruct (floyd_warshall_correct g1) as (d & nx & Hfw & Hinv & Hcomp).
  { exact Hsq. }
  rewrite Hfw. cbn [UUG.num_nodes UUG.adj_matrix g1] in *.
  eexists; split; [reflexivity|].
  constructor; cbn [UUG.num_nodes UUG.adj_matrix UUG.dist UUG.next_node].
  - reflexivity.
  - assumption.
  - intros i j Hi Hj. unfold edge. rewrite (Hspec i j Hi Hj).
    cbn [UUG.init UUG.adj_matrix]. rewrite mget_repeat_same.
    rewrite has_edge_joined. split; [intros [H|H]; [discriminate|assumption]|auto].
  - exists d, nx. auto.
Qed.

Section TopologyFacts.
Variable graph : Nx.Graph.
Variable t : UUG.t.
Hypothesis Hok : topology_ok graph t.

Abbreviation q := (Nx.number_of_nodes graph).

Lemma topo_adjacent u v :
  0 <= u < q -> 0 <= v < q ->
  UUG.are_adjacent t u v = Ok (Nx.has_edge graph u v).
Proof.
  intros Hu Hv. destruct Hok as [Hn Hsq He _]. rewrite Hn in *.
  unfold UUG.are_adjacent.
  rewrite (get2_square 0 (Z.to_nat q)) by (auto; lia); cbn [bind].
  f_equal.
  specialize (He (Z.to_nat u) (Z.to_nat v) ltac:(lia) ltac:(lia)).
  unfold edge in He. rewrite !Z2Nat.id in He by lia.
  destruct (Z.eqb_spec (UUG.mget 0 (UUG.adj_matrix t) (Z.to_nat u) (Z.to_nat v)) 1)
    as [E0|E0]; destruct (Nx.has_edge graph u v); auto.
  - apply He in E0; discriminate.
  - exfalso; apply E0, He; reflexivity.
Qed.

Lemma chain_connected ms : forall i j,
  chain (edge (UUG.adj_matrix t)) i ms j ->
  connected graph (Z.of_nat i) (Z.of_nat j).
Proof.
  destruct Hok as [Hn Hsq He _].
  assert (Hstep : forall a b, edge (UUG.adj_matrix t) a b ->
            Nx.has_edge graph (Z.of_nat a) (Z.of_nat b) = true).
  { intros a b Hab.
    destruct (chain_nodes _ _ [] a b Hsq Hab) as (Ha & Hb & _).
    now apply He. }
  induction ms as [|m ms IH]; intros i j H; cbn [chain] in H.
  - eapply connected_step; [apply Hstep; eassumption|apply connected_refl].
  - destruct H as (Him & H).
    eapply connected_step; [apply Hstep; eassumption|apply IH; assumption].
Qed.

(** Between nodes of different components [get_shortest_path] returns the
    empty list. *)
Lemma shortest_path_disconnected u v :
  0 <= u < q -> 0 <= v < q -> ~ connected graph u v ->
  UUG.get_shortest_path t u v = Ok [].
Proof.
  intros Hu Hv Hnc.
  destruct Hok as [Hn Hsq He (d & nx & Hd & Hnx & Hinv & Hcomp)].
  rewrite Hn in *.
  unfold UUG.get_shortest_path. rewrite Hd, Hnx.
  pose proof Hinv as (Hsd & _ & _ & Hch). cbn [fst] in Hsd.
  rewrite (get2_square UUG.Inf (Z.to_nat q)) by (auto; lia); cbn [bind].
  destruct (UUG.mget UUG.Inf d (Z.to_nat u) (Z.to_nat v)) as [x|] eqn:Ex;
    [|reflexivity].
  exfalso. apply Hnc.
  destruct (Nat.eq_dec (Z.to_nat u) (Z.to_nat v)) as [E0|Hne].
  - assert (u = v) by lia. subst. apply connected_refl.
  - destruct (Hch (Z.to_nat u) (Z.to_nat v) x) as (ms & Hms & _);
      [lia|lia|assumption|exact Ex|].
    apply chain_connected in Hms. now rewrite !Z2Nat.id in Hms by lia.
Qed.

(** Between nodes at distance [x] it returns a path of [x + 1] nodes of the
    topology, starting at [u]. *)
Lemma shortest_path_at_distance u v d x :
  0 <= u < q -> 0 <= v < q ->
  UUG.dist t = Some d -> UUG.get2 d u v = Ok (UUG.Fin x) ->
  exists P,
    UUG.get_shortest_path t u v = Ok P /\ len P = x + 1 /\ 0 <= x /\
    Forall (fun y => 0 <= y < q) P /\ NoDup P /\ hd u P = u.
Proof.
  intros Hu Hv Hd Hx.
  destruct Hok as [Hn Hsq He (d' & nx & Hd' & Hnx & Hinv & Hcomp)].
  rewrite Hn in *. rewrite Hd in Hd'. inv Hd'.
  pose proof Hinv as (Hsd & _). cbn [fst] in Hsd.
  rewrite (get2_square UUG.Inf (Z.to_nat q)) in Hx by (auto; lia). inv Hx.
  rename H0 into Hx.
  assert (Hx0 : 0 <= x).
  { destruct (fin_entry_cases _ _ _ (Z.to_nat u) (Z.to_nat v) Hinv
                ltac:(lia) ltac:(lia) x Hx) as [(_ & ->)|(_ & H)]; lia. }
  destruct (route_exists (Z.to_nat q) (UUG.adj_matrix t) (d', nx) Hsq Hinv Hcomp
              (Z.to_nat x) (Z.to_nat u) (Z.to_nat v))
    as (ns & Hlen & Hr); [lia|lia|cbn [fst]; rewrite Hx; f_equal; lia|].
  assert (Hdn : UUG.mget UUG.Inf (fst (d', nx)) (Z.to_nat u) (Z.to_nat v)
                = UUG.Fin (Z.of_nat (List.length ns)))
    by (cbn [fst]; rewrite Hx, Hlen; f_equal; lia).
  assert (Hun : (Z.to_nat u < Z.to_nat q)%nat) by lia.
  assert (Hvn : (Z.to_nat v < Z.to_nat q)%nat) by lia.
  pose proof (route_length _ _ _ ns _ _ Hun Hvn Hdn Hr) as Hbound.
  pose proof (route_NoDup _ _ _ ns _ _ Hun Hvn Hdn Hr) as Hnd.
  pose proof (route_nodes _ _ _ ns _ _ Hr) as Hns.
  exists (u :: map Z.of_nat ns).
  unfold UUG.get_shortest_path. rewrite Hd, Hnx.
  rewrite (get2_square UUG.Inf (Z.to_nat q)) by (auto; lia); cbn [bind].
  rewrite Hx; cbn [UUG.ext_is_inf]. rewrite Hn.
  assert (Hfuel : (List.length ns <= Z.to_nat q)%nat) by lia.
  pose proof (walk_route _ _ _ Hinv ns (Z.to_nat u) (Z.to_nat v) [u]
                (Z.to_nat q) Hun Hvn Hr Hfuel) as Hw.
  cbn [snd] in Hw. rewrite !Z2Nat.id in Hw by lia.
  split; [exact Hw|].
  split; [unfold len; cbn [List.length]; rewrite length_map; lia|].
  split; [assumption|]. split; [|split; [|reflexivity]].
  - constructor; [lia|]. apply Forall_map.
    eapply Forall_impl; [|exact Hns]. cbn; intros; lia.
  - replace u with (Z.of_nat (Z.to_nat u)) by lia.
    change (NoDup (map Z.of_nat (Z.to_nat u :: ns))).
    apply Finite.Injective_map_NoDup; [intros a b; lia|assumption].
Qed.

End TopologyFacts.
(* ================================================================== *)
(** * Routing one gate *)
(* ================================================================== *)

Lemma has_edge_connected graph u v :
  Nx.has_edge graph u v = true -> connected graph u v.
Proof.
  intros H. eapply connected_step; [eassumption|apply connected_refl].
Qed.

Lemma split_paths_nil s c t :
  s = c \/ s = t \/ s = -1 -> Router.split_paths [] s c t = Some ([], []).
Proof.
  intros H. unfold Router.split_paths.
  destruct (Z.eqb_spec s t); [reflexivity|].
  destruct (Z.eqb_spec s c); [reflexivity|].
  destruct (Z.eqb_spec s (-1)); [reflexivity|lia].
Qed.

(** The behaviour shown on the two pairs is general.  When the control and
    the target sit on nodes of different connected components,
    [get_shortest_path] returns the empty list and the router records no
    SWAP for the gate: it returns the two empty lists and the count 0,
    leaves the placement as it is and goes on; no error is raised. *)
Theorem route_between_components_is_silent :
  forall (graph : Nx.Graph) (mapper : Mapper.t) (cnots : list triple)
         (la : Z) (r0 r : Router.t) (c t i : Z) (rnd : rng) (u v : Z),
    Nx.wf graph ->
    Router.init graph mapper cnots la = Ok r0 ->
    Router.topology r = Router.topology r0 ->
    getitem (Router.l_to_p r) c = Ok u ->
    getitem (Router.l_to_p r) t = Ok v ->
    0 <= u < Nx.number_of_nodes graph ->
    0 <= v < Nx.number_of_nodes graph ->
    ~ connected graph u v ->
    UUG.get_shortest_path (Router.topology r) u v = Ok [] /\
    exists rnd', Router.apply_cnot r c t i rnd = Ok ([[]; []], 0, r, rnd').
Proof.
  intros graph mapper cnots la r0 r c t i rnd u v Hg Hinit Htopo Hu Hv
         Hur Hvr Hnc.
  destruct (router_init_spec graph mapper cnots la Hg) as (tp & Hr0 & Hok).
  rewrite Hr0 in Hinit. inv Hinit. cbn [Router.topology] in Htopo.
  pose proof (shortest_path_disconnected graph tp Hok u v Hur Hvr Hnc) as Hsp.
  rewrite Htopo. split; [assumption|].
  destruct (strategy_cases r i c t rnd) as (s & rnd' & Hs & Hcases).
  exists rnd'. unfold Router.apply_cnot.
  rewrite Hu, Hv; cbn [bind]. rewrite Htopo.
  rewrite (topo_adjacent graph tp Hok u v Hur Hvr); cbn [bind].
  destruct (Nx.has_edge graph u v) eqn:He.
  { exfalso; apply Hnc. now apply has_edge_connected. }
  rewrite Hsp; cbn [bind].
  rewrite Hs; cbn [bind]; cbv beta iota.
  rewrite (split_paths_nil s c t Hcases).
  destruct r; reflexivity.
Qed.

Lemma two_pairs_wf : Nx.wf two_pairs.
Proof.
  split; [reflexivity|].
  intros a b [H|[H|[]]]; inv H; unfold two_pairs; cbn [Nx.nodes];
    rewrite !In_range; vm_compute; repeat split; discriminate.
Qed.

Definition router_two_pairs : Router.t :=
  match Router.init two_pairs (Mapper.init two_pairs [(0, 2, 0)] 4)
                    [(0, 2, 0)] 10 with
  | Ok r => r
  | Raise _ => Router.mk [] [] [] 0 (UUG.init 0)
  end.

Lemma route_between_components_is_silent_witness :
  exists rnd',
    Router.apply_cnot router_two_pairs 0 2 0 [] =
      Ok ([[]; []], 0, router_two_pairs, rnd').
Proof.
  refine (proj2 (route_between_components_is_silent two_pairs
            (Mapper.init two_pairs [(0, 2, 0)] 4) [(0, 2, 0)] 10
            router_two_pairs router_two_pairs 0 2 0 [] 0 2
            two_pairs_wf _ eq_refl _ _ _ _ _)).
  - vm_compute; reflexivity.
  - vm_compute; reflexivity.
  - vm_compute; reflexivity.
  - vm_compute; split; [discriminate|reflexivity].
  - vm_compute; split; [discriminate|reflexivity].
  - intros H.
    destruct (two_pairs_component _ _ _ H eq_refl (or_introl eq_refl));
      discriminate.
Defined.

(** C5.  In a router built on a topology of [q] nodes, when the control and
    the target sit on two distinct non-adjacent nodes [u] and [v] whose entry
    in the distance table is [k], the shortest path has [k + 1] nodes and the
    router records exactly [k - 1] SWAPs for the gate (the count it returns
    and the two lists together), whichever branch the lookahead takes. *)
Theorem router_emits_k_minus_1_swaps :
  forall (graph : Nx.Graph) (mapper : Mapper.t) (cnots : list triple)
         (la : Z) (r0 r : Router.t) (c t i : Z) (rnd : rng) (u v : Z)
         (d : list (list UUG.ext)) (k : Z),
    Nx.wf graph ->
    Router.init graph mapper cnots la = Ok r0 ->
    Router.topology r = Router.topology r0 ->
    range_inv (Nx.number_of_nodes graph) r ->
    0 <= c < Nx.number_of_nodes graph ->
    0 <= t < Nx.number_of_nodes graph ->
    getitem (Router.l_to_p r) c = Ok u ->
    getitem (Router.l_to_p r) t = Ok v ->
    u <> v ->
    UUG.are_adjacent (Router.topology r) u v = Ok false ->
    UUG.dist (Router.topology r) = Some d ->
    UUG.get2 d u v = Ok (UUG.Fin k) ->
    exists P control_swaps target_swaps r' rnd',
      UUG.get_shortest_path (Router.topology r) u v = Ok P /\
      len P = k + 1 /\
      Router.apply_cnot r c t i rnd =
        Ok ([control_swaps; target_swaps], k - 1, r', rnd') /\
      len control_swaps + len target_swaps = k - 1.
Proof.
  intros graph mapper cnots la r0 r c t i rnd u v d k Hg Hinit Htopo Hr
         Hc Ht Hu Hv Huv Hadj Hd Hk.
  destruct (router_init_spec graph mapper cnots la Hg) as (tp & Hr0 & Hok).
  rewrite Hr0 in Hinit. inv Hinit. cbn [Router.topology] in Htopo.
  pose proof Hr as (_ & _ & Fl & _).
  pose proof (getitem_Forall _ _ _ _ Fl Hu) as Hur; cbn beta in Hur.
  pose proof (getitem_Forall _ _ _ _ Fl Hv) as Hvr; cbn beta in Hvr.
  rewrite Htopo in Hd.
  destruct (shortest_path_at_distance graph tp Hok u v d k Hur Hvr Hd Hk)
    as (P & HP & Hlen & Hk0 & HPr & _ & _).
  assert (Hk1 : 1 <= k).
  { destruct (Z.eq_dec k 0) as [->|]; [|lia].
    destruct Hok as [Hn Hsq _ (d' & nx & Hd' & _ & Hinv & _)].
    rewrite Hd in Hd'. inv Hd'. rewrite Hn in *.
    pose proof Hinv as (Hsd & _). cbn [fst] in Hsd.
    rewrite (get2_square UUG.Inf _ _ _ _ Hsd) in Hk by lia. inv Hk.
    destruct (fin_entry_cases _ _ _ (Z.to_nat u) (Z.to_nat v) Hinv
                ltac:(lia) ltac:(lia) 0 H0) as [(E0 & _)|(_ & H)]; lia. }
  rewrite <- Htopo in HP.
  destruct (apply_cnot_swaps_along_path (Nx.number_of_nodes graph) r c t i rnd
              u v P k Hr Hc Ht Hu Hv Hadj HP HPr Hlen Hk1)
    as (cs & ts & r' & rnd' & Ha & Htot).
  exists P, cs, ts, r', rnd'. auto.
Qed.

Lemma router_emits_k_minus_1_swaps_witness :
  exists P control_swaps target_swaps r' rnd',
    UUG.get_shortest_path (Router.topology router_far) 0 5 = Ok P /\
    len P = 5 + 1 /\
    Router.apply_cnot router_far 0 5 0 [] =
      Ok ([control_swaps; target_swaps], 5 - 1, r', rnd') /\
    len control_swaps + len target_swaps = 5 - 1.
Proof.
  refine (router_emits_k_minus_1_swaps (line 6)
            (Mapper.init (line 6) [(0, 5, 0)] 6) [(0, 5, 0)] 10
            router_far router_far 0 5 0 [] 0 5
            (match UUG.dist (Router.topology router_far) with
             | Some d => d
             | None => []
             end) 5
            (line_wf 6) _ eq_refl _ _ _ _ _ _ _ _ _).
  - vm_compute; reflexivity.
  - repeat split; try (vm_compute; reflexivity);
      vm_compute; repeat constructor; discriminate.
  - vm_compute; split; [discriminate|reflexivity].
  - vm_compute; split; [discriminate|reflexivity].
  - vm_compute; reflexivity.
  - vm_compute; reflexivity.
  - discriminate.
  - vm_compute; reflexivity.
  - vm_compute; reflexivity.
  - vm_compute; reflexivity.
Defined.

Definition router_line4 : Router.t :=
  match Router.init (line 4) (Mapper.init (line 4) [(0, 3, 0)] 4)
                    [(0, 3, 0)] 10 with
  | Ok r => r
  | Raise _ => Router.mk [] [] [] 0 (UUG.init 0)
  end.

Lemma lookahead_window_contains_current_witness :
  draw_free (Router.route_circuit router_line4).
Proof.
  refine (proj2 (proj2 (lookahead_window_contains_current router_line4 _ _))).
  - intros [|[|p]] c t i H; vm_compute in H; try discriminate.
    inv H. reflexivity.
  - vm_compute; discriminate.
Defined.
(* ================================================================== *)
(** * Routing always returns *)
(* ================================================================== *)

Lemma split_paths_some P s c t :
  s = c \/ s = t \/ s = -1 ->
  exists cp tp, Router.split_paths P s c t = Some (cp, tp).
Proof.
  intros H. unfold Router.split_paths.
  destruct (Z.eqb_spec s t); [eauto|].
  destruct (Z.eqb_spec s c); [eauto|].
  destruct (Z.eqb_spec s (-1)); [eauto|lia].
Qed.

(** On the tables computed by [floyd_warshall], [get_shortest_path] returns
    for every pair of nodes, and what it returns lists nodes of the
    topology. *)
Lemma get_shortest_path_total graph tp u v :
  topology_ok graph tp ->
  0 <= u < Nx.number_of_nodes graph -> 0 <= v < Nx.number_of_nodes graph ->
  exists P, UUG.get_shortest_path tp u v = Ok P /\
            Forall (fun y => 0 <= y < Nx.number_of_nodes graph) P.
Proof.
  intros Hok Hu Hv.
  pose proof Hok as [Hn Hsq _ (d & nx & Hd & Hnx & Hinv & _)].
  pose proof Hinv as (Hsd & _). cbn [fst] in Hsd. rewrite Hn in *.
  destruct (UUG.mget UUG.Inf d (Z.to_nat u) (Z.to_nat v)) as [x|] eqn:Ex.
  - destruct (shortest_path_at_distance graph tp Hok u v d x Hu Hv Hd)
      as (P & HP & _ & _ & HF & _).
    { rewrite (get2_square UUG.Inf (Z.to_nat (Nx.number_of_nodes graph)))
        by (auto; lia).
      now rewrite Ex. }
    eauto.
  - exists []. split; [|constructor].
    unfold UUG.get_shortest_path. rewrite Hd, Hnx.
    rewrite (get2_square UUG.Inf (Z.to_nat (Nx.number_of_nodes graph)))
      by (auto; lia).
    cbn [bind]. now rewrite Ex.
Qed.

(** One gate: with the placement lists in range, [__apply_cnot] returns and
    leaves them in range. *)
Lemma apply_cnot_total graph r c t i g :
  topology_ok graph (Router.topology r) ->
  range_inv (Nx.number_of_nodes graph) r ->
  0 <= c < Nx.number_of_nodes graph -> 0 <= t < Nx.number_of_nodes graph ->
  exists sw n r' g',
    Router.apply_cnot r c t i g = Ok (sw, n, r', g') /\
    range_inv (Nx.number_of_nodes graph) r' /\
    Router.topology r' = Router.topology r.
Proof.
  intros Hok Hr Hc Ht.
  pose proof Hr as (Hl & Hp & Fl & Fp).
  destruct (getitem_in_range (Router.l_to_p r) c) as (u & Hu); [lia|].
  destruct (getitem_in_range (Router.l_to_p r) t) as (v & Hv); [lia|].
  pose proof (getitem_Forall _ _ _ _ Fl Hu) as Hur; cbn beta in Hur.
  pose proof (getitem_Forall _ _ _ _ Fl Hv) as Hvr; cbn beta in Hvr.
  unfold Router.apply_cnot. rewrite Hu, Hv; cbn [bind].
  rewrite (topo_adjacent graph _ Hok u v Hur Hvr); cbn [bind].
  destruct (Nx.has_edge graph u v); [eauto 10|].
  destruct (get_shortest_path_total graph _ u v Hok Hur Hvr) as (P & HP & HF).
  rewrite HP; cbn [bind].
  destruct (strategy_cases r i c t g) as (s & g' & Hs & Hcases).
  rewrite Hs; cbn [bind]; cbv beta iota.
  destruct (split_paths_some P s c t Hcases) as (cp & tp & Hsplit).
  rewrite Hsplit.
  destruct (split_paths_Forall _ _ _ _ _ _ _ HF Hsplit) as (Hcp & Htp).
  destruct (move_through_path_ok _ r c u cp Hr Hc Hur Hcp)
    as (cs & r1 & Hm1 & _ & Hr1).
  rewrite Hm1; cbn [bind]; cbv beta iota.
  destruct (move_through_path_ok _ r1 t v tp Hr1 Ht Hvr Htp)
    as (ts & r2 & Hm2 & _ & Hr2).
  rewrite Hm2; cbn [bind]; cbv beta iota.
  do 4 eexists; split; [reflexivity|]. split; [assumption|].
  assert (E1 : same_config r r1).
  { unfold Router.move_through_path in Hm1.
    eapply move_loop_config; eassumption. }
  assert (E2 : same_config r1 r2).
  { unfold Router.move_through_path in Hm2.
    eapply move_loop_config; eassumption. }
  destruct E1 as (_ & _ & E1), E2 as (_ & _ & E2). congruence.
Qed.

Lemma route_loop_total graph todo : forall r n sws g,
  topology_ok graph (Router.topology r) ->
  range_inv (Nx.number_of_nodes graph) r ->
  (forall c t i, In (c, t, i) todo ->
     0 <= c < Nx.number_of_nodes graph /\ 0 <= t < Nx.number_of_nodes graph) ->
  exists n' sws' r' g',
    Router.route_loop r todo n sws g = Ok (n', sws', r', g') /\
    range_inv (Nx.number_of_nodes graph) r'.
Proof.
  induction todo as [|[[c t] i] todo IH]; intros r n sws g Hok Hr Hin;
    cbn [Router.route_loop].
  - eauto 10.
  - destruct (Hin c t i (or_introl eq_refl)) as (Hc & Ht).
    destruct (apply_cnot_total graph r c t i g Hok Hr Hc Ht)
      as (sw & k & r' & g' & Ha & Hr' & Htopo).
    rewrite Ha; cbn [bind]; cbv beta iota.
    apply IH; [now rewrite Htopo|assumption|].
    intros c' t' i' H'; apply (Hin c' t' i'); now right.
Qed.

(** A router built on a well-formed topology from placement lists over its
    nodes routes an interaction list over those qubits to the end, and the
    lists it ends with are again over the nodes. *)
Lemma route_circuit_total graph mapper cnots la :
  Nx.wf graph ->
  len (Mapper.l_to_p mapper) = Nx.number_of_nodes graph ->
  len (Mapper.p_to_l mapper) = Nx.number_of_nodes graph ->
  Forall (fun x => 0 <= x < Nx.number_of_nodes graph) (Mapper.l_to_p mapper) ->
  Forall (fun x => 0 <= x < Nx.number_of_nodes graph) (Mapper.p_to_l mapper) ->
  cnots_ok (Nx.number_of_nodes graph) cnots ->
  exists r0,
    Router.init graph mapper cnots la = Ok r0 /\
    forall g, exists n sws r' g',
      Router.route_circuit r0 g = Ok (n, sws, r', g') /\
      range_inv (Nx.number_of_nodes graph) r'.
Proof.
  intros Hg Hl Hpl Fl Fp Hc.
  destruct (router_init_spec graph mapper cnots la Hg) as (tp & Hr0 & Hok).
  eexists; split; [exact Hr0|]. intros g.
  unfold Router.route_circuit, Router.route_circuit_portion.
  cbn [Router.cnots_list].
  destruct (slice_prefix cnots (len cnots)) as (k & ->).
  apply (route_loop_total graph); cbn [Router.topology]; auto.
  - repeat split; assumption.
  - intros c t i Hin.
    assert (Hin' : In (c, t, i) cnots).
    { rewrite <- (firstn_skipn k cnots). apply in_or_app; now left. }
    destruct (Hc c t i Hin') as (H1 & H2 & _). auto.
Qed.

(** C6.  On a well-formed topology, from a placement [m0] over its nodes
    and an interaction list over its qubits: [update_mapping] routes the
    list from [m0] (count [n1], final placement [m1]), routes the same list
    again with a fresh router started from [m1] (count [n2]), and returns
    [m1] when [n2 < n1] and [m0] otherwise; with [n1 = 5] and [n2 = 7] it
    returns [m0]. *)
Theorem update_mapping_keeps_the_better_placement :
  forall (topo : Nx.Graph) (m0 : Mapper.t) (cnots : list triple) (la : Z)
         (g : rng),
    Nx.wf topo ->
    perm_inv (Nx.number_of_nodes topo) (Mapper.l_to_p m0) (Mapper.p_to_l m0) ->
    cnots_ok (Nx.number_of_nodes topo) cnots ->
    exists (u : MapperUpdater.t) (n1 : Z) sw1 (r1 : Router.t) (g1 : rng)
           (new_router : Router.t) (n2 : Z) sw2 (r2 : Router.t) (g2 : rng),
      let m1 := Mapper.from_static_mapping topo cnots (Nx.number_of_nodes topo)
                  (Router.l_to_p r1) (Router.p_to_l r1) in
      MapperUpdater.init topo m0 cnots la = Ok u /\
      (* the first routing starts from [m0] and routes [cnots] *)
      Router.l_to_p (MapperUpdater.router u) = Mapper.l_to_p m0 /\
      Router.p_to_l (MapperUpdater.router u) = Mapper.p_to_l m0 /\
      Router.cnots_list (MapperUpdater.router u) = cnots /\
      Router.route_circuit (MapperUpdater.router u) g = Ok (n1, sw1, r1, g1) /\
      (* the second one starts from the placement the first one ended in *)
      Router.init topo m1 cnots la = Ok new_router /\
      Router.l_to_p new_router = Router.l_to_p r1 /\
      Router.p_to_l new_router = Router.p_to_l r1 /\
      Router.cnots_list new_router = cnots /\
      Router.route_circuit new_router g1 = Ok (n2, sw2, r2, g2) /\
      MapperUpdater.update_mapping u g =
        Ok (if n2 <? n1 then m1 else m0, g2) /\
      (n1 = 5 -> n2 = 7 -> MapperUpdater.update_mapping u g = Ok (m0, g2)).
Proof.
  intros topo m0 cnots la g Hg Hp Hc.
  destruct (perm_inv_facts _ _ _ Hp) as (Hl & Hpl & Fl & Fp).
  pose proof (len_nonneg (Nx.nodes topo)) as Hq.
  fold (Nx.number_of_nodes topo) in Hq.
  rewrite Z.max_r in Hl, Hpl by assumption.
  destruct (route_circuit_total topo m0 cnots la Hg Hl Hpl Fl Fp Hc)
    as (r0 & Hr0 & Ht0).
  destruct (Ht0 g) as (n1 & sw1 & r1 & g1 & H1 & Hl1 & Hpl1 & Fl1 & Fp1).
  set (m1 := Mapper.from_static_mapping topo cnots (Nx.number_of_nodes topo)
               (Router.l_to_p r1) (Router.p_to_l r1)).
  destruct (route_circuit_total topo m1 cnots la Hg Hl1 Hpl1 Fl1 Fp1 Hc)
    as (nr & Hnr & Ht1).
  destruct (Ht1 g1) as (n2 & sw2 & r2 & g2 & H2 & _).
  assert (Hu : MapperUpdater.init topo m0 cnots la
               = Ok (MapperUpdater.mk r0 m0 topo cnots)).
  { unfold MapperUpdater.init. rewrite Hr0. reflexivity. }
  exists (MapperUpdater.mk r0 m0 topo cnots), n1, sw1, r1, g1, nr, n2, sw2,
         r2, g2.
  cbv zeta. fold m1.
  destruct (update_mapping_result topo m0 cnots la g _ n1 sw1 r1 g1 nr n2 sw2
              r2 g2 Hu H1 Hnr H2)
    as (A1 & A2 & A3 & A4 & A5 & A6 & A7 & A8).
  cbn [MapperUpdater.router] in *.
  repeat (split; [assumption|]). assumption.
Qed.

(** The scenario of the specification on the line [0-1-2-3]: the prefix
    costs 5 SWAPs from the identity placement and 7 from the placement the
    first routing ends in, and the identity placement is returned. *)
Lemma update_mapping_keeps_the_better_placement_witness :
  exists u,
    MapperUpdater.init (line 4) (Mapper.init (line 4) prefix_5_7 4)
                       prefix_5_7 10 = Ok u /\
    MapperUpdater.update_mapping u [] =
      Ok (Mapper.init (line 4) prefix_5_7 4, []).
Proof.
  destruct (update_mapping_keeps_the_better_placement
              (line 4) (Mapper.init (line 4) prefix_5_7 4) prefix_5_7 10 []
              (line_wf 4))
    as (u & n1 & sw1 & r1 & g1 & nr & n2 & sw2 & r2 & g2 & Hu & _ & _ & _ &
        H1 & Hnr & _ & _ & _ & H2 & _ & H57).
  - apply perm_inv_identity.
  - intros c t i H; vm_compute in H.
    repeat (destruct H as [H|H]; [inv H; vm_compute; repeat split; congruence|]).
    destruct H.
  - exists u. split; [exact Hu|].
    vm_compute in Hu. inv Hu.
    vm_compute in H1. inv H1.
    vm_compute in Hnr. inv Hnr.
    vm_compute in H2. inv H2.
    apply H57; reflexivity.
Defined.
(* ================================================================== *)
(** * The distance tables and the paths read from them *)
(* ================================================================== *)

(** A walk of [k] edges from [u] to [v] in the graph. *)
Inductive walk_of (g : Nx.Graph) : Z -> nat -> Z -> Prop :=
| walk_of_nil u : walk_of g u 0 u
| walk_of_cons u m k v :
    Nx.has_edge g u m = true -> walk_of g m k v -> walk_of g u (S k) v.

(** Consecutive nodes of the list are joined by an edge. *)
Fixpoint linked (g : Nx.Graph) (P : list Z) : Prop :=
  match P with
  | a :: (b :: _) as rest => Nx.has_edge g a b = true /\ linked g rest
  | _ => True
  end.

(** The topology object as [Router.__init__] builds it. *)
Definition topology_of (graph : Nx.Graph) : result UUG.t :=
  g <- UUG.from_nx (UUG.init (Nx.number_of_nodes graph)) graph ;;
  Ok (UUG.floyd_warshall g).

Lemma topology_of_ok graph :
  Nx.wf graph -> exists t, topology_of graph = Ok t /\ topology_ok graph t.
Proof.
  intros Hg.
  destruct (router_init_spec graph (Mapper.init graph [] 0) [] 0 Hg)
    as (t & Hr & Hok).
  exists t; split; [|assumption].
  unfold Router.init in Hr. unfold topology_of.
  destruct (UUG.from_nx (UUG.init (Nx.number_of_nodes graph)) graph);
    cbn [bind] in *; [|discriminate].
  inv Hr. reflexivity.
Qed.

Lemma has_edge_nodes graph u v :
  Nx.wf graph -> Nx.has_edge graph u v = true ->
  0 <= u < Nx.number_of_nodes graph /\ 0 <= v < Nx.number_of_nodes graph.
Proof.
  intros (Hn & He) H. apply has_edge_joined in H as (a & b & Hin & H).
  destruct (He a b Hin) as (Ha & Hb & _). rewrite Hn in Ha, Hb.
  apply In_range in Ha, Hb. destruct H as [(<- & <-)|(<- & <-)]; auto.
Qed.

Section Walks.
Variable graph : Nx.Graph.
Variable t : UUG.t.
Hypothesis Hg : Nx.wf graph.
Hypothesis Hok : topology_ok graph t.

Local Abbreviation q := (Nx.number_of_nodes graph).
Local Abbreviation E := (edge (UUG.adj_matrix t)).

Lemma edge_has_edge i j :
  (i < Z.to_nat q)%nat -> (j < Z.to_nat q)%nat ->
  (E i j <-> Nx.has_edge graph (Z.of_nat i) (Z.of_nat j) = true).
Proof.
  intros Hi Hj. destruct Hok as [Hn _ He _]. rewrite Hn in He. now apply He.
Qed.

(** A walk with at least one edge is a chain of the adjacency matrix. *)
Lemma walk_of_chain k : forall u v,
  walk_of graph u (S k) v ->
  exists ms, List.length ms = k /\
             chain E (Z.to_nat u) ms (Z.to_nat v).
Proof.
  induction k as [|k IH]; intros u v H;
    inversion H as [|u' m k' v' He Hw]; subst.
  - inversion Hw; subst. exists []; split; [reflexivity|]. cbn [chain].
    destruct (has_edge_nodes graph u v Hg He) as (Hu & Hv).
    apply edge_has_edge; [lia|lia|]. now rewrite !Z2Nat.id by lia.
  - destruct (IH _ _ Hw) as (ms & Hlen & Hch).
    exists (Z.to_nat m :: ms); split; [cbn; lia|]. cbn [chain].
    split; [|assumption].
    destruct (has_edge_nodes graph u m Hg He) as (Hu & Hm).
    apply edge_has_edge; [lia|lia|]. now rewrite !Z2Nat.id by lia.
Qed.

Lemma chain_walk_of ms : forall i j,
  chain E i ms j ->
  walk_of graph (Z.of_nat i) (S (List.length ms)) (Z.of_nat j).
Proof.
  pose proof Hok as [Hn Hsq _ _]. rewrite Hn in Hsq.
  induction ms as [|m ms IH]; intros i j H; cbn [chain List.length] in *.
  - destruct (chain_nodes _ _ [] i j Hsq H) as (Hi & Hj & _).
    eapply walk_of_cons; [|apply walk_of_nil]. now apply edge_has_edge.
  - destruct H as (He & H).
    destruct (chain_nodes _ _ [] i m Hsq He) as (Hi & Hm & _).
    eapply walk_of_cons; [|apply IH; exact H]. now apply edge_has_edge.
Qed.

(** What an entry of the distance table says about the graph. *)
Lemma dist_entry_meaning d u v :
  UUG.dist t = Some d -> 0 <= u < q -> 0 <= v < q ->
  match UUG.get2 d u v with
  | Ok (UUG.Fin x) =>
      exists k, x = Z.of_nat k /\ walk_of graph u k v /\
                forall k', walk_of graph u k' v -> (k <= k')%nat
  | Ok UUG.Inf => forall k, ~ walk_of graph u k v
  | Raise _ => False
  end.
Proof.
  intros Hd Hu Hv.
  pose proof Hok as [Hn Hsq _ (d' & nx & Hd' & Hnx & Hinv & Hcomp)].
  rewrite Hd in Hd'. inv Hd'. rewrite Hn in *.
  pose proof Hinv as (Hsd & _ & Hdiag & Hch). cbn [fst snd] in Hsd, Hdiag, Hch.
  rewrite (get2_square UUG.Inf (Z.to_nat q)) by (auto; lia).
  assert (Hlow : forall k', walk_of graph u (S k') v ->
            dle (UUG.mget UUG.Inf d' (Z.to_nat u) (Z.to_nat v))
                (Z.of_nat (S k'))).
  { intros k' Hw. destruct (walk_of_chain _ _ _ Hw) as (ms & <- & Hms).
    destruct (chain_nodes _ _ ms _ _ Hsq Hms) as (Hi & Hj & Hin).
    apply (Hcomp _ _ ms Hi Hj Hms Hin). }
  destruct (Z.eq_dec u v) as [<-|Huv].
  - rewrite (Hdiag (Z.to_nat u)) by lia.
    exists O. split; [reflexivity|]. split; [constructor|]. intros; lia.
  - destruct (UUG.mget UUG.Inf d' (Z.to_nat u) (Z.to_nat v)) as [x|] eqn:Ex.
    + destruct (Hch (Z.to_nat u) (Z.to_nat v) x) as (ms & Hms & -> & _);
        [lia|lia|lia|exact Ex|].
      exists (S (List.length ms)). split; [reflexivity|]. split.
      * apply chain_walk_of in Hms. now rewrite !Z2Nat.id in Hms by lia.
      * intros [|k'] Hw; [inversion Hw; subst; congruence|].
        specialize (Hlow k' Hw). cbn [dle] in Hlow. lia.
    + intros [|k] Hw; [inversion Hw; subst; congruence|].
      apply (Hlow k Hw).
Qed.

End Walks.

(** X1.  On a graph with nodes [0 .. n-1], the table computed by
    [floyd_warshall] holds at [u, v] the number of edges of a shortest walk
    from [u] to [v], and [inf] exactly when no walk joins them. *)
Theorem floyd_warshall_distances_are_shortest :
  forall (graph : Nx.Graph) (u v : Z),
    Nx.wf graph ->
    0 <= u < Nx.number_of_nodes graph -> 0 <= v < Nx.number_of_nodes graph ->
    exists t d,
      topology_of graph = Ok t /\ UUG.dist t = Some d /\
      match UUG.get2 d u v with
      | Ok (UUG.Fin x) =>
          exists k, x = Z.of_nat k /\ walk_of graph u k v /\
                    forall k', walk_of graph u k' v -> (k <= k')%nat
      | Ok UUG.Inf => forall k, ~ walk_of graph u k v
      | Raise _ => False
      end.
Proof.
  intros graph u v Hg Hu Hv.
  destruct (topology_of_ok graph Hg) as (t & Ht & Hok).
  pose proof Hok as [_ _ _ (d & nx & Hd & _)].
  exists t, d. split; [assumption|]. split; [assumption|].
  now apply (dist_entry_meaning graph t Hg Hok).
Qed.

Lemma floyd_warshall_distances_are_shortest_witness :
  exists t d,
    topology_of (line 4) = Ok t /\ UUG.dist t = Some d /\
    UUG.get2 d 0 3 = Ok (UUG.Fin 3).
Proof.
  destruct (floyd_warshall_distances_are_shortest (line 4) 0 3 (line_wf 4))
    as (t & d & Ht & Hd & _).
  - vm_compute; split; [discriminate|reflexivity].
  - vm_compute; split; [discriminate|reflexivity].
  - exists t, d. split; [exact Ht|]. split; [exact Hd|].
    vm_compute in Ht. inv Ht. vm_compute in Hd. inv Hd.
    vm_compute; reflexivity.
Defined.

Section Paths.
Variable graph : Nx.Graph.
Variable t : UUG.t.
Hypothesis Hg : Nx.wf graph.
Hypothesis Hok : topology_ok graph t.

Local Abbreviation q := (Nx.number_of_nodes graph).

Lemma route_linked d nx ns : forall i j,
  (i < Z.to_nat q)%nat ->
  route (Z.to_nat q) (UUG.adj_matrix t) (d, nx) i ns j ->
  linked graph (map Z.of_nat (i :: ns)) /\
  last (map Z.of_nat (i :: ns)) (Z.of_nat i) = Z.of_nat j.
Proof.
  induction ns as [|m ns IH]; intros i j Hi Hr; cbn [route] in Hr.
  - subst. cbn. auto.
  - destruct Hr as (_ & Hm & _ & He & _ & Hr).
    destruct (IH m j Hm Hr) as (Hl & Hlast).
    split.
    + change (Nx.has_edge graph (Z.of_nat i) (Z.of_nat m) = true /\
              linked graph (map Z.of_nat (m :: ns))).
      split; [|assumption]. now apply (edge_has_edge graph t Hok).
    + change (last (Z.of_nat m :: map Z.of_nat ns) (Z.of_nat i)
              = Z.of_nat j).
      cbn [map] in Hlast. rewrite last_cons in Hlast. now rewrite last_cons.
Qed.

(** The list [get_shortest_path] returns between two nodes whose distance
    entry is finite. *)
Lemma shortest_path_shape u v d x :
  0 <= u < q -> 0 <= v < q ->
  UUG.dist t = Some d -> UUG.get2 d u v = Ok (UUG.Fin x) ->
  exists P,
    UUG.get_shortest_path t u v = Ok P /\ len P = x + 1 /\ 0 <= x /\
    hd u P = u /\ last P u = v /\ linked graph P /\ NoDup P.
Proof.
  intros Hu Hv Hd Hx.
  destruct (shortest_path_at_distance graph t Hok u v d x Hu Hv Hd Hx)
    as (P & HP & Hlen & Hx0 & _ & Hnd & Hhd).
  exists P. do 4 (split; [assumption|]).
  pose proof Hok as [Hn Hsq He (d' & nx & Hd' & Hnx & Hinv & Hcomp)].
  rewrite Hn in *. rewrite Hd in Hd'. inv Hd'.
  pose proof Hinv as (Hsd & _). cbn [fst] in Hsd.
  rewrite (get2_square UUG.Inf (Z.to_nat q)) in Hx by (auto; lia). inv Hx.
  rename H0 into Hx.
  destruct (route_exists (Z.to_nat q) (UUG.adj_matrix t) (d', nx) Hsq Hinv Hcomp
              (Z.to_nat x) (Z.to_nat u) (Z.to_nat v))
    as (ns & Hns & Hr); [lia|lia|cbn [fst]; rewrite Hx; f_equal; lia|].
  assert (Hun : (Z.to_nat u < Z.to_nat q)%nat) by lia.
  assert (Hvn : (Z.to_nat v < Z.to_nat q)%nat) by lia.
  assert (Hfuel : (List.length ns <= Z.to_nat q)%nat).
  { assert (Hdn : UUG.mget UUG.Inf (fst (d', nx)) (Z.to_nat u) (Z.to_nat v)
                  = UUG.Fin (Z.of_nat (List.length ns)))
      by (cbn [fst]; rewrite Hx, Hns; f_equal; lia).
    pose proof (route_length _ _ _ ns _ _ Hun Hvn Hdn Hr). lia. }
  pose proof (walk_route _ _ _ Hinv ns (Z.to_nat u) (Z.to_nat v) [u]
                (Z.to_nat q) Hun Hvn Hr Hfuel) as Hw.
  cbn [snd] in Hw. rewrite !Z2Nat.id in Hw by lia.
  assert (EP : P = u :: map Z.of_nat ns).
  { unfold UUG.get_shortest_path in HP. rewrite Hd, Hnx in HP.
    rewrite (get2_square UUG.Inf (Z.to_nat q)) in HP by (auto; lia).
    cbn [bind] in HP. rewrite Hx in HP; cbn [UUG.ext_is_inf] in HP.
    rewrite Hn, Hw in HP. inv HP. reflexivity. }
  destruct (route_linked d' nx ns _ _ Hun Hr) as (Hl & Hlast).
  cbn [map] in Hl, Hlast. rewrite !Z2Nat.id in Hl, Hlast by lia.
  subst P. split; [rewrite Hlast; lia|]. split; assumption.
Qed.

End Paths.

(** X2.  On a graph with nodes [0 .. n-1] and after [floyd_warshall],
    [get_shortest_path(u, v)] returns the empty list when no walk joins [u]
    and [v]; otherwise it returns a list that starts at [u], ends at [v],
    repeats no node, steps along edges of the graph, and has no more edges
    than any walk from [u] to [v]. *)
Theorem get_shortest_path_is_a_shortest_path :
  forall (graph : Nx.Graph) (u v : Z),
    Nx.wf graph ->
    0 <= u < Nx.number_of_nodes graph -> 0 <= v < Nx.number_of_nodes graph ->
    exists t P,
      topology_of graph = Ok t /\
      UUG.get_shortest_path t u v = Ok P /\
      ((P = [] /\ forall k, ~ walk_of graph u k v) \/
       (hd u P = u /\ last P u = v /\ linked graph P /\ NoDup P /\
        forall k, walk_of graph u k v -> len P - 1 <= Z.of_nat k)).
Proof.
  intros graph u v Hg Hu Hv.
  destruct (topology_of_ok graph Hg) as (t & Ht & Hok).
  pose proof Hok as [_ _ _ (d & nx & Hd & _)].
  pose proof (dist_entry_meaning graph t Hg Hok d u v Hd Hu Hv) as Hm.
  destruct (UUG.get2 d u v) as [[x|]|e] eqn:Ex; [| |destruct Hm].
  - destruct (shortest_path_shape graph t Hok u v d x Hu Hv Hd Ex)
      as (P & HP & Hlen & _ & Hhd & Hlast & Hl & Hnd).
    exists t, P. repeat (split; [assumption|]). right.
    repeat (split; [assumption|]).
    destruct Hm as (k & -> & _ & Hmin). intros k' Hw.
    specialize (Hmin k' Hw). lia.
  - exists t, []. split; [assumption|]. split; [|left; auto].
    unfold UUG.get_shortest_path. rewrite Hd.
    pose proof Hok as [_ _ _ (d' & nx' & Hd' & Hnx' & _)].
    rewrite Hnx'. rewrite Ex. reflexivity.
Qed.

Lemma get_shortest_path_is_a_shortest_path_witness :
  exists t,
    topology_of (line 4) = Ok t /\
    UUG.get_shortest_path t 3 0 = Ok [3; 2; 1; 0].
Proof.
  destruct (get_shortest_path_is_a_shortest_path (line 4) 3 0 (line_wf 4))
    as (t & P & Ht & HP & _).
  - vm_compute; split; [discriminate|reflexivity].
  - vm_compute; split; [discriminate|reflexivity].
  - exists t. split; [exact Ht|].
    vm_compute in Ht. inv Ht. vm_compute. reflexivity.
Defined.

(* ================================================================== *)
(** * Edge behaviour of the topology object *)
(* ================================================================== *)

Lemma add_edges_keeps_tables es : forall g g',
  UUG.add_edges g es = Ok g' ->
  UUG.dist g' = UUG.dist g /\ UUG.next_node g' = UUG.next_node g /\
  UUG.num_nodes g' = UUG.num_nodes g.
Proof.
  induction es as [|[s d] es IH]; intros g g' H; cbn [UUG.add_edges] in H.
  - inv H. auto.
  - bind_inv H g1 Hg1. apply IH in H as (H1 & H2 & H3).
    unfold UUG.add_edge in Hg1.
    bind_inv Hg1 m1 Hm1. bind_inv Hg1 m2 Hm2. inv Hg1.
    cbn [UUG.dist UUG.next_node UUG.num_nodes] in *. auto.
Qed.

(** X3.  As long as [floyd_warshall] has not been run on it, a topology
    object, whatever edges were added to it, answers every
    [get_shortest_path] request with [ValueError]. *)
Theorem get_shortest_path_before_floyd_warshall :
  forall (n : Z) (es : list (Z * Z)) (g : UUG.t) (u v : Z),
    UUG.add_edges (UUG.init n) es = Ok g ->
    UUG.get_shortest_path g u v = Raise ValueError.
Proof.
  intros n es g u v H.
  apply add_edges_keeps_tables in H as (Hd & _).
  unfold UUG.get_shortest_path. rewrite Hd. reflexivity.
Qed.

Lemma get_shortest_path_before_floyd_warshall_witness :
  exists g,
    UUG.add_edges (UUG.init 3) [(0, 1); (1, 2)] = Ok g /\
    UUG.get_shortest_path g 0 2 = Raise ValueError.
Proof.
  eexists; split; [vm_compute; reflexivity|].
  apply (get_shortest_path_before_floyd_warshall 3 [(0, 1); (1, 2)]).
  vm_compute; reflexivity.
Defined.

Lemma getitem_negative {A} (l : list A) i :
  - len l <= i < 0 -> getitem l i = getitem l (i + len l).
Proof.
  intros H. unfold getitem, norm_index.
  destruct (Z.leb_spec 0 i); [lia|]. cbn [andb].
  destruct (Z.leb_spec (- len l) i); [|lia].
  destruct (Z.ltb_spec i 0); [|lia]. cbn [andb].
  destruct (Z.leb_spec 0 (i + len l)); [|lia].
  destruct (Z.ltb_spec (i + len l) (len l)); [|lia]. cbn [andb].
  now rewrite Z.add_comm.
Qed.

Lemma getitem_out_of_range {A} (l : list A) i :
  i < - len l \/ len l <= i -> getitem l i = Raise IndexError.
Proof.
  intros H. unfold getitem, norm_index.
  destruct (Z.leb_spec 0 i), (Z.ltb_spec i (len l)),
           (Z.leb_spec (- len l) i), (Z.ltb_spec i 0);
    cbn [andb]; try reflexivity; lia.
Qed.

Lemma has_edge_sym g u v : Nx.has_edge g u v = Nx.has_edge g v u.
Proof.
  unfold Nx.has_edge.
  induction (Nx.edges g) as [|[a b] es IH]; cbn [existsb]; [reflexivity|].
  rewrite IH. f_equal. apply orb_comm.
Qed.

(** X4.  On the topology built from a graph with nodes [0 .. n-1],
    [are_adjacent(u, v)] holds exactly when the graph has the edge, in
    either order of the arguments; a negative first index is read from the
    end, as a Python list index, and an index beyond [n] or below [-n]
    raises [IndexError]. *)
Theorem are_adjacent_reads_the_graph :
  forall (graph : Nx.Graph) (v : Z),
    Nx.wf graph -> 0 <= v < Nx.number_of_nodes graph ->
    exists t,
      topology_of graph = Ok t /\
      (forall u, 0 <= u < Nx.number_of_nodes graph ->
         UUG.are_adjacent t u v = Ok (Nx.has_edge graph u v) /\
         UUG.are_adjacent t v u = UUG.are_adjacent t u v) /\
      (forall u, - Nx.number_of_nodes graph <= u < 0 ->
         UUG.are_adjacent t u v =
         UUG.are_adjacent t (u + Nx.number_of_nodes graph) v) /\
      (forall u, u < - Nx.number_of_nodes graph \/
                 Nx.number_of_nodes graph <= u ->
         UUG.are_adjacent t u v = Raise IndexError).
Proof.
  intros graph v Hg Hv.
  destruct (topology_of_ok graph Hg) as (t & Ht & Hok).
  exists t. split; [assumption|].
  pose proof Hok as [Hn (Hlen & _) _ _]. rewrite Hn in Hlen.
  assert (Hl : len (UUG.adj_matrix t) = Nx.number_of_nodes graph)
    by (unfold len; rewrite Hlen; lia).
  split; [|split].
  - intros u Hu.
    rewrite !(topo_adjacent graph t Hok) by assumption.
    split; [reflexivity|]. f_equal. apply has_edge_sym.
  - intros u Hu. unfold UUG.are_adjacent, UUG.get2.
    rewrite getitem_negative by lia. now rewrite Hl.
  - intros u Hu. unfold UUG.are_adjacent, UUG.get2.
    rewrite getitem_out_of_range by lia. reflexivity.
Qed.

Lemma are_adjacent_reads_the_graph_witness :
  exists t,
    topology_of (line 4) = Ok t /\
    UUG.are_adjacent t (-1) 2 = Ok true /\
    UUG.are_adjacent t 4 2 = Raise IndexError.
Proof.
  destruct (are_adjacent_reads_the_graph (line 4) 2 (line_wf 4))
    as (t & Ht & Hin & Hneg & Hout).
  - vm_compute; split; [discriminate|reflexivity].
  - exists t. split; [exact Ht|]. split.
    + rewrite (Hneg (-1)) by (vm_compute; split; [discriminate|reflexivity]).
      destruct (Hin 3) as (H & _);
        [vm_compute; split; [discriminate|reflexivity]|].
      exact H.
    + apply Hout. right. vm_compute. discriminate.
Defined.

(* ================================================================== *)
(** * A whole routing run *)
(* ================================================================== *)

(** The nodes exchanged by the successive SWAPs of a walk that starts on
    [qubit_node]. *)
Fixpoint steps (qubit_node : Z) (path : list Z) : list (Z * Z) :=
  match path with
  | [] => []
  | node :: path' => (qubit_node, node) :: steps node path'
  end.

(** The number of SWAPs in what the router returns. *)
Definition count_swaps (swaps : list (list (list swap))) : Z :=
  fold_right Z.add 0
    (map (fun e => fold_right Z.add 0 (map len e)) swaps).

Lemma count_swaps_app a b :
  count_swaps (a ++ b) = count_swaps a + count_swaps b.
Proof.
  unfold count_swaps. induction a as [|x a IH]; cbn [app map fold_right].
  - lia.
  - rewrite IH. lia.
Qed.

Section RouterRun.
Variable q : Z.

Lemma swap_step_track r qubit qubit_node node :
  perm_inv q (Router.l_to_p r) (Router.p_to_l r) ->
  0 <= qubit < q -> 0 <= node < q ->
  getitem (Router.l_to_p r) qubit = Ok qubit_node ->
  exists sq r',
    Router.swap_step r qubit qubit_node node = Ok ((qubit, sq), r') /\
    perm_inv q (Router.l_to_p r') (Router.p_to_l r') /\
    getitem (Router.l_to_p r') qubit = Ok node /\
    same_config r r' /\ 0 <= sq < q /\
    (forall x y, 0 <= x -> x <> qubit -> y <> node ->
       getitem (Router.l_to_p r) x = Ok y ->
       getitem (Router.l_to_p r') x = Ok y) /\
    (forall ops,
       Transform.emit_swaps [(qubit, sq)] ops (Router.l_to_p r) =
         Ok (ops ++ [Transform.SWAP qubit_node node], Router.l_to_p r')).
Proof.
  intros Hinv Hq Hn Hqn.
  destruct (swap_step_perm_inv q r qubit qubit_node node Hinv Hq Hn Hqn)
    as (sq & r' & Hs & Hinv' & Hq').
  exists sq, r'. split; [assumption|]. split; [assumption|].
  split; [assumption|].
  split; [eapply swap_step_config; eassumption|].
  destruct (perm_inv_facts _ _ _ Hinv) as (Hl & Hp & Fl & Fp).
  rewrite Z.max_r in Hl, Hp by lia.
  pose proof (getitem_Forall _ _ _ _ Fl Hqn) as Hqnr; cbn beta in Hqnr.
  pose proof Hs as Hs0.
  unfold Router.swap_step in Hs.
  bind_inv Hs sq' Hsq.
  pose proof (getitem_Forall _ _ _ _ Fp Hsq) as Hsqr; cbn beta in Hsqr.
  rewrite setitem_in_range in Hs by lia; cbn [bind] in Hs.
  rewrite setitem_in_range in Hs by (rewrite len_update; lia);
    cbn [bind] in Hs.
  rewrite setitem_in_range in Hs by lia; cbn [bind] in Hs.
  rewrite setitem_in_range in Hs by (rewrite len_update; lia);
    cbn [bind] in Hs.
  inv Hs; cbn [Router.l_to_p Router.p_to_l] in *.
  destruct Hinv as (_ & _ & Hlp & Hpl).
  destruct (Hpl node Hn) as (sq' & Hsq' & Hlsq).
  assert (sq' = sq) by congruence; subst sq'.
  split; [assumption|]. split.
  - intros x y Hx Hxq Hy Hxy.
    rewrite getitem_update by (rewrite ?len_update; lia).
    destruct (Z.eqb_spec x sq) as [->|Hxs]; [congruence|].
    rewrite getitem_update by lia.
    destruct (Z.eqb_spec x qubit); [contradiction|assumption].
  - intros ops. cbn [Transform.emit_swaps]. unfold Transform.dict_get.
    replace ((0 <=? qubit) && (qubit <? len (Router.l_to_p r))) with true
      by (symmetry; apply andb_true_iff; split;
          [apply Z.leb_le | apply Z.ltb_lt]; lia).
    rewrite Hqn; cbn [bind].
    replace ((0 <=? sq) && (sq <? len (Router.l_to_p r))) with true
      by (symmetry; apply andb_true_iff; split;
          [apply Z.leb_le | apply Z.ltb_lt]; lia).
    rewrite Hlsq; cbn [bind]. unfold Transform.dict_set.
    replace ((0 <=? qubit) && (qubit <? len (Router.l_to_p r))) with true
      by (symmetry; apply andb_true_iff; split;
          [apply Z.leb_le | apply Z.ltb_lt]; lia).
    rewrite setitem_in_range by lia; cbn [bind].
    rewrite len_update.
    replace ((0 <=? sq) && (sq <? len (Router.l_to_p r))) with true
      by (symmetry; apply andb_true_iff; split;
          [apply Z.leb_le | apply Z.ltb_lt]; lia).
    rewrite setitem_in_range by (rewrite len_update; lia); cbn [bind].
    reflexivity.
Qed.

Lemma emit_swaps_app a : forall b ops cw ops1 cw1,
  Transform.emit_swaps a ops cw = Ok (ops1, cw1) ->
  Transform.emit_swaps (a ++ b) ops cw = Transform.emit_swaps b ops1 cw1.
Proof.
  induction a as [|[q1 q2] a IH]; intros b ops cw ops1 cw1 H;
    cbn [app Transform.emit_swaps] in *.
  - inv H. reflexivity.
  - bind_inv H w1 Hw1. bind_inv H w2 Hw2. bind_inv H c1 Hc1.
    bind_inv H c2 Hc2. cbn [bind]. rewrite Hc1; cbn [bind].
    rewrite Hc2; cbn [bind]. now apply IH.
Qed.

Lemma move_loop_track path : forall r qubit qubit_node sl n,
  perm_inv q (Router.l_to_p r) (Router.p_to_l r) ->
  0 <= qubit < q ->
  getitem (Router.l_to_p r) qubit = Ok qubit_node ->
  Forall (fun x => 0 <= x < q) path ->
  exists sl' r',
    Router.move_loop r qubit qubit_node path sl n =
      Ok (sl ++ sl', n + len path, r') /\
    len sl' = len path /\
    perm_inv q (Router.l_to_p r') (Router.p_to_l r') /\
    getitem (Router.l_to_p r') qubit = Ok (last path qubit_node) /\
    same_config r r' /\
    Forall (fun e => 0 <= fst e < q /\ 0 <= snd e < q) sl' /\
    (forall x y, 0 <= x -> x <> qubit -> ~ In y path ->
       getitem (Router.l_to_p r) x = Ok y ->
       getitem (Router.l_to_p r') x = Ok y) /\
    (forall ops,
       Transform.emit_swaps sl' ops (Router.l_to_p r) =
         Ok (ops ++ map (fun e => Transform.SWAP (fst e) (snd e))
                        (steps qubit_node path),
             Router.l_to_p r')).
Proof.
  induction path as [|node path IH]; intros r qubit qn sl n Hinv Hq Hqn HP;
    cbn [Router.move_loop].
  - exists [], r. rewrite !app_nil_r.
    replace (n + len (@nil Z)) with n by (unfold len; cbn; lia).
    split; [reflexivity|]. split; [reflexivity|].
    split; [assumption|]. split; [assumption|].
    split; [apply same_config_refl|]. split; [constructor|]. split; [auto|].
    intros ops. cbn. now rewrite app_nil_r.
  - inv HP.
    destruct (swap_step_track r qubit qn node Hinv Hq H1 Hqn)
      as (sq & r1 & Hs & Hinv1 & Hq1 & Hc1 & Hsq & Hoth1 & Hemit1).
    rewrite Hs; cbn [bind]; cbv beta iota.
    destruct (IH r1 qubit node (sl ++ [(qubit, sq)]) (n + 1) Hinv1 Hq Hq1 H2)
      as (sl' & r' & Hm & Hlen & Hinv' & Hq' & Hc' & Hrng & Hoth' & Hemit').
    exists ((qubit, sq) :: sl'), r'.
    split.
    { etransitivity; [exact Hm|]. rewrite <- app_assoc. cbn [app].
      do 2 f_equal. f_equal. unfold len; cbn [List.length]; lia. }
    split; [unfold len in *; cbn [List.length]; lia|].
    split; [assumption|].
    split; [rewrite Hq'; f_equal; symmetry; apply last_cons|].
    split; [eapply same_config_trans; eassumption|].
    split; [constructor; [cbn [fst snd]; lia | assumption]|].
    split.
    + intros x y Hx Hxq Hy Hxy. apply Hoth'; auto.
      * intros Hin; apply Hy; now right.
      * apply Hoth1; auto. intros ->; apply Hy; now left.
    + intros ops.
      change ((qubit, sq) :: sl') with ([(qubit, sq)] ++ sl').
      rewrite (emit_swaps_app _ _ _ _ _ _ (Hemit1 ops)).
      rewrite Hemit'. cbn [steps map fst snd]. rewrite <- app_assoc.
      reflexivity.
Qed.

Lemma firstn_not_last (P : list Z) : forall k x d,
  NoDup P -> (k < List.length P)%nat -> In x (firstn k P) -> x <> last P d.
Proof.
  induction P as [|a P IH]; intros k x d Hnd Hk Hin.
  - cbn in Hk; lia.
  - destruct k as [|k]; [destruct Hin|]. cbn [firstn] in Hin.
    cbn [List.length] in Hk. rewrite last_cons. inv Hnd.
    destruct P as [|b P]; [cbn in Hk; lia|].
    destruct Hin as [<-|Hin].
    + intros E. apply H1. rewrite E.
      destruct (@exists_last _ (b :: P)) as (l' & z & El); [discriminate|].
      rewrite El, last_last. apply in_or_app; right; now left.
    + apply (IH k x a); auto. lia.
Qed.
End RouterRun.

Lemma In_tl {A} (x : A) l : In x (tl l) -> In x l.
Proof. destruct l; [auto|]. cbn; auto. Qed.

Lemma split_paths_control_avoids_target P s c t cp tp d :
  NoDup P -> 2 <= len P ->
  Router.split_paths P s c t = Some (cp, tp) ->
  forall x, In x cp -> x <> last P d.
Proof.
  intros Hnd HL H x Hx. unfold Router.split_paths in H.
  destruct (s =? t); [inv H; destruct Hx|].
  destruct (s =? c).
  { inv H. rewrite slice_inner in Hx.
    destruct P as [|a P]; [destruct Hx|]. cbn [tl] in Hx.
    rewrite removelast_firstn_len in Hx.
    destruct P as [|b P]; [destruct Hx|].
    apply (firstn_not_last (a :: b :: P) (S (Nat.pred (List.length (b :: P)))));
      [assumption|cbn [List.length]; lia|].
    cbn [firstn]. right. exact Hx. }
  destruct (s =? -1); [|discriminate]. inv H.
  set (L := len P) in *.
  set (ce := if L mod 2 =? 0 then L / 2 else (L + 1) / 2) in *.
  assert (Hce : 0 <= ce < L).
  { unfold ce. destruct (L mod 2 =? 0).
    - split; [apply Z.div_pos; lia | apply Z.div_lt; lia].
    - split; [apply Z.div_pos; lia|].
      apply Z.div_lt_upper_bound; lia. }
  rewrite slice_tail in Hx. apply In_tl in Hx.
  rewrite slice_upto in Hx by (fold L; lia).
  apply (firstn_not_last P (Z.to_nat ce)); auto.
  unfold L, len in Hce. lia.
Qed.

Section GateRun.
Variable graph : Nx.Graph.
Hypothesis Hg : Nx.wf graph.

Local Abbreviation q := (Nx.number_of_nodes graph).

Lemma shortest_path_cases t u v :
  topology_ok graph t -> 0 <= u < q -> 0 <= v < q ->
  exists P,
    UUG.get_shortest_path t u v = Ok P /\
    Forall (fun y => 0 <= y < q) P /\
    (P = [] \/
     (len P >= 1 /\ hd u P = u /\ last P u = v /\ NoDup P /\ linked graph P)).
Proof.
  intros Hok Hu Hv.
  destruct (get_shortest_path_total graph t u v Hok Hu Hv) as (P & HP & HF).
  exists P. split; [assumption|]. split; [assumption|].
  pose proof Hok as [Hn Hsq _ (d & nx & Hd & Hnx & Hinv & _)].
  pose proof Hinv as (Hsd & _). cbn [fst] in Hsd. rewrite Hn in *.
  destruct (UUG.mget UUG.Inf d (Z.to_nat u) (Z.to_nat v)) as [x|] eqn:Ex.
  - right.
    destruct (shortest_path_shape graph t Hok u v d x Hu Hv Hd)
      as (P' & HP' & Hlen & Hx0 & Hhd & Hlast & Hl & Hnd).
    { rewrite (get2_square UUG.Inf (Z.to_nat q)) by (auto; lia).
      now rewrite Ex. }
    rewrite HP in HP'. inv HP'.
    repeat split; auto. lia.
  - left. unfold UUG.get_shortest_path in HP. rewrite Hd, Hnx in HP.
    rewrite (get2_square UUG.Inf (Z.to_nat q)) in HP by (auto; lia).
    cbn [bind] in HP. rewrite Ex in HP. now inv HP.
Qed.
End GateRun.

(** The part of [__update_circuit] that replays the SWAPs recorded for one
    gate: [new_ops] and [current_wires] before and after. *)
Definition replay (s : list (list swap)) (new_ops : list Transform.Op)
  (current_wires : list Z) : result (list Transform.Op * list Z) :=
  if negb (len s =? 0) then
    control_movements <- getitem s 0 ;;
    target_movements <- getitem s 1 ;;
    '(ops1, cw1) <- Transform.emit_swaps control_movements new_ops
                                         current_wires ;;
    Transform.emit_swaps target_movements ops1 cw1
  else Ok (new_ops, current_wires).

Definition swap_ops (l : list (Z * Z)) : list Transform.Op :=
  map (fun e => Transform.SWAP (fst e) (snd e)) l.

(** The shape of what [__apply_cnot] returns for one gate: nothing, or the
    movements of the control and of the target, over qubits of [0, q). *)
Definition gate_swaps_ok (q : Z) (sw : list (list swap)) : Prop :=
  (sw = [] \/ exists cs ts, sw = [cs; ts]) /\
  Forall (Forall (fun e => 0 <= fst e < q /\ 0 <= snd e < q)) sw.

Section GateTrack.
Variable graph : Nx.Graph.
Hypothesis Hg : Nx.wf graph.

Local Abbreviation q := (Nx.number_of_nodes graph).

(** One gate, from a placement that is a permutation. *)
Lemma apply_cnot_track r c t i g :
  topology_ok graph (Router.topology r) ->
  perm_inv q (Router.l_to_p r) (Router.p_to_l r) ->
  0 <= c < q -> 0 <= t < q -> c <> t ->
  exists sw n r' g' moved,
    Router.apply_cnot r c t i g = Ok (sw, n, r', g') /\
    perm_inv q (Router.l_to_p r') (Router.p_to_l r') /\
    same_config r r' /\ gate_swaps_ok q sw /\
    n = count_swaps [sw] /\ len moved = n /\
    (forall ops,
       replay sw ops (Router.l_to_p r) =
         Ok (ops ++ swap_ops moved, Router.l_to_p r')).
Proof.
  intros Hok Hinv Hc Ht Hct.
  destruct (perm_inv_facts _ _ _ Hinv) as (Hl & Hp & Fl & Fp).
  rewrite Z.max_r in Hl, Hp by lia.
  destruct (getitem_in_range (Router.l_to_p r) c) as (u & Hu); [lia|].
  destruct (getitem_in_range (Router.l_to_p r) t) as (v & Hv); [lia|].
  pose proof (getitem_Forall _ _ _ _ Fl Hu) as Hur; cbn beta in Hur.
  pose proof (getitem_Forall _ _ _ _ Fl Hv) as Hvr; cbn beta in Hvr.
  assert (Huv : u <> v).
  { intros ->. destruct Hinv as (_ & _ & Hlp & _).
    destruct (Hlp c Hc) as (u1 & Hu1 & Hp1).
    destruct (Hlp t Ht) as (u2 & Hu2 & Hp2). congruence. }
  unfold Router.apply_cnot. rewrite Hu, Hv; cbn [bind].
  rewrite (topo_adjacent graph _ Hok u v Hur Hvr); cbn [bind].
  destruct (Nx.has_edge graph u v).
  { exists [], 0, r, g, []. split; [reflexivity|]. split; [assumption|].
    split; [apply same_config_refl|].
    split; [split; [now left | constructor]|]. split; [reflexivity|].
    split; [reflexivity|]. intros ops. cbn. now rewrite app_nil_r. }
  destruct (shortest_path_cases graph _ u v Hok Hur Hvr)
    as (P & HP & HF & Hshape).
  rewrite HP; cbn [bind].
  destruct (strategy_cases r i c t g) as (s & g' & Hs & Hcases).
  rewrite Hs; cbn [bind]; cbv beta iota.
  destruct (split_paths_some P s c t Hcases) as (cp & tp & Hsplit).
  rewrite Hsplit.
  destruct (split_paths_Forall _ _ _ _ _ _ _ HF Hsplit) as (Hcp & Htp).
  assert (Hvcp : ~ In v cp).
  { destruct Hshape as [->|(Hlen & Hhd & Hlast & Hnd & _)].
    - rewrite (split_paths_nil s c t Hcases) in Hsplit. inv Hsplit. auto.
    - intros Hin.
      assert (2 <= len P).
      { destruct P as [|a [|b P]]; cbn in Hhd, Hlast;
          [unfold len in Hlen; cbn in Hlen; lia | congruence |].
        unfold len; cbn [List.length]; lia. }
      apply (split_paths_control_avoids_target P s c t cp tp u Hnd H Hsplit
               v Hin).
      now symmetry. }
  unfold Router.move_through_path.
  destruct (move_loop_track q cp r c u [] 0 Hinv Hc Hu Hcp)
    as (cs & r1 & Hm1 & Hl1 & Hinv1 & _ & Hc1 & Hrng1 & Hoth1 & Hemit1).
  cbn [app] in Hm1. rewrite Hm1; cbn [bind]; cbv beta iota.
  assert (Hv1 : getitem (Router.l_to_p r1) t = Ok v).
  { apply (Hoth1 t v); auto; lia. }
  destruct (move_loop_track q tp r1 t v [] 0 Hinv1 Ht Hv1 Htp)
    as (ts & r2 & Hm2 & Hl2 & Hinv2 & _ & Hc2 & Hrng2 & _ & Hemit2).
  cbn [app] in Hm2. rewrite Hm2; cbn [bind]; cbv beta iota.
  exists [cs; ts], (0 + (0 + len cp + (0 + len tp))), r2, g',
         (steps u cp ++ steps v tp).
  split; [reflexivity|]. split; [assumption|].
  split; [eapply same_config_trans; eassumption|].
  split; [split; [right; eauto | repeat constructor; assumption]|].
  split; [unfold count_swaps; cbn [map fold_right]; lia|].
  split.
  { unfold len in *. rewrite length_app.
    assert (Hsteps : forall p a, List.length (steps a p) = List.length p).
    { induction p as [|b p IHp]; intros a; cbn [steps List.length];
        [reflexivity|]. now rewrite IHp. }
    rewrite !Hsteps. lia. }
  intros ops. unfold replay.
  replace (len [cs; ts] =? 0) with false by reflexivity. cbn [negb].
  replace (getitem [cs; ts] 0) with (Ok cs) by reflexivity.
  replace (getitem [cs; ts] 1) with (Ok ts) by reflexivity.
  cbn [bind]. rewrite Hemit1; cbn [bind]; cbv beta iota.
  rewrite Hemit2. unfold swap_ops. rewrite map_app, app_assoc. reflexivity.
Qed.

Lemma route_loop_track todo : forall r n sws g,
  topology_ok graph (Router.topology r) ->
  perm_inv q (Router.l_to_p r) (Router.p_to_l r) ->
  cnots_ok q todo ->
  exists sws' r' g',
    Router.route_loop r todo n sws g =
      Ok (n + count_swaps sws', sws ++ sws', r', g') /\
    perm_inv q (Router.l_to_p r') (Router.p_to_l r') /\
    same_config r r' /\
    len sws' = len todo /\ Forall (gate_swaps_ok q) sws'.
Proof.
  induction todo as [|[[c t] i] todo IH]; intros r n sws g Hok Hinv Hin;
    cbn [Router.route_loop].
  - exists [], r, g. rewrite app_nil_r.
    replace (n + count_swaps []) with n by (cbn; lia).
    split; [reflexivity|]. split; [assumption|].
    split; [apply same_config_refl|]. split; [reflexivity|constructor].
  - destruct (Hin c t i (or_introl eq_refl)) as (Hc & Ht & Hct).
    destruct (apply_cnot_track r c t i g Hok Hinv Hc Ht Hct)
      as (sw & k & r1 & g1 & moved & Ha & Hinv1 & Hc1 & Hsw & Hk & _).
    rewrite Ha; cbn [bind]; cbv beta iota.
    assert (Hok1 : topology_ok graph (Router.topology r1)).
    { destruct Hc1 as (_ & _ & ->). assumption. }
    assert (Hin1 : cnots_ok q todo).
    { intros c' t' i' H'. apply (Hin c' t' i'). now right. }
    destruct (IH r1 (n + k) (sws ++ [sw]) g1 Hok1 Hinv1 Hin1)
      as (sws' & r' & g' & Hm & Hinv' & Hc' & Hlen & Hall).
    exists (sw :: sws'), r', g'. split.
    { assert (E1 : n + k + count_swaps sws' = n + count_swaps (sw :: sws')).
      { change (sw :: sws') with ([sw] ++ sws').
        rewrite count_swaps_app. lia. }
      assert (E2 : (sws ++ [sw]) ++ sws' = sws ++ sw :: sws')
        by now rewrite <- app_assoc.
      rewrite Hm, E1, E2. reflexivity. }
    split; [assumption|].
    split; [eapply same_config_trans; eassumption|].
    split; [unfold len in *; cbn [List.length]; lia|].
    constructor; assumption.
Qed.

End GateTrack.

(** X5.  On a topology with nodes [0 .. Q-1], from a placement that is a
    permutation and for an interaction list whose triples join distinct
    qubits of [0, Q): the router can be built, [route_circuit] returns, the
    placement it ends with is again a permutation with its inverse, it
    returns one entry per triple, and the count it returns is the number of
    SWAPs in those entries. *)
Theorem route_circuit_keeps_the_placement_a_permutation :
  forall (graph : Nx.Graph) (mapper : Mapper.t) (cnots : list triple)
         (la : Z) (g : rng),
    Nx.wf graph ->
    perm_inv (Nx.number_of_nodes graph)
             (Mapper.l_to_p mapper) (Mapper.p_to_l mapper) ->
    cnots_ok (Nx.number_of_nodes graph) cnots ->
    exists r0 n swaps r' g',
      Router.init graph mapper cnots la = Ok r0 /\
      Router.route_circuit r0 g = Ok (n, swaps, r', g') /\
      perm_inv (Nx.number_of_nodes graph)
               (Router.l_to_p r') (Router.p_to_l r') /\
      len swaps = len cnots /\
      n = count_swaps swaps.
Proof.
  intros graph mapper cnots la g Hg Hp Hc.
  destruct (router_init_spec graph mapper cnots la Hg) as (tp & Hr0 & Hok).
  unfold Router.route_circuit, Router.route_circuit_portion.
  eexists. 
  destruct (route_loop_track graph cnots
              (Router.mk (Mapper.l_to_p mapper) (Mapper.p_to_l mapper) cnots
                         la tp) 0 [] g Hok Hp Hc)
    as (sws & r' & g' & Hm & Hinv & _ & Hlen & _).
  exists (0 + count_swaps sws), sws, r', g'.
  split; [exact Hr0|]. cbn [Router.cnots_list].
  rewrite slice_all. split; [exact Hm|].
  split; [assumption|]. split; [assumption|]. lia.
Qed.

Lemma route_circuit_keeps_the_placement_a_permutation_witness :
  exists r0 n swaps r' g',
    Router.init (line 4) (Mapper.init (line 4) prefix_5_7 4) prefix_5_7 10
      = Ok r0 /\
    Router.route_circuit r0 [] = Ok (n, swaps, r', g') /\
    perm_inv 4 (Router.l_to_p r') (Router.p_to_l r').
Proof.
  destruct (route_circuit_keeps_the_placement_a_permutation
              (line 4) (Mapper.init (line 4) prefix_5_7 4) prefix_5_7 10 []
              (line_wf 4))
    as (r0 & n & swaps & r' & g' & H0 & H1 & H2 & _).
  - apply perm_inv_identity.
  - intros c t i H; vm_compute in H.
    repeat (destruct H as [H|H]; [inv H; vm_compute; repeat split; congruence|]).
    destruct H.
  - exists r0, n, swaps, r', g'. auto.
Defined.

(* ================================================================== *)
(** * The driver: replaying the recorded SWAPs on the tape *)
(* ================================================================== *)

(** [routed ops out]: [out] lists the operations [ops] in their order, each
    with its wires renamed through some wire map, with SWAP operations
    inserted between them. *)
Inductive routed : list Transform.Op -> list Transform.Op -> Prop :=
| routed_nil : routed [] []
| routed_swap a b ops out :
    routed ops out -> routed ops (Transform.SWAP a b :: out)
| routed_gate op cw ops out :
    routed ops out -> routed (op :: ops) (Transform.map_wires op cw :: out).

Lemma routed_app a x : routed a x -> forall b y,
  routed b y -> routed (a ++ b) (x ++ y).
Proof.
  induction 1; intros b' y' H'; cbn [app]; [assumption| |];
    constructor; auto.
Qed.

Lemma routed_swaps l : routed [] (swap_ops l).
Proof.
  induction l as [|[a b] l IH]; cbn; constructor; assumption.
Qed.

(** The operations that take an entry of the router's list: those whose
    number of wires is not 1. *)
Definition gates_of (ops : list Transform.Op) : list Transform.Op :=
  filter (fun op => negb (len (Transform.wires op) =? 1)) ops.

Section Replay.
Variable q : Z.

Local Abbreviation in_range := (fun e : Z * Z => 0 <= fst e < q /\ 0 <= snd e < q).

Lemma emit_swaps_total movs : forall ops cw,
  len cw = q -> Forall in_range movs ->
  exists moved cw',
    Transform.emit_swaps movs ops cw = Ok (ops ++ swap_ops moved, cw') /\
    len cw' = q /\ len moved = len movs.
Proof.
  induction movs as [|[q1 q2] movs IH]; intros ops cw Hcw HF;
    cbn [Transform.emit_swaps].
  - exists [], cw. cbn. rewrite app_nil_r. auto.
  - apply Forall_cons_iff in HF as (H1 & H2).
    cbn [fst snd] in H1. destruct H1 as (H1 & H1').
    unfold Transform.dict_get, Transform.dict_set.
    replace ((0 <=? q1) && (q1 <? len cw)) with true
      by (symmetry; apply andb_true_iff; split;
          [apply Z.leb_le | apply Z.ltb_lt]; lia).
    replace ((0 <=? q2) && (q2 <? len cw)) with true
      by (symmetry; apply andb_true_iff; split;
          [apply Z.leb_le | apply Z.ltb_lt]; lia).
    destruct (getitem_in_range cw q1) as (w1 & Hw1); [lia|].
    destruct (getitem_in_range cw q2) as (w2 & Hw2); [lia|].
    rewrite Hw1, Hw2; cbn [bind].
    rewrite setitem_in_range by lia; cbn [bind]. rewrite len_update.
    replace ((0 <=? q2) && (q2 <? len cw)) with true
      by (symmetry; apply andb_true_iff; split;
          [apply Z.leb_le | apply Z.ltb_lt]; lia).
    rewrite setitem_in_range by (rewrite len_update; lia); cbn [bind].
    destruct (IH (ops ++ [Transform.SWAP w1 w2])
                 (update (update cw (Z.to_nat q1) w2) (Z.to_nat q2) w1))
      as (moved & cw' & He & Hlen & Hm); [rewrite !len_update; lia|assumption|].
    exists ((w1, w2) :: moved), cw'. rewrite He.
    split; [|split; [assumption | unfold len in *; cbn [List.length]; lia]].
    cbn [swap_ops map fst snd]. now rewrite <- app_assoc.
Qed.

Lemma len_swap_ops l : len (swap_ops l) = len l.
Proof. unfold len, swap_ops. now rewrite length_map. Qed.

(** With one well-shaped entry per gate, [__update_circuit] returns: the
    tape with its wires renamed and as many SWAPs inserted as the entries
    hold. *)
Lemma update_loop_total ops : forall swaps new_ops cw,
  len cw = q ->
  Forall (gate_swaps_ok q) swaps ->
  len swaps = len (gates_of ops) ->
  exists out,
    Transform.update_loop ops swaps new_ops cw = Ok (new_ops ++ out) /\
    routed ops out /\
    len out = len ops + count_swaps swaps.
Proof.
  induction ops as [|op ops IH]; intros swaps new_ops cw Hcw Hsw Hlen;
    cbn [Transform.update_loop].
  - exists []. rewrite app_nil_r. split; [reflexivity|].
    split; [constructor|].
    destruct swaps; [reflexivity|]. unfold len in Hlen; cbn in Hlen; lia.
  - cbn [gates_of filter] in Hlen.
    destruct (len (Transform.wires op) =? 1) eqn:E1; cbn [negb] in Hlen.
    + destruct (IH swaps (new_ops ++ [Transform.map_wires op cw]) cw Hcw Hsw
                   Hlen) as (out & Hu & Hr & Hl).
      exists (Transform.map_wires op cw :: out). rewrite Hu.
      rewrite <- app_assoc. split; [reflexivity|].
      split; [constructor; assumption|].
      unfold len in *; cbn [List.length]; lia.
    + destruct swaps as [|sw swaps];
        [unfold len in Hlen; cbn in Hlen; lia|].
      apply Forall_cons_iff in Hsw as (Hsw1 & Hsw).
      replace (getitem (sw :: swaps) 0) with (Ok sw) by reflexivity.
      cbn [bind]. rewrite slice_tail. cbn [tl].
      assert (Hlen' : len swaps = len (gates_of ops)).
      { unfold gates_of. unfold len in *. cbn [List.length] in Hlen. lia. }
      destruct Hsw1 as ([->|(cs & ts & ->)] & HF).
      * replace (len (@nil (list swap)) =? 0) with true by reflexivity.
        cbn [negb bind]; cbv beta iota.
        destruct (IH swaps (new_ops ++ [Transform.map_wires op cw]) cw Hcw
                     Hsw Hlen') as (out & Hu & Hr & Hl).
        exists (Transform.map_wires op cw :: out). rewrite Hu.
        rewrite <- app_assoc. split; [reflexivity|].
        split; [constructor; assumption|].
        change ([] :: swaps) with ([[]] ++ swaps).
        rewrite count_swaps_app.
        replace (count_swaps [[]]) with 0 by reflexivity.
        unfold len in *; cbn [List.length]. lia.
      * replace (len [cs; ts] =? 0) with false by reflexivity.
        cbn [negb].
        replace (getitem [cs; ts] 0) with (Ok cs) by reflexivity.
        replace (getitem [cs; ts] 1) with (Ok ts) by reflexivity.
        cbn [bind]. apply Forall_cons_iff in HF as (H1 & H2).
        apply Forall_cons_iff in H2 as (H3 & _).
        destruct (emit_swaps_total cs new_ops cw Hcw H1)
          as (m1 & cw1 & He1 & Hcw1 & Hm1).
        rewrite He1; cbn [bind]; cbv beta iota.
        destruct (emit_swaps_total ts (new_ops ++ swap_ops m1) cw1 Hcw1 H3)
          as (m2 & cw2 & He2 & Hcw2 & Hm2).
        rewrite He2; cbn [bind]; cbv beta iota.
        destruct (IH swaps
                     (((new_ops ++ swap_ops m1) ++ swap_ops m2) ++
                      [Transform.map_wires op cw2]) cw2 Hcw2 Hsw Hlen')
          as (out & Hu & Hr & Hl).
        exists (swap_ops m1 ++ swap_ops m2 ++
                Transform.map_wires op cw2 :: out).
        rewrite Hu. rewrite <- !app_assoc. split; [reflexivity|].
        split.
        { apply (routed_app [] _ (routed_swaps m1) (op :: ops)).
          apply (routed_app [] _ (routed_swaps m2) (op :: ops)).
          constructor; assumption. }
        change ([cs; ts] :: swaps) with ([[cs; ts]] ++ swaps).
        rewrite count_swaps_app.
        replace (count_swaps [[cs; ts]]) with (len cs + len ts)
          by (unfold count_swaps; cbn [map fold_right]; lia).
        pose proof (len_swap_ops m1). pose proof (len_swap_ops m2).
        unfold len in *. rewrite !length_app. cbn [List.length]. lia.
Qed.

End Replay.

(* ================================================================== *)
(** * The driver from end to end *)
(* ================================================================== *)

(** A tape of one-wire operations and of two-wire operations on two distinct
    wires of [0, q). *)
Definition tape_ok (q : Z) (tape : Transform.QuantumTape) : Prop :=
  Forall (fun op =>
            match Transform.wires op with
            | [_] => True
            | [a; b] => 0 <= a < q /\ 0 <= b < q /\ a <> b
            | _ => False
            end) (Transform.operations tape).

Section Interactions.
Import Transform.

Lemma number_pairs_app a : forall b k,
  number_pairs (a ++ b) k = number_pairs a k ++ number_pairs b (k + len a).
Proof.
  induction a as [|[x y] a IH]; intros b k; cbn [app number_pairs].
  - replace (k + len (@nil (Z * Z))) with k by (unfold len; cbn; lia).
    reflexivity.
  - rewrite IH. cbn [app]. do 3 f_equal.
    unfold len; cbn [List.length]; lia.
Qed.

(** The interaction list numbers, in tape order, the wire pairs of the
    operations. *)
Lemma interaction_loop_flat ops : forall acc k,
  interaction_loop ops acc k =
    acc ++ number_pairs (flat_map (fun op => wire_pairs (wires op)) ops) k.
Proof.
  induction ops as [|op ops IH]; intros acc k;
    cbn [interaction_loop flat_map].
  - cbn. now rewrite app_nil_r.
  - destruct (len (wires op) >=? 2) eqn:E.
    + rewrite IH, number_pairs_app, app_assoc. reflexivity.
    + rewrite IH.
      assert (Hw : wire_pairs (wires op) = []).
      { destruct (wires op) as [|a [|b ws]]; [reflexivity|reflexivity|].
        unfold len in E; cbn [List.length] in E.
        rewrite Z.geb_leb in E. apply Z.leb_gt in E. lia. }
      rewrite Hw. reflexivity.
Qed.

Lemma In_number_pairs ps : forall k c t i,
  In (c, t, i) (number_pairs ps k) -> In (c, t) ps.
Proof.
  induction ps as [|[a b] ps IH]; intros k c t i H; cbn in H; [destruct H|].
  destruct H as [H|H]; [inv H; now left | right; eapply IH; eauto].
Qed.

Lemma tape_ok_interactions q tape :
  tape_ok q tape ->
  cnots_ok q (get_interaction_list tape) /\
  len (get_interaction_list tape) = len (gates_of (operations tape)).
Proof.
  unfold tape_ok, get_interaction_list. rewrite interaction_loop_flat.
  cbn [app]. intros H. split.
  - intros c t i Hin. apply In_number_pairs in Hin.
    apply in_flat_map in Hin as (op & Hop & Hin).
    rewrite Forall_forall in H. specialize (H op Hop).
    destruct (wires op) as [|a [|b [|x ws]]]; cbn in H; try contradiction;
      cbn in Hin.
    destruct Hin as [Hin|[]]. inv Hin. assumption.
  - unfold len. rewrite length_number_pairs. f_equal.
    induction H as [|op ops Hop Hops IH]; [reflexivity|].
    cbn [flat_map gates_of filter]. rewrite length_app.
    fold (gates_of ops). rewrite IH.
    destruct (wires op) as [|a [|b [|x ws]]]; cbn in Hop;
      try contradiction; reflexivity.
Qed.
End Interactions.

Lemma cnots_ok_firstn q cnots k :
  cnots_ok q cnots -> cnots_ok q (firstn k cnots).
Proof.
  intros H c t i Hin. apply (H c t i).
  rewrite <- (firstn_skipn k cnots). apply in_or_app; now left.
Qed.

(** Building a router on a well-formed topology and routing the whole list
    from a placement that is a permutation. *)
Lemma route_circuit_track graph mapper cnots la g :
  Nx.wf graph ->
  perm_inv (Nx.number_of_nodes graph)
           (Mapper.l_to_p mapper) (Mapper.p_to_l mapper) ->
  cnots_ok (Nx.number_of_nodes graph) cnots ->
  exists r0 swaps r' g',
    Router.init graph mapper cnots la = Ok r0 /\
    Router.l_to_p r0 = Mapper.l_to_p mapper /\
    Router.route_circuit r0 g = Ok (count_swaps swaps, swaps, r', g') /\
    perm_inv (Nx.number_of_nodes graph)
             (Router.l_to_p r') (Router.p_to_l r') /\
    len swaps = len cnots /\
    Forall (gate_swaps_ok (Nx.number_of_nodes graph)) swaps.
Proof.
  intros Hg Hp Hc.
  destruct (router_init_spec graph mapper cnots la Hg) as (tp & Hr0 & Hok).
  unfold Router.route_circuit, Router.route_circuit_portion.
  destruct (route_loop_track graph cnots
              (Router.mk (Mapper.l_to_p mapper) (Mapper.p_to_l mapper) cnots
                         la tp) 0 [] g Hok Hp Hc)
    as (sws & r' & g' & Hm & Hinv & _ & Hlen & Hall).
  eexists _, sws, r', g'.
  split; [exact Hr0|]. split; [reflexivity|]. cbn [Router.cnots_list].
  rewrite slice_all. split; [exact Hm|]. auto.
Qed.

(** From a placement that is a permutation, the refinement wrapper returns a
    placement that is a permutation. *)
Lemma update_mapping_track graph m0 cnots la g :
  Nx.wf graph ->
  perm_inv (Nx.number_of_nodes graph) (Mapper.l_to_p m0) (Mapper.p_to_l m0) ->
  cnots_ok (Nx.number_of_nodes graph) cnots ->
  exists u m g',
    MapperUpdater.init graph m0 cnots la = Ok u /\
    MapperUpdater.update_mapping u g = Ok (m, g') /\
    perm_inv (Nx.number_of_nodes graph) (Mapper.l_to_p m) (Mapper.p_to_l m).
Proof.
  intros Hg Hp Hc.
  destruct (route_circuit_track graph m0 cnots la g Hg Hp Hc)
    as (r0 & sw1 & r1 & g1 & Hr0 & _ & H1 & Hp1 & _).
  set (m1 := Mapper.from_static_mapping graph cnots (Nx.number_of_nodes graph)
               (Router.l_to_p r1) (Router.p_to_l r1)).
  destruct (route_circuit_track graph m1 cnots la g1 Hg Hp1 Hc)
    as (nr & sw2 & r2 & g2 & Hnr & _ & H2 & _).
  assert (Hu : MapperUpdater.init graph m0 cnots la
               = Ok (MapperUpdater.mk r0 m0 graph cnots)).
  { unfold MapperUpdater.init. rewrite Hr0. reflexivity. }
  destruct (update_mapping_result graph m0 cnots la g _ _ sw1 r1 g1 nr _ sw2
              r2 g2 Hu H1 Hnr H2) as (_ & _ & _ & _ & _ & _ & Hres & _).
  eexists _, _, g2. split; [exact Hu|]. split; [exact Hres|].
  destruct (count_swaps sw2 <? count_swaps sw1); assumption.
Qed.

(** Every strategy name that does not select MAJORITY yields a placement
    that is a permutation. *)
Lemma mapper_from_string_track {order : SetIteration} graph cnots name g :
  Nx.wf graph -> cnots_ok (Nx.number_of_nodes graph) cnots ->
  MapperType.type_from_string (MapperType.lower name) <> MapperType.MAJORITY ->
  exists m g',
    MapperType.mapper_from_string name graph cnots (Nx.number_of_nodes graph) g
      = Ok (m, g') /\
    perm_inv (Nx.number_of_nodes graph) (Mapper.l_to_p m) (Mapper.p_to_l m).
Proof.
  intros Hg Hc Hne. set (q := Nx.number_of_nodes graph) in *.
  unfold MapperType.mapper_from_string.
  destruct (MapperType.type_from_string (MapperType.lower name));
    [ | | congruence | ].
  - eexists _, _. split; [reflexivity|]. apply perm_inv_identity.
  - destruct (RandomMapper.init graph cnots q g) as [[m g']|e] eqn:E.
    + exists m, g'. split; [reflexivity|].
      eapply random_mapper_perm_inv; eassumption.
    + exfalso. revert E.
      unfold RandomMapper.init, RandomMapper.compute_mapping, Mapper.init.
      cbn [Mapper.l_to_p Mapper.p_to_l Mapper.connectivity
           Mapper.cnots_list Mapper.qubits].
      pose proof (shuffle_range q g) as HP.
      destruct (RandomMapper.shuffle (range q) g) as [l' g1]; cbn [fst] in HP.
      unfold Mapper.physic_to_logical; cbn [Mapper.l_to_p Mapper.p_to_l].
      destruct (Permutation_range_facts _ _ HP) as (Hlen & Hin).
      destruct (physic_to_logical_loop_spec l' 0 (range q))
        as (p' & Hp' & _).
      { eapply Permutation_NoDup; [symmetry; eassumption|apply NoDup_range]. }
      { apply Forall_forall; intros v Hv. rewrite len_range.
        apply Hin in Hv; lia. }
      rewrite Hp'; cbn [bind]. discriminate.
  - destruct (max_pairs_places_every_qubit graph cnots Hg Hc) as (m & Hm & Hp).
    fold q in Hm. rewrite Hm; cbn [bind]. eauto.
Qed.

(** X6.  On a topology with nodes [0 .. Q-1], for a tape of one-wire
    operations and of two-wire operations on distinct wires of [0, Q), with
    at least one two-wire operation and no more wires than nodes, for
    every strategy name that does not select MAJORITY and every order in
    which sets are visited: [apply_routing] returns; the qubit count it
    reports is [Q]; the operations it returns are those of the tape in
    their order, each with its wires renamed, with SWAP operations inserted
    between them. *)
Theorem apply_routing_returns_the_tape_with_swaps_inserted :
  forall (order : SetIteration) (tape : Transform.QuantumTape)
         (graph : Nx.Graph) (name : string) (g : rng),
    Nx.wf graph ->
    tape_ok (Nx.number_of_nodes graph) tape ->
    len (Transform.tape_wires tape) <= Nx.number_of_nodes graph ->
    gates_of (Transform.operations tape) <> [] ->
    MapperType.type_from_string (MapperType.lower name)
      <> MapperType.MAJORITY ->
    exists new_ops g',
      Transform.apply_routing tape graph name g =
        Ok (new_ops, Nx.number_of_nodes graph, g') /\
      routed (Transform.operations tape) new_ops.
Proof.
  intros order tape graph name g Hg Htape Hw Hne Hmaj.
  set (q := Nx.number_of_nodes graph) in *.
  destruct (tape_ok_interactions q tape Htape) as (Hc & Hlen).
  unfold Transform.apply_routing. fold q.
  destruct (Z.gtb_spec (len (Transform.tape_wires tape)) q) as [|_]; [lia|].
  replace (len (Transform.tape_wires tape) +
           (q - len (Transform.tape_wires tape))) with q by lia.
  set (cnots := Transform.get_interaction_list tape) in *.
  destruct (mapper_from_string_track graph cnots name g Hg Hc Hmaj)
    as (m & g1 & Hm & Hpm).
  fold q in Hm. rewrite Hm; cbn [bind]; cbv beta iota.
  assert (Hpos : 1 <= len cnots).
  { rewrite Hlen. destruct (gates_of (Transform.operations tape));
      [congruence|]. unfold len; cbn [List.length]; lia. }
  unfold Transform.int_log2.
  destruct (Z.leb_spec (len cnots) 0) as [|_]; [lia|]. cbn [bind].
  destruct (slice_prefix cnots (Z.log2 (len cnots))) as (k & ->).
  destruct (update_mapping_track graph m (firstn k cnots) 10 g1 Hg Hpm
              (cnots_ok_firstn q cnots k Hc))
    as (u & m' & g2 & Hu & Hupd & Hpm').
  rewrite Hu; cbn [bind]. rewrite Hupd; cbn [bind]; cbv beta iota.
  destruct (route_circuit_track graph m' cnots 10 g2 Hg Hpm' Hc)
    as (r0 & swaps & r' & g3 & Hr0 & _ & Hroute & _ & Hls & Hall).
  rewrite Hr0; cbn [bind]. rewrite Hroute; cbn [bind]; cbv beta iota.
  unfold Transform.update_circuit.
  assert (Hq : 0 <= q) by apply len_nonneg.
  destruct (update_loop_total q (Transform.operations tape) swaps []
              (range q)) as (out & Hout & Hrouted & _);
    [rewrite len_range; lia | assumption | lia |].
  rewrite Hout; cbn [bind app]. eauto.
Qed.

Definition tape_far3 : Transform.QuantumTape :=
  Transform.mkTape
    [Transform.mkOp "Hadamard" [0]; Transform.mkOp "CNOT" [0; 3];
     Transform.mkOp "CNOT" [1; 2]] [0; 1; 2; 3].

Lemma apply_routing_returns_the_tape_with_swaps_inserted_witness :
  exists new_ops g',
    Transform.apply_routing (order := decreasing_order) tape_far3 (line 4)
      "max_pairs" [] = Ok (new_ops, 4, g') /\
    routed (Transform.operations tape_far3) new_ops.
Proof.
  apply (apply_routing_returns_the_tape_with_swaps_inserted
           decreasing_order tape_far3 (line 4) "max_pairs" [] (line_wf 4)).
  - repeat constructor; vm_compute; congruence.
  - vm_compute; discriminate.
  - vm_compute; discriminate.
  - vm_compute; discriminate.
Defined.

Lemma dict_get_in_range d k :
  0 <= k < len d -> Transform.dict_get d k = getitem d k.
Proof.
  intros H. unfold Transform.dict_get.
  destruct (Z.leb_spec 0 k); [|lia].
  destruct (Z.ltb_spec k (len d)); [reflexivity|lia].
Qed.

(** X7.  When the wire map of the driver equals the router's [L2P] before a
    gate on two distinct qubits, replaying what the router recorded for
    that gate emits exactly as many SWAPs as the router counted, followed by
    the gate on the two nodes where the router left its control and its
    target. *)
Theorem update_circuit_replays_one_gate :
  forall (graph : Nx.Graph) (mapper : Mapper.t) (cnots : list triple)
         (la : Z) (r0 r : Router.t) (c t i : Z) (g : rng)
         (gate : string) (ops : list Transform.Op),
    Nx.wf graph ->
    Router.init graph mapper cnots la = Ok r0 ->
    Router.topology r = Router.topology r0 ->
    perm_inv (Nx.number_of_nodes graph) (Router.l_to_p r) (Router.p_to_l r) ->
    0 <= c < Nx.number_of_nodes graph ->
    0 <= t < Nx.number_of_nodes graph -> c <> t ->
    exists sw n r' g' moved u' v',
      Router.apply_cnot r c t i g = Ok (sw, n, r', g') /\
      len moved = n /\
      getitem (Router.l_to_p r') c = Ok u' /\
      getitem (Router.l_to_p r') t = Ok v' /\
      Transform.update_loop [Transform.mkOp gate [c; t]] [sw] ops
                            (Router.l_to_p r) =
        Ok (ops ++ swap_ops moved ++ [Transform.mkOp gate [u'; v']]).
Proof.
  intros graph mapper cnots la r0 r c t i g gate ops Hg Hinit Htopo Hinv
         Hc Ht Hct.
  destruct (router_init_spec graph mapper cnots la Hg) as (tp & Hr0 & Hok).
  rewrite Hr0 in Hinit. inv Hinit. cbn [Router.topology] in Htopo.
  rewrite <- Htopo in Hok.
  destruct (apply_cnot_track graph r c t i g Hok Hinv Hc Ht Hct)
    as (sw & n & r' & g' & moved & Ha & Hinv' & _ & _ & _ & Hlen & Hrep).
  destruct (perm_inv_facts _ _ _ Hinv') as (Hl' & _).
  rewrite Z.max_r in Hl' by lia.
  destruct (getitem_in_range (Router.l_to_p r') c) as (u' & Hu'); [lia|].
  destruct (getitem_in_range (Router.l_to_p r') t) as (v' & Hv'); [lia|].
  exists sw, n, r', g', moved, u', v'.
  repeat (split; [assumption|]).
  cbn [Transform.update_loop Transform.wires].
  replace (len [c; t] =? 1) with false by reflexivity.
  replace (getitem [sw] 0) with (Ok sw) by reflexivity. cbn [bind].
  specialize (Hrep ops). unfold replay in Hrep. rewrite Hrep.
  cbn [bind]; cbv beta iota. rewrite <- app_assoc. do 3 f_equal.
  unfold Transform.map_wires. cbn [Transform.name Transform.wires map].
  rewrite !dict_get_in_range by lia. now rewrite Hu', Hv'.
Qed.

Lemma update_circuit_replays_one_gate_witness :
  exists sw n r' g' moved u' v',
    Router.apply_cnot router_line4 0 3 0 [] = Ok (sw, n, r', g') /\
    len moved = n /\
    getitem (Router.l_to_p r') 0 = Ok u' /\
    getitem (Router.l_to_p r') 3 = Ok v' /\
    Transform.update_loop [Transform.mkOp "CNOT" [0; 3]] [sw] []
                          (Router.l_to_p router_line4) =
      Ok ([] ++ swap_ops moved ++ [Transform.mkOp "CNOT" [u'; v']]).
Proof.
  refine (update_circuit_replays_one_gate (line 4)
            (Mapper.init (line 4) [(0, 3, 0)] 4) [(0, 3, 0)] 10
            router_line4 router_line4 0 3 0 [] "CNOT" []
            (line_wf 4) _ eq_refl _ _ _ _).
  - vm_compute; reflexivity.
  - apply (perm_inv_identity 4).
  - vm_compute; split; [discriminate|reflexivity].
  - vm_compute; split; [discriminate|reflexivity].
  - discriminate.
Defined.

(* ------------------------------------------------------------------ *)

Lemma no_gates_no_interactions tape :
  (forall op, In op (Transform.operations tape) ->
              len (Transform.wires op) < 2) ->
  Transform.get_interaction_list tape = [].
Proof.
  intros H. unfold Transform.get_interaction_list.
  rewrite interaction_loop_flat. cbn [app].
  induction (Transform.operations tape) as [|op ops IH]; [reflexivity|].
  cbn [flat_map].
  assert (Hw : Transform.wire_pairs (Transform.wires op) = []).
  { specialize (H op (or_introl eq_refl)).
    destruct (Transform.wires op) as [|a [|b ws]]; [reflexivity|reflexivity|].
    unfold len in H; cbn [List.length] in H; lia. }
  rewrite Hw. cbn [app]. apply IH. intros op' Hop'. apply H. now right.
Qed.

(** X8.  [apply_routing] raises [RuntimeError] when the tape has more wires
    than the topology has nodes, whatever the strategy; and on a tape
    without any operation on two or more wires it raises [ValueError] (the
    logarithm of the empty interaction list) once the placement has been
    computed. *)
Theorem apply_routing_error_cases :
  forall (order : SetIteration) (tape : Transform.QuantumTape)
         (graph : Nx.Graph) (name : string) (g : rng),
    (len (Transform.tape_wires tape) > Nx.number_of_nodes graph ->
     Transform.apply_routing tape graph name g = Raise RuntimeError) /\
    (Nx.wf graph ->
     len (Transform.tape_wires tape) <= Nx.number_of_nodes graph ->
     (forall op, In op (Transform.operations tape) ->
                 len (Transform.wires op) < 2) ->
     MapperType.type_from_string (MapperType.lower name)
       <> MapperType.MAJORITY ->
     Transform.apply_routing tape graph name g = Raise ValueError).
Proof.
  intros order tape graph name g. split.
  - intros H. unfold Transform.apply_routing.
    destruct (Z.gtb_spec (len (Transform.tape_wires tape))
                         (Nx.number_of_nodes graph)); [reflexivity|lia].
  - intros Hg Hw Hops Hmaj. unfold Transform.apply_routing.
    destruct (Z.gtb_spec (len (Transform.tape_wires tape))
                         (Nx.number_of_nodes graph)) as [|_]; [lia|].
    rewrite (no_gates_no_interactions tape Hops).
    replace (len (Transform.tape_wires tape) +
             (Nx.number_of_nodes graph - len (Transform.tape_wires tape)))
      with (Nx.number_of_nodes graph) by lia.
    destruct (mapper_from_string_track graph [] name g Hg) as (m & g1 & Hm & _);
      [intros c t i [] | assumption |].
    rewrite Hm; cbn [bind]; cbv beta iota. reflexivity.
Qed.

(* ------------------------------------------------------------------ *)

Section AlreadyRouted.
Variable graph : Nx.Graph.
Hypothesis Hg : Nx.wf graph.

Local Abbreviation q := (Nx.number_of_nodes graph).

(** Gates whose qubits already sit on adjacent nodes are routed without a
    SWAP and leave the router as it is. *)
Lemma route_loop_adjacent todo : forall r n sws g,
  topology_ok graph (Router.topology r) ->
  (forall c t i, In (c, t, i) todo ->
     exists u v, getitem (Router.l_to_p r) c = Ok u /\
                 getitem (Router.l_to_p r) t = Ok v /\
                 0 <= u < q /\ 0 <= v < q /\
                 Nx.has_edge graph u v = true) ->
  Router.route_loop r todo n sws g =
    Ok (n, sws ++ map (fun _ => []) todo, r, g).
Proof.
  induction todo as [|[[c t] i] todo IH]; intros r n sws g Hok Hadj;
    cbn [Router.route_loop map].
  - now rewrite app_nil_r.
  - destruct (Hadj c t i (or_introl eq_refl))
      as (u & v & Hu & Hv & Hur & Hvr & He).
    unfold Router.apply_cnot. rewrite Hu, Hv; cbn [bind].
    rewrite (topo_adjacent graph _ Hok u v Hur Hvr); cbn [bind].
    rewrite He. cbn [bind]; cbv beta iota.
    rewrite IH; auto.
    + rewrite Z.add_0_r, <- app_assoc. reflexivity.
    + intros c' t' i' H'. apply (Hadj c' t' i'). now right.
Qed.

Lemma map_wires_identity op n : Transform.map_wires op (range n) = op.
Proof.
  destruct op as [nm ws]. unfold Transform.map_wires.
  cbn [Transform.name Transform.wires]. f_equal.
  induction ws as [|w ws IH]; [reflexivity|]. cbn [map]. rewrite IH. f_equal.
  unfold Transform.dict_get. rewrite len_range.
  destruct (Z.leb_spec 0 w); [|reflexivity].
  destruct (Z.ltb_spec w (Z.max 0 n)); [|reflexivity]. cbn [andb].
  rewrite getitem_range by lia. reflexivity.
Qed.

Lemma update_loop_no_swaps n ops : forall swaps new_ops,
  Forall (eq []) swaps -> len swaps = len (gates_of ops) ->
  Transform.update_loop ops swaps new_ops (range n) = Ok (new_ops ++ ops).
Proof.
  induction ops as [|op ops IH]; intros swaps new_ops Hsw Hlen;
    cbn [Transform.update_loop].
  - now rewrite app_nil_r.
  - cbn [gates_of filter] in Hlen. fold (gates_of ops) in Hlen.
    destruct (len (Transform.wires op) =? 1); cbn [negb] in Hlen.
    + rewrite map_wires_identity, IH by assumption.
      now rewrite <- app_assoc.
    + destruct swaps as [|sw swaps];
        [unfold len in Hlen; cbn in Hlen; lia|].
      apply Forall_cons_iff in Hsw as (<- & Hsw).
      replace (getitem ([] :: swaps) 0) with (Ok (@nil (list swap)))
        by reflexivity.
      cbn [bind]. rewrite slice_tail. cbn [tl].
      replace (len (@nil (list swap)) =? 0) with true by reflexivity.
      cbn [negb bind]; cbv beta iota.
      rewrite map_wires_identity, IH; auto.
      * now rewrite <- app_assoc.
      * unfold len in *; cbn [List.length] in Hlen; lia.
Qed.

End AlreadyRouted.

(** X9.  With a strategy name that selects the basic placement, a tape whose
    two-wire operations all act on wires joined by an edge of the topology
    comes back unchanged, and no random draw is consumed. *)
Theorem apply_routing_leaves_a_routed_tape_unchanged :
  forall (order : SetIteration) (tape : Transform.QuantumTape)
         (graph : Nx.Graph) (name : string) (g : rng),
    Nx.wf graph ->
    tape_ok (Nx.number_of_nodes graph) tape ->
    len (Transform.tape_wires tape) <= Nx.number_of_nodes graph ->
    gates_of (Transform.operations tape) <> [] ->
    (forall op a b, In op (Transform.operations tape) ->
       Transform.wires op = [a; b] -> Nx.has_edge graph a b = true) ->
    MapperType.type_from_string (MapperType.lower name) = MapperType.BASIC ->
    Transform.apply_routing tape graph name g =
      Ok (Transform.operations tape, Nx.number_of_nodes graph, g).
Proof.
  intros order tape graph name g Hg Htape Hw Hne Hadj Hbasic.
  set (q := Nx.number_of_nodes graph) in *.
  assert (Hq : 0 <= q) by apply len_nonneg.
  destruct (tape_ok_interactions q tape Htape) as (Hc & Hlen).
  unfold Transform.apply_routing. fold q.
  destruct (Z.gtb_spec (len (Transform.tape_wires tape)) q) as [|_]; [lia|].
  replace (len (Transform.tape_wires tape) +
           (q - len (Transform.tape_wires tape))) with q by lia.
  set (cnots := Transform.get_interaction_list tape) in *.
  unfold MapperType.mapper_from_string. rewrite Hbasic.
  cbn [bind]; cbv beta iota.
  assert (Hpos : 1 <= len cnots).
  { rewrite Hlen. destruct (gates_of (Transform.operations tape));
      [congruence|]. unfold len; cbn [List.length]; lia. }
  unfold Transform.int_log2.
  destruct (Z.leb_spec (len cnots) 0) as [|_]; [lia|]. cbn [bind].
  destruct (slice_prefix cnots (Z.log2 (len cnots))) as (k & ->).
  (* every triple of the list sits on an edge under the identity *)
  assert (Hedge : forall c t i, In (c, t, i) cnots ->
            exists u v, getitem (range q) c = Ok u /\
                        getitem (range q) t = Ok v /\
                        0 <= u < q /\ 0 <= v < q /\
                        Nx.has_edge graph u v = true).
  { intros c t i Hin. destruct (Hc c t i Hin) as (H1 & H2 & _).
    exists c, t. rewrite !getitem_range by assumption.
    repeat split; try lia.
    unfold cnots, Transform.get_interaction_list in Hin.
    rewrite interaction_loop_flat in Hin. cbn [app] in Hin.
    apply In_number_pairs in Hin.
    apply in_flat_map in Hin as (op & Hop & Hin).
    unfold tape_ok in Htape. rewrite Forall_forall in Htape.
    specialize (Htape op Hop).
    destruct (Transform.wires op) as [|a [|b [|x ws]]] eqn:Ew;
      cbn in Htape; try contradiction; cbn in Hin.
    destruct Hin as [Hin|[]]. inv Hin. eapply Hadj; eauto. }
  assert (Hedge' : forall c t i, In (c, t, i) (firstn k cnots) ->
            exists u v, getitem (range q) c = Ok u /\
                        getitem (range q) t = Ok v /\
                        0 <= u < q /\ 0 <= v < q /\
                        Nx.has_edge graph u v = true).
  { intros c t i Hin. apply (Hedge c t i).
    rewrite <- (firstn_skipn k cnots). apply in_or_app; now left. }
  set (m0 := Mapper.init graph cnots q).
  (* the refinement wrapper keeps the identity *)
  destruct (router_init_spec graph m0 (firstn k cnots) 10 Hg)
    as (tp & Hr0 & Hok).
  assert (Hroute0 : forall tp', topology_ok graph tp' -> forall todo g0,
            (forall c t i, In (c, t, i) todo -> In (c, t, i) cnots) ->
            Router.route_circuit
              (Router.mk (range q) (range q) todo 10 tp') g0 =
            Ok (0, map (fun _ => []) todo,
                Router.mk (range q) (range q) todo 10 tp', g0)).
  { intros tp' Hok' todo g0 Hsub.
    unfold Router.route_circuit, Router.route_circuit_portion.
    cbn [Router.cnots_list]. rewrite slice_all.
    rewrite (route_loop_adjacent graph todo
               (Router.mk (range q) (range q) todo 10 tp') 0 [] g0 Hok');
      [reflexivity|].
    cbn [Router.l_to_p]. intros c t i Hin. eapply Hedge; eauto. }
  assert (Hsub : forall c t i,
            In (c, t, i) (firstn k cnots) -> In (c, t, i) cnots).
  { intros c t i Hin. rewrite <- (firstn_skipn k cnots).
    apply in_or_app; now left. }
  unfold MapperUpdater.init. rewrite Hr0; cbn [bind].
  unfold MapperUpdater.update_mapping.
  cbn [MapperUpdater.router MapperUpdater.topology MapperUpdater.cnots_list
       MapperUpdater.initial_mapper].
  unfold m0 at 1 2. cbn [Mapper.init Mapper.l_to_p Mapper.p_to_l].
  rewrite (Hroute0 tp Hok _ g Hsub); cbn [bind]; cbv beta iota.
  cbn [Router.l_to_p Router.p_to_l Router.lookahead].
  fold q.
  destruct (router_init_spec graph
              (Mapper.from_static_mapping graph (firstn k cnots) q
                 (range q) (range q)) (firstn k cnots) 10 Hg)
    as (tp1 & Hr1 & Hok1).
  cbn [Mapper.from_static_mapping Mapper.l_to_p Mapper.p_to_l] in Hr1.
  cbn [Mapper.from_static_mapping].
  rewrite Hr1; cbn [bind].
  rewrite (Hroute0 tp1 Hok1 _ g Hsub); cbn [bind]; cbv beta iota.
  replace (0 <? 0) with false by reflexivity.
  cbn [bind]; cbv beta iota.
  destruct (router_init_spec graph m0 cnots 10 Hg) as (tp2 & Hr2 & Hok2).
  rewrite Hr2; cbn [bind].
  unfold m0. cbn [Mapper.init Mapper.l_to_p Mapper.p_to_l].
  rewrite (Hroute0 tp2 Hok2 _ g (fun c t i H => H));
    cbn [bind]; cbv beta iota.
  unfold Transform.update_circuit.
  rewrite update_loop_no_swaps.
  - reflexivity.
  - apply Forall_forall. intros x Hx. apply in_map_iff in Hx as (y & <- & _).
    reflexivity.
  - unfold len in *. rewrite length_map. exact Hlen.
Qed.

Definition tape_line3 : Transform.QuantumTape :=
  Transform.mkTape
    [Transform.mkOp "Hadamard" [0]; Transform.mkOp "CNOT" [0; 1];
     Transform.mkOp "CNOT" [2; 1]] [0; 1; 2].

Lemma apply_routing_leaves_a_routed_tape_unchanged_witness :
  Transform.apply_routing (order := increasing_order) tape_line3 (line 3)
    "Basic" [7%nat] = Ok (Transform.operations tape_line3, 3, [7%nat]).
Proof.
  apply (apply_routing_leaves_a_routed_tape_unchanged increasing_order
           tape_line3 (line 3) "Basic" [7%nat] (line_wf 3)).
  - repeat constructor; vm_compute; congruence.
  - vm_compute; discriminate.
  - vm_compute; discriminate.
  - intros op a b [<-|[<-|[<-|[]]]] H; inv H; vm_compute; reflexivity.
  - vm_compute; reflexivity.
Defined.

Lemma apply_routing_error_cases_witness :
  Transform.apply_routing (order := increasing_order)
    (Transform.mkTape [Transform.mkOp "Hadamard" [0]] [0]) (line 2)
    "random" [] = Raise ValueError.
Proof.
  apply (apply_routing_error_cases increasing_order
           (Transform.mkTape [Transform.mkOp "Hadamard" [0]] [0]) (line 2)
           "random" []).
  - apply line_wf.
  - vm_compute; discriminate.
  - intros op [<-|[]]. vm_compute; reflexivity.
  - vm_compute; discriminate.
Defined.

(* ================================================================== *)
(** * The base mapper *)
(* ================================================================== *)

Lemma setitem_raises {A} (l : list A) i v e :
  setitem l i v = Raise e -> e = IndexError.
Proof.
  unfold setitem. destruct (norm_index (len l) i); intros H; now inv H.
Qed.

Lemma getitem_raises {A} (l : list A) i e :
  getitem l i = Raise e -> e = IndexError.
Proof.
  unfold getitem. destruct (norm_index (len l) i) as [k|];
    [destruct (nth_error l k)|]; intros H; now inv H.
Qed.

Lemma setitem_ok_range {A} (l : list A) i v l' :
  setitem l i v = Ok l' -> - len l <= i < len l /\ len l' = len l.
Proof.
  unfold setitem, norm_index. intros H.
  destruct (Z.leb_spec 0 i), (Z.ltb_spec i (len l)); cbn [andb] in H;
    try (inv H; rewrite len_update; lia);
    destruct (Z.leb_spec (- len l) i), (Z.ltb_spec i 0); cbn [andb] in H;
    try discriminate; inv H; rewrite len_update; lia.
Qed.

Lemma getitem_ok_range {A} (l : list A) i x :
  getitem l i = Ok x -> - len l <= i < len l.
Proof.
  unfold getitem, norm_index. intros H.
  destruct (Z.leb_spec 0 i), (Z.ltb_spec i (len l)); cbn [andb] in H;
    try lia;
    destruct (Z.leb_spec (- len l) i), (Z.ltb_spec i 0); cbn [andb] in H;
    try discriminate; lia.
Qed.

Lemma physic_to_logical_loop_raises l : forall q0 p v,
  In v l -> (v < - len p \/ len p <= v) ->
  Mapper.physic_to_logical_loop q0 l p = Raise IndexError.
Proof.
  induction l as [|v0 l IH]; intros q0 p v Hin Hv; [destruct Hin|].
  cbn [Mapper.physic_to_logical_loop].
  destruct (setitem p v0 q0) as [p'|e] eqn:E; cbn [bind].
  - apply setitem_ok_range in E as (Hr & Hl).
    destruct Hin as [->|Hin]; [lia|].
    apply (IH _ _ v Hin). lia.
  - apply setitem_raises in E. now subst.
Qed.

(** X10.  [physic_to_logical] rebuilds [p_to_l] from [l_to_p]: when
    [l_to_p] is a permutation of the indices of [p_to_l], the two lists are
    inverse of each other afterwards, whatever [p_to_l] held before; when
    [l_to_p] holds a value that is no index of [p_to_l], it raises
    [IndexError]. *)
Theorem physic_to_logical_builds_the_inverse :
  forall (m : Mapper.t),
    (Permutation (Mapper.l_to_p m) (range (len (Mapper.p_to_l m))) ->
     exists m',
       Mapper.physic_to_logical m = Ok m' /\
       Mapper.l_to_p m' = Mapper.l_to_p m /\
       perm_inv (len (Mapper.p_to_l m))
                (Mapper.l_to_p m') (Mapper.p_to_l m')) /\
    (forall v, In v (Mapper.l_to_p m) ->
       v < - len (Mapper.p_to_l m) \/ len (Mapper.p_to_l m) <= v ->
       Mapper.physic_to_logical m = Raise IndexError).
Proof.
  intros m. split.
  - intros HP. set (q := len (Mapper.p_to_l m)) in *.
    assert (Hq : 0 <= q) by apply len_nonneg.
    destruct (Permutation_range_facts _ _ HP) as (Hlen & Hin).
    rewrite Z.max_r in Hlen by lia.
    destruct (physic_to_logical_loop_spec (Mapper.l_to_p m) 0 (Mapper.p_to_l m))
      as (p' & Hp' & Hlenp & Hspec & _).
    { eapply Permutation_NoDup; [symmetry; eassumption|apply NoDup_range]. }
    { apply Forall_forall; intros v Hv. apply Hin in Hv. fold q. lia. }
    unfold Mapper.physic_to_logical. rewrite Hp'; cbn [bind].
    eexists; split; [reflexivity|]. split; [reflexivity|].
    cbn [Mapper.l_to_p Mapper.p_to_l].
    apply left_inverse_perm_inv; [lia | fold q in Hlenp; lia|].
    intros x Hx.
    destruct (getitem_in_range (Mapper.l_to_p m) x) as (u & Hu); [lia|].
    exists u. split; [apply Hin; eapply getitem_In; eassumption|].
    split; [assumption|].
    apply getitem_nth_error in Hu; [|lia].
    rewrite (Hspec _ _ Hu). f_equal; lia.
  - intros v Hin Hv. unfold Mapper.physic_to_logical.
    now rewrite (physic_to_logical_loop_raises _ 0 _ v Hin Hv).
Qed.

Lemma physic_to_logical_builds_the_inverse_witness :
  exists m',
    Mapper.physic_to_logical
      (Mapper.mk (line 3) [] 3 [2; 0; 1] [0; 0; 0]) = Ok m' /\
    perm_inv 3 (Mapper.l_to_p m') (Mapper.p_to_l m').
Proof.
  destruct (physic_to_logical_builds_the_inverse
              (Mapper.mk (line 3) [] 3 [2; 0; 1] [0; 0; 0])) as (H & _).
  destruct H as (m' & Hm & _ & Hp).
  - cbn [Mapper.l_to_p Mapper.p_to_l].
    change (range (len [0; 0; 0])) with [0; 1; 2].
    apply Permutation_sym, (perm_trans (l' := [2; 1; 0])).
    + apply (Permutation_rev [0; 1; 2]).
    + apply perm_skip, perm_swap.
  - exists m'. split; [exact Hm|exact Hp].
Defined.

(* ================================================================== *)
(** * What the router needs of the node labels *)
(* ================================================================== *)

Section Labels.

Lemma set2_inv n (m : list (list Z)) u v x :
  square n m ->
  match UUG.set2 m u v x with
  | Ok m' => square n m' /\ - Z.of_nat n <= u < Z.of_nat n /\
             - Z.of_nat n <= v < Z.of_nat n
  | Raise e => e = IndexError
  end.
Proof.
  intros Hsq. unfold UUG.set2.
  destruct (getitem m u) as [row|e] eqn:Er; cbn [bind];
    [|eapply getitem_raises; eassumption].
  destruct (setitem row v x) as [row'|e] eqn:Es; cbn [bind];
    [|eapply setitem_raises; eassumption].
  destruct (setitem m u row') as [m'|e] eqn:Em;
    [|eapply setitem_raises; eassumption].
  pose proof (getitem_In _ _ _ Er) as Hin.
  destruct Hsq as (Hl & Hrows). pose proof Hrows as Hrows'.
  rewrite Forall_forall in Hrows'. pose proof (Hrows' _ Hin) as Hrow.
  apply setitem_ok_range in Es as (Hv & Hlr).
  pose proof (getitem_ok_range _ _ _ Er) as Hu.
  unfold len in *. split; [|lia].
  unfold setitem in Em. destruct (norm_index _ u); inv Em.
  split; [now rewrite length_update|].
  apply Forall_update; [assumption|lia].
Qed.

Lemma add_edges_raises n es : forall g a b,
  square n (UUG.adj_matrix g) ->
  In (a, b) es ->
  (a < - Z.of_nat n \/ Z.of_nat n <= a \/
   b < - Z.of_nat n \/ Z.of_nat n <= b) ->
  UUG.add_edges g es = Raise IndexError.
Proof.
  induction es as [|[s d] es IH]; intros g a b Hsq Hin Hab; [destruct Hin|].
  cbn [UUG.add_edges]. unfold UUG.add_edge.
  pose proof (set2_inv n (UUG.adj_matrix g) s d 1 Hsq) as H1.
  destruct (UUG.set2 (UUG.adj_matrix g) s d 1) as [m1|e]; cbn [bind];
    [|now subst].
  destruct H1 as (Hsq1 & Hs & Hd).
  pose proof (set2_inv n m1 d s 1 Hsq1) as H2.
  destruct (UUG.set2 m1 d s 1) as [m2|e]; cbn [bind]; [|now subst].
  destruct H2 as (Hsq2 & _ & _).
  destruct Hin as [Hin|Hin]; [inv Hin; lia|].
  apply (IH _ a b); auto.
Qed.

End Labels.

(** X11.  The router addresses its matrices by node label: when an edge of
    the topology touches a label that is not below the number of nodes (or
    is below its opposite), building the router raises [IndexError]. *)
Theorem router_needs_labels_below_the_node_count :
  forall (graph : Nx.Graph) (mapper : Mapper.t) (cnots : list triple)
         (la a b : Z),
    In (a, b) (Nx.edges graph) ->
    a < - Nx.number_of_nodes graph \/ Nx.number_of_nodes graph <= a \/
    b < - Nx.number_of_nodes graph \/ Nx.number_of_nodes graph <= b ->
    Router.init graph mapper cnots la = Raise IndexError.
Proof.
  intros graph mapper cnots la a b Hin Hab.
  unfold Router.init, UUG.from_nx.
  pose proof (len_nonneg (Nx.nodes graph)) as Hq.
  fold (Nx.number_of_nodes graph) in Hq.
  rewrite (add_edges_raises (Z.to_nat (Nx.number_of_nodes graph))
             (Nx.edges graph) _ a b); [reflexivity| |assumption|lia].
  apply square_repeat.
Qed.

Lemma router_needs_labels_below_the_node_count_witness :
  Router.init (Nx.mkGraph [1; 2] [(1, 2)])
              (Mapper.init (Nx.mkGraph [1; 2] [(1, 2)]) [] 2) [] 10
    = Raise IndexError.
Proof.
  apply (router_needs_labels_below_the_node_count _ _ _ _ 1 2).
  - now left.
  - right; right; right. vm_compute. discriminate.
Defined.

(* ================================================================== *)
(** * Strategy names *)
(* ================================================================== *)

Lemma lower_ascii_idem c :
  MapperType.lower_ascii (MapperType.lower_ascii c) = MapperType.lower_ascii c.
Proof.
  destruct c as [[] [] [] [] [] [] [] []]; reflexivity.
Qed.

Lemma lower_idem s : MapperType.lower (MapperType.lower s) = MapperType.lower s.
Proof.
  induction s as [|c s IH]; cbn [MapperType.lower]; [reflexivity|].
  now rewrite lower_ascii_idem, IH.
Qed.

(** X12.  Strategy names are matched without regard to case, and a name
    that is none of [random], [majority], [max_pairs] selects the basic
    placement: the identity, computed without consulting the random
    source. *)
Theorem strategy_names_ignore_case :
  forall (order : SetIteration) (name : string) (graph : Nx.Graph)
         (cnots : list triple) (q : Z) (g : rng),
    MapperType.mapper_from_string name graph cnots q g =
      MapperType.mapper_from_string (MapperType.lower name) graph cnots q g /\
    (MapperType.lower name <> "random"%string ->
     MapperType.lower name <> "majority"%string ->
     MapperType.lower name <> "max_pairs"%string ->
     MapperType.mapper_from_string name graph cnots q g =
       Ok (Mapper.mk graph cnots q (range q) (range q), g)).
Proof.
  intros order name graph cnots q g. split.
  - unfold MapperType.mapper_from_string. now rewrite lower_idem.
  - intros H1 H2 H3.
    unfold MapperType.mapper_from_string, MapperType.type_from_string.
    rewrite lower_idem.
    destruct (String.eqb_spec (MapperType.lower name) "random");
      [contradiction|].
    destruct (String.eqb_spec (MapperType.lower name) "majority");
      [contradiction|].
    destruct (String.eqb_spec (MapperType.lower name) "max_pairs");
      [contradiction|].
    reflexivity.
Qed.

Lemma strategy_names_ignore_case_witness :
  MapperType.mapper_from_string (order := increasing_order) "Greedy"
    (line 3) [] 3 [5%nat] =
    Ok (Mapper.mk (line 3) [] 3 [0; 1; 2] [0; 1; 2], [5%nat]).
Proof.
  apply (proj2 (strategy_names_ignore_case increasing_order "Greedy"
                  (line 3) [] 3 [5%nat]));
    vm_compute; discriminate.
Defined.

(* ================================================================== *)
(** * The interaction index: what it counts *)
(* ================================================================== *)

(** The triple joins the qubits [i] and [j], in either order. *)
Definition joins (i j : Z) (tr : triple) : bool :=
  let '(a, b, _) := tr in
  ((a =? i) && (b =? j)) || ((a =? j) && (b =? i)).

Section Counting.
Import QubitInteractionsHandler.

Lemma count_interactions_counts q cnots : forall c,
  cnots_ok q cnots ->
  square (Z.to_nat q) c ->
  exists c',
    count_interactions c cnots = Ok c' /\
    square (Z.to_nat q) c' /\
    forall i j, 0 <= i < q -> 0 <= j < q ->
      UUG.mget 0 c' (Z.to_nat i) (Z.to_nat j) =
      UUG.mget 0 c (Z.to_nat i) (Z.to_nat j) + len (filter (joins i j) cnots).
Proof.
  induction cnots as [|[[a b] s] cnots IH]; intros c Hok Hsq;
    cbn [count_interactions].
  - exists c. split; [reflexivity|]. split; [assumption|].
    intros i j _ _. unfold len; cbn; lia.
  - destruct (Hok a b s (or_introl eq_refl)) as (Ha & Hb & Hab).
    set (n := Z.to_nat q) in *.
    rewrite (get2_square 0 n) by (auto; lia); cbn [bind].
    rewrite (set2_square n) by (auto; lia); cbn [bind].
    set (c1 := UUG.mset c _ _ _).
    assert (Hsq1 : square n c1) by (apply square_mset; [assumption|lia]).
    rewrite (get2_square 0 n) by (auto; lia); cbn [bind].
    rewrite (set2_square n) by (auto; lia); cbn [bind].
    set (c2 := UUG.mset c1 _ _ _).
    assert (Hsq2 : square n c2) by (apply square_mset; [assumption|lia]).
    assert (Hc1 : forall i j, UUG.mget 0 c1 i j =
              if (Nat.eqb (Z.to_nat a) i && Nat.eqb (Z.to_nat b) j)%bool
              then UUG.mget 0 c (Z.to_nat a) (Z.to_nat b) + 1
              else UUG.mget 0 c i j).
    { intros i j; unfold c1; apply (mget_mset 0 n); auto; lia. }
    assert (Hc2 : forall i j, UUG.mget 0 c2 i j =
              if (Nat.eqb (Z.to_nat b) i && Nat.eqb (Z.to_nat a) j)%bool
              then UUG.mget 0 c1 (Z.to_nat b) (Z.to_nat a) + 1
              else UUG.mget 0 c1 i j).
    { intros i j; unfold c2; apply (mget_mset 0 n); auto; lia. }
    destruct (IH c2) as (c' & Hc' & Hsq' & Hcount); auto.
    { intros x y z Hin; apply (Hok x y z); now right. }
    exists c'. split; [assumption|]. split; [assumption|].
    intros i j Hi Hj. rewrite (Hcount i j Hi Hj), Hc2, !Hc1.
    cbn [filter joins].
    destruct (Z.eqb_spec a i), (Z.eqb_spec b j), (Z.eqb_spec a j),
             (Z.eqb_spec b i); cbn [andb orb]; subst;
      rewrite ?Nat.eqb_refl; cbn [andb];
      repeat match goal with
             | |- context [Nat.eqb ?x ?y] =>
                 destruct (Nat.eqb_spec x y); cbn [andb]
             end;
      try lia; try (unfold len; cbn [List.length]; lia).
Qed.

Lemma count_interactions_raises q cnots : forall c a b s,
  square (Z.to_nat q) c -> 0 <= q ->
  In (a, b, s) cnots ->
  (a < - q \/ q <= a \/ b < - q \/ q <= b) ->
  count_interactions c cnots = Raise IndexError.
Proof.
  induction cnots as [|[[a0 b0] s0] cnots IH]; intros c a b s Hsq Hq Hin Hab;
    [destruct Hin|].
  cbn [count_interactions].
  destruct (UUG.get2 c a0 b0) as [x|e] eqn:E1; cbn [bind].
  2:{ unfold UUG.get2 in E1.
      destruct (getitem c a0) as [row|e'] eqn:Er; cbn [bind] in E1.
      - apply getitem_raises in E1. now subst.
      - inv E1. apply getitem_raises in Er. now subst. }
  pose proof (set2_inv (Z.to_nat q) c a0 b0 (x + 1) Hsq) as H1.
  destruct (UUG.set2 c a0 b0 (x + 1)) as [c1|e]; cbn [bind]; [|now subst].
  destruct H1 as (Hsq1 & Ha0 & Hb0).
  destruct (UUG.get2 c1 b0 a0) as [y|e] eqn:E2; cbn [bind].
  2:{ unfold UUG.get2 in E2.
      destruct (getitem c1 b0) as [row|e'] eqn:Er; cbn [bind] in E2.
      - apply getitem_raises in E2. now subst.
      - inv E2. apply getitem_raises in Er. now subst. }
  pose proof (set2_inv (Z.to_nat q) c1 b0 a0 (y + 1) Hsq1) as H2.
  destruct (UUG.set2 c1 b0 a0 (y + 1)) as [c2|e]; cbn [bind]; [|now subst].
  destruct H2 as (Hsq2 & _ & _).
  destruct Hin as [Hin|Hin]; [inv Hin; lia|].
  apply (IH _ a b s); auto.
Qed.
End Counting.

Lemma filter_joins_sym i j cnots :
  filter (joins i j) cnots = filter (joins j i) cnots.
Proof.
  induction cnots as [|[[a b] s] cnots IH]; [reflexivity|].
  cbn [filter joins]. rewrite IH.
  now rewrite (orb_comm ((a =? i) && (b =? j))).
Qed.

(** X13.  The interaction index built from a list over the qubits
    [0 .. Q-1] whose triples join distinct qubits holds at [i, j] the
    number of triples that join [i] and [j], in either order, so the matrix
    is symmetric; every qubit starts free.  A triple naming a qubit that is
    no index of the matrix makes the constructor raise [IndexError]. *)
Theorem interaction_index_counts_the_triples :
  forall (q : Z) (cnots : list triple),
    0 <= q ->
    (cnots_ok q cnots ->
     exists h,
       QubitInteractionsHandler.init cnots q = Ok h /\
       QubitInteractionsHandler.free_qubits h = range q /\
       forall i j, 0 <= i < q -> 0 <= j < q ->
         UUG.get2 (QubitInteractionsHandler.interactions_count h) i j =
           Ok (len (filter (joins i j) cnots)) /\
         UUG.get2 (QubitInteractionsHandler.interactions_count h) j i =
           Ok (len (filter (joins i j) cnots))) /\
    (forall a b s, In (a, b, s) cnots ->
       a < - q \/ q <= a \/ b < - q \/ q <= b ->
       QubitInteractionsHandler.init cnots q = Raise IndexError).
Proof.
  intros q cnots Hq. split.
  - intros Hok. unfold QubitInteractionsHandler.init.
    destruct (count_interactions_counts q cnots
                (repeat (repeat 0 (Z.to_nat q)) (Z.to_nat q)) Hok)
      as (c & Hc & Hsq & Hcount); [apply square_repeat|].
    rewrite Hc; cbn [bind]. eexists; split; [reflexivity|].
    cbn [QubitInteractionsHandler.free_qubits
         QubitInteractionsHandler.interactions_count].
    split; [apply set_of_list_range|].
    intros i j Hi Hj.
    rewrite !(get2_square 0 (Z.to_nat q)) by (auto; lia).
    rewrite !Hcount by assumption. rewrite !mget_repeat_zero.
    rewrite (filter_joins_sym j i). auto.
  - intros a b s Hin Hab. unfold QubitInteractionsHandler.init.
    rewrite (count_interactions_raises q cnots _ a b s); auto.
    apply square_repeat.
Qed.

(* ================================================================== *)
(** * The interaction index: the partners it returns *)
(* ================================================================== *)

(** Non-increasing second components. *)
Fixpoint descending (l : list (Z * Z)) : Prop :=
  match l with
  | [] => True
  | x :: l' => Forall (fun y => snd y <= snd x) l' /\ descending l'
  end.

Section Partners.
Import QubitInteractionsHandler.

Lemma In_insert_desc x l y : In y (insert_desc x l) <-> y = x \/ In y l.
Proof.
  induction l as [|z l IH]; cbn [insert_desc].
  - cbn; intuition.
  - destruct (snd z >? snd x); cbn [In]; [rewrite IH|]; intuition.
Qed.

Lemma insert_desc_descending x l :
  descending l -> descending (insert_desc x l).
Proof.
  induction l as [|z l IH]; cbn [insert_desc descending]; intros H.
  - auto.
  - destruct H as (Hz & Hl).
    destruct (Z.gtb_spec (snd z) (snd x)); cbn [descending].
    + split; [|auto]. apply Forall_forall. intros y Hy.
      apply In_insert_desc in Hy as [->|Hy]; [lia|].
      rewrite Forall_forall in Hz; auto.
    + split; [|split; assumption].
      constructor; [lia|]. eapply Forall_impl; [|exact Hz].
      cbn; intros; lia.
Qed.

Lemma sort_desc_descending l : descending (sort_desc l).
Proof.
  induction l as [|x l IH]; cbn [sort_desc fold_right]; [exact I|].
  now apply insert_desc_descending.
Qed.

Lemma length_set_add x s :
  ~ In x s -> List.length (set_add x s) = S (List.length s).
Proof.
  induction s as [|z s IH]; cbn [set_add]; intros Hn; [reflexivity|].
  destruct (Z.ltb_spec x z); [reflexivity|].
  destruct (Z.eqb_spec x z) as [->|Hne]; [exfalso; apply Hn; now left|].
  cbn [List.length]. rewrite IH; [reflexivity|].
  intros H'; apply Hn; now right.
Qed.

Lemma first_d_loop_mono free d l : forall res found x,
  In x res -> In x (first_d_loop free d l res found).
Proof.
  induction l as [|[qb c] l IH]; intros res found x Hx;
    cbn [first_d_loop]; [assumption|].
  destruct (c =? 0); [assumption|].
  destruct (set_mem qb free); [|now apply IH].
  destruct (found + 1 =? d); [apply In_set_add; now right|].
  apply IH, In_set_add; now right.
Qed.

Lemma first_d_loop_top free d l : forall res found,
  descending l -> NoDup (map fst l) ->
  (forall e, In e l -> 0 <= snd e) ->
  (forall y, In y res -> ~ In y (map fst l)) ->
  found = len res ->
  let R := first_d_loop free d l res found in
  (found < d -> len R <= d) /\
  (forall y cy z cz,
     In (y, cy) l -> In y R -> In (z, cz) l -> set_mem z free = true ->
     ~ In z R -> cz <= cy) /\
  (d <= found \/ len R < d ->
   forall z cz, In (z, cz) l -> set_mem z free = true -> cz <> 0 -> In z R).
Proof.
  induction l as [|[qb c] l IH]; intros res found Hs Hnd Hnn Hres Hf R.
  - subst R; cbn [first_d_loop]. split; [lia|]. split; intros; contradiction.
  - cbn [descending] in Hs. destruct Hs as (Hhd & Hs).
    cbn [map] in Hnd. apply NoDup_cons_iff in Hnd as (Hqb & Hnd).
    cbn [fst] in Hqb.
    assert (Hnn' : forall e, In e l -> 0 <= snd e)
      by (intros e He; apply Hnn; now right).
    assert (Hres' : forall y, In y res -> ~ In y (map fst l)).
    { intros y Hy Hin. apply (Hres y Hy). now right. }
    assert (Hqres : ~ In qb res).
    { intros Hin. apply (Hres qb Hin). now left. }
    rewrite Forall_forall in Hhd.
    subst R. cbn [first_d_loop].
    destruct (Z.eqb_spec c 0) as [->|Hc].
    { (* the counts from here on are all zero *)
      split; [lia|]. split.
      - intros y cy z cz Hy HyR _ _ _. exfalso.
        apply (Hres y HyR). apply (in_map fst) in Hy. exact Hy.
      - intros _ z cz Hz _ Hcz. exfalso. destruct Hz as [Hz|Hz].
        + inv Hz. congruence.
        + pose proof (Hhd _ Hz) as H1. pose proof (Hnn' _ Hz) as H2.
          cbn [snd] in *. lia. }
    destruct (set_mem qb free) eqn:Efree.
    + assert (Hlen' : found + 1 = len (set_add qb res)).
      { unfold len in *. rewrite length_set_add by assumption. lia. }
      assert (Hres1 : forall y, In y (set_add qb res) -> ~ In y (map fst l)).
      { intros y Hy. apply In_set_add in Hy as [->|Hy]; auto. }
      destruct (Z.eqb_spec (found + 1) d) as [Hd|Hd].
      * (* the d-th partner: stop *)
        split; [lia|]. split.
        -- intros y cy z cz Hy HyR Hz Hzf HzR.
           apply In_set_add in HyR as [->|HyR].
           ++ destruct Hy as [Hy|Hy];
                [inv Hy | exfalso; apply Hqb;
                          apply (in_map fst) in Hy; exact Hy].
              destruct Hz as [Hz|Hz]; [inv Hz; lia|].
              apply (Hhd _ Hz).
           ++ exfalso. apply (Hres y HyR).
              apply (in_map fst) in Hy. exact Hy.
        -- intros [Hd'|Hd']; lia.
      * destruct (IH (set_add qb res) (found + 1) Hs Hnd Hnn' Hres1 Hlen')
          as (I1 & I2 & I3).
        split; [intros; apply I1; lia|]. split.
        -- intros y cy z cz Hy HyR Hz Hzf HzR.
           destruct Hz as [Hz|Hz].
           { inv Hz. exfalso. apply HzR.
             apply first_d_loop_mono, In_set_add; now left. }
           destruct Hy as [Hy|Hy]; [inv Hy; apply (Hhd _ Hz)|].
           eapply I2; eauto.
        -- intros Hcond z cz Hz Hzf Hcz.
           destruct Hz as [Hz|Hz].
           { inv Hz. apply first_d_loop_mono, In_set_add; now left. }
           apply (I3 ltac:(lia) z cz Hz Hzf Hcz).
    + destruct (IH res found Hs Hnd Hnn' Hres' Hf) as (I1 & I2 & I3).
      split; [assumption|]. split.
      * intros y cy z cz Hy HyR Hz Hzf HzR.
        destruct Hz as [Hz|Hz]; [inv Hz; congruence|].
        destruct Hy as [Hy|Hy].
        -- inv Hy. apply (Hhd _ Hz).
        -- eapply I2; eauto.
      * intros Hcond z cz Hz Hzf Hcz.
        destruct Hz as [Hz|Hz]; [inv Hz; congruence|].
        apply (I3 Hcond z cz Hz Hzf Hcz).
Qed.

Lemma map_fst_pairs_of_row h row : map fst (pairs_of_row h row) = n h.
Proof.
  unfold pairs_of_row. rewrite map_map. cbn [fst]. apply map_id.
Qed.

End Partners.

(** X14.  On a well-formed index, [d_interactions(qubit, d)] returns free
    qubits that have a non-zero count with [qubit]; for [d >= 1] at most
    [d] of them, and no free qubit left out has a larger count than one
    returned; when fewer than [d] are returned, or when [d <= 0], every
    free qubit with a non-zero count is returned. *)
Theorem d_interactions_returns_the_top_partners :
  forall (q : Z) (h : QubitInteractionsHandler.t) (qubit d : Z),
    qi_wf q h -> 0 <= qubit < q ->
    exists R,
      QubitInteractionsHandler.d_interactions h qubit d = Ok R /\
      let C y := UUG.mget 0 (QubitInteractionsHandler.interactions_count h)
                          (Z.to_nat qubit) (Z.to_nat y) in
      (forall y, In y R ->
         In y (QubitInteractionsHandler.free_qubits h) /\ C y <> 0) /\
      (1 <= d -> len R <= d) /\
      (forall y z, In y R ->
         In z (QubitInteractionsHandler.free_qubits h) -> ~ In z R ->
         C z <= C y) /\
      (d <= 0 \/ len R < d ->
       forall z, In z (QubitInteractionsHandler.free_qubits h) ->
                 C z <> 0 -> In z R).
Proof.
  intros q h qubit d Hwf Hq.
  pose proof Hwf as (Hqh & Hq0 & Hinc & Hfree & Hsq & Hnn & Hdiag).
  unfold QubitInteractionsHandler.d_interactions.
  destruct Hsq as (Hlen & Hrows).
  rewrite (getitem_nth ([] : list Z)) by (unfold len; lia). cbn [bind].
  set (row := nth (Z.to_nat qubit)
                  (QubitInteractionsHandler.interactions_count h) []).
  set (l := QubitInteractionsHandler.sort_desc
              (QubitInteractionsHandler.pairs_of_row h row)).
  eexists; split; [reflexivity|]. cbv zeta.
  unfold QubitInteractionsHandler.get_first_d_free_non_zero.
  assert (Hperm : Permutation l (QubitInteractionsHandler.pairs_of_row h row))
    by apply sort_desc_Permutation.
  assert (Hin_l : forall y c, In (y, c) l ->
            0 <= y < q /\
            c = UUG.mget 0 (QubitInteractionsHandler.interactions_count h)
                         (Z.to_nat qubit) (Z.to_nat y)).
  { intros y c Hin. rewrite <- Hqh. now apply In_sorted_row. }
  assert (Hl_in : forall z, 0 <= z < q ->
            In (z, UUG.mget 0 (QubitInteractionsHandler.interactions_count h)
                            (Z.to_nat qubit) (Z.to_nat z)) l).
  { intros z Hz. eapply Permutation_in; [symmetry; exact Hperm|].
    unfold QubitInteractionsHandler.pairs_of_row.
    apply in_map_iff. exists z. split; [reflexivity|].
    unfold QubitInteractionsHandler.n. rewrite Hqh. now apply In_range. }
  destruct (first_d_loop_top (QubitInteractionsHandler.free_qubits h) d l
              [] 0) as (T1 & T2 & T3).
  { apply sort_desc_descending. }
  { eapply Permutation_NoDup;
      [apply Permutation_map; symmetry; exact Hperm|].
    rewrite map_fst_pairs_of_row. apply NoDup_range. }
  { intros [y c] He. destruct (Hin_l y c He) as (_ & ->). apply Hnn. }
  { intros y []. }
  { reflexivity. }
  destruct (get_first_d_partners q h d (Z.to_nat qubit) Hwf) as (_ & Hp).
  fold row in Hp. fold l in Hp.
  unfold QubitInteractionsHandler.get_first_d_free_non_zero in Hp.
  split; [|split; [|split]].
  - intros y Hy. destruct (Hp y Hy) as (H1 & _ & H3). auto.
  - intros Hd. apply T1. lia.
  - intros y z Hy Hz HzR.
    destruct (Hp y Hy) as (Hyf & _).
    apply (T2 y _ z _).
    + apply Hl_in. now apply Hfree.
    + assumption.
    + apply Hl_in. now apply Hfree.
    + now apply set_mem_In.
    + assumption.
  - intros Hcond z Hz Hcz.
    apply (T3 ltac:(lia) z _ (Hl_in z (Hfree z Hz))); auto.
    now apply set_mem_In.
Qed.

Lemma d_interactions_returns_the_top_partners_witness :
  exists R,
    QubitInteractionsHandler.d_interactions handler_1_placed 0 1 = Ok R /\
    (1 <= 1 -> len R <= 1).
Proof.
  destruct (d_interactions_returns_the_top_partners 3 handler_1_placed 0 1
              handler_1_placed_wf) as (R & HR & _ & H & _).
  - lia.
  - exists R. split; [exact HR|exact H].
Defined.

Lemma interaction_index_counts_the_triples_witness :
  exists h,
    QubitInteractionsHandler.init [(0, 1, 0); (1, 0, 1); (0, 2, 2)] 3 = Ok h /\
    UUG.get2 (QubitInteractionsHandler.interactions_count h) 1 0 = Ok 2.
Proof.
  destruct (interaction_index_counts_the_triples 3
              [(0, 1, 0); (1, 0, 1); (0, 2, 2)]) as (H & _); [lia|].
  destruct H as (h & Hh & _ & Hc).
  - intros c t i [H|[H|[H|[]]]]; inv H; repeat split; lia.
  - exists h. split; [exact Hh|].
    destruct (Hc 1 0) as (H1 & _); [lia|lia|]. exact H1.
Defined.

(* ================================================================== *)
(** * The free nodes of the topology *)
(* ================================================================== *)

Section FreeNodesExact.
Import FreeTopologyNodesHandler.

Lemma add_neighbours_exact us : forall fn v,
  0 <= v < len fn ->
  exists fn',
    add_neighbours fn v us = Ok fn' /\ List.length fn' = List.length fn /\
    (forall x, In x (nth (Z.to_nat v) fn' []) <->
               In x (nth (Z.to_nat v) fn []) \/ In x us) /\
    (forall k, k <> Z.to_nat v -> nth k fn' [] = nth k fn []).
Proof.
  induction us as [|u us IH]; intros fn v Hv; cbn [add_neighbours].
  - exists fn. repeat split; auto. intros [H|[]]; assumption.
  - rewrite (getitem_nth ([] : pyset)) by assumption; cbn [bind].
    rewrite setitem_in_range by assumption; cbn [bind].
    set (fn1 := update fn (Z.to_nat v) (set_add u (nth (Z.to_nat v) fn []))).
    destruct (IH fn1 v) as (fn' & Hfn' & Hlen & Hin & Hoth).
    { unfold fn1. now rewrite len_update. }
    exists fn'. split; [assumption|].
    split; [unfold fn1 in Hlen; now rewrite length_update in Hlen|].
    split.
    + intros x. rewrite Hin. unfold fn1.
      rewrite nth_update_eq by (unfold len in Hv; lia).
      rewrite In_set_add. cbn [In]. intuition.
    + intros k Hk. rewrite (Hoth k Hk). unfold fn1.
      apply nth_update_neq. lia.
Qed.

Lemma fill_neighbours_exact (g : Nx.Graph) vs : forall fn,
  len fn = Nx.number_of_nodes g ->
  Nx.nodes g = range (Nx.number_of_nodes g) ->
  NoDup vs -> Forall (fun v => In v (Nx.nodes g)) vs ->
  exists fn',
    fill_neighbours g fn vs = Ok fn' /\ List.length fn' = List.length fn /\
    (forall v x, In v vs ->
       (In x (nth (Z.to_nat v) fn' []) <->
        In x (nth (Z.to_nat v) fn []) \/
        (In x (Nx.nodes g) /\ Nx.has_edge g v x = true))) /\
    (forall v, 0 <= v -> ~ In v vs ->
       nth (Z.to_nat v) fn' [] = nth (Z.to_nat v) fn []).
Proof.
  induction vs as [|v vs IH]; intros fn Hlen Hnodes Hnd Hvs;
    cbn [fill_neighbours].
  - exists fn. repeat split; auto; intros; contradiction.
  - apply Forall_cons_iff in Hvs as (Hv & Hvs).
    apply NoDup_cons_iff in Hnd as (Hnv & Hnd).
    unfold Nx.neighbors.
    assert (Hm : existsb (Z.eqb v) (Nx.nodes g) = true).
    { apply existsb_exists; exists v; split; [assumption|apply Z.eqb_refl]. }
    rewrite Hm; cbn [bind].
    assert (Hvr : 0 <= v < len fn).
    { rewrite Hnodes in Hv. apply In_range in Hv. lia. }
    destruct (add_neighbours_exact (filter (Nx.has_edge g v) (Nx.nodes g))
                fn v Hvr) as (fn1 & Hfn1 & Hlen1 & Hin1 & Hoth1).
    rewrite Hfn1; cbn [bind].
    destruct (IH fn1) as (fn' & Hfn' & Hlen' & Hin' & Hoth'); auto.
    { unfold len in *; lia. }
    exists fn'. split; [assumption|]. split; [lia|]. split.
    + intros w x [<-|Hw].
      * rewrite (Hoth' v) by (auto; lia). rewrite Hin1, filter_In.
        reflexivity.
      * rewrite (Hin' w x Hw).
        assert (Hne : Z.to_nat w <> Z.to_nat v).
        { rewrite Forall_forall in Hvs. pose proof (Hvs w Hw) as Hwn.
          rewrite Hnodes in Hwn. apply In_range in Hwn.
          intros E. apply Hnv. replace v with w by lia. assumption. }
        rewrite (Hoth1 _ Hne). reflexivity.
    + intros w Hw0 Hw.
      rewrite (Hoth' w Hw0) by (intros H; apply Hw; now right).
      apply Hoth1. intros E. apply Hw. left. lia.
Qed.

End FreeNodesExact.

(** X15.  Built on a graph with nodes [0 .. n-1], the handler has every
    node free and holds for each node exactly the set of its neighbours in
    the graph. *)
Theorem free_nodes_handler_starts_with_the_neighbours :
  forall (g : Nx.Graph),
    Nx.wf g ->
    exists h,
      FreeTopologyNodesHandler.init g = Ok h /\
      FreeTopologyNodesHandler.free_nodes h = range (Nx.number_of_nodes g) /\
      forall v, 0 <= v < Nx.number_of_nodes g ->
        exists s,
          FreeTopologyNodesHandler.get_free_neighbours h v = Ok s /\
          forall u, In u s <-> Nx.has_edge g v u = true.
Proof.
  intros g Hg. pose proof Hg as (Hnodes & Hedges).
  unfold FreeTopologyNodesHandler.init.
  set (q := Nx.number_of_nodes g) in *.
  destruct (fill_neighbours_exact g (Nx.nodes g)
              (repeat [] (List.length (Nx.nodes g))))
    as (fn & Hfn & Hlen & Hin & _); auto.
  - unfold len; now rewrite repeat_length.
  - rewrite Hnodes. apply NoDup_range.
  - apply Forall_forall; auto.
  - rewrite Hfn; cbn [bind]. eexists; split; [reflexivity|].
    cbn [FreeTopologyNodesHandler.free_nodes].
    split; [rewrite Hnodes; apply set_of_list_range|].
    intros v Hv. unfold FreeTopologyNodesHandler.get_free_neighbours.
    cbn [FreeTopologyNodesHandler.free_neighbours].
    rewrite repeat_length in Hlen.
    rewrite (getitem_nth ([] : pyset))
      by (unfold len; rewrite Hlen; fold (len (Nx.nodes g));
          fold (Nx.number_of_nodes g); fold q; lia).
    eexists; split; [reflexivity|].
    intros u. rewrite (Hin v u) by (rewrite Hnodes; now apply In_range).
    split.
    + intros [H|(_ & H)]; [|assumption].
      exfalso. revert H.
      destruct (Nat.lt_ge_cases (Z.to_nat v) (List.length (Nx.nodes g)))
        as [Hlt|Hge].
      * now rewrite nth_repeat_lt.
      * rewrite nth_overflow by (rewrite repeat_length; lia). auto.
    + intros H. right. split; [|assumption].
      destruct (has_edge_nodes g v u Hg H) as (_ & Hu).
      rewrite Hnodes. now apply In_range.
Qed.

Lemma free_nodes_handler_starts_with_the_neighbours_witness :
  exists h,
    FreeTopologyNodesHandler.init (line 3) = Ok h /\
    FreeTopologyNodesHandler.get_free_neighbours h 1 = Ok [0; 2].
Proof.
  destruct (free_nodes_handler_starts_with_the_neighbours (line 3) (line_wf 3))
    as (h & Hh & _).
  exists h. split; [exact Hh|].
  vm_compute in Hh. inv Hh. reflexivity.
Defined.

(** X16.  On a well-formed handler, occupying a free node removes it from
    the free nodes and from every set of free neighbours, and leaves the
    rest as it was; occupying a node that is not free, in particular the
    same node a second time, raises [KeyError]. *)
Theorem occupy_node_removes_the_node_everywhere :
  forall (q : Z) (h : FreeTopologyNodesHandler.t) (v : Z),
    th_wf q h ->
    (In v (FreeTopologyNodesHandler.free_nodes h) ->
     exists h',
       FreeTopologyNodesHandler.occupy_node h v = Ok h' /\
       th_wf q h' /\
       (forall x, In x (FreeTopologyNodesHandler.free_nodes h') <->
                  In x (FreeTopologyNodesHandler.free_nodes h) /\ x <> v) /\
       (forall w x, 0 <= w < q ->
          In x (nth (Z.to_nat w)
                    (FreeTopologyNodesHandler.free_neighbours h') []) <->
          In x (nth (Z.to_nat w)
                    (FreeTopologyNodesHandler.free_neighbours h) []) /\
          x <> v) /\
       FreeTopologyNodesHandler.occupy_node h' v = Raise KeyError) /\
    (~ In v (FreeTopologyNodesHandler.free_nodes h) ->
     FreeTopologyNodesHandler.occupy_node h v = Raise KeyError).
Proof.
  intros q h v Hwf.
  assert (Hno : forall h0,
            ~ In v (FreeTopologyNodesHandler.free_nodes h0) ->
            FreeTopologyNodesHandler.occupy_node h0 v = Raise KeyError).
  { intros h0 Hn. unfold FreeTopologyNodesHandler.occupy_node, set_remove.
    apply set_mem_false in Hn. now rewrite Hn. }
  split; [|apply Hno].
  intros Hv.
  destruct (occupy_node_spec q h v Hwf Hv) as (h' & Hh' & Hwf' & Hfree & Hnb).
  exists h'. split; [assumption|]. split; [assumption|].
  split; [intros x; rewrite Hfree; apply In_set_discard|].
  split.
  - intros w x Hw. rewrite Hnb by lia. apply In_set_discard.
  - apply Hno. rewrite Hfree. intros H. apply In_set_discard in H as (_ & H).
    congruence.
Qed.

Definition handler_line3 : FreeTopologyNodesHandler.t :=
  match FreeTopologyNodesHandler.init (line 3) with
  | Ok h => h
  | Raise _ => FreeTopologyNodesHandler.mk [] [] []
  end.

Lemma handler_line3_wf : th_wf 3 handler_line3.
Proof.
  destruct (th_init_wf (line 3) (line_wf 3)) as (h & Hh & Hwf & _).
  unfold handler_line3. rewrite Hh. exact Hwf.
Qed.

Lemma occupy_node_removes_the_node_everywhere_witness :
  exists h',
    FreeTopologyNodesHandler.occupy_node handler_line3 1 = Ok h' /\
    FreeTopologyNodesHandler.occupy_node h' 1 = Raise KeyError.
Proof.
  destruct (occupy_node_removes_the_node_everywhere 3 handler_line3 1
              handler_line3_wf) as (H & _).
  destruct H as (h' & Hh' & _ & _ & _ & Hk).
  - vm_compute. auto.
  - exists h'. split; [exact Hh'|exact Hk].
Defined.

(** X17.  On a well-formed handler, [node_with_most_free_neighbours_set]
    raises [ValueError] on the empty set; on a non-empty set of nodes it
    returns one of them together with its set of free neighbours, and no
    node of the set has more free neighbours. *)
Theorem node_with_most_free_neighbours_is_a_maximum :
  forall (q : Z) (h : FreeTopologyNodesHandler.t) (cands : list Z),
    th_wf q h ->
    (forall v, In v cands -> 0 <= v < q) ->
    match cands with
    | [] =>
        FreeTopologyNodesHandler.node_with_most_free_neighbours_set h cands
          = Raise ValueError
    | _ :: _ =>
        exists node s,
          FreeTopologyNodesHandler.node_with_most_free_neighbours_set h cands
            = Ok (node, s) /\
          In node cands /\
          FreeTopologyNodesHandler.get_free_neighbours h node = Ok s /\
          forall v, In v cands ->
            exists sv,
              FreeTopologyNodesHandler.get_free_neighbours h v = Ok sv /\
              len sv <= len s
    end.
Proof.
  intros q h cands Hwf Hc.
  destruct cands as [|c cands]; [reflexivity|].
  destruct (node_with_most_spec q h (c :: cands) Hwf) as (node & Hn & Hin & Hmax);
    [discriminate|assumption|].
  pose proof Hwf as (_ & _ & _ & _ & Hlen & _).
  assert (Hget : forall v, In v (c :: cands) ->
            FreeTopologyNodesHandler.get_free_neighbours h v =
            Ok (nth (Z.to_nat v)
                    (FreeTopologyNodesHandler.free_neighbours h) [])).
  { intros v Hv. unfold FreeTopologyNodesHandler.get_free_neighbours.
    apply (getitem_nth ([] : pyset)). unfold len. specialize (Hc v Hv). lia. }
  eexists node, _. split; [exact Hn|]. split; [assumption|].
  split; [now apply Hget|].
  intros v Hv. eexists; split; [now apply Hget|]. now apply Hmax.
Qed.

Lemma node_with_most_free_neighbours_is_a_maximum_witness :
  exists node s,
    FreeTopologyNodesHandler.node_with_most_free_neighbours_set
      handler_line3 [0; 1; 2] = Ok (node, s) /\
    In node [0; 1; 2].
Proof.
  destruct (node_with_most_free_neighbours_is_a_maximum 3 handler_line3
              [0; 1; 2] handler_line3_wf) as (node & s & H & Hin & _).
  - intros v [<-|[<-|[<-|[]]]]; lia.
  - exists node, s. split; [exact H|exact Hin].
Defined.

(* ================================================================== *)
(** * The max-heap of the MAJORITY strategy *)
(* ================================================================== *)

(** The heap order on the list of a [MaxHeap]: no object has a greater
    value than the object at its parent position. *)
Definition parent (j : nat) : nat := Nat.div2 (j - 1).

Definition heap_ok (h : list MajorityMapper.KeyValMaxHeapObj) : Prop :=
  forall j, (0 < j < List.length h)%nat ->
    MajorityMapper.val (nth j h (MajorityMapper.mkObj 0 0)) <=
    MajorityMapper.val (nth (parent j) h (MajorityMapper.mkObj 0 0)).

Section MaxHeapFacts.
Import MajorityMapper.

Local Abbreviation d0 := (mkObj 0 0).
Local Abbreviation V h j := (val (nth j h d0)).

Lemma obj_eq_dec (a b : KeyValMaxHeapObj) : {a = b} + {a <> b}.
Proof. decide equality; apply Z.eq_dec. Qed.

Local Abbreviation cnt l a := (count_occ obj_eq_dec l a).
Local Abbreviation ind x a := (if obj_eq_dec x a then 1%nat else 0%nat).

Lemma parent_lt j : (0 < j)%nat -> (parent j < j)%nat.
Proof. unfold parent. rewrite Nat.div2_div. intros H.
  apply Nat.Div0.div_lt_upper_bound. lia. Qed.

Lemma parent_children j p :
  (0 < j)%nat -> parent j = p -> j = (2 * p + 1)%nat \/ j = (2 * p + 2)%nat.
Proof.
  unfold parent. rewrite Nat.div2_div. intros Hj <-.
  pose proof (Nat.div_mod_eq (j - 1) 2) as E.
  pose proof (Nat.mod_upper_bound (j - 1) 2 ltac:(lia)). lia.
Qed.

Lemma parent_left p : parent (2 * p + 1) = p.
Proof.
  unfold parent. replace (2 * p + 1 - 1)%nat with (2 * p)%nat by lia.
  apply Nat.div2_double.
Qed.

Lemma parent_right p : parent (2 * p + 2) = p.
Proof.
  unfold parent. replace (2 * p + 2 - 1)%nat with (S (2 * p)) by lia.
  apply Nat.div2_succ_double.
Qed.

Lemma count_occ_update (l : list KeyValMaxHeapObj) : forall i x a,
  (i < List.length l)%nat ->
  (cnt (update l i x) a + ind (nth i l d0) a = cnt l a + ind x a)%nat.
Proof.
  induction l as [|y l IH]; intros i x a Hi; [cbn in Hi; lia|].
  destruct i as [|i]; cbn [update nth count_occ].
  - destruct (obj_eq_dec y a), (obj_eq_dec x a); lia.
  - cbn [List.length] in Hi. specialize (IH i x a ltac:(lia)).
    destruct (obj_eq_dec y a); lia.
Qed.

(** Moving the entry at [j] to [i] and storing [y] at [j] is storing [y] at
    [i], up to the order of the entries. *)
Lemma update_move_perm (l : list KeyValMaxHeapObj) i j y :
  (i < List.length l)%nat -> (j < List.length l)%nat -> i <> j ->
  Permutation (update (update l i (nth j l d0)) j y) (update l i y).
Proof.
  intros Hi Hj Hij. apply (Permutation_count_occ obj_eq_dec). intros a.
  pose proof (count_occ_update (update l i (nth j l d0)) j y a
                ltac:(rewrite length_update; lia)) as E1.
  rewrite nth_update_neq in E1 by assumption.
  pose proof (count_occ_update l i (nth j l d0) a Hi) as E2.
  pose proof (count_occ_update l i y a Hi) as E3.
  lia.
Qed.

Lemma nth_error_nth_d0 (l : list KeyValMaxHeapObj) i :
  (i < List.length l)%nat -> nth_error l i = Some (nth i l d0).
Proof. apply nth_error_nth'. Qed.

(* ------------------------------------------------------------------ *)
(** ** [_siftdown]: the new item climbs towards the root *)

Lemma siftdown_loop_perm fuel : forall heap newitem pos,
  (pos < List.length heap)%nat ->
  Permutation (Heapq.siftdown_loop obj_lt fuel heap newitem 0 pos)
              (update heap pos newitem).
Proof.
  induction fuel as [|fuel IH]; intros heap newitem pos Hpos;
    cbn [Heapq.siftdown_loop]; [reflexivity|].
  destruct (Nat.ltb_spec 0 pos) as [H0|H0]; [|reflexivity].
  fold (parent pos). pose proof (parent_lt pos H0) as Hp.
  rewrite nth_error_nth_d0 by lia.
  destruct (obj_lt newitem (nth (parent pos) heap d0)); [|reflexivity].
  etransitivity; [apply IH; rewrite length_update; lia|].
  apply update_move_perm; lia.
Qed.

(** The state of the loop: every entry but the one at [pos] is below its
    parent, the children of [pos] are below the new item and below the
    parent of [pos]. *)
Definition climbing (heap : list KeyValMaxHeapObj) (newitem : KeyValMaxHeapObj)
  (pos : nat) : Prop :=
  (forall j, (0 < j < List.length heap)%nat -> j <> pos ->
     V heap j <= V heap (parent j)) /\
  (forall c, (0 < c < List.length heap)%nat -> parent c = pos ->
     val (nth c heap d0) <= val newitem) /\
  (forall c, (0 < c < List.length heap)%nat -> parent c = pos ->
     (0 < pos)%nat -> V heap c <= V heap (parent pos)).

Lemma siftdown_loop_ok fuel : forall heap newitem pos,
  (pos < List.length heap)%nat -> (pos < fuel)%nat ->
  climbing heap newitem pos ->
  heap_ok (Heapq.siftdown_loop obj_lt fuel heap newitem 0 pos).
Proof.
  induction fuel as [|fuel IH]; intros heap newitem pos Hpos Hfuel
    (HA & HB & HC); [lia|].
  cbn [Heapq.siftdown_loop].
  assert (Hplace : (pos = 0%nat \/
                    val newitem <= V heap (parent pos)) ->
                   heap_ok (update heap pos newitem)).
  { intros Hexit j Hj. rewrite length_update in Hj.
    destruct (Nat.eq_dec j pos) as [->|Hne].
    - rewrite nth_update_eq by lia.
      rewrite nth_update_neq by (pose proof (parent_lt pos); lia).
      destruct Hexit; [lia|assumption].
    - rewrite (nth_update_neq d0 heap pos j) by lia.
      destruct (Nat.eq_dec (parent j) pos) as [E|E].
      + rewrite E, nth_update_eq by lia. now apply HB.
      + rewrite nth_update_neq by lia. apply HA; lia. }
  destruct (Nat.ltb_spec 0 pos) as [H0|H0]; [|apply Hplace; lia].
  fold (parent pos). pose proof (parent_lt pos H0) as Hp.
  rewrite nth_error_nth_d0 by lia.
  unfold obj_lt at 1.
  destruct (Z.gtb_spec (val newitem) (V heap (parent pos))) as [Hgt|Hle];
    [|apply Hplace; right; lia].
  apply IH; [rewrite length_update; lia | lia |].
  set (pv := nth (parent pos) heap d0).
  assert (Hn : forall j, nth j (update heap pos pv) d0 =
                         if Nat.eq_dec j pos then pv else nth j heap d0).
  { intros j. destruct (Nat.eq_dec j pos) as [->|Hne].
    - apply nth_update_eq; lia.
    - apply nth_update_neq; lia. }
  split; [|split].
  - intros j Hj Hjp. rewrite length_update in Hj. rewrite !Hn.
    destruct (Nat.eq_dec j pos) as [->|Hne].
    + destruct (Nat.eq_dec (parent pos) pos); [lia|]. unfold pv; lia.
    + destruct (Nat.eq_dec (parent j) pos) as [E|E].
      * unfold pv. apply HC; auto; lia.
      * apply HA; lia.
  - intros c Hc Hcp. rewrite length_update in Hc. rewrite Hn.
    destruct (Nat.eq_dec c pos) as [->|Hne]; [unfold pv; lia|].
    pose proof (HA c ltac:(lia) Hne) as H1. rewrite Hcp in H1.
    fold pv in H1. fold pv in Hgt. lia.
  - intros c Hc Hcp Hpp. rewrite length_update in Hc. rewrite !Hn.
    destruct (Nat.eq_dec (parent (parent pos)) pos) as [E|E];
      [pose proof (parent_lt (parent pos) Hpp); lia|].
    pose proof (HA (parent pos) ltac:(lia) ltac:(lia)) as H2.
    destruct (Nat.eq_dec c pos) as [->|Hne]; [unfold pv; exact H2|].
    pose proof (HA c ltac:(lia) Hne) as H1. rewrite Hcp in H1. lia.
Qed.

(* ------------------------------------------------------------------ *)
(** ** [_siftup]: the hole sinks to a leaf *)

Lemma siftup_loop_facts fuel : forall heap pos,
  (pos < List.length heap)%nat ->
  (List.length heap <= fuel + pos)%nat ->
  (forall j, (0 < j < List.length heap)%nat -> parent j <> pos ->
     V heap j <= V heap (parent j)) ->
  (forall c, (0 < c < List.length heap)%nat -> parent c = pos ->
     (0 < pos)%nat -> V heap c <= V heap (parent pos)) ->
  let res := Heapq.siftup_loop obj_lt fuel heap pos in
  List.length (fst res) = List.length heap /\
  (snd res < List.length heap)%nat /\
  (List.length heap <= 2 * snd res + 1)%nat /\
  (forall j, (0 < j < List.length heap)%nat ->
     V (fst res) j <= V (fst res) (parent j)) /\
  (forall y, Permutation (update (fst res) (snd res) y) (update heap pos y)).
Proof.
  induction fuel as [|fuel IH]; intros heap pos Hpos Hfuel HK HC res;
    subst res; cbn [Heapq.siftup_loop fst snd].
  - split; [reflexivity|]. split; [assumption|]. split; [lia|].
    split; [|reflexivity].
    intros j Hj. apply HK; [assumption|].
    intros E. destruct (parent_children j pos ltac:(lia) E); lia.
  - destruct (Nat.ltb_spec (2 * pos + 1) (List.length heap)) as [Hc|Hc];
      cbn [fst snd].
    2:{ split; [reflexivity|]. split; [assumption|]. split; [lia|].
        split; [|reflexivity].
        intros j Hj. apply HK; [assumption|].
        intros E. destruct (parent_children j pos ltac:(lia) E); lia. }
    rewrite (nth_error_nth_d0 heap (2 * pos + 1)) by assumption.
    set (lv := nth (2 * pos + 1) heap d0).
    (* the child that moves up, and why it is the greater one *)
    assert (Hchoice : exists c,
              (c = (2 * pos + 1)%nat \/ c = (2 * pos + 2)%nat) /\
              (c < List.length heap)%nat /\
              match nth_error heap (2 * pos + 1 + 1) with
              | Some r => if negb (obj_lt lv r) then (2 * pos + 1 + 1)%nat
                          else (2 * pos + 1)%nat
              | None => (2 * pos + 1)%nat
              end = c /\
              (forall c', (0 < c' < List.length heap)%nat ->
                          parent c' = pos -> V heap c' <= V heap c)).
    { destruct (Nat.lt_ge_cases (2 * pos + 2) (List.length heap)) as [Hr|Hr].
      - replace (2 * pos + 1 + 1)%nat with (2 * pos + 2)%nat by lia.
        rewrite (nth_error_nth_d0 heap (2 * pos + 2)) by assumption.
        unfold obj_lt.
        destruct (Z.gtb_spec (val lv) (V heap (2 * pos + 2))) as [Hgt|Hle];
          cbn [negb].
        + exists (2 * pos + 1)%nat. repeat split; auto.
          intros c' Hc' E.
          destruct (parent_children c' pos ltac:(lia) E) as [->| ->];
            fold lv; lia.
        + exists (2 * pos + 2)%nat. repeat split; auto.
          intros c' Hc' E.
          destruct (parent_children c' pos ltac:(lia) E) as [->| ->];
            fold lv; lia.
      - replace (nth_error heap (2 * pos + 1 + 1)) with
          (@None KeyValMaxHeapObj)
          by (symmetry; apply nth_error_None; lia).
        exists (2 * pos + 1)%nat. repeat split; auto.
        intros c' Hc' E.
        destruct (parent_children c' pos ltac:(lia) E) as [->| ->];
          fold lv; lia. }
    destruct Hchoice as (c & Hcc & Hclen & Ec & Hmax).
    rewrite Ec. rewrite (nth_error_nth_d0 heap c) by assumption.
    set (cv := nth c heap d0).
    assert (Hpc : parent c = pos)
      by (destruct Hcc as [-> | ->]; [apply parent_left|apply parent_right]).
    assert (Hcpos : (pos < c)%nat) by lia.
    assert (Hn : forall j, nth j (update heap pos cv) d0 =
                           if Nat.eq_dec j pos then cv else nth j heap d0).
    { intros j. destruct (Nat.eq_dec j pos) as [->|Hne].
      - apply nth_update_eq; lia.
      - apply nth_update_neq; lia. }
    destruct (IH (update heap pos cv) c) as (I1 & I2 & I3 & I4 & I5).
    + rewrite length_update; lia.
    + rewrite length_update; lia.
    + intros j Hj Hjc. rewrite length_update in Hj. rewrite !Hn.
      destruct (Nat.eq_dec j pos) as [->|Hne].
      * (* the entry moved up against the parent of the hole *)
        destruct (Nat.eq_dec (parent pos) pos);
          [pose proof (parent_lt pos); lia|].
        unfold cv. apply HC; auto; lia.
      * destruct (Nat.eq_dec (parent j) pos) as [E|E].
        -- unfold cv. apply Hmax; auto.
        -- apply HK; auto.
    + intros g Hgl Hg Hc0. rewrite length_update in Hgl. rewrite !Hn.
      rewrite Hpc.
      destruct (Nat.eq_dec g pos) as [->|Hne];
        [pose proof (parent_lt pos); lia|].
      destruct (Nat.eq_dec pos pos); [|congruence].
      pose proof (HK g Hgl ltac:(lia)) as H1. rewrite Hg in H1.
      fold cv in H1. exact H1.
    + rewrite length_update in I1, I2, I3, I4.
      split; [assumption|]. split; [assumption|]. split; [assumption|].
      split; [assumption|].
      intros y. etransitivity; [apply I5|].
      unfold cv. apply update_move_perm; lia.
Qed.

Lemma root_is_max h : heap_ok h ->
  forall j, (j < List.length h)%nat -> V h j <= V h 0.
Proof.
  intros Hok j. induction j as [j IH] using lt_wf_ind. intros Hj.
  destruct j as [|j]; [lia|].
  pose proof (parent_lt (S j) ltac:(lia)) as Hp.
  pose proof (Hok (S j) ltac:(lia)) as H1.
  pose proof (IH (parent (S j)) Hp ltac:(lia)) as H2. lia.
Qed.

Lemma heappush_ok h x :
  heap_ok h ->
  heap_ok (heappush h x) /\ Permutation (heappush h x) (x :: h).
Proof.
  intros Hok. unfold heappush, Heapq.heappush, Heapq.siftdown.
  assert (Hlen : List.length (h ++ [x]) = S (List.length h))
    by (rewrite length_app; cbn; lia).
  rewrite nth_error_app2, Nat.sub_diag by lia. cbn [nth_error].
  assert (Hupd : update (h ++ [x]) (List.length h) x = h ++ [x]).
  { clear. induction h as [|y h IH]; cbn; [reflexivity|]. now rewrite IH. }
  split.
  - apply siftdown_loop_ok; [lia|lia|].
    split; [|split].
    + intros j Hj Hne. rewrite Hlen in Hj.
      rewrite !app_nth1 by (pose proof (parent_lt j); lia).
      apply Hok; lia.
    + intros c Hc E. rewrite Hlen in Hc.
      destruct (parent_children c _ ltac:(lia) E); lia.
    + intros c Hc E. rewrite Hlen in Hc.
      destruct (parent_children c _ ltac:(lia) E); lia.
  - etransitivity; [apply siftdown_loop_perm; lia|].
    rewrite Hupd. symmetry. apply Permutation_cons_append.
Qed.

Lemma heappop_ok h :
  heap_ok h ->
  match heappop h with
  | Ok (r, h') =>
      Permutation h (r :: h') /\ heap_ok h' /\
      forall y, In y h -> val y <= val r
  | Raise e => h = [] /\ e = IndexError
  end.
Proof.
  intros Hok. unfold heappop, Heapq.heappop.
  destruct h as [|r0 h] using rev_ind; [cbn; auto|]. clear IHh.
  rename r0 into lastelt.
  rewrite rev_app_distr. cbn [rev app]. rewrite removelast_last.
  destruct h as [|returnitem rest].
  - cbn [app]. split; [reflexivity|]. split; [intros j Hj; cbn in Hj; lia|].
    intros y [<-|[]]. lia.
  - assert (Hmax : forall y, In y ((returnitem :: rest) ++ [lastelt]) ->
                             val y <= val returnitem).
    { intros y Hy. apply (In_nth _ _ d0) in Hy as (j & Hj & <-).
      apply (root_is_max _ Hok j Hj). }
    split; [|split; [|assumption]].
    + (* nothing is lost *)
      unfold Heapq.siftup.
      cbn [nth_error].
      pose proof (siftup_loop_facts (List.length (lastelt :: rest))
                    (lastelt :: rest) 0) as F.
      destruct (Heapq.siftup_loop obj_lt (List.length (lastelt :: rest))
                  (lastelt :: rest) 0) as [heap' pos'] eqn:Eloop.
      cbn [fst snd] in F.
      destruct F as (F1 & F2 & F3 & F4 & F5).
      { cbn; lia. }
      { lia. }
      { intros j Hj Hp. cbn [List.length] in Hj.
        pose proof (Hok j) as H1.
        rewrite length_app in H1. cbn [List.length] in H1.
        specialize (H1 ltac:(lia)).
        pose proof (parent_lt j ltac:(lia)).
        rewrite !app_nth1 in H1 by (cbn [List.length]; lia).
        destruct j as [|j]; [lia|]. 
        destruct (parent (S j)) as [|pj] eqn:Ep; [congruence|].
        exact H1. }
      { intros; lia. }
      unfold Heapq.siftdown.
      rewrite nth_error_update_eq by lia.
      etransitivity;
        [|apply perm_skip; symmetry; apply siftdown_loop_perm;
          rewrite length_update; lia].
      assert (Eu : update (update heap' pos' lastelt) pos' lastelt =
                   update heap' pos' lastelt).
      { clear. revert pos'. induction heap' as [|y l IH]; intros [|p]; cbn;
          auto. now rewrite IH. }
      rewrite Eu.
      etransitivity; [|apply perm_skip; symmetry; apply F5].
      cbn [update app].
      apply perm_skip. symmetry. apply Permutation_cons_append.
    + (* the heap order is restored *)
      unfold Heapq.siftup. cbn [nth_error].
      pose proof (siftup_loop_facts (List.length (lastelt :: rest))
                    (lastelt :: rest) 0) as F.
      destruct (Heapq.siftup_loop obj_lt (List.length (lastelt :: rest))
                  (lastelt :: rest) 0) as [heap' pos'] eqn:Eloop.
      cbn [fst snd] in F.
      destruct F as (F1 & F2 & F3 & F4 & F5).
      { cbn; lia. }
      { lia. }
      { intros j Hj Hp. cbn [List.length] in Hj.
        pose proof (Hok j) as H1.
        rewrite length_app in H1. cbn [List.length] in H1.
        specialize (H1 ltac:(lia)).
        pose proof (parent_lt j ltac:(lia)).
        rewrite !app_nth1 in H1 by (cbn [List.length]; lia).
        destruct j as [|j]; [lia|]. 
        destruct (parent (S j)) as [|pj] eqn:Ep; [congruence|].
        exact H1. }
      { intros; lia. }
      unfold Heapq.siftdown.
      rewrite nth_error_update_eq by lia.
      apply siftdown_loop_ok; [rewrite length_update; lia | lia |].
      split; [|split].
      * intros j Hj Hne. rewrite length_update in Hj.
        rewrite (nth_update_neq d0 heap' pos' j) by lia.
        destruct (Nat.eq_dec (parent j) pos') as [E|E].
        { destruct (parent_children j pos' ltac:(lia) E); lia. }
        rewrite nth_update_neq by lia. apply F4. lia.
      * intros c Hc E. rewrite length_update in Hc.
        destruct (parent_children c pos' ltac:(lia) E); lia.
      * intros c Hc E. rewrite length_update in Hc.
        destruct (parent_children c pos' ltac:(lia) E); lia.
Qed.


(** The heap order, as a test. *)
Definition heap_okb (h : list KeyValMaxHeapObj) : bool :=
  forallb (fun j => val (nth j h d0) <=? val (nth (parent j) h d0))
          (seq 1 (List.length h - 1)).

Lemma heap_okb_ok h : heap_okb h = true -> heap_ok h.
Proof.
  unfold heap_okb. rewrite forallb_forall. intros H j Hj.
  apply Z.leb_le, H, in_seq. lia.
Qed.

(* ------------------------------------------------------------------ *)
(** ** The loop of [compute_mapping] *)

(** The pairs formed by the loop, in the order they are formed: no later
    pair has a greater value on either side. *)
Fixpoint ranked (pairs : list (KeyValMaxHeapObj * KeyValMaxHeapObj)) : Prop :=
  match pairs with
  | [] => True
  | x :: rest =>
      Forall (fun y => val (fst y) <= val (fst x) /\
                       val (snd y) <= val (snd x)) rest /\
      ranked rest
  end.

Lemma ranked_monotone pairs : ranked pairs ->
  forall x y, In x pairs -> In y pairs ->
    val (fst y) < val (fst x) -> val (snd y) <= val (snd x).
Proof.
  induction pairs as [|z pairs IH]; intros Hr x y Hx Hy Hlt; [destruct Hx|].
  destruct Hr as (Hz & Hr). rewrite Forall_forall in Hz.
  destruct Hx as [->|Hx], Hy as [->|Hy].
  - lia.
  - apply (Hz y Hy).
  - pose proof (Hz x Hx). lia.
  - now apply IH.
Qed.

Lemma key_injective (h : list KeyValMaxHeapObj) a b :
  NoDup (map key h) -> In a h -> In b h -> key a = key b -> a = b.
Proof.
  induction h as [|o h IH]; intros Hnd Ha Hb E; [destruct Ha|].
  cbn [map] in Hnd. apply NoDup_cons_iff in Hnd as (Hno & Hnd).
  destruct Ha as [->|Ha], Hb as [->|Hb]; auto.
  - exfalso. apply Hno. rewrite E. now apply in_map.
  - exfalso. apply Hno. rewrite <- E. now apply in_map.
Qed.

Lemma compute_loop_spec n : forall heap graph_heap l p,
  heap_ok heap -> heap_ok graph_heap ->
  List.length heap = n -> List.length graph_heap = n ->
  NoDup (map key heap) -> NoDup (map key graph_heap) ->
  (forall o, In o heap -> 0 <= key o < len l) ->
  (forall o, In o graph_heap -> 0 <= key o < len p) ->
  exists l' p' pairs,
    compute_loop n heap graph_heap l p = Ok (l', p') /\
    len l' = len l /\ len p' = len p /\
    Permutation (map fst pairs) heap /\
    Permutation (map snd pairs) graph_heap /\
    ranked pairs /\
    (forall x, In x pairs ->
       getitem l' (key (fst x)) = Ok (key (snd x)) /\
       getitem p' (key (snd x)) = Ok (key (fst x))) /\
    (forall x, 0 <= x -> ~ In x (map key heap) ->
       getitem l' x = getitem l x) /\
    (forall u, 0 <= u -> ~ In u (map key graph_heap) ->
       getitem p' u = getitem p u).
Proof.
  induction n as [|n IH];
    intros heap gh l p Hh Hg Lh Lg Nh Ng Rh Rg.
  - destruct heap; [|discriminate]. destruct gh; [|discriminate].
    exists l, p, []. cbn. repeat split; auto; contradiction.
  - cbn [compute_loop].
    pose proof (heappop_ok heap Hh) as Ph.
    destruct (heappop heap) as [[r h']|e];
      [|destruct Ph as (-> & _); discriminate].
    destruct Ph as (Ph & Hh' & Mh).
    pose proof (heappop_ok gh Hg) as Pg.
    destruct (heappop gh) as [[g gh']|e];
      [|destruct Pg as (-> & _); discriminate].
    destruct Pg as (Pg & Hg' & Mg).
    cbn [bind].
    assert (Ir : In r heap)
      by (eapply Permutation_in; [symmetry; exact Ph|now left]).
    assert (Ig : In g gh)
      by (eapply Permutation_in; [symmetry; exact Pg|now left]).
    pose proof (Rh r Ir) as Rr. pose proof (Rg g Ig) as Rgg.
    rewrite (setitem_in_range l (key r) (key g)) by assumption.
    cbn [bind].
    rewrite (setitem_in_range p (key g) (key r)) by assumption.
    cbn [bind].
    assert (Nh' : NoDup (map key (r :: h')))
      by (eapply Permutation_NoDup; [apply Permutation_map; exact Ph|
          assumption]).
    assert (Ng' : NoDup (map key (g :: gh')))
      by (eapply Permutation_NoDup; [apply Permutation_map; exact Pg|
          assumption]).
    cbn [map] in Nh', Ng'.
    apply NoDup_cons_iff in Nh' as (Nr & Nh').
    apply NoDup_cons_iff in Ng' as (Ngg & Ng').
    apply Permutation_length in Ph as Lh'. cbn [List.length] in Lh'.
    apply Permutation_length in Pg as Lg'. cbn [List.length] in Lg'.
    destruct (IH h' gh' (update l (Z.to_nat (key r)) (key g))
                 (update p (Z.to_nat (key g)) (key r)))
      as (l' & p' & pairs & Hrun & Ll & Lp & P1 & P2 & Hrk & Hpair & Fl & Fp);
      try assumption; try lia.
    { intros o Ho. rewrite len_update. apply Rh.
      eapply Permutation_in; [symmetry; exact Ph|now right]. }
    { intros o Ho. rewrite len_update. apply Rg.
      eapply Permutation_in; [symmetry; exact Pg|now right]. }
    rewrite len_update in Ll, Lp.
    exists l', p', ((r, g) :: pairs).
    split; [exact Hrun|]. split; [assumption|]. split; [assumption|].
    split; [cbn [map fst]; rewrite P1; symmetry; exact Ph|].
    split; [cbn [map snd]; rewrite P2; symmetry; exact Pg|].
    split; [|split; [|split]].
    + split; [|assumption]. apply Forall_forall. intros y Hy. split.
      * apply Mh. eapply Permutation_in; [symmetry; exact Ph|]. right.
        eapply Permutation_in; [exact P1|]. now apply in_map.
      * apply Mg. eapply Permutation_in; [symmetry; exact Pg|]. right.
        eapply Permutation_in; [exact P2|]. now apply in_map.
    + intros x [<-|Hx]; [|now apply Hpair]. cbn [fst snd]. split.
      * rewrite Fl by (assumption || lia).
        apply getitem_update_eq; assumption.
      * rewrite Fp by (assumption || lia).
        apply getitem_update_eq; assumption.
    + intros x Hx Hnot.
      assert (Hne : x <> key r).
      { intros ->. apply Hnot. now apply in_map. }
      rewrite Fl; [apply getitem_update_neq; lia | assumption |].
      intros Hin. apply Hnot.
      eapply Permutation_in;
        [apply Permutation_map; symmetry; exact Ph|]. now right.
    + intros u Hu Hnot.
      assert (Hne : u <> key g).
      { intros ->. apply Hnot. now apply in_map. }
      rewrite Fp; [apply getitem_update_neq; lia | assumption |].
      intros Hin. apply Hnot.
      eapply Permutation_in;
        [apply Permutation_map; symmetry; exact Pg|]. now right.
Qed.

End MaxHeapFacts.

(** X18. [MaxHeap.heappush] keeps the heap order and loses nothing: pushing
    a list of objects, one after the other, on a heap in heap order gives a
    heap in heap order that holds the old objects and the pushed ones, each
    as often as before.  With the empty heap of [MaxHeap.__init__] these are
    the two loops of pushes of [MajorityMapper.__init__]. *)
Theorem max_heap_push_keeps_the_heap_order :
  forall (objs : list MajorityMapper.KeyValMaxHeapObj) h,
    heap_ok h ->
    heap_ok (fold_left MajorityMapper.heappush objs h) /\
    Permutation (fold_left MajorityMapper.heappush objs h) (h ++ objs).
Proof.
  induction objs as [|o objs IH]; intros h Hok; cbn [fold_left].
  - rewrite app_nil_r. split; [assumption|reflexivity].
  - destruct (heappush_ok h o Hok) as (H1 & H2).
    destruct (IH _ H1) as (H3 & H4). split; [assumption|].
    rewrite H4, H2. cbn [app]. apply Permutation_middle.
Qed.

Lemma max_heap_push_keeps_the_heap_order_witness :
  heap_ok [] /\
  heap_ok (fold_left MajorityMapper.heappush
             [MajorityMapper.mkObj 0 1; MajorityMapper.mkObj 1 2;
              MajorityMapper.mkObj 2 1] []) /\
  fold_left MajorityMapper.heappush
    [MajorityMapper.mkObj 0 1; MajorityMapper.mkObj 1 2;
     MajorityMapper.mkObj 2 1] [] =
  [MajorityMapper.mkObj 1 2; MajorityMapper.mkObj 0 1;
   MajorityMapper.mkObj 2 1].
Proof.
  assert (H0 : heap_ok []) by (apply heap_okb_ok; reflexivity).
  split; [exact H0|]. split; [|reflexivity].
  apply (max_heap_push_keeps_the_heap_order
           [MajorityMapper.mkObj 0 1; MajorityMapper.mkObj 1 2;
            MajorityMapper.mkObj 2 1] [] H0).
Defined.

(** X19. [MaxHeap.heappop] on a heap in heap order: on the empty heap it
    raises IndexError; otherwise it returns an object whose value no object
    of the heap exceeds, and leaves a heap in heap order that holds the other
    objects, each as often as before. *)
Theorem max_heap_pop_returns_a_maximum :
  forall h,
    heap_ok h ->
    (h = [] /\ MajorityMapper.heappop h = Raise IndexError) \/
    (exists r h',
       MajorityMapper.heappop h = Ok (r, h') /\
       Permutation h (r :: h') /\
       heap_ok h' /\
       forall y, In y h -> MajorityMapper.val y <= MajorityMapper.val r).
Proof.
  intros h Hok. pose proof (heappop_ok h Hok) as H.
  destruct (MajorityMapper.heappop h) as [[r h']|e].
  - right. exists r, h'. split; [reflexivity|exact H].
  - left. destruct H as (-> & ->). split; reflexivity.
Qed.

Lemma max_heap_pop_returns_a_maximum_witness :
  exists h',
    MajorityMapper.heappop
      [MajorityMapper.mkObj 1 2; MajorityMapper.mkObj 0 1;
       MajorityMapper.mkObj 2 1] =
    Ok (MajorityMapper.mkObj 1 2, h') /\
    heap_ok h'.
Proof.
  destruct (max_heap_pop_returns_a_maximum
              [MajorityMapper.mkObj 1 2; MajorityMapper.mkObj 0 1;
               MajorityMapper.mkObj 2 1])
    as [(E & _)|(r & h' & Hpop & _ & Hok & _)].
  - apply heap_okb_ok; reflexivity.
  - discriminate E.
  - exists h'. split; [|exact Hok].
    rewrite Hpop. f_equal. f_equal.
    vm_compute in Hpop. congruence.
Defined.

(** X20. The loop of [MajorityMapper.compute_mapping], run on a heap that
    holds one object per qubit and a heap that holds one object per node
    0..q-1, both in heap order: it returns, the two arrays it leaves are
    permutations of 0..q-1 and inverse to each other, and a qubit with a
    greater value than another one is placed on a node whose value is not
    smaller. *)
Theorem compute_mapping_matches_qubits_and_nodes_by_rank :
  forall q heap graph_heap l p,
    heap_ok heap -> heap_ok graph_heap ->
    Permutation (map MajorityMapper.key heap) (range q) ->
    Permutation (map MajorityMapper.key graph_heap) (range q) ->
    len l = Z.max 0 q -> len p = Z.max 0 q ->
    exists l' p',
      MajorityMapper.compute_loop (Z.to_nat q) heap graph_heap l p =
        Ok (l', p') /\
      perm_inv q l' p' /\
      forall a b na nb,
        In a heap -> In b heap -> In na graph_heap -> In nb graph_heap ->
        getitem l' (MajorityMapper.key a) = Ok (MajorityMapper.key na) ->
        getitem l' (MajorityMapper.key b) = Ok (MajorityMapper.key nb) ->
        MajorityMapper.val b < MajorityMapper.val a ->
        MajorityMapper.val nb <= MajorityMapper.val na.
Proof.
  intros q heap gh l p Hh Hg Kh Kg Ll Lp.
  assert (Lr : List.length (range q) = Z.to_nat q)
    by (unfold range; now rewrite length_map, length_seq).
  assert (Rh : forall o, In o heap -> 0 <= MajorityMapper.key o < q).
  { intros o Ho. apply In_range. eapply Permutation_in; [exact Kh|].
    now apply in_map. }
  assert (Rg : forall o, In o gh -> 0 <= MajorityMapper.key o < q).
  { intros o Ho. apply In_range. eapply Permutation_in; [exact Kg|].
    now apply in_map. }
  assert (Nh : NoDup (map MajorityMapper.key heap))
    by (eapply Permutation_NoDup; [symmetry; exact Kh|apply NoDup_range]).
  assert (Ng : NoDup (map MajorityMapper.key gh))
    by (eapply Permutation_NoDup; [symmetry; exact Kg|apply NoDup_range]).
  destruct (compute_loop_spec (Z.to_nat q) heap gh l p)
    as (l' & p' & pairs & Hrun & Ll' & Lp' & P1 & P2 & Hrk & Hpair & _ & _);
    try assumption.
  { apply Permutation_length in Kh. rewrite length_map in Kh. lia. }
  { apply Permutation_length in Kg. rewrite length_map in Kg. lia. }
  { intros o Ho. specialize (Rh o Ho). lia. }
  { intros o Ho. specialize (Rg o Ho). lia. }
  assert (Hfind : forall a, In a heap ->
            exists x, In x pairs /\ fst x = a /\ In (snd x) gh).
  { intros a Ha.
    assert (Ha' : In a (map fst pairs))
      by (eapply Permutation_in; [symmetry; exact P1|assumption]).
    apply in_map_iff in Ha' as (x & Ex & Hx). exists x.
    split; [assumption|]. split; [assumption|].
    eapply Permutation_in; [exact P2|]. now apply in_map. }
  exists l', p'. split; [exact Hrun|]. split.
  - apply left_inverse_perm_inv; [lia|lia|].
    intros x Hx.
    assert (Hin : In x (map MajorityMapper.key heap))
      by (eapply Permutation_in; [symmetry; exact Kh|now apply In_range]).
    apply in_map_iff in Hin as (a & <- & Ha).
    destruct (Hfind a Ha) as (pr & Hpr & <- & Hs).
    destruct (Hpair pr Hpr) as (G1 & G2).
    exists (MajorityMapper.key (snd pr)).
    split; [now apply Rg|]. split; assumption.
  - intros a b na nb Ha Hb Hna Hnb Ga Gb Hlt.
    destruct (Hfind a Ha) as (pa & Hpa & <- & Hsa).
    destruct (Hfind b Hb) as (pb & Hpb & <- & Hsb).
    destruct (Hpair pa Hpa) as (Ga' & _).
    destruct (Hpair pb Hpb) as (Gb' & _).
    assert (Ea : snd pa = na)
      by (apply (key_injective gh); auto; congruence).
    assert (Eb : snd pb = nb)
      by (apply (key_injective gh); auto; congruence).
    subst na nb. now apply (ranked_monotone pairs Hrk pa pb).
Qed.

Lemma compute_mapping_matches_qubits_and_nodes_by_rank_witness :
  exists l' p',
    MajorityMapper.compute_loop 3
      [MajorityMapper.mkObj 1 2; MajorityMapper.mkObj 0 1;
       MajorityMapper.mkObj 2 1]
      [MajorityMapper.mkObj 1 2; MajorityMapper.mkObj 0 1;
       MajorityMapper.mkObj 2 1]
      [0; 1; 2] [0; 1; 2] = Ok (l', p') /\
    perm_inv 3 l' p'.
Proof.
  destruct (compute_mapping_matches_qubits_and_nodes_by_rank 3
              [MajorityMapper.mkObj 1 2; MajorityMapper.mkObj 0 1;
               MajorityMapper.mkObj 2 1]
              [MajorityMapper.mkObj 1 2; MajorityMapper.mkObj 0 1;
               MajorityMapper.mkObj 2 1]
              [0; 1; 2] [0; 1; 2])
    as (l' & p' & Hrun & Hperm & _).
  - apply heap_okb_ok; reflexivity.
  - apply heap_okb_ok; reflexivity.
  - apply perm_swap.
  - apply perm_swap.
  - reflexivity.
  - reflexivity.
  - exists l', p'. split; [exact Hrun|exact Hperm].
Defined.
